(** * Level grid, maze generator and movement engine of the tile game

    Shallow embedding of [scripts/utils.py], [scripts/map.py],
    [scripts/tile.py], [scripts/sprite.py] and [scripts/camera.py].

    Conventions of the embedding:
    - Python [int] is [Z]; list indexing follows Python (negative indices
      wrap once, anything else out of range raises [IndexError]);
    - exceptions are the [Raise] constructor of [result]; a method that
      mutates its object returns the object it leaves behind together with
      its outcome, so that "raises and changes nothing" is a statement;
    - objects that are shared by reference (tiles, sprite groups) live in
      a store indexed by identity;
    - [pygame.Vector2] components are exact rationals ([Q], kept reduced);
      [pygame.Rect] has integer fields. *)

From Stdlib Require Import ZArith QArith Qround Qabs Bool Lia Lqa.
From stdpp Require Import gmap strings list fin_maps.

Local Open Scope Z_scope.

(** ** Python values *)

Inductive PyError := IndexError | KeyError | ValueError | ZeroDivisionError.

Inductive result (A : Type) : Type :=
| Ok (a : A)
| Raise (e : PyError).
Arguments Ok {A} a.
Arguments Raise {A} e.

Definition rbind {A B} (r : result A) (k : A -> result B) : result B :=
  match r with
  | Ok a => k a
  | Raise e => Raise e
  end.

Notation "'let*' x ':=' r 'in' k" := (rbind r (fun x => k))
  (at level 10, x name, r at level 100, k at level 200).
Notation "'let*' ' p ':=' r 'in' k" := (rbind r (fun p => k))
  (at level 10, p pattern, r at level 100, k at level 200).

(** [l[i]] position: [None] stands for Python's [IndexError]. *)
Definition py_index {A} (l : list A) (i : Z) : option nat :=
  let n := Z.of_nat (length l) in
  if (0 <=? i) && (i <? n) then Some (Z.to_nat i)
  else if (- n <=? i) && (i <? 0) then Some (Z.to_nat (i + n))
  else None.

Definition py_getitem {A} (l : list A) (i : Z) : result A :=
  match py_index l i with
  | Some k => match l !! k with Some x => Ok x | None => Raise IndexError end
  | None => Raise IndexError
  end.

Definition py_setitem {A} (l : list A) (i : Z) (x : A) : result (list A) :=
  match py_index l i with
  | Some k => Ok (<[k:=x]> l)
  | None => Raise IndexError
  end.

(** [m[i][j]] and [m[i][j] = x] on a list of rows. *)
Definition py_getitem2 {A} (m : list (list A)) (i j : Z) : result A :=
  let* row := py_getitem m i in py_getitem row j.

Definition py_setitem2 {A} (m : list (list A)) (i j : Z) (x : A)
  : result (list (list A)) :=
  let* row := py_getitem m i in
  let* row' := py_setitem row j x in
  py_setitem m i row'.

(** [range(lo, hi)] *)
Definition py_range (lo hi : Z) : list Z :=
  map (fun k => lo + Z.of_nat k) (seq 0 (Z.to_nat (hi - lo))).

(** ** scripts/utils.py *)

Module utils.

Definition is_within_bounds (x y width height : Z) : bool :=
  (0 <=? x) && (x <? width) && (0 <=? y) && (y <? height).

End utils.

(** ** pygame geometry *)

Record Rect := mkRect { left : Z; top : Z; rwidth : Z; rheight : Z }.

Definition right (r : Rect) : Z := left r + rwidth r.
Definition bottom (r : Rect) : Z := top r + rheight r.

Definition set_left (r : Rect) (v : Z) : Rect :=
  mkRect v (top r) (rwidth r) (rheight r).
Definition set_top (r : Rect) (v : Z) : Rect :=
  mkRect (left r) v (rwidth r) (rheight r).
Definition set_right (r : Rect) (v : Z) : Rect :=
  mkRect (v - rwidth r) (top r) (rwidth r) (rheight r).
Definition set_bottom (r : Rect) (v : Z) : Rect :=
  mkRect (left r) (v - rheight r) (rwidth r) (rheight r).
Definition set_topleft (r : Rect) (x y : Z) : Rect :=
  mkRect x y (rwidth r) (rheight r).

(** [Rect.inflate]: grows around the centre; the halves are C integer
    divisions (truncating). *)
Definition inflate (r : Rect) (d : Z * Z) : Rect :=
  mkRect (left r - Z.quot (fst d) 2) (top r - Z.quot (snd d) 2)
         (rwidth r + fst d) (rheight r + snd d).

Definition move (r : Rect) (d : Z * Z) : Rect :=
  mkRect (left r + fst d) (top r + snd d) (rwidth r) (rheight r).

(** [Rect.colliderect]: strict overlap; a rectangle of zero width or
    height collides with nothing. *)
Definition colliderect (a b : Rect) : bool :=
  if (rwidth a =? 0) || (rheight a =? 0) || (rwidth b =? 0) || (rheight b =? 0)
  then false
  else (Z.min (left a) (right a) <? Z.max (left b) (right b))
    && (Z.min (top a) (bottom a) <? Z.max (top b) (bottom b))
    && (Z.min (left b) (right b) <? Z.max (left a) (right a))
    && (Z.min (top b) (bottom b) <? Z.max (top a) (bottom a)).

(** A [pygame.Surface] matters here only through its size. *)
Record Surface := mkSurface { s_width : Z; s_height : Z }.

Definition get_rect (img : Surface) (topleft : Z * Z) : Rect :=
  mkRect (fst topleft) (snd topleft) (s_width img) (s_height img).

(** ** scripts/map.py: tiles and the level grid *)

Inductive Plane := background | foreground.

Record TileCode := mkTileCode { type : string; variation : Z }.

(** scripts/tile.py: a [Tile] is a [Sprite] (position, image, visibility,
    the groups it belongs to) with a collider. Positions of tiles are
    whole pixels. *)
Record Tile := mkTile {
  t_pos : Z * Z;
  t_image : Surface;
  t_visible : bool;
  t_collidable : bool;
  t_collider : Rect;
  t_groups : gset nat
}.

Definition Tile_init (pos : Z * Z) (image : Surface)
    (collider_inflate collider_move : Z * Z)
    (visible collidable : bool) : Tile :=
  mkTile pos image visible collidable
         (move (inflate (get_rect image pos) collider_inflate) collider_move)
         ∅.

Record Map := mkMap {
  graphics : gmap string (list Surface);
  size : Z * Z;
  border_size : Z;
  tile_size : Z;
  foreground_tiles : nat;
  background_tiles : nat;
  matrix_foreground : list (list (option nat));
  matrix_background : list (list (option nat));
  (* the store: tile objects and sprite groups by identity *)
  tiles : gmap nat Tile;
  groups : gmap nat (gset nat);
  next_tile : nat
}.

Definition width (m : Map) : Z := snd (size m).
Definition height (m : Map) : Z := fst (size m).

Definition matrix_of (m : Map) (plane : Plane) : list (list (option nat)) :=
  match plane with
  | foreground => matrix_foreground m
  | background => matrix_background m
  end.

Definition set_matrix (m : Map) (plane : Plane)
    (mx : list (list (option nat))) : Map :=
  match plane with
  | foreground =>
      mkMap (graphics m) (size m) (border_size m) (tile_size m)
            (foreground_tiles m) (background_tiles m)
            mx (matrix_background m) (tiles m) (groups m) (next_tile m)
  | background =>
      mkMap (graphics m) (size m) (border_size m) (tile_size m)
            (foreground_tiles m) (background_tiles m)
            (matrix_foreground m) mx (tiles m) (groups m) (next_tile m)
  end.

Definition set_store (m : Map) (ts : gmap nat Tile)
    (gs : gmap nat (gset nat)) (nxt : nat) : Map :=
  mkMap (graphics m) (size m) (border_size m) (tile_size m)
        (foreground_tiles m) (background_tiles m)
        (matrix_foreground m) (matrix_background m) ts gs nxt.

Definition plane_group (m : Map) (plane : Plane) : nat :=
  match plane with
  | foreground => foreground_tiles m
  | background => background_tiles m
  end.

Definition group_items (m : Map) (g : nat) : gset nat :=
  default ∅ (groups m !! g).

(** [Sprite.add_to] for one group: the sprite records the group and the
    group records the sprite. *)
Definition add_to (m : Map) (t g : nat) : Map :=
  match tiles m !! t with
  | Some tl =>
      if decide (g ∈ t_groups tl) then m
      else
        set_store m
          (<[t := mkTile (t_pos tl) (t_image tl) (t_visible tl)
                          (t_collidable tl) (t_collider tl)
                          ({[g]} ∪ t_groups tl)]> (tiles m))
          (<[g := {[t]} ∪ group_items m g]> (groups m))
          (next_tile m)
  | None => m
  end.

(** [Sprite.kill]: leave every group, then forget them. *)
Definition kill (m : Map) (t : nat) : Map :=
  match tiles m !! t with
  | Some tl =>
      set_store m
        (<[t := mkTile (t_pos tl) (t_image tl) (t_visible tl)
                        (t_collidable tl) (t_collider tl) ∅]> (tiles m))
        (set_fold (fun g gs => <[g := group_items m g ∖ {[t]}]> gs)
                  (groups m) (t_groups tl))
        (next_tile m)
  | None => m
  end.

Definition get_tile (m : Map) (pos : Z * Z) (plane : Plane)
  : result (option nat) :=
  if negb (utils.is_within_bounds (fst pos) (snd pos) (width m) (height m))
  then Raise IndexError
  else py_getitem2 (matrix_of m plane) (snd pos) (fst pos).

Definition get_tiles_square (m : Map) (pos : Z * Z) (radius : Z * Z)
    (plane : Plane) : result (gset nat) :=
  if negb (utils.is_within_bounds (fst pos) (snd pos) (width m) (height m))
  then Raise IndexError
  else
    let x_min := fst pos - fst radius in
    let x_max := (fst pos + 1) + fst radius in
    let y_min := snd pos - snd radius in
    let y_max := (snd pos + 1) + snd radius in
    foldl (fun acc x =>
      foldl (fun acc y =>
        let* found := acc in
        if utils.is_within_bounds x y (width m) (height m) then
          let* tile := get_tile m (x, y) plane in
          match tile with
          | Some t => Ok ({[t]} ∪ found)
          | None => Ok found
          end
        else Ok found) acc (py_range y_min y_max))
      (Ok ∅) (py_range x_min x_max).

Definition tile_inflate (ty : string) : Z * Z :=
  if String.eqb ty "wall" then (0, -8)
  else if String.eqb ty "wall_top" then (0, -8)
  else if String.eqb ty "stone" then (-4, -4)
  else (0, 0).

Definition tile_move (ty : string) : Z * Z :=
  if String.eqb ty "wall" then (0, -10)
  else if String.eqb ty "wall_top" then (0, 4)
  else (0, 0).

(** [place_tile]: [rnd] is the raw draw that [random.choice] would make
    ([random.choice(seq)] is [seq[randbelow(len(seq))]] and raises
    [IndexError] on an empty sequence). *)
Definition place_tile (m : Map) (rnd : nat) (pos : Z * Z) (tile_code : TileCode)
    (extra_groups : list nat) (plane : Plane) (visible collidable : bool)
  : result unit * Map :=
  if negb (utils.is_within_bounds (fst pos) (snd pos) (width m) (height m))
  then (Raise IndexError, m)
  else
    let pixel_pos := (fst pos * tile_size m, snd pos * tile_size m) in
    if String.eqb (type tile_code) "None" then (Ok tt, m)
    else
      let tile_code :=
        match graphics m !! type tile_code with
        | Some _ => tile_code
        | None => mkTileCode "None" 0
        end in
      match graphics m !! type tile_code with
      | None => (Raise KeyError, m)
      | Some imgs =>
          let chosen :=
            if (0 <=? variation tile_code)
               && (variation tile_code <? Z.of_nat (length imgs))
            then py_getitem imgs (variation tile_code)
            else match imgs with
                 | [] => Raise IndexError
                 | _ => py_getitem imgs (Z.of_nat (rnd mod length imgs))
                 end in
          match chosen with
          | Raise e => (Raise e, m)
          | Ok image =>
              let id := next_tile m in
              let created :=
                Tile_init pixel_pos image
                          (tile_inflate (type tile_code))
                          (tile_move (type tile_code))
                          visible collidable in
              let m1 := set_store m (<[id := created]> (tiles m))
                                  (groups m) (S id) in
              let m2 := foldl (fun acc g => add_to acc id g) m1 extra_groups in
              match py_setitem2 (matrix_of m2 plane)
                                (snd pos) (fst pos) (Some id) with
              | Raise e => (Raise e, m2)
              | Ok mx =>
                  (Ok tt, add_to (set_matrix m2 plane mx) id
                                 (plane_group m2 plane))
              end
          end
      end.

Definition remove_tile (m : Map) (pos : Z * Z) (plane : Plane)
  : result unit * Map :=
  if negb (utils.is_within_bounds (fst pos) (snd pos) (width m) (height m))
  then (Raise IndexError, m)
  else
    match get_tile m pos plane with
    | Raise e => (Raise e, m)
    | Ok None => (Ok tt, m)
    | Ok (Some t) =>
        let m1 := kill m t in
        match py_setitem2 (matrix_of m1 plane) (fst pos) (snd pos) None with
        | Raise e => (Raise e, m1)
        | Ok mx => (Ok tt, set_matrix m1 plane mx)
        end
    end.

(** ** scripts/map.py: the maze generator *)

(** The three markers [self.__WALL], [self.__AIR] and [self.__HOLE]. *)
Inductive Cell := WALL | AIR | HOLE.

Definition Cell_eqb (a b : Cell) : bool :=
  match a, b with
  | WALL, WALL | AIR, AIR | HOLE, HOLE => true
  | _, _ => false
  end.

(** The random source: [rnd i] is the raw value behind the [i]-th draw of
    the run; a computation that draws takes the number of draws made so
    far and returns it updated. *)
Definition randbelow (rnd : nat -> nat) (n : nat) (drawn : nat) : nat * nat :=
  (rnd drawn mod n, S drawn)%nat.

(** [random.randint(a, b)] *)
Definition randint (rnd : nat -> nat) (a b : Z) (drawn : nat) : Z * nat :=
  let '(r, drawn) := randbelow rnd (Z.to_nat (b - a + 1)) drawn in
  (a + Z.of_nat r, drawn).

Definition swap {A} (l : list A) (i j : nat) : list A :=
  match l !! i, l !! j with
  | Some a, Some b => <[j := a]> (<[i := b]> l)
  | _, _ => l
  end.

(** [random.shuffle(x)]: for [i] from [len(x) - 1] down to [1], exchange
    [x[i]] with [x[randbelow(i + 1)]]. *)
Fixpoint shuffle_from {A} (rnd : nat -> nat) (i : nat) (l : list A)
    (drawn : nat) : list A * nat :=
  match i with
  | O => (l, drawn)
  | S i' =>
      let '(j, drawn) := randbelow rnd (S i) drawn in
      shuffle_from rnd i' (swap l i j) drawn
  end.

Definition shuffle {A} (rnd : nat -> nat) (l : list A) (drawn : nat)
  : list A * nat :=
  shuffle_from rnd (length l - 1) l drawn.

Abbreviation Maze := (list (list Cell)).

(** [maze[y][x] == cell] *)
Definition cell_is (maze : Maze) (x y : Z) (cell : Cell) : result bool :=
  let* c := py_getitem2 maze y x in Ok (Cell_eqb c cell).

(** The pairs are (dy, dx), as the code unpacks them. *)
Definition directions0 : list (Z * Z) := [(1, 0); (-1, 0); (0, 1); (0, -1)].

Definition adjacent_directions : list (Z * Z) :=
  [(0, 1); (0, -1); (1, 0); (1, 1); (0, -1); (-1, 0); (-1, 1); (-1, -1)].

Definition expand_directions : list (Z * Z) := [(0, 0); (0, 1); (1, 0); (1, 1)].

(** [__has_unvisited_neighbors] *)
Fixpoint has_unvisited_neighbors (maze : Maze) (width height : Z)
    (directions : list (Z * Z)) (pos : Z * Z) : result bool :=
  match directions with
  | [] => Ok false
  | (dy, dx) :: rest =>
      let nx := fst pos + dx * 2 in
      let ny := snd pos + dy * 2 in
      if utils.is_within_bounds nx ny width height then
        let* wall := cell_is maze nx ny WALL in
        if wall then Ok true
        else has_unvisited_neighbors maze width height rest pos
      else has_unvisited_neighbors maze width height rest pos
  end.

(** The [for dy, dx in directions: ... break] of the carving loop: the
    maze after carving towards the first direction whose cell two steps
    away is still wall, with that cell; [None] when there is none. *)
Fixpoint carve_first (maze : Maze) (width height : Z)
    (directions : list (Z * Z)) (cx cy : Z)
  : result (option (Maze * (Z * Z))) :=
  match directions with
  | [] => Ok None
  | (dy, dx) :: rest =>
      let nx := cx + dx * 2 in
      let ny := cy + dy * 2 in
      if utils.is_within_bounds nx ny width height then
        let* wall := cell_is maze nx ny WALL in
        if wall then
          let* maze := py_setitem2 maze (cy + dy) (cx + dx) AIR in
          let* maze := py_setitem2 maze ny nx HOLE in
          Ok (Some (maze, (nx, ny)))
        else carve_first maze width height rest cx cy
      else carve_first maze width height rest cx cy
  end.

(** What the carving loop works on. The top of the stack is the head of
    the list. *)
Record Carving := mkCarving {
  c_maze : Maze;
  c_stack : list (Z * Z);
  c_directions : list (Z * Z);
  c_drawn : nat
}.

(** One turn of [while stack:] on a stack with top [(cx, cy)]. *)
Definition carve_turn (rnd : nat -> nat) (width height : Z)
    (c : Carving) (cx cy : Z) : result Carving :=
  let* unvisited :=
    has_unvisited_neighbors (c_maze c) width height (c_directions c) (cx, cy) in
  if unvisited then
    let* maze := py_setitem2 (c_maze c) cy cx AIR in
    let '(directions, drawn) := shuffle rnd (c_directions c) (c_drawn c) in
    let* carved := carve_first maze width height directions cx cy in
    match carved with
    | Some (maze, next) =>
        Ok (mkCarving maze (next :: c_stack c) directions drawn)
    | None => Ok (mkCarving maze (c_stack c) directions drawn)
    end
  else
    Ok (mkCarving (c_maze c) (tail (c_stack c)) (c_directions c) (c_drawn c)).

Fixpoint carve_loop (fuel : nat) (rnd : nat -> nat) (width height : Z)
    (c : Carving) : option (result Carving) :=
  match c_stack c with
  | [] => Some (Ok c)
  | (cx, cy) :: _ =>
      match fuel with
      | O => None
      | S fuel =>
          match carve_turn rnd width height c cx cy with
          | Raise e => Some (Raise e)
          | Ok c => carve_loop fuel rnd width height c
          end
      end
  end.

(** "Criando o Labirinto": the half-size maze as the depth-first search
    leaves it, start cell marked [HOLE]. *)
Definition carve (fuel : nat) (rnd : nat -> nat) (width height : Z)
    (drawn : nat) : option (result (Maze * nat)) :=
  let maze := replicate (Z.to_nat height) (replicate (Z.to_nat width) WALL) in
  let sx := Z.quot width 2 in
  let sy := Z.quot height 2 in
  match py_setitem2 maze sy sx AIR with
  | Raise e => Some (Raise e)
  | Ok maze =>
      match carve_loop fuel rnd width height
                       (mkCarving maze [(sx, sy)] directions0 drawn) with
      | None => None
      | Some (Raise e) => Some (Raise e)
      | Some (Ok c) =>
          Some (let* maze := py_setitem2 (c_maze c) sy sx HOLE in
                Ok (maze, c_drawn c))
      end
  end.

(** The body of [for dy, dx in adjacent_directions] at a [HOLE]. *)
Definition widen_towards (border width height : Z) (x y : Z)
    (acc : result Maze) (d : Z * Z) : result Maze :=
  let* maze := acc in
  let '(dy, dx) := d in
  let nx := x + dx in
  let ny := y + dy in
  let* maze :=
    if utils.is_within_bounds (nx - border) (ny - border)
                              (width - border * 2) (height - border * 2)
    then
      let* wall := cell_is maze nx ny WALL in
      if wall then py_setitem2 maze ny nx AIR else Ok maze
    else Ok maze in
  py_setitem2 maze y x AIR.

(** The body of [for x, element in enumerate(line)]. *)
Definition polish_cell (border width height : Z) (y : Z)
    (acc : result Maze) (x : Z) : result Maze :=
  let* maze := acc in
  if (x <? border) || (x >=? width - border) then py_setitem2 maze y x WALL
  else
    let* hole := cell_is maze x y HOLE in
    if hole then
      foldl (widen_towards border width height x y) (Ok maze)
            adjacent_directions
    else Ok maze.

(** The body of [for y, line in enumerate(maze)]. *)
Definition polish_row (border width height : Z)
    (acc : result Maze) (y : Z) : result Maze :=
  let* maze := acc in
  if (y <? border) || (y >=? height - border) then
    py_setitem maze y (replicate (Z.to_nat width) WALL)
  else
    let* line := py_getitem maze y in
    foldl (polish_cell border width height y) (Ok maze)
          (py_range 0 (Z.of_nat (length line))).

(** "Polindo o Labirinto" *)
Definition polish (border width height : Z) (maze : Maze) : result Maze :=
  foldl (polish_row border width height) (Ok maze)
        (py_range 0 (Z.of_nat (length maze))).

(** "Retornando o Labirinto para o tamanho original" *)
Definition expand_cell (maze : Maze) (y x : Z) (acc : result Maze)
    (d : Z * Z) : result Maze :=
  let* final_maze := acc in
  let '(dy, dx) := d in
  let* element := py_getitem2 maze y x in
  py_setitem2 final_maze (y * 2 + dy) (x * 2 + dx) element.

Definition expand (width height : Z) (maze : Maze) : result Maze :=
  let final_maze :=
    replicate (Z.to_nat (height * 2)) (replicate (Z.to_nat (width * 2)) WALL) in
  foldl (fun acc y =>
           let* final_maze := acc in
           let* line := py_getitem maze y in
           foldl (fun acc x => foldl (expand_cell maze y x) acc expand_directions)
                 (Ok final_maze) (py_range 0 (Z.of_nat (length line))))
        (Ok final_maze) (py_range 0 (Z.of_nat (length maze))).

(** [__create_maze] *)
Definition create_maze (fuel : nat) (rnd : nat -> nat) (m : Map)
    (drawn : nat) : option (result (Maze * nat)) :=
  if negb (fst (size m) mod 2 =? 0) || negb (snd (size m) mod 2 =? 0)
  then Some (Raise ValueError)
  else if negb (border_size m mod 2 =? 0) then Some (Raise ValueError)
  else
    let width := Z.quot (width m) 2 in
    let height := Z.quot (height m) 2 in
    match carve fuel rnd width height drawn with
    | None => None
    | Some (Raise e) => Some (Raise e)
    | Some (Ok (maze, drawn)) =>
        let border := Z.quot (border_size m) 2 in
        Some (let* maze := polish border width height maze in
              let* final_maze := expand width height maze in
              Ok (final_maze, drawn))
    end.

(** "Conta os vizinhos": the pair (wall_count, air_count) of cell (x, y),
    one turn of the loop over the directions at a time. *)
Definition count_towards (maze : Maze) (width height : Z) (x y : Z)
    (acc : result (Z * Z)) (d : Z * Z) : result (Z * Z) :=
  let* '(wall_count, air_count) := acc in
  let '(dy, dx) := d in
  let nx := x + dx in
  let ny := y + dy in
  if utils.is_within_bounds nx ny width height then
    let* wall := cell_is maze nx ny WALL in
    if wall then Ok (wall_count + 1, air_count)
    else
      let* air := cell_is maze nx ny AIR in
      if air then Ok (wall_count, air_count + 1)
      else Ok (wall_count, air_count)
  else Ok (wall_count + 1, air_count).

Definition count_neighbors (maze : Maze) (width height : Z) (x y : Z)
  : result (Z * Z) :=
  foldl (count_towards maze width height x y) (Ok (0, 0)) adjacent_directions.

(** The five numbers that [__smooth_maze] is called with. *)
Record Smoothing := mkSmoothing {
  ammount : Z;
  stop_air : Z;
  stop_wall : Z;
  air_neighbors : Z;
  wall_neighbors : Z
}.

(** "Modifica o labirinto" for the cell (x, y) holding [element]. *)
Definition smooth_cell (rnd : nat -> nat) (p : Smoothing)
    (maze : Maze) (border width height : Z) (y : Z)
    (acc : result (Maze * nat)) (x : Z) : result (Maze * nat) :=
  let* '(temp_maze, drawn) := acc in
  if (x <? border) || (x >=? width - border) then Ok (temp_maze, drawn)
  else
    let* element := py_getitem2 maze y x in
    let* '(wall_count, air_count) := count_neighbors maze width height x y in
    let '(first, drawn) :=
      if (wall_count >=? wall_neighbors p) && Cell_eqb element AIR then
        let '(r, drawn) := randint rnd 1 10 drawn in (r >? stop_wall p, drawn)
      else (false, drawn) in
    if first then
      let* temp_maze := py_setitem2 temp_maze y x WALL in Ok (temp_maze, drawn)
    else
      let '(second, drawn) :=
        if (air_count >=? air_neighbors p) && Cell_eqb element WALL then
          let '(r, drawn) := randint rnd 1 10 drawn in (r >? stop_air p, drawn)
        else (false, drawn) in
      if second then
        let* temp_maze := py_setitem2 temp_maze y x AIR in Ok (temp_maze, drawn)
      else Ok (temp_maze, drawn).

Definition smooth_row (rnd : nat -> nat) (p : Smoothing)
    (maze : Maze) (border width height : Z)
    (acc : result (Maze * nat)) (y : Z) : result (Maze * nat) :=
  let* '(temp_maze, drawn) := acc in
  if (y <? border) || (y >=? height - border) then Ok (temp_maze, drawn)
  else
    let* line := py_getitem maze y in
    foldl (smooth_cell rnd p maze border width height y)
          (Ok (temp_maze, drawn)) (py_range 0 (Z.of_nat (length line))).

(** One iteration of the cellular automaton: [temp_maze] starts as a
    deep copy of [maze] and replaces it at the end. *)
Definition smooth_pass (rnd : nat -> nat) (p : Smoothing) (m : Map)
    (acc : result (Maze * nat)) (i : Z) : result (Maze * nat) :=
  let* '(maze, drawn) := acc in
  foldl (smooth_row rnd p maze (border_size m) (width m) (height m))
        (Ok (maze, drawn)) (py_range 0 (Z.of_nat (length maze))).

(** [__smooth_maze] *)
Definition smooth_maze (rnd : nat -> nat) (m : Map) (maze : Maze)
    (p : Smoothing) (drawn : nat) : result (Maze * nat) :=
  foldl (smooth_pass rnd p m) (Ok (maze, drawn)) (py_range 0 (ammount p)).

Definition with_size (m : Map) (sz : Z * Z) : Map :=
  mkMap (graphics m) sz (border_size m) (tile_size m)
        (foreground_tiles m) (background_tiles m)
        (matrix_foreground m) (matrix_background m)
        (tiles m) (groups m) (next_tile m).

(** "Gera os labirintos" of [generate]: the pair (background_maze,
    foreground_maze) that is handed to the tile classifier. *)
Definition generate_mazes (fuel : nat) (rnd : nat -> nat) (m : Map)
  : option (result (Maze * Maze)) :=
  let m := with_size m (31 * 2, 31 * 2) in
  match create_maze fuel rnd m 0 with
  | None => None
  | Some (Raise e) => Some (Raise e)
  | Some (Ok (foreground_maze, drawn)) =>
      Some (
        let* '(foreground_maze, drawn) :=
          smooth_maze rnd m foreground_maze (mkSmoothing 3 6 10 4 0) drawn in
        let* '(foreground_maze, drawn) :=
          smooth_maze rnd m foreground_maze (mkSmoothing 5 7 10 3 0) drawn in
        let* '(background_maze, drawn) :=
          smooth_maze rnd m foreground_maze (mkSmoothing 3 0 4 6 2) drawn in
        Ok (background_maze, foreground_maze))
  end.

(** ** Numbers of the movement code *)

Definition Qltb (a b : Q) : bool := negb (Qle_bool b a).

(** Python's [round] to an integer: halves go to the even neighbour. *)
Definition py_round (q : Q) : Z :=
  let f := Qfloor q in
  match Qcompare (q - inject_Z f) (1 # 2) with
  | Lt => f
  | Gt => f + 1
  | Eq => if Z.even f then f else f + 1
  end.

(** Python's [int] of a float: truncation towards zero. *)
Definition py_int (q : Q) : Z :=
  if Qle_bool 0 q then Qfloor q else Qceiling q.

(** [a // b] on floats. *)
Definition py_floordiv (a b : Q) : result Q :=
  if Qeq_bool b 0 then Raise ZeroDivisionError
  else Ok (inject_Z (Qfloor (a / b))).

(** [math.copysign] *)
Definition copysign (a b : Q) : Q :=
  if Qltb b 0 then Qred (- Qabs a) else Qred (Qabs a).

Record Vector2 := mkVector2 { vx : Q; vy : Q }.

(** [v.magnitude()] is the square root of this sum; it is zero (positive)
    exactly when the sum is. *)
Definition magnitude_squared (v : Vector2) : Q :=
  Qred (vx v * vx v + vy v * vy v).

(** ** scripts/sprite.py: MovingSprite *)

Record MovingSprite := mkMovingSprite {
  _pos : Vector2;
  _image : Surface;
  _collider : Rect;
  _hitbox : Rect
}.

(** [MovingSprite.__init__]: [get_rect(topleft=pos)] puts the corner of
    the rectangle at the position rounded to whole pixels. *)
Definition MovingSprite_init (pos : Vector2) (image : Surface) : MovingSprite :=
  let collider := get_rect image (py_round (vx pos), py_round (vy pos)) in
  mkMovingSprite pos image collider (inflate collider (-4, -4)).

Definition with_pos_x (self : MovingSprite) (v : Q) : MovingSprite :=
  mkMovingSprite (mkVector2 v (vy (_pos self))) (_image self)
                 (_collider self) (_hitbox self).
Definition with_pos_y (self : MovingSprite) (v : Q) : MovingSprite :=
  mkMovingSprite (mkVector2 (vx (_pos self)) v) (_image self)
                 (_collider self) (_hitbox self).
Definition with_collider (self : MovingSprite) (r : Rect) : MovingSprite :=
  mkMovingSprite (_pos self) (_image self) r (_hitbox self).
Definition with_hitbox (self : MovingSprite) (r : Rect) : MovingSprite :=
  mkMovingSprite (_pos self) (_image self) (_collider self) r.

(** The [pos] setter. *)
Definition set_pos (self : MovingSprite) (pos : Vector2) : MovingSprite :=
  mkMovingSprite pos (_image self)
    (set_topleft (_collider self) (py_int (vx pos)) (py_int (vy pos)))
    (set_topleft (_hitbox self) (py_int (vx pos)) (py_int (vy pos))).

(** The [tile_pos] property; [game_map] is [self._game.map]. *)
Definition tile_pos (game_map : Map) (self : MovingSprite) : result (Z * Z) :=
  let ts := inject_Z (tile_size game_map) in
  let* tx := py_floordiv (vx (_pos self)) ts in
  let* ty := py_floordiv (vy (_pos self)) ts in
  Ok (py_int tx, py_int ty).

Definition is_collidable (game_map : Map) (t : nat) : bool :=
  match tiles game_map !! t with
  | Some tile => t_collidable tile
  | None => false
  end.

Definition _get_obstacles (game_map : Map) (self : MovingSprite)
  : result (gset nat) :=
  let* tp := tile_pos game_map self in
  let* found := get_tiles_square game_map tp (1, 1) foreground in
  Ok (filter (fun t => is_collidable game_map t = true) found).

(** What can be hit: its [vulnerable] flag and its hitbox. *)
Record Entity := mkEntity { vulnerable : bool; e_hitbox : Rect }.

Inductive Axis := horizontal | vertical.

Record MoveState := mkMoveState {
  ms_self : MovingSprite;
  distance_to_walk : Vector2;
  collided : bool
}.

Section Movement.

(** [Vector2.normalize], the order in which a Python [set] of tiles is
    iterated, and the [_get_entities] hook that subclasses fill in. *)
Variable normalize : Vector2 -> Vector2.
Variable iter_order : gset nat -> list nat.
Variable _get_entities : MovingSprite -> list Entity.

(** One turn of the [for tile in ...] loop of [__colision]. *)
Definition colision_tile (game_map : Map) (direction : Axis)
    (move_dir : Vector2) (acc : MovingSprite * bool) (t : nat)
  : MovingSprite * bool :=
  let '(self, collision) := acc in
  match tiles game_map !! t with
  | None => acc
  | Some tile =>
      match direction with
      | horizontal =>
          if colliderect (_collider self) (t_collider tile) then
            if Qltb 0 (vx move_dir) then
              let c := set_right (_collider self) (left (t_collider tile)) in
              (with_pos_x (with_collider self c) (inject_Z (left c)), true)
            else if Qltb (vx move_dir) 0 then
              let c := set_left (_collider self) (right (t_collider tile)) in
              (with_pos_x (with_collider self c) (inject_Z (left c)), true)
            else acc
          else acc
      | vertical =>
          if t_collidable tile
             && colliderect (_collider self) (t_collider tile) then
            if Qltb 0 (vy move_dir) then
              let c := set_bottom (_collider self) (top (t_collider tile)) in
              (with_pos_y (with_collider self c) (inject_Z (top c)), true)
            else if Qltb (vy move_dir) 0 then
              let c := set_top (_collider self) (bottom (t_collider tile)) in
              (with_pos_y (with_collider self c) (inject_Z (top c)), true)
            else acc
          else acc
      end
  end.

Definition __colision (game_map : Map) (direction : Axis)
    (move_dir : Vector2) (self : MovingSprite)
  : result (MovingSprite * bool) :=
  let* obstacles := _get_obstacles game_map self in
  Ok (foldl (colision_tile game_map direction move_dir)
            (self, false) (iter_order obstacles)).

Definition _check_hit (self : MovingSprite) : bool :=
  foldl (fun hit entity =>
           if vulnerable entity && colliderect (_hitbox self) (e_hitbox entity)
           then true else hit)
        false (_get_entities self).

(** "Move um passo" on the horizontal axis, with the two assignments
    that follow it: the sprite after the step and what is left to walk. *)
Definition step_horizontal (direction step : Vector2)
    (self : MovingSprite) (dtw_x : Q) : MovingSprite * Q :=
  let '(self, dtw_x) :=
    if Qltb (dtw_x - vx step * Qabs (vx direction)) 0 then
      (with_pos_x self
         (Qred (vx (_pos self) + copysign dtw_x (vx direction))), 0%Q)
    else
      (with_pos_x self (Qred (vx (_pos self) + vx step * vx direction)),
       Qred (dtw_x - vx step * Qabs (vx direction))) in
  let self :=
    with_collider self (set_left (_collider self) (py_round (vx (_pos self)))) in
  let self :=
    with_hitbox self (set_left (_hitbox self) (py_round (vx (_pos self)))) in
  (self, dtw_x).

Definition step_vertical (direction step : Vector2)
    (self : MovingSprite) (dtw_y : Q) : MovingSprite * Q :=
  let '(self, dtw_y) :=
    if Qltb (dtw_y - vy step * Qabs (vy direction)) 0 then
      (with_pos_y self
         (Qred (vy (_pos self) + copysign dtw_y (vy direction))), 0%Q)
    else
      (with_pos_y self (Qred (vy (_pos self) + vy step * vy direction)),
       Qred (dtw_y - vy step * Qabs (vy direction))) in
  let self :=
    with_collider self (set_top (_collider self) (py_round (vy (_pos self)))) in
  let self :=
    with_hitbox self (set_top (_hitbox self) (py_round (vy (_pos self)))) in
  (self, dtw_y).

(** The "Horizontal" part of the loop body of [_move]. *)
Definition move_horizontal (game_map : Map) (direction step : Vector2)
    (st : MoveState) : result MoveState :=
  let dtw := distance_to_walk st in
  if negb (Qeq_bool (vx dtw) 0) then
    let '(self, dtw_x) :=
      step_horizontal direction step (ms_self st) (vx dtw) in
    let* '(self, collision) := __colision game_map horizontal direction self in
    if collision || _check_hit self then
      Ok (mkMoveState self (mkVector2 0 (vy dtw)) true)
    else
      Ok (mkMoveState self (mkVector2 dtw_x (vy dtw)) (collided st))
  else Ok st.

(** The "Vertical" part of the loop body of [_move]. *)
Definition move_vertical (game_map : Map) (direction step : Vector2)
    (st : MoveState) : result MoveState :=
  let dtw := distance_to_walk st in
  if negb (Qeq_bool (vy dtw) 0) then
    let '(self, dtw_y) :=
      step_vertical direction step (ms_self st) (vy dtw) in
    let* '(self, collision) := __colision game_map vertical direction self in
    if collision || _check_hit self then
      Ok (mkMoveState self (mkVector2 (vx dtw) 0) true)
    else
      Ok (mkMoveState self (mkVector2 (vx dtw) dtw_y) (collided st))
  else Ok st.

Definition move_body (game_map : Map) (direction step : Vector2)
    (st : MoveState) : result MoveState :=
  let* st := move_horizontal game_map direction step st in
  move_vertical game_map direction step st.

(** [while distance_to_walk.magnitude() != 0: ...]; [None] when the fuel
    runs out before the test fails. *)
Fixpoint move_loop (fuel : nat) (game_map : Map) (direction step : Vector2)
    (st : MoveState) : option (result MoveState) :=
  if Qeq_bool (magnitude_squared (distance_to_walk st)) 0 then Some (Ok st)
  else
    match fuel with
    | O => None
    | S fuel =>
        match move_body game_map direction step st with
        | Raise e => Some (Raise e)
        | Ok st => move_loop fuel game_map direction step st
        end
    end.

Definition move_setup (self : MovingSprite) (distance : Q)
    (direction : Vector2) : Vector2 * Vector2 * MoveState :=
  let direction :=
    if Qltb 0 (magnitude_squared direction) then normalize direction
    else direction in
  let dtw := mkVector2 (Qred (Qabs (vx direction * distance)))
                       (Qred (Qabs (vy direction * distance))) in
  let step := mkVector2 (inject_Z (rwidth (_hitbox self)))
                        (inject_Z (rheight (_hitbox self))) in
  (direction, step, mkMoveState self dtw false).

(** [_move]: the outcome is whether something was hit, with the sprite as
    the call leaves it. A raised exception discards the sprite. *)
Definition _move (fuel : nat) (game_map : Map) (self : MovingSprite)
    (distance : Q) (direction : Vector2)
  : option (result (bool * MovingSprite)) :=
  let '(direction, step, st) := move_setup self distance direction in
  match move_loop fuel game_map direction step st with
  | None => None
  | Some (Raise e) => Some (Raise e)
  | Some (Ok st) => Some (Ok (collided st, ms_self st))
  end.

(** The sub-steps that the loop goes through from the state [st0] it is
    entered with: [starts_part st0 axis st] says that the [axis] part of
    the body is started in state [st]. *)
Inductive starts_part (game_map : Map) (direction step : Vector2)
    (st0 : MoveState) : Axis -> MoveState -> Prop :=
| starts_first :
    Qeq_bool (magnitude_squared (distance_to_walk st0)) 0 = false ->
    starts_part game_map direction step st0 horizontal st0
| starts_vertical st st1 :
    starts_part game_map direction step st0 horizontal st ->
    move_horizontal game_map direction step st = Ok st1 ->
    starts_part game_map direction step st0 vertical st1
| starts_again st st1 :
    starts_part game_map direction step st0 vertical st ->
    move_vertical game_map direction step st = Ok st1 ->
    Qeq_bool (magnitude_squared (distance_to_walk st1)) 0 = false ->
    starts_part game_map direction step st0 horizontal st1.

(** The [axis] part started in [st] takes its step and the tile test
    that follows reports a collision. *)
Definition tile_blocks (game_map : Map) (direction step : Vector2)
    (axis : Axis) (st : MoveState) : Prop :=
  match axis with
  | horizontal =>
      Qeq_bool (vx (distance_to_walk st)) 0 = false
      /\ exists s,
          __colision game_map horizontal direction
            (fst (step_horizontal direction step (ms_self st)
                                  (vx (distance_to_walk st))))
          = Ok (s, true)
  | vertical =>
      Qeq_bool (vy (distance_to_walk st)) 0 = false
      /\ exists s,
          __colision game_map vertical direction
            (fst (step_vertical direction step (ms_self st)
                                (vy (distance_to_walk st))))
          = Ok (s, true)
  end.

End Movement.

(** ** Vocabulary of the statements about mazes *)

(** The cell of column [x] and row [y], for [p = (x, y)] inside the maze. *)
Definition cell_at (maze : Maze) (p : Z * Z) : option Cell :=
  if (0 <=? fst p) && (0 <=? snd p) then
    match maze !! Z.to_nat (snd p) with
    | Some row => row !! Z.to_nat (fst p)
    | None => None
    end
  else None.

(** [height] rows of [width] cells. *)
Definition shape (maze : Maze) (width height : Z) : Prop :=
  Z.of_nat (length maze) = height
  /\ Forall (fun row => Z.of_nat (length row) = width) maze.

(** The cell lies within [border] cells of an edge. *)
Definition in_border (border width height : Z) (p : Z * Z) : Prop :=
  fst p < border \/ width - border <= fst p
  \/ snd p < border \/ height - border <= snd p.

(** Every cell of the border margin is wall. *)
Definition border_is_wall (border width height : Z) (maze : Maze) : Prop :=
  forall x y,
    0 <= x < width -> 0 <= y < height ->
    in_border border width height (x, y) ->
    cell_at maze (x, y) = Some WALL.

(** The graph of a maze: its nodes are the cells that are not wall (air
    or hole), its edges join cells that share a side. *)
Definition is_open (maze : Maze) (p : Z * Z) : bool :=
  match cell_at maze p with
  | Some c => negb (Cell_eqb c WALL)
  | None => false
  end.

Definition adjacent (p q : Z * Z) : Prop :=
  (fst q = fst p /\ (snd q = snd p + 1 \/ snd q = snd p - 1))
  \/ (snd q = snd p /\ (fst q = fst p + 1 \/ fst q = fst p - 1)).

Inductive reachable (maze : Maze) (start : Z * Z) : Z * Z -> Prop :=
| reach_start :
    is_open maze start = true -> reachable maze start start
| reach_step p q :
    reachable maze start p -> adjacent p q -> is_open maze q = true ->
    reachable maze start q.

(** Every open cell can be reached from [start]. *)
Definition connected (maze : Maze) (start : Z * Z) : Prop :=
  forall p, is_open maze p = true -> reachable maze start p.

(** A direction of the carver: one step along one axis. *)
Definition unit_step (d : Z * Z) : Prop :=
  (fst d = 0 /\ (snd d = 1 \/ snd d = -1))
  \/ (snd d = 0 /\ (fst d = 1 \/ fst d = -1)).

(** What the carving loop keeps true. *)
Record carving_ok (width height : Z) (start : Z * Z) (c : Carving) : Prop := {
  ok_shape : shape (c_maze c) width height;
  ok_stack : Forall (fun p => is_open (c_maze c) p = true) (c_stack c);
  ok_start : is_open (c_maze c) start = true;
  ok_connected : connected (c_maze c) start;
  ok_directions : Forall unit_step (c_directions c)
}.

(** What "Polindo o Labirinto" keeps true of a maze none of whose open
    cells lies in the border margin. *)
Record polish_ok (border width height : Z) (start : Z * Z) (maze : Maze)
  : Prop := {
  pk_shape : shape maze width height;
  pk_start : is_open maze start = true;
  pk_connected : connected maze start;
  pk_inside : forall p, is_open maze p = true ->
                        ~ in_border border width height p
}.

Definition in_box (lox hix loy hiy : Z) (p : Z * Z) : Prop :=
  lox <= fst p <= hix /\ loy <= snd p <= hiy.

(** The cells that the search stands on keep the parity of the start
    cell; [box] is a range of columns and rows that holds every cell of
    that parity and so every cell that is carved. *)
Record carving_boxed (start : Z * Z) (box : Z * Z -> Prop) (c : Carving)
  : Prop := {
  bx_stack :
    Forall (fun p => (fst p - fst start) mod 2 = 0
                     /\ (snd p - snd start) mod 2 = 0 /\ box p) (c_stack c);
  bx_open : forall p, is_open (c_maze c) p = true -> box p;
  bx_directions : Forall unit_step (c_directions c)
}.

(** What the search has left to do: every turn either carves a cell
    that was wall and pushes it, or pops. *)
Definition wall_weight (c : Cell) : nat := if Cell_eqb c WALL then 1 else 0.

Definition walls (maze : Maze) : nat :=
  sum_list ((fun row => sum_list (wall_weight <$> row)) <$> maze).

Definition work_left (c : Carving) : nat :=
  (2 * walls (c_maze c) + length (c_stack c))%nat.

Definition inside (width height : Z) (p : Z * Z) : Prop :=
  0 <= fst p < width /\ 0 <= snd p < height.

(** What keeps the carving loop from raising. *)
Record carving_live (width height : Z) (c : Carving) : Prop := {
  lv_shape : shape (c_maze c) width height;
  lv_stack : Forall (inside width height) (c_stack c);
  lv_directions : Forall unit_step (c_directions c)
}.

(** The eight cells around a cell, each once, as (dy, dx). *)
Definition neighborhood8 : list (Z * Z) :=
  [(-1, -1); (-1, 0); (-1, 1); (0, -1); (0, 1); (1, -1); (1, 0); (1, 1)].

(** The neighbor count that the specification describes: the same turn
    of the loop, taken once for each of the eight cells around. *)
Definition count_neighbors_spec (maze : Maze) (width height : Z) (x y : Z)
  : result (Z * Z) :=
  foldl (count_towards maze width height x y) (Ok (0, 0)) neighborhood8.

Definition maze_of (f : Z -> Z -> Cell) (width height : Z) : Maze :=
  map (fun y => map (fun x => f x y) (py_range 0 width)) (py_range 0 height).

(** A 62x62 maze of wall with one 2x2 block of air at columns and rows
    10 and 11. *)
Definition one_room : Maze :=
  maze_of (fun x y =>
             if (10 <=? x) && (x <=? 11) && (10 <=? y) && (y <=? 11)
             then AIR else WALL) 62 62.

(** A random source that replays a list of raw draws, then zeros. *)
Definition replay (draws : list nat) (i : nat) : nat := nth i draws 0%nat.

(** An 8x8 level with the border of 2 that [Map.__init__] sets. *)
Definition level8 : Map :=
  mkMap ∅ (8, 8) 2 16 0 1 [] [] ∅ ∅ 0.

Definition maze8 : Maze :=
  Eval vm_compute in
    match create_maze 20 (replay [1; 0; 1; 2; 2; 0; 3; 1; 1]%nat) level8 0 with
    | Some (Ok (maze, _)) => maze
    | _ => []
    end.

(** A 14x14 level with the same border. *)
Definition level14 : Map :=
  mkMap ∅ (14, 14) 2 16 0 1 [] [] ∅ ∅ 0.

(** A level 8 tiles wide and 24 tiles high, border 2, and the draws of
    a run of the carver on it. *)
Definition level8x24 : Map :=
  mkMap ∅ (24, 8) 2 16 0 1 [] [] ∅ ∅ 0.

Definition draws8x24 : list nat :=
  [3; 0; 0; 2; 0; 1; 1; 2; 0; 2; 2; 1; 0; 2; 0; 2; 1; 1; 2; 1; 1;
   3; 0; 1; 0; 0; 1; 3; 0; 0; 2; 2; 1]%nat.

(** The half-size maze of that run before and after "Polindo o
    Labirinto", and the maze that [__create_maze] returns. *)
Definition carved8x24 : Maze :=
  Eval vm_compute in
    match carve 40 (replay draws8x24) 4 12 0 with
    | Some (Ok (maze, _)) => maze
    | _ => []
    end.

Definition polished8x24 : Maze :=
  Eval vm_compute in
    match polish 1 4 12 carved8x24 with
    | Ok maze => maze
    | _ => []
    end.

Definition maze8x24 : Maze :=
  Eval vm_compute in
    match create_maze 40 (replay draws8x24) level8x24 0 with
    | Some (Ok (maze, _)) => maze
    | _ => []
    end.

(** ** Concrete levels used to run the grid operations *)

Definition sprite16 : Surface := mkSurface 16 16.

Definition empty_level (w h : nat) : Map :=
  mkMap {[ "wall"%string := [sprite16] ]} (Z.of_nat h, Z.of_nat w) 2 16 0 1
        (replicate h (replicate w None)) (replicate h (replicate w None))
        ∅ ∅ 0.

(** Two wall tiles placed at (1,0) and (0,1) of a 2x2 level. *)
Definition two_walls : Map :=
  let m1 := snd (place_tile (empty_level 2 2) 0 (1, 0)
                            (mkTileCode "wall" 0) [] foreground true true) in
  snd (place_tile m1 0 (0, 1) (mkTileCode "wall" 0) [] foreground true true).

(** A 6x6 level whose outer ring is collidable wall cap, around a 4x4 room. *)
Definition room_graphics : gmap string (list Surface) :=
  {[ "wall"%string := [sprite16]; "wall_top"%string := [sprite16] ]}.

Definition ring (n : Z) : list (Z * Z) :=
  filter (fun p => fst p = 0 \/ snd p = 0 \/ fst p = n - 1 \/ snd p = n - 1)
         (x ← py_range 0 n; y ← py_range 0 n; [(x, y)]).

Definition room : Map :=
  foldl (fun m p => snd (place_tile m 0 p (mkTileCode "wall_top" 0) []
                                     foreground true true))
        (mkMap room_graphics (6, 6) 2 16 0 1
               (replicate 6 (replicate 6 None)) (replicate 6 (replicate 6 None))
               ∅ ∅ 0)
        (ring 6).

(** An actor with a 16x16 sprite in the middle of the room. *)
Definition actor : MovingSprite :=
  MovingSprite_init (mkVector2 40 40) sprite16.

(** Directions along an axis are already unit vectors. *)
Definition keep_direction (v : Vector2) : Vector2 := v.

Definition nobody (_ : MovingSprite) : list Entity := [].

(** A vulnerable entity standing just right of the actor. *)
Definition bystander (_ : MovingSprite) : list Entity :=
  [mkEntity true (mkRect 50 40 12 12)].

(** ** Vocabulary of the statements about movement *)

(** The hitbox as [MovingSprite.__init__] builds it from the collider. *)
Definition inset (self : MovingSprite) : Prop :=
  _hitbox self = inflate (_collider self) (-4, -4).

Definition same_sizes (a b : MovingSprite) : Prop :=
  rwidth (_collider a) = rwidth (_collider b)
  /\ rheight (_collider a) = rheight (_collider b)
  /\ rwidth (_hitbox a) = rwidth (_hitbox b)
  /\ rheight (_hitbox a) = rheight (_hitbox b).

(** Position and collider agree on an axis, as a sub-step leaves them. *)
Definition lockstep_x (self : MovingSprite) : Prop :=
  left (_collider self) = py_round (vx (_pos self)).
Definition lockstep_y (self : MovingSprite) : Prop :=
  top (_collider self) = py_round (vy (_pos self)).

(** The collider's leading edge on [axis] lies on the trailing edge of
    the tile's collider, and the position is the collider's origin. *)
Definition flush (axis : Axis) (direction : Vector2)
    (self : MovingSprite) (tile : Tile) : Prop :=
  match axis with
  | horizontal =>
      ((Qltb 0 (vx direction) = true
        /\ right (_collider self) = left (t_collider tile))
       \/ (Qltb (vx direction) 0 = true
           /\ left (_collider self) = right (t_collider tile)))
      /\ vx (_pos self) = inject_Z (left (_collider self))
  | vertical =>
      ((Qltb 0 (vy direction) = true
        /\ bottom (_collider self) = top (t_collider tile))
       \/ (Qltb (vy direction) 0 = true
           /\ top (_collider self) = bottom (t_collider tile)))
      /\ vy (_pos self) = inject_Z (top (_collider self))
  end.

Definition left_to_walk (axis : Axis) (st : MoveState) : Q :=
  match axis with
  | horizontal => vx (distance_to_walk st)
  | vertical => vy (distance_to_walk st)
  end.

(** What [flush] reads of a sprite on an axis. *)
Definition view (axis : Axis) (self : MovingSprite) : Z * Z * Q :=
  match axis with
  | horizontal =>
      (left (_collider self), rwidth (_collider self), vx (_pos self))
  | vertical =>
      (top (_collider self), rheight (_collider self), vy (_pos self))
  end.

Definition other (axis : Axis) : Axis :=
  match axis with horizontal => vertical | vertical => horizontal end.

(** Some tile among [picked] has the sprite flush against it. *)
Definition touching (game_map : Map) (axis : Axis) (direction : Vector2)
    (picked : list nat) (self : MovingSprite) : Prop :=
  exists t tile,
    t ∈ picked /\ tiles game_map !! t = Some tile
    /\ flush axis direction self tile.

(** A tile test on [axis] has reported a collision and nothing has moved
    the sprite on that axis since. *)
Definition stopped_by_tile (game_map : Map) (axis : Axis)
    (direction : Vector2) (st : MoveState) : Prop :=
  collided st = true
  /\ left_to_walk axis st = 0%Q
  /\ exists t tile,
      tiles game_map !! t = Some tile /\ t_collidable tile = true
      /\ flush axis direction (ms_self st) tile.

(** Sub-steps that the distances left to walk still allow, and the
    condition under which that count is meaningful. *)
Definition steps_left_x (direction step : Vector2) (st : MoveState) : nat :=
  Z.to_nat (Qceiling (vx (distance_to_walk st)
                      / (vx step * Qabs (vx direction)))).
Definition steps_left_y (direction step : Vector2) (st : MoveState) : nat :=
  Z.to_nat (Qceiling (vy (distance_to_walk st)
                      / (vy step * Qabs (vy direction)))).

Definition walkable (direction : Vector2) (st : MoveState) : Prop :=
  (0 <= vx (distance_to_walk st))%Q
  /\ (0 <= vy (distance_to_walk st))%Q
  /\ (vx direction == 0 -> vx (distance_to_walk st) == 0)
  /\ (vy direction == 0 -> vy (distance_to_walk st) == 0).

(** ** scripts/sprite.py: sprites and their groups *)

(** The methods of [Sprite] and [SpriteGroup] take any number of groups
    or items and treat them one after the other; each definition below
    is the body of that loop for one of them. The sprites are the tiles
    of the store. *)

(** [Sprite.list_groups] *)
Definition list_groups (m : Map) (t : nat) : gset nat :=
  match tiles m !! t with
  | Some tl => t_groups tl
  | None => ∅
  end.

(** [SpriteGroup.has]: no items at all is [False]. *)
Definition group_has (m : Map) (g : nat) (items : list nat) : bool :=
  match items with
  | [] => false
  | _ => forallb (fun t => bool_decide (t ∈ group_items m g)) items
  end.

(** [self.__groups.remove(group)] and [self._item_set.remove(item)], on
    a member. *)
Definition sprite_forget (m : Map) (t g : nat) : Map :=
  match tiles m !! t with
  | Some tl =>
      set_store m
        (<[t := mkTile (t_pos tl) (t_image tl) (t_visible tl)
                        (t_collidable tl) (t_collider tl)
                        (t_groups tl ∖ {[g]})]> (tiles m))
        (groups m) (next_tile m)
  | None => m
  end.

Definition group_forget (m : Map) (g t : nat) : Map :=
  set_store m (tiles m) (<[g := group_items m g ∖ {[t]}]> (groups m))
            (next_tile m).

(** [Sprite.remove_internal] and [SpriteGroup.remove_internal]: one side
    forgets the other without telling it. *)
Definition remove_internal (m : Map) (t g : nat) : Map :=
  if bool_decide (g ∈ list_groups m t) then sprite_forget m t g else m.

Definition group_remove_internal (m : Map) (g t : nat) : Map :=
  if group_has m g [t] then group_forget m g t else m.

(** [Sprite.remove_from] and [SpriteGroup.remove] call each other; the
    fuel counts the nested calls, [None] when it runs out. *)
Fixpoint remove_from (fuel : nat) (m : Map) (t g : nat) : option Map :=
  match fuel with
  | O => None
  | S fuel =>
      if bool_decide (g ∈ list_groups m t)
      then group_remove fuel (sprite_forget m t g) g t
      else Some m
  end
with group_remove (fuel : nat) (m : Map) (g t : nat) : option Map :=
  match fuel with
  | O => None
  | S fuel =>
      if group_has m g [t]
      then remove_from fuel (group_forget m g t) t g
      else Some m
  end.


(** [SpriteGroup.empty]: every item forgets the group, then the group
    forgets them all. *)
Definition group_empty (m : Map) (g : nat) : Map :=
  set_store m
    (set_fold (fun t ts =>
                 match ts !! t with
                 | Some tl =>
                     <[t := mkTile (t_pos tl) (t_image tl) (t_visible tl)
                                    (t_collidable tl) (t_collider tl)
                                    (t_groups tl ∖ {[g]})]> ts
                 | None => ts
                 end)
              (tiles m) (group_items m g))
    (<[g := ∅]> (groups m)) (next_tile m).

(** ** scripts/map.py: [Map.clear] and [Map.size_pixels] *)

Definition clear (m : Map) : Map :=
  let m := group_empty m (foreground_tiles m) in
  let m := group_empty m (background_tiles m) in
  set_matrix (set_matrix m foreground []) background [].

Definition size_pixels (m : Map) : Z * Z :=
  (fst (size m) * tile_size m, snd (size m) * tile_size m).

(** ** scripts/tile.py: where a tile is *)


(** ** Vocabulary of the statements about sprites and groups *)

(** The group lists the sprite exactly when the sprite lists the group. *)
Definition mutual (m : Map) : Prop :=
  forall t g, t ∈ group_items m g <-> g ∈ list_groups m t.


(** Both sides as [m] has them, but for the pair of [t] and [g]. *)
Definition membership_without (m m' : Map) (t g : nat) : Prop :=
  (forall t' g', t' ∈ group_items m' g'
                 <-> t' ∈ group_items m g' /\ ~ (t' = t /\ g' = g))
  /\ (forall t' g', g' ∈ list_groups m' t'
                    <-> g' ∈ list_groups m t' /\ ~ (t' = t /\ g' = g)).

(** ** Vocabulary of the statements about the level grid *)

(** The entry of column [x] and row [y] of a list of rows, for
    [p = (x, y)] inside it. *)
Definition entry {A} (mx : list (list A)) (p : Z * Z) : option A :=
  if (0 <=? fst p) && (0 <=? snd p) then
    match mx !! Z.to_nat (snd p) with
    | Some row => row !! Z.to_nat (fst p)
    | None => None
    end
  else None.

(** [height] rows of [width] entries. *)
Definition grid_shape {A} (mx : list (list A)) (width height : Z) : Prop :=
  Z.of_nat (length mx) = height
  /\ Forall (fun row => Z.of_nat (length row) = width) mx.

(** Both planes have the size of the level, as [generate] allocates
    them. *)
Definition well_formed (m : Map) : Prop :=
  grid_shape (matrix_foreground m) (width m) (height m)
  /\ grid_shape (matrix_background m) (width m) (height m).

(** The tiles of the store are older than the next one to be created:
    a new tile is a new object. *)
Definition fresh_next (m : Map) : Prop :=
  forall t, is_Some (tiles m !! t) -> (t < next_tile m)%nat.

Definition other_plane (plane : Plane) : Plane :=
  match plane with foreground => background | background => foreground end.

(** The cells of the square that [get_tiles_square] looks at. *)
Definition in_square (pos radius p : Z * Z) : Prop :=
  fst pos - fst radius <= fst p <= fst pos + fst radius
  /\ snd pos - snd radius <= snd p <= snd pos + snd radius.

(** The fields of the level that the sprite store does not hold. *)
Definition frame (m : Map) :=
  (graphics m, size m, border_size m, tile_size m,
   foreground_tiles m, background_tiles m,
   matrix_foreground m, matrix_background m).

(** The same sprite, whatever groups it lists. *)
Definition same_sprite (a b : Tile) : Prop :=
  t_pos a = t_pos b /\ t_image a = t_image b /\ t_visible a = t_visible b
  /\ t_collidable a = t_collidable b /\ t_collider a = t_collider b.

(** ** scripts/map.py: from mazes to tiles *)

(** [enumerate(l)] *)
Definition enumerate {A} (l : list A) : list (Z * A) :=
  zip (py_range 0 (Z.of_nat (length l))) l.

(** The running sums of the weights, as [random.choices] accumulates
    them. *)
Fixpoint cumulate (sum : nat) (weights : list nat) : list nat :=
  match weights with
  | [] => []
  | w :: rest => (sum + w)%nat :: cumulate (sum + w) rest
  end.

(** [random.choices(population, weights=weights, k=1)[0]], with the
    weights in hundredths: the draw is a point below their total, and
    the element chosen is the first whose running sum lies above it
    ([bisect] over all but the last running sum). *)
Definition choices (rnd : nat -> nat) (population : list Z)
    (weights : list nat) (drawn : nat) : Z * nat :=
  let cum_weights := cumulate 0 weights in
  let total := default 0%nat (last cum_weights) in
  let '(point, drawn) := randbelow rnd total drawn in
  let hi := (length population - 1)%nat in
  let i := length (filter (fun c => (c <= point)%nat) (take hi cum_weights)) in
  (nth i population 0, drawn).

Definition neighbor_directions : list (Z * Z) :=
  [(0, 1); (0, -1); (1, 0); (-1, 0)].

(** The body of "Background" for the cell (x, y) holding [tile]. *)
Definition background_cell (rnd : nat -> nat) (y : Z)
    (acc : result (list (list TileCode) * nat)) (xt : Z * Cell)
  : result (list (list TileCode) * nat) :=
  let* '(background_tilemap, drawn) := acc in
  let '(x, tile) := xt in
  let '(code, drawn) :=
    if Cell_eqb tile WALL then
      let '(v, drawn) :=
        choices rnd [0; 1; 2; 3] [45; 25; 15; 15]%nat drawn in
      (mkTileCode "stone_floor" v, drawn)
    else
      let '(v, drawn) :=
        choices rnd [0; 1; 2; 3; 4; 5] [35; 35; 5; 5; 10; 10]%nat drawn in
      (mkTileCode "dirt_floor" v, drawn) in
  let* background_tilemap := py_setitem2 background_tilemap y x code in
  Ok (background_tilemap, drawn).

(** "Registra os vizinhos da celula": the neighbour towards [direction],
    [None] outside the level. *)
Definition neighbor (m : Map) (foreground : Maze) (x y : Z)
    (direction : Z * Z) : result (option Cell) :=
  let nx := x + snd direction in
  let ny := y + fst direction in
  if utils.is_within_bounds nx ny (width m) (height m) then
    let* c := py_getitem2 foreground ny nx in Ok (Some c)
  else Ok None.

Definition is_cell (c : option Cell) (cell : Cell) : bool :=
  match c with
  | Some c => Cell_eqb c cell
  | None => false
  end.

(** "Decide a tile" *)
Definition decide_tile (East West South North : option Cell) : TileCode :=
  if is_cell South WALL then mkTileCode "wall_top" (-1)
  else if is_cell North AIR then mkTileCode "stone" (-1)
  else if is_cell West WALL then
    if is_cell East WALL then mkTileCode "wall" 0 else mkTileCode "wall" 1
  else
    if is_cell East WALL then mkTileCode "wall" 2 else mkTileCode "wall" 3.

(** The body of "Foreground" for the cell (x, y) holding [tile]. *)
Definition foreground_cell (m : Map) (foreground : Maze) (y : Z)
    (acc : result (list (list TileCode))) (xt : Z * Cell)
  : result (list (list TileCode)) :=
  let* foreground_tilemap := acc in
  let '(x, tile) := xt in
  if (x <? border_size m) || (x >=? width m - border_size m) then
    py_setitem2 foreground_tilemap y x (mkTileCode "wall_top" (-1))
  else if (y =? border_size m) && Cell_eqb tile AIR then
    py_setitem2 foreground_tilemap y x (mkTileCode "wall" 0)
  else if Cell_eqb tile WALL then
    let* East := neighbor m foreground x y (0, 1) in
    let* West := neighbor m foreground x y (0, -1) in
    let* South := neighbor m foreground x y (1, 0) in
    let* North := neighbor m foreground x y (-1, 0) in
    py_setitem2 foreground_tilemap y x (decide_tile East West South North)
  else Ok foreground_tilemap.

Definition foreground_row (m : Map) (foreground : Maze)
    (acc : result (list (list TileCode))) (yl : Z * list Cell)
  : result (list (list TileCode)) :=
  let* foreground_tilemap := acc in
  let '(y, line) := yl in
  if (y <? border_size m) || (y >=? height m - border_size m) then
    py_setitem foreground_tilemap y
               (replicate (Z.to_nat (width m)) (mkTileCode "wall_top" (-1)))
  else
    foldl (foreground_cell m foreground y) (Ok foreground_tilemap)
          (enumerate line).

(** [__tilemap_maze]: the pair (background_tilemap, foreground_tilemap)
    and the number of draws made. *)
Definition tilemap_maze (rnd : nat -> nat) (m : Map)
    (background foreground : Maze) (drawn : nat)
  : result (list (list TileCode) * list (list TileCode) * nat) :=
  let blank :=
    replicate (Z.to_nat (height m))
              (replicate (Z.to_nat (width m)) (mkTileCode "None" 0)) in
  let* '(background_tilemap, drawn) :=
    foldl (fun acc yl =>
             foldl (background_cell rnd (fst yl)) acc (enumerate (snd yl)))
          (Ok (blank, drawn)) (enumerate background) in
  let* foreground_tilemap :=
    foldl (foreground_row m foreground) (Ok blank) (enumerate foreground) in
  Ok (background_tilemap, foreground_tilemap, drawn).

(** Whether [place_tile] gets as far as [random.choice] and draws. *)
Definition draws_one (m : Map) (pos : Z * Z) (tile_code : TileCode) : bool :=
  utils.is_within_bounds (fst pos) (snd pos) (width m) (height m)
  && negb (String.eqb (type tile_code) "None")
  && match graphics m !! type tile_code with
     | Some imgs =>
         negb ((0 <=? variation tile_code)
               && (variation tile_code <? Z.of_nat (length imgs)))
         && negb (Nat.eqb (length imgs) 0)
     | None => false
     end.

(** [place_tile] within a run that draws from [rnd]; an exception ends
    the run. *)
Definition place_tile_drawing (rnd : nat -> nat) (m : Map) (drawn : nat)
    (pos : Z * Z) (tile_code : TileCode) (plane : Plane)
    (visible collidable : bool) : result (Map * nat) :=
  let '(outcome, m') :=
    place_tile m (rnd drawn) pos tile_code [] plane visible collidable in
  let* _ := outcome in
  Ok (m', if draws_one m pos tile_code then S drawn else drawn).

(** The body of "Constroi o mapa" for the cell (x, y) of the foreground
    blueprint holding [tile]. *)
Definition place_cell (rnd : nat -> nat)
    (blueprint_background : list (list TileCode)) (y : Z)
    (acc : result (Map * nat)) (xt : Z * TileCode) : result (Map * nat) :=
  let* '(m, drawn) := acc in
  let '(x, tile) := xt in
  if negb (String.eqb (type tile) "None") then
    let* '(m, drawn) :=
      place_tile_drawing rnd m drawn (x, y) tile foreground true true in
    if String.eqb (type tile) "stone" then
      let* under := py_getitem2 blueprint_background y x in
      place_tile_drawing rnd m drawn (x, y) under background true false
    else Ok (m, drawn)
  else
    let* under := py_getitem2 blueprint_background y x in
    place_tile_drawing rnd m drawn (x, y) under background true false.

Definition place_blueprints (rnd : nat -> nat)
    (blueprint_background blueprint_foreground : list (list TileCode))
    (m : Map) (drawn : nat) : result (Map * nat) :=
  foldl (fun acc yl =>
           foldl (place_cell rnd blueprint_background (fst yl)) acc
                 (enumerate (snd yl)))
        (Ok (m, drawn)) (enumerate blueprint_foreground).

(** [generate]: the level it leaves; an exception on the way discards
    the level. *)
Definition generate (fuel : nat) (rnd : nat -> nat) (m : Map)
  : option (result Map) :=
  let m := clear m in
  let m := with_size m (31 * 2, 31 * 2) in
  let m := set_matrix m background
             (replicate (Z.to_nat (height m))
                        (replicate (Z.to_nat (width m)) None)) in
  let m := set_matrix m foreground
             (replicate (Z.to_nat (height m))
                        (replicate (Z.to_nat (width m)) None)) in
  match create_maze fuel rnd m 0 with
  | None => None
  | Some (Raise e) => Some (Raise e)
  | Some (Ok (foreground_maze, drawn)) =>
      Some (
        let* '(foreground_maze, drawn) :=
          smooth_maze rnd m foreground_maze (mkSmoothing 3 6 10 4 0) drawn in
        let* '(foreground_maze, drawn) :=
          smooth_maze rnd m foreground_maze (mkSmoothing 5 7 10 3 0) drawn in
        let* '(background_maze, drawn) :=
          smooth_maze rnd m foreground_maze (mkSmoothing 3 0 4 6 2) drawn in
        let* '(blueprint_background, blueprint_foreground, drawn) :=
          tilemap_maze rnd m background_maze foreground_maze drawn in
        let* '(m, _) :=
          place_blueprints rnd blueprint_background blueprint_foreground
                           m drawn in
        Ok m)
  end.

(** [Map.__init__]: the level as it is when [generate] is called, the
    two planes' groups being new objects, 0 and 1, and the call. *)
Definition new_level (graphics : gmap string (list Surface))
    (tile_size : Z) : Map :=
  mkMap graphics (0, 0) 2 tile_size 0 1 [] [] ∅ ∅ 0.

Definition Map_init (fuel : nat) (rnd : nat -> nat)
    (graphics : gmap string (list Surface)) (tile_size : Z)
  : option (result Map) :=
  generate fuel rnd (new_level graphics tile_size).

(** ** Vocabulary of the statements about blueprints and the built level *)

(** The type has images to choose from. *)
Definition has_images (graphics : gmap string (list Surface))
    (ty : string) : Prop :=
  exists imgs, graphics !! ty = Some imgs /\ imgs <> [].

(** The five types that [__tilemap_maze] writes. *)
Definition level_graphics (graphics : gmap string (list Surface)) : Prop :=
  has_images graphics "wall_top" /\ has_images graphics "wall"
  /\ has_images graphics "stone" /\ has_images graphics "stone_floor"
  /\ has_images graphics "dirt_floor".

(** The cell holds a tile of the plane's group with the given collision
    flag. *)
Definition holds_tile (m : Map) (plane : Plane) (p : Z * Z)
    (collidable : bool) : Prop :=
  exists t tile,
    get_tile m p plane = Ok (Some t)
    /\ tiles m !! t = Some tile
    /\ t_collidable tile = collidable
    /\ t_pos tile = (fst p * tile_size m, snd p * tile_size m)
    /\ t ∈ group_items m (plane_group m plane).

(** What "Background" writes for a cell of the maze. *)
Definition floor_code (c : Cell) (code : TileCode) : Prop :=
  if Cell_eqb c WALL
  then type code = "stone_floor"%string /\ 0 <= variation code <= 3
  else type code = "dirt_floor"%string /\ 0 <= variation code <= 5.

Definition in_borderb (border width height : Z) (p : Z * Z) : bool :=
  (fst p <? border) || (fst p >=? width - border)
  || (snd p <? border) || (snd p >=? height - border).

(** The cell next to [p] towards [direction], [None] outside the
    level. *)
Definition beside (m : Map) (foreground : Maze) (p direction : Z * Z)
  : option Cell :=
  let q := (fst p + snd direction, snd p + fst direction) in
  if utils.is_within_bounds (fst q) (snd q) (width m) (height m)
  then cell_at foreground q else None.

(** What "Foreground" writes for the cell [p] of the maze. *)
Definition wall_code (m : Map) (foreground : Maze) (p : Z * Z) : TileCode :=
  if in_borderb (border_size m) (width m) (height m) p
  then mkTileCode "wall_top" (-1)
  else
    match cell_at foreground p with
    | Some AIR =>
        if snd p =? border_size m then mkTileCode "wall" 0
        else mkTileCode "None" 0
    | Some WALL =>
        decide_tile (beside m foreground p (0, 1))
                    (beside m foreground p (0, -1))
                    (beside m foreground p (1, 0))
                    (beside m foreground p (-1, 0))
    | _ => mkTileCode "None" 0
    end.

(** What "Constroi o mapa" leaves at a cell whose entry in the
    foreground blueprint is [code]: a collidable tile in the foreground
    unless the type is "None", and a floor tile in the background under
    "None" and under "stone". *)
Definition built_as (code : TileCode) (m : Map) (p : Z * Z) : Prop :=
  if String.eqb (type code) "None" then
    get_tile m p foreground = Ok None /\ holds_tile m background p false
  else
    holds_tile m foreground p true
    /\ if String.eqb (type code) "stone"
       then holds_tile m background p false
       else get_tile m p background = Ok None.

Definition built (blueprint : list (list TileCode)) (m : Map) (p : Z * Z)
  : Prop :=
  match entry blueprint p with
  | Some code => built_as code m p
  | None => False
  end.

(** The cell has no tile in either plane. *)
Definition bare (m : Map) (p : Z * Z) : Prop :=
  get_tile m p foreground = Ok None /\ get_tile m p background = Ok None.

(** The cells that the loops over rows and columns have been through
    when they stand at row [k], column [j]. *)
Definition passed (k j : Z) (p : Z * Z) : Prop :=
  snd p < k \/ (snd p = k /\ fst p < j).

(** What a level keeps while tiles are placed on it. *)
Definition sound (m : Map) : Prop :=
  well_formed m /\ mutual m /\ fresh_next m.

Definition same_level (m m' : Map) : Prop :=
  graphics m' = graphics m /\ size m' = size m
  /\ border_size m' = border_size m /\ tile_size m' = tile_size m
  /\ foreground_tiles m' = foreground_tiles m
  /\ background_tiles m' = background_tiles m.

(** ** Levels of the examples *)

(** One image for each of the five types that [__tilemap_maze] writes. *)
Definition maze_graphics : gmap string (list Surface) :=
  {[ "wall_top"%string := [sprite16]; "wall"%string := [sprite16];
     "stone"%string := [sprite16]; "stone_floor"%string := [sprite16];
     "dirt_floor"%string := [sprite16] ]}.

(** A 2x2 level without border and without tiles, and blueprints for
    it. *)
Definition level2 : Map :=
  mkMap maze_graphics (2, 2) 0 16 0 1
        (replicate 2 (replicate 2 None)) (replicate 2 (replicate 2 None))
        ∅ ∅ 0.

Definition floors2 : list (list TileCode) :=
  [[mkTileCode "dirt_floor" 0; mkTileCode "stone_floor" 1];
   [mkTileCode "dirt_floor" 2; mkTileCode "stone_floor" 0]].

Definition walls2 : list (list TileCode) :=
  [[mkTileCode "wall_top" (-1); mkTileCode "None" 0];
   [mkTileCode "stone" (-1); mkTileCode "wall" 1]].

(** ** scripts/sprite.py: where a moving sprite is *)

(** The [tile_pos] setter; [game_map] is [self._game.map]. *)
Definition set_tile_pos (game_map : Map) (self : MovingSprite)
    (pos : Z * Z) : MovingSprite :=
  let tile_size := tile_size game_map in
  set_pos self (mkVector2 (inject_Z (fst pos * tile_size))
                          (inject_Z (snd pos * tile_size))).

(** A sprite of 16x16 pixels at the pixel (17.5, 20), with its
    collider at (18, 20) and its hitbox inset by 2 pixels. *)
Definition walker : MovingSprite :=
  mkMovingSprite (mkVector2 (35 # 2) 20) sprite16
                 (mkRect 18 20 16 16) (mkRect 20 22 12 12).

(** ** Vocabulary of the statements about free moves *)

(** The unit vector along [axis], towards [sign] (1 or -1). *)
Definition along (axis : Axis) (sign : Z) : Vector2 :=
  match axis with
  | horizontal => mkVector2 (inject_Z sign) 0
  | vertical => mkVector2 0 (inject_Z sign)
  end.

Definition coordinate (axis : Axis) (v : Vector2) : Q :=
  match axis with horizontal => vx v | vertical => vy v end.

Definition origin (axis : Axis) (r : Rect) : Z :=
  match axis with horizontal => left r | vertical => top r end.

(** The pixel [p] of [axis] lies in a cell of the block of cells from
    [lo] to [hi]. *)
Definition in_range (axis : Axis) (lo hi : Z * Z) (tile_size p : Z) : Prop :=
  match axis with
  | horizontal => fst lo * tile_size <= p < (fst hi + 1) * tile_size
  | vertical => snd lo * tile_size <= p < (snd hi + 1) * tile_size
  end.

(** The sign that a sub-step takes from a component of the direction. *)
Definition toward (c : Q) : Q := if Qltb c 0 then -1 else 1.

(** The pixel (x, y) lies in a cell of the block of cells from [lo] to
    [hi]. *)
Definition in_block (lo hi : Z * Z) (tile_size : Z) (x y : Q) : Prop :=
  (inject_Z (fst lo * tile_size) <= x < inject_Z ((fst hi + 1) * tile_size))%Q
  /\ (inject_Z (snd lo * tile_size) <= y
      < inject_Z ((snd hi + 1) * tile_size))%Q.

(** The block lies in the level, and neither its cells nor the cells
    around it hold a collidable tile in the foreground. *)
Definition open_block (m : Map) (lo hi : Z * Z) : Prop :=
  0 <= fst lo /\ fst hi < width m /\ 0 <= snd lo /\ snd hi < height m
  /\ forall q t,
       fst lo - 1 <= fst q <= fst hi + 1 ->
       snd lo - 1 <= snd q <= snd hi + 1 ->
       get_tile m q foreground = Ok (Some t) ->
       is_collidable m t = false.

(** A state of the loop of [_move] that no collision has touched:
    what is left to walk, added to the position, gives the end of the
    walk of [total] from [start]; collider and hitbox are where they
    were on an axis without walk, and at the rounded position on an
    axis that has been walked. *)
Definition on_the_way (direction : Vector2) (start : MovingSprite)
    (total : Vector2) (st : MoveState) : Prop :=
  collided st = false
  /\ walkable direction st
  /\ (vx (distance_to_walk st) <= vx total)%Q
  /\ (vy (distance_to_walk st) <= vy total)%Q
  /\ (vx (_pos (ms_self st))
      + toward (vx direction) * vx (distance_to_walk st)
      == vx (_pos start) + toward (vx direction) * vx total)%Q
  /\ (vy (_pos (ms_self st))
      + toward (vy direction) * vy (distance_to_walk st)
      == vy (_pos start) + toward (vy direction) * vy total)%Q
  /\ same_sizes (ms_self st) start
  /\ (vx total == 0 ->
      left (_collider (ms_self st)) = left (_collider start)
      /\ left (_hitbox (ms_self st)) = left (_hitbox start))
  /\ (~ vx (distance_to_walk st) == vx total ->
      lockstep_x (ms_self st)
      /\ left (_hitbox (ms_self st)) = left (_collider (ms_self st)))
  /\ (vy total == 0 ->
      top (_collider (ms_self st)) = top (_collider start)
      /\ top (_hitbox (ms_self st)) = top (_hitbox start))
  /\ (~ vy (distance_to_walk st) == vy total ->
      lockstep_y (ms_self st)
      /\ top (_hitbox (ms_self st)) = top (_collider (ms_self st))).

(** ** scripts/camera.py *)

Module Camera.

Definition _get_offset_1D (player_center display_center map_size : Z) : Z :=
  let map_center := map_size / 2 in
  let display_size := display_center * 2 in
  if display_size >=? map_size then map_center - display_center
  else if display_center >? player_center then 0
  else if player_center >? map_size - display_center
       then map_size - display_size
  else player_center - display_center.

(** [get_offset]: [player_center] is (hitbox.centerx, hitbox.centery) of
    the player, [display] the width and height of the display surface,
    which are not negative; [int(w / 2)] truncates. *)
Definition get_offset (player_center display : Z * Z) (map : Map) : Z * Z :=
  (_get_offset_1D (fst player_center) (Z.quot (fst display) 2)
                  (fst (size_pixels map)),
   _get_offset_1D (snd player_center) (Z.quot (snd display) 2)
                  (snd (size_pixels map))).

(** [get_original_pos] *)
Definition get_original_pos (player_center display : Z * Z) (map : Map)
    (pos : Vector2) : Vector2 :=
  let offset := get_offset player_center display map in
  mkVector2 (Qred (vx pos + inject_Z (fst offset)))
            (Qred (vy pos + inject_Z (snd offset))).

End Camera.

(** ** scripts/sprite.py: drawing *)

(** [Sprite.draw]: where the image is blitted, [None] when the sprite is
    not visible; an [offset] of [None] stands for no offset. *)
Definition draw (pos : Vector2) (visible : bool) (offset : option Vector2)
  : option (Z * Z) :=
  if visible then
    let offset := match offset with
                  | None => mkVector2 0 0
                  | Some offset => offset
                  end in
    Some (py_round (vx pos + vx offset), py_round (vy pos + vy offset))
  else None.

(** What [render_sprites] does with one sprite: [sprite.draw(display,
    -offset)]. *)
Definition render_sprite (player_center display : Z * Z) (map : Map)
    (pos : Vector2) (visible : bool) : option (Z * Z) :=
  let offset := Camera.get_offset player_center display map in
  draw pos visible (Some (mkVector2 (- inject_Z (fst offset))
                                    (- inject_Z (snd offset)))).

(** * Properties *)

(** ** Level grid *)

Lemma is_within_bounds_spec x y w h :
  utils.is_within_bounds x y w h = true <-> (0 <= x < w /\ 0 <= y < h).
Proof. unfold utils.is_within_bounds. lia. Qed.

Lemma outside_not_within x y w h :
  ~ (0 <= x < w /\ 0 <= y < h) -> utils.is_within_bounds x y w h = false.
Proof.
  intros Hout. destruct (utils.is_within_bounds x y w h) eqn:E; [|done].
  apply is_within_bounds_spec in E. contradiction.
Qed.

(** C8: outside [0,width) x [0,height) each of the four grid operations
    raises IndexError, and the two that mutate hand the level back as it
    was. *)
Theorem out_of_bounds_is_raised (m : Map) (pos : Z * Z) (plane : Plane) :
  ~ (0 <= fst pos < width m /\ 0 <= snd pos < height m) ->
  get_tile m pos plane = Raise IndexError
  /\ (forall radius, get_tiles_square m pos radius plane = Raise IndexError)
  /\ (forall rnd code gs visible collidable,
        place_tile m rnd pos code gs plane visible collidable
        = (Raise IndexError, m))
  /\ remove_tile m pos plane = (Raise IndexError, m).
Proof.
  intros Hout. apply outside_not_within in Hout.
  unfold get_tile, get_tiles_square, place_tile, remove_tile.
  rewrite Hout. simpl. repeat split; reflexivity.
Qed.

Lemma out_of_bounds_is_raised_witness :
  get_tile two_walls (2, 0) foreground = Raise IndexError
  /\ (forall radius,
        get_tiles_square two_walls (2, 0) radius foreground = Raise IndexError)
  /\ (forall rnd code gs visible collidable,
        place_tile two_walls rnd (2, 0) code gs foreground visible collidable
        = (Raise IndexError, two_walls))
  /\ remove_tile two_walls (2, 0) foreground = (Raise IndexError, two_walls).
Proof.
  apply (out_of_bounds_is_raised two_walls (2, 0) foreground).
  vm_compute. intros [[_ H] _]. discriminate H.
Defined.

(** C3: [remove_tile] writes [None] into row [pos[0]], column [pos[1]],
    while [get_tile] and [place_tile] address row [pos[1]], column
    [pos[0]]. With walls at (1,0) and (0,1), removing (1,0) leaves the
    removed tile in its cell, empties the cell of the other wall, and
    that other wall stays in the plane's group. *)
Theorem remove_tile_clears_the_transposed_cell :
  let m := snd (remove_tile two_walls (1, 0) foreground) in
  get_tile two_walls (1, 0) foreground = Ok (Some 0%nat)
  /\ get_tile two_walls (0, 1) foreground = Ok (Some 1%nat)
  /\ fst (remove_tile two_walls (1, 0) foreground) = Ok tt
  /\ get_tile m (1, 0) foreground = Ok (Some 0%nat)
  /\ get_tile m (0, 1) foreground = Ok None
  /\ bool_decide (0%nat ∈ group_items m (foreground_tiles m)) = false
  /\ bool_decide (1%nat ∈ group_items m (foreground_tiles m)) = true.
Proof. vm_compute. repeat split; reflexivity. Qed.

(** C4: an unknown type is replaced by the code ("None", 0) only after
    the test for "None" has been passed, so the image lookup that follows
    raises KeyError when the graphics have no "None" entry. *)
Theorem place_tile_unknown_type_raises :
  place_tile (empty_level 2 2) 0 (0, 0) (mkTileCode "lava" 0) []
             foreground true true
  = (Raise KeyError, empty_level 2 2).
Proof. vm_compute. reflexivity. Qed.

(** ** Python lists at indices that are not negative *)

Lemma py_index_nonneg {A} (l : list A) (i : Z) :
  0 <= i ->
  py_index l i
  = if i <? Z.of_nat (length l) then Some (Z.to_nat i) else None.
Proof.
  intros Hi. unfold py_index.
  destruct (i <? Z.of_nat (length l)) eqn:E.
  - assert ((0 <=? i) = true) as -> by lia. reflexivity.
  - rewrite andb_false_r.
    assert ((i <? 0) = false) as -> by lia. by rewrite andb_false_r.
Qed.

Lemma py_getitem_nonneg {A} (l : list A) (i : Z) :
  0 <= i ->
  py_getitem l i
  = match l !! Z.to_nat i with Some x => Ok x | None => Raise IndexError end.
Proof.
  intros Hi. unfold py_getitem. rewrite py_index_nonneg by done.
  destruct (i <? Z.of_nat (length l)) eqn:E; [done|].
  rewrite lookup_ge_None_2; [done|lia].
Qed.

Lemma py_setitem_nonneg {A} (l : list A) (i : Z) (x : A) :
  0 <= i ->
  py_setitem l i x
  = if i <? Z.of_nat (length l) then Ok (<[Z.to_nat i := x]> l)
    else Raise IndexError.
Proof.
  intros Hi. unfold py_setitem. rewrite py_index_nonneg by done.
  by destruct (i <? Z.of_nat (length l)).
Qed.

Lemma py_getitem2_cell_at (maze : Maze) (x y : Z) :
  0 <= x -> 0 <= y ->
  py_getitem2 maze y x
  = match cell_at maze (x, y) with
    | Some c => Ok c
    | None => Raise IndexError
    end.
Proof.
  intros Hx Hy. unfold py_getitem2, cell_at. simpl.
  assert ((0 <=? x) && (0 <=? y) = true) as -> by lia.
  rewrite py_getitem_nonneg by done.
  destruct (maze !! Z.to_nat y) as [row|]; simpl; [|done].
  by rewrite py_getitem_nonneg.
Qed.

Lemma cell_is_cell_at (maze : Maze) (x y : Z) (cell : Cell) :
  0 <= x -> 0 <= y ->
  cell_is maze x y cell
  = match cell_at maze (x, y) with
    | Some c => Ok (Cell_eqb c cell)
    | None => Raise IndexError
    end.
Proof.
  intros Hx Hy. unfold cell_is. rewrite py_getitem2_cell_at by done.
  by destruct (cell_at maze (x, y)).
Qed.

Lemma Cell_eqb_eq (a b : Cell) : Cell_eqb a b = true <-> a = b.
Proof. destruct a, b; simpl; split; congruence. Qed.

Lemma cell_at_inside (maze : Maze) (width height : Z) (p : Z * Z) :
  shape maze width height ->
  is_Some (cell_at maze p)
  <-> (0 <= fst p < width /\ 0 <= snd p < height).
Proof.
  intros [Hh Hw]. unfold cell_at. split.
  - intros [c Hc].
    destruct ((0 <=? fst p) && (0 <=? snd p)) eqn:E; [|done].
    destruct (maze !! Z.to_nat (snd p)) as [row|] eqn:Hrow; [|done].
    apply lookup_lt_Some in Hc. pose proof (lookup_lt_Some _ _ _ Hrow).
    rewrite Forall_lookup in Hw. specialize (Hw _ _ Hrow). simpl in Hw. lia.
  - intros [Hx Hy].
    assert ((0 <=? fst p) && (0 <=? snd p) = true) as -> by lia.
    destruct (lookup_lt_is_Some_2 maze (Z.to_nat (snd p))) as [row Hrow];
      [lia|].
    rewrite Hrow. apply lookup_lt_is_Some_2.
    rewrite Forall_lookup in Hw. specialize (Hw _ _ Hrow). simpl in Hw. lia.
Qed.

(** [maze[y][x] = v] at an index that is not negative: it succeeds
    exactly inside the maze, changes that one cell and keeps the shape. *)
Lemma py_setitem2_spec (maze maze' : Maze) (x y : Z) (v : Cell) :
  0 <= x -> 0 <= y ->
  py_setitem2 maze y x v = Ok maze' ->
  is_Some (cell_at maze (x, y))
  /\ cell_at maze' (x, y) = Some v
  /\ (forall p, p <> (x, y) -> cell_at maze' p = cell_at maze p)
  /\ (forall width height, shape maze width height -> shape maze' width height).
Proof.
  intros Hx Hy. unfold py_setitem2.
  rewrite py_getitem_nonneg by done.
  destruct (maze !! Z.to_nat y) as [row|] eqn:Hrow; simpl; [|done].
  rewrite py_setitem_nonneg by done.
  destruct (x <? Z.of_nat (length row)) eqn:Ex; simpl; [|done].
  rewrite py_setitem_nonneg by done.
  pose proof (lookup_lt_Some _ _ _ Hrow) as Hlt.
  assert ((y <? Z.of_nat (length maze)) = true) as -> by lia.
  intros [= <-]. split; [|split; [|split]].
  - unfold cell_at. simpl.
    assert ((0 <=? x) && (0 <=? y) = true) as -> by lia.
    rewrite Hrow. apply lookup_lt_is_Some_2. lia.
  - unfold cell_at. simpl.
    assert ((0 <=? x) && (0 <=? y) = true) as -> by lia.
    rewrite list_lookup_insert_eq by done.
    apply list_lookup_insert_eq. lia.
  - intros [px py] Hne. unfold cell_at. simpl.
    destruct ((0 <=? px) && (0 <=? py)) eqn:E; [|done].
    destruct (decide (Z.to_nat py = Z.to_nat y)) as [Heq|Hney].
    + rewrite Heq, list_lookup_insert_eq by done. rewrite Hrow.
      apply list_lookup_insert_ne. intros Hxx.
      apply Hne. f_equal; lia.
    + by rewrite list_lookup_insert_ne.
  - intros width height [Hh Hw]. split; [by rewrite length_insert|].
    apply Forall_insert; [done|]. rewrite length_insert.
    rewrite Forall_lookup in Hw. exact (Hw _ _ Hrow).
Qed.

Lemma py_setitem2_inside (maze : Maze) (x y : Z) (v : Cell) :
  is_Some (cell_at maze (x, y)) ->
  exists maze', py_setitem2 maze y x v = Ok maze'.
Proof.
  unfold cell_at. simpl. intros [c Hc].
  destruct ((0 <=? x) && (0 <=? y)) eqn:E; [|done].
  destruct (maze !! Z.to_nat y) as [row|] eqn:Hrow; [|done].
  unfold py_setitem2. rewrite py_getitem_nonneg, Hrow by lia. simpl.
  pose proof (lookup_lt_Some _ _ _ Hrow). pose proof (lookup_lt_Some _ _ _ Hc).
  rewrite py_setitem_nonneg by lia.
  assert ((x <? Z.of_nat (length row)) = true) as -> by lia. simpl.
  rewrite py_setitem_nonneg by lia.
  assert ((y <? Z.of_nat (length maze)) = true) as -> by lia. eauto.
Qed.

(** ** Loops that may raise *)

Lemma foldl_raise {A B} (f : result A -> B -> result A) (l : list B) e :
  (forall e x, f (Raise e) x = Raise e) ->
  foldl f (Raise e) l = Raise e.
Proof.
  intros Hf. induction l as [|x l IH]; simpl; [done|]. by rewrite Hf.
Qed.

Lemma foldl_result_ind {A B} (P : A -> Prop)
    (f : result A -> B -> result A) (l : list B) :
  (forall e x, f (Raise e) x = Raise e) ->
  (forall a x a', x ∈ l -> P a -> f (Ok a) x = Ok a' -> P a') ->
  forall a r, P a -> foldl f (Ok a) l = Ok r -> P r.
Proof.
  intros Hraise. induction l as [|x l IH]; simpl; intros Hstep a r HP H.
  - by injection H as <-.
  - destruct (f (Ok a) x) as [a1|e] eqn:E.
    + apply (IH (fun a x a' Hin => Hstep a x a' (list_elem_of_further _ _ _ Hin))
               a1 r); [|done].
      eapply Hstep; [apply list_elem_of_here|exact HP|exact E].
    + by rewrite foldl_raise in H.
Qed.

Lemma py_range_succ (n : Z) :
  0 <= n -> py_range 0 (n + 1) = py_range 0 n ++ [n].
Proof.
  intros Hn. unfold py_range.
  replace (Z.to_nat (n + 1 - 0)) with (S (Z.to_nat n)) by lia.
  replace (Z.to_nat (n - 0)) with (Z.to_nat n) by lia.
  rewrite seq_S, map_app. simpl. f_equal. f_equal. lia.
Qed.

Lemma elem_of_py_range (lo hi k : Z) : k ∈ py_range lo hi <-> lo <= k < hi.
Proof.
  unfold py_range. rewrite list_elem_of_fmap. split.
  - intros (i & -> & Hi). apply elem_of_seq in Hi. lia.
  - intros Hk. exists (Z.to_nat (k - lo)). split; [lia|].
    apply elem_of_seq. lia.
Qed.

(** A loop over [range(0, n)] whose invariant follows the counter. *)
Lemma foldl_range_ind {A} (P : Z -> A -> Prop)
    (f : result A -> Z -> result A) (n : Z) :
  (forall e x, f (Raise e) x = Raise e) ->
  (forall k a a', 0 <= k < n -> P k a -> f (Ok a) k = Ok a' -> P (k + 1) a') ->
  forall a r, 0 <= n -> P 0 a -> foldl f (Ok a) (py_range 0 n) = Ok r -> P n r.
Proof.
  intros Hraise Hstep a r Hn HP.
  assert (forall m : nat,
             Z.of_nat m <= n ->
             forall r, foldl f (Ok a) (py_range 0 (Z.of_nat m)) = Ok r ->
                       P (Z.of_nat m) r) as Hall.
  { induction m as [|m IH]; intros Hm r' H.
    - simpl in H. by injection H as <-.
    - rewrite Nat2Z.inj_succ, <- Z.add_1_r in *.
      rewrite py_range_succ, foldl_app in H by lia. simpl in H.
      destruct (foldl f (Ok a) (py_range 0 (Z.of_nat m))) as [a1|e] eqn:E.
      + apply (Hstep (Z.of_nat m) a1 r'); [lia| |done]. apply IH; [lia|done].
      + by rewrite Hraise in H. }
  intros H. specialize (Hall (Z.to_nat n)). rewrite Z2Nat.id in Hall by done.
  apply Hall; [lia|done].
Qed.

(** ** Maze carver: shape and border *)

Lemma py_index_Some {A} (l : list A) (i : Z) (k : nat) :
  py_index l i = Some k -> (k < length l)%nat.
Proof.
  unfold py_index.
  destruct ((0 <=? i) && (i <? Z.of_nat (length l))) eqn:E1.
  - intros [= <-]. lia.
  - destruct ((- Z.of_nat (length l) <=? i) && (i <? 0)) eqn:E2; [|done].
    intros [= <-]. lia.
Qed.

Lemma py_setitem_length {A} (l l' : list A) (i : Z) (x : A) :
  py_setitem l i x = Ok l' -> length l' = length l.
Proof.
  unfold py_setitem. destruct (py_index l i); [|done].
  intros [= <-]. apply length_insert.
Qed.

Lemma py_getitem_elem {A} (l : list A) (i : Z) (x : A) :
  py_getitem l i = Ok x -> exists k, l !! k = Some x.
Proof.
  unfold py_getitem. destruct (py_index l i) as [k|]; [|done].
  destruct (l !! k) eqn:E; [|done]. intros [= <-]. eauto.
Qed.

Lemma py_setitem2_shape (maze maze' : Maze) (x y : Z) (v : Cell) w h :
  py_setitem2 maze y x v = Ok maze' -> shape maze w h -> shape maze' w h.
Proof.
  unfold py_setitem2. intros H [Hh Hw].
  destruct (py_getitem maze y) as [row|] eqn:Hrow; simpl in H; [|done].
  destruct (py_setitem row x v) as [row'|] eqn:Hrow'; simpl in H; [|done].
  apply py_getitem_elem in Hrow as [k Hk].
  apply py_setitem_length in Hrow'.
  unfold py_setitem in H. destruct (py_index maze y) as [j|]; [|done].
  injection H as <-. split; [by rewrite length_insert|].
  pose proof Hw as Hall.
  rewrite Forall_lookup in Hw. specialize (Hw _ _ Hk). simpl in Hw.
  destruct (decide (j < length maze)%nat).
  - apply Forall_insert; [done|]. lia.
  - by rewrite list_insert_ge by lia.
Qed.

Section Border.

Variables border width height : Z.
Hypothesis border_nonneg : 0 <= border.

Local Abbreviation margin := (in_border border width height).

Lemma widen_towards_spec x y maze d maze' :
  0 <= x -> 0 <= y -> ~ margin (x, y) ->
  widen_towards border width height x y (Ok maze) d = Ok maze' ->
  (forall w h, shape maze w h -> shape maze' w h)
  /\ (forall p, margin p -> cell_at maze' p = cell_at maze p).
Proof.
  intros Hx Hy Hin. unfold widen_towards. destruct d as [dy dx]. simpl.
  destruct (utils.is_within_bounds _ _ _ _) eqn:Hb.
  - apply is_within_bounds_spec in Hb.
    destruct (cell_is maze (x + dx) (y + dy) WALL) as [wall|] eqn:Hw;
      simpl; [|done].
    assert (~ margin (x + dx, y + dy)) as Hin'.
    { unfold in_border. simpl. lia. }
    destruct wall.
    + destruct (py_setitem2 maze (y + dy) (x + dx) AIR) as [m1|] eqn:E1;
        simpl; [|done].
      intros E2.
      apply py_setitem2_spec in E1 as (_ & _ & Hsame1 & Hshape1); [|lia|lia].
      apply py_setitem2_spec in E2 as (_ & _ & Hsame2 & Hshape2); [|lia|lia].
      split; [auto|]. intros p Hp.
      rewrite Hsame2, Hsame1; [done| |]; by intros ->.
    + intros E2.
      apply py_setitem2_spec in E2 as (_ & _ & Hsame2 & Hshape2); [|lia|lia].
      split; [auto|]. intros p Hp. rewrite Hsame2; [done|]. by intros ->.
  - intros E2.
    apply py_setitem2_spec in E2 as (_ & _ & Hsame2 & Hshape2); [|lia|lia].
    split; [auto|]. intros p Hp. rewrite Hsame2; [done|]. by intros ->.
Qed.

Lemma polish_cell_spec x y maze maze' :
  0 <= x -> border <= y < height - border ->
  polish_cell border width height y (Ok maze) x = Ok maze' ->
  (forall w h, shape maze w h -> shape maze' w h)
  /\ (forall p, margin p -> p <> (x, y) -> cell_at maze' p = cell_at maze p)
  /\ (margin (x, y) -> cell_at maze' (x, y) = Some WALL).
Proof.
  intros Hx Hy. unfold polish_cell. cbn [rbind].
  destruct ((x <? border) || (x >=? width - border)) eqn:Hcol.
  - intros E. apply py_setitem2_spec in E as (_ & Hv & Hsame & Hshape);
      [|lia|lia].
    split; [auto|]. split; [|done]. intros p _ Hne. by apply Hsame.
  - assert (~ margin (x, y)) as Hin by (unfold in_border; simpl; lia).
    destruct (cell_is maze x y HOLE) as [hole|] eqn:Hh; cbn [rbind]; [|done].
    destruct hole.
    + intros E.
      apply (foldl_result_ind
               (fun m => (forall w h, shape maze w h -> shape m w h)
                         /\ (forall p, margin p -> cell_at m p = cell_at maze p)))
        in E.
      * destruct E as [Hs Hc]. split; [done|]. split; [|done].
        intros p Hp _. by apply Hc.
      * done.
      * intros m d m' _ [Hs Hc] Hm.
        apply widen_towards_spec in Hm as [Hs' Hc']; [|lia|lia|done].
        split; [auto|]. intros p Hp. rewrite Hc' by done. by apply Hc.
      * done.
    + intros [= <-]. done.
Qed.

Lemma polish_row_spec y maze maze' :
  shape maze width height -> 0 <= y < height ->
  polish_row border width height (Ok maze) y = Ok maze' ->
  shape maze' width height
  /\ (forall p, margin p -> snd p <> y -> cell_at maze' p = cell_at maze p)
  /\ (forall x, 0 <= x < width -> margin (x, y) ->
                cell_at maze' (x, y) = Some WALL).
Proof.
  intros Hshape Hy. unfold polish_row. simpl.
  assert (0 <= width) as Hwidth.
  { destruct Hshape as [Hh Hw].
    destruct (lookup_lt_is_Some_2 maze (Z.to_nat y)) as [row Hr]; [lia|].
    rewrite Forall_lookup in Hw. specialize (Hw _ _ Hr). simpl in Hw. lia. }
  destruct ((y <? border) || (y >=? height - border)) eqn:Hrow.
  - rewrite py_setitem_nonneg by lia. destruct Hshape as [Hh Hw].
    assert ((y <? Z.of_nat (length maze)) = true) as -> by lia.
    intros [= <-]. split; [|split].
    + split; [by rewrite length_insert|].
      apply Forall_insert; [done|]. rewrite length_replicate. lia.
    + intros [px py] _ Hne. simpl in Hne. unfold cell_at. simpl.
      destruct ((0 <=? px) && (0 <=? py)) eqn:E; [|done].
      rewrite list_lookup_insert_ne by lia. done.
    + intros x Hx _. unfold cell_at. simpl.
      assert ((0 <=? x) && (0 <=? y) = true) as -> by lia.
      rewrite list_lookup_insert_eq by lia.
      apply lookup_replicate_2. lia.
  - rewrite py_getitem_nonneg by lia.
    destruct (maze !! Z.to_nat y) as [line|] eqn:Hline; simpl; [|done].
    assert (Z.of_nat (length line) = width) as ->.
    { destruct Hshape as [_ Hw]. rewrite Forall_lookup in Hw.
      exact (Hw _ _ Hline). }
    intros E.
    apply (foldl_range_ind
             (fun k m =>
                shape m width height
                /\ (forall p, margin p -> snd p <> y ->
                              cell_at m p = cell_at maze p)
                /\ (forall x, 0 <= x < k -> margin (x, y) ->
                              cell_at m (x, y) = Some WALL))) in E.
    + destruct E as (? & ? & ?). done.
    + done.
    + intros k m m' Hk (Hs & Hother & Hdone) Hm.
      apply polish_cell_spec in Hm as (Hs' & Hsame & Hwall); [|lia|lia].
      split; [auto|]. split.
      * intros p Hp Hne. rewrite Hsame; [by apply Hother|done|].
        intros ->. by apply Hne.
      * intros x Hxk Hmx. destruct (decide (x = k)) as [->|Hne]; [auto|].
        rewrite Hsame; [apply Hdone; [lia|done]|done|]. intros [=]. lia.
    + done.
    + split; [done|]. split; [done|]. intros x Hxk. lia.
Qed.

Lemma polish_spec maze maze' :
  shape maze width height ->
  polish border width height maze = Ok maze' ->
  shape maze' width height /\ border_is_wall border width height maze'.
Proof.
  intros Hshape. unfold polish.
  assert (Z.of_nat (length maze) = height) as -> by apply Hshape.
  intros E.
  apply (foldl_range_ind
           (fun k m =>
              shape m width height
              /\ forall x y, 0 <= x < width -> 0 <= y < k ->
                             margin (x, y) -> cell_at m (x, y) = Some WALL))
    in E.
  - destruct E as [? ?]. done.
  - done.
  - intros k m m' Hk [Hs Hdone] Hm.
    apply polish_row_spec in Hm as (Hs' & Hother & Hrow); [|done|lia].
    split; [done|]. intros x y Hx Hy Hmxy.
    destruct (decide (y = k)) as [->|Hne]; [by apply Hrow|].
    rewrite Hother; [apply Hdone; [done|lia|done]|done|done].
  - destruct Hshape as [<- _]. lia.
  - split; [done|]. intros x y _ Hy. lia.
Qed.

End Border.

(** *** The expansion to full size *)

Ltac lia_div := Z.to_euclidean_division_equations; lia.

Lemma half_cases (p x : Z) : p / 2 = x <-> p = x * 2 \/ p = x * 2 + 1.
Proof.
  pose proof (Z.div_mod p 2 ltac:(lia)). pose proof (Z.mod_pos_bound p 2).
  split; [lia|]. intros [-> | ->].
  - by rewrite Z.div_mul.
  - replace (x * 2 + 1) with (1 + x * 2) by lia.
    rewrite Z.div_add by lia. done.
Qed.

Lemma expand_cell_spec maze y x final d final' :
  0 <= x -> 0 <= y -> 0 <= fst d -> 0 <= snd d ->
  expand_cell maze y x (Ok final) d = Ok final' ->
  exists element,
    cell_at maze (x, y) = Some element
    /\ cell_at final' (x * 2 + snd d, y * 2 + fst d) = Some element
    /\ (forall p, p <> (x * 2 + snd d, y * 2 + fst d) ->
                  cell_at final' p = cell_at final p)
    /\ (forall w h, shape final w h -> shape final' w h).
Proof.
  intros Hx Hy Hdy Hdx. unfold expand_cell. destruct d as [dy dx]. simpl in *.
  rewrite py_getitem2_cell_at by done.
  destruct (cell_at maze (x, y)) as [element|]; simpl; [|done].
  intros E. apply py_setitem2_spec in E as (_ & Hv & Hsame & Hshape); [|lia|lia].
  exists element. done.
Qed.

Lemma expand_block_spec maze y x final final' :
  0 <= x -> 0 <= y ->
  foldl (expand_cell maze y x) (Ok final) expand_directions = Ok final' ->
  exists element,
    cell_at maze (x, y) = Some element
    /\ (forall p, fst p / 2 = x -> snd p / 2 = y ->
                  cell_at final' p = Some element)
    /\ (forall p, ~ (fst p / 2 = x /\ snd p / 2 = y) ->
                  cell_at final' p = cell_at final p)
    /\ (forall w h, shape final w h -> shape final' w h).
Proof.
  intros Hx Hy. unfold expand_directions. cbn [foldl].
  destruct (expand_cell maze y x (Ok final) (0, 0)) as [f1|] eqn:E1;
    [|by simpl].
  destruct (expand_cell maze y x (Ok f1) (0, 1)) as [f2|] eqn:E2; [|done].
  destruct (expand_cell maze y x (Ok f2) (1, 0)) as [f3|] eqn:E3; [|done].
  intros E4.
  apply expand_cell_spec in E1 as (e1 & Hm1 & Hv1 & Hs1 & Hsh1); try done.
  apply expand_cell_spec in E2 as (e2 & Hm2 & Hv2 & Hs2 & Hsh2); try done.
  apply expand_cell_spec in E3 as (e3 & Hm3 & Hv3 & Hs3 & Hsh3); try done.
  apply expand_cell_spec in E4 as (e4 & Hm4 & Hv4 & Hs4 & Hsh4); try done.
  simpl in *. exists e1.
  assert (e2 = e1) as -> by congruence. assert (e3 = e1) as -> by congruence.
  assert (e4 = e1) as -> by congruence.
  split; [done|]. split; [|split].
  - intros [px py] Hpx Hpy. simpl in *.
    apply half_cases in Hpx, Hpy.
    destruct Hpx as [-> | ->], Hpy as [-> | ->].
    + rewrite Hs4, Hs3, Hs2 by (intros [=]; lia).
      by replace (x * 2) with (x * 2 + 0) by lia;
         replace (y * 2) with (y * 2 + 0) by lia.
    + rewrite Hs4 by (intros [=]; lia).
      by replace (x * 2) with (x * 2 + 0) by lia.
    + rewrite Hs4, Hs3 by (intros [=]; lia).
      by replace (y * 2) with (y * 2 + 0) by lia.
    + done.
  - intros [px py] Hne. simpl in Hne. rewrite !half_cases in Hne.
    rewrite Hs4, Hs3, Hs2, Hs1; [done| | | |]; intros [=]; lia.
  - auto.
Qed.

Lemma expand_spec width height maze final :
  shape maze width height -> 0 <= width ->
  expand width height maze = Ok final ->
  shape final (width * 2) (height * 2)
  /\ forall X Y, 0 <= X < width * 2 -> 0 <= Y < height * 2 ->
                 cell_at final (X, Y) = cell_at maze (X / 2, Y / 2).
Proof.
  intros Hshape Hwidth. unfold expand.
  assert (Z.of_nat (length maze) = height) as -> by apply Hshape.
  assert (0 <= height) as Hheight by (destruct Hshape as [<- _]; lia).
  set (final0 := replicate _ _).
  assert (shape final0 (width * 2) (height * 2)) as Hshape0.
  { unfold final0. split; [rewrite length_replicate; lia|].
    apply Forall_replicate. rewrite length_replicate. lia. }
  clearbody final0. intros E.
  apply (foldl_range_ind
           (fun k f =>
              shape f (width * 2) (height * 2)
              /\ forall X Y, 0 <= X < width * 2 -> 0 <= Y < k * 2 ->
                             cell_at f (X, Y) = cell_at maze (X / 2, Y / 2)))
    in E.
  - replace (height * 2) with (height * 2) in E by lia. exact E.
  - done.
  - intros y f f' Hy [Hs Hdone]. cbn [rbind].
    rewrite py_getitem_nonneg by lia.
    destruct (maze !! Z.to_nat y) as [line|] eqn:Hline; cbn [rbind]; [|done].
    assert (Z.of_nat (length line) = width) as ->.
    { destruct Hshape as [_ Hw]. rewrite Forall_lookup in Hw.
      exact (Hw _ _ Hline). }
    intros Ex.
    apply (foldl_range_ind
             (fun j g =>
                shape g (width * 2) (height * 2)
                /\ (forall X Y, 0 <= X < width * 2 -> 0 <= Y < y * 2 ->
                                cell_at g (X, Y) = cell_at maze (X / 2, Y / 2))
                /\ (forall X Y, 0 <= X < j * 2 -> Y / 2 = y ->
                                cell_at g (X, Y) = cell_at maze (X / 2, Y / 2))))
      in Ex.
    + destruct Ex as (Hs' & Hold & Hnew). split; [done|].
      intros X Y HX HY. destruct (decide (Y / 2 = y)) as [Heq|Hne].
      * apply Hnew; [lia|done].
      * apply Hold; [done|]. lia_div.
    + intros e x. by rewrite foldl_raise.
    + intros x g g' Hx (Hsg & Hold & Hnew) Eb.
      apply expand_block_spec in Eb as (element & Hm & Hin & Hout & Hsh);
        [|lia|lia].
      split; [auto|]. split.
      * intros X Y HX HY. rewrite Hout; [by apply Hold|]. simpl. lia_div.
      * intros X Y HX HY. destruct (decide (X / 2 = x)) as [Heq|Hne].
        -- rewrite Hin by done. by rewrite Heq, HY.
        -- rewrite Hout by (simpl; lia). apply Hnew; [lia_div|done].
    + done.
    + split; [done|]. split; [done|]. intros X Y HX. lia.
  - done.
  - split; [done|]. intros X Y _ HY. lia.
Qed.

(** *** The carving loop keeps what each of its turns keeps *)

Lemma carve_loop_ind (P : Carving -> Prop) rnd width height :
  (forall c cx cy c',
      head (c_stack c) = Some (cx, cy) -> P c ->
      carve_turn rnd width height c cx cy = Ok c' -> P c') ->
  forall fuel c c',
    carve_loop fuel rnd width height c = Some (Ok c') -> P c ->
    P c' /\ c_stack c' = [].
Proof.
  intros Hturn fuel. induction fuel as [|fuel IH]; simpl; intros c c' H HP.
  - destruct (c_stack c) as [|[cx cy] rest] eqn:Hs; [|done].
    injection H as <-. done.
  - destruct (c_stack c) as [|[cx cy] rest] eqn:Hs.
    { injection H as <-. done. }
    destruct (carve_turn rnd width height c cx cy) as [c1|] eqn:E; [|done].
    apply (IH c1 c' H). eapply Hturn; [|exact HP|exact E]. by rewrite Hs.
Qed.

Lemma carve_first_shape maze width height directions cx cy maze' next w h :
  carve_first maze width height directions cx cy = Ok (Some (maze', next)) ->
  shape maze w h -> shape maze' w h.
Proof.
  induction directions as [|[dy dx] rest IH]; simpl; [done|].
  destruct (utils.is_within_bounds _ _ _ _); [|done].
  destruct (cell_is maze _ _ WALL) as [[|]|]; simpl; [|done|done].
  destruct (py_setitem2 maze _ _ AIR) as [m1|] eqn:E1; simpl; [|done].
  destruct (py_setitem2 m1 _ _ HOLE) as [m2|] eqn:E2; simpl; [|done].
  intros [= <- <-] Hs. eapply py_setitem2_shape; [exact E2|].
  eapply py_setitem2_shape; [exact E1|done].
Qed.

Lemma carve_turn_shape rnd width height c cx cy c' w h :
  carve_turn rnd width height c cx cy = Ok c' ->
  shape (c_maze c) w h -> shape (c_maze c') w h.
Proof.
  unfold carve_turn.
  destruct (has_unvisited_neighbors _ _ _ _ _) as [[|]|]; simpl; [| |done].
  - destruct (py_setitem2 (c_maze c) cy cx AIR) as [m1|] eqn:E1; simpl; [|done].
    destruct (shuffle rnd _ _) as [directions drawn].
    destruct (carve_first m1 width height directions cx cy)
      as [[[m2 next]|]|] eqn:E2; simpl; [| |done].
    + intros [= <-] Hs. simpl. eapply carve_first_shape; [exact E2|].
      eapply py_setitem2_shape; [exact E1|done].
    + intros [= <-] Hs. simpl. eapply py_setitem2_shape; [exact E1|done].
  - intros [= <-]. done.
Qed.

Lemma carve_shape fuel rnd width height drawn maze n :
  carve fuel rnd width height drawn = Some (Ok (maze, n)) ->
  shape maze width height /\ 0 < width /\ 0 < height.
Proof.
  unfold carve. set (maze0 := replicate _ _).
  destruct (py_setitem2 maze0 _ _ AIR) as [m1|] eqn:E1; [|done].
  assert (0 < width /\ 0 < height) as [Hw Hh].
  { unfold py_setitem2 in E1.
    destruct (py_getitem maze0 (height ÷ 2)) as [row|] eqn:Hrow;
      simpl in E1; [|done].
    destruct (py_setitem row (width ÷ 2) AIR) as [row'|] eqn:Hrow';
      simpl in E1; [|done].
    apply py_getitem_elem in Hrow as [k Hk]. unfold maze0 in Hk.
    apply lookup_replicate in Hk as [-> Hk].
    unfold py_setitem in Hrow'.
    destruct (py_index _ _) as [j|] eqn:Hj; [|done].
    apply py_index_Some in Hj. rewrite length_replicate in Hj. lia. }
  assert (shape maze0 width height) as Hs0.
  { unfold maze0. split; [rewrite length_replicate; lia|].
    apply Forall_replicate. rewrite length_replicate. lia. }
  destruct (carve_loop _ _ _ _ _) as [[c|]|] eqn:El; [|done|done].
  destruct (py_setitem2 (c_maze c) _ _ HOLE) as [m2|] eqn:E2; simpl; [|done].
  intros [= <- <-]. split; [|done].
  eapply py_setitem2_shape; [exact E2|].
  apply (carve_loop_ind (fun c => shape (c_maze c) width height)) in El.
  - apply El.
  - intros ? ? ? ? _ ? ?. by eapply carve_turn_shape.
  - simpl. eapply py_setitem2_shape; [exact E1|done].
Qed.



(** *** The smoother leaves the border alone *)

Lemma smooth_cell_spec rnd p maze border width height y temp drawn x r :
  0 <= x -> 0 <= y -> border <= y < height - border ->
  smooth_cell rnd p maze border width height y (Ok (temp, drawn)) x = Ok r ->
  (forall w h, shape temp w h -> shape (fst r) w h)
  /\ (forall q, in_border border width height q ->
                cell_at (fst r) q = cell_at temp q).
Proof.
  intros Hx Hy0 Hy. unfold smooth_cell. cbn [rbind].
  destruct ((x <? border) || (x >=? width - border)) eqn:Hcol.
  { intros [= <-]. done. }
  assert (~ in_border border width height (x, y)) as Hin.
  { unfold in_border. simpl. lia. }
  destruct (py_getitem2 maze y x) as [element|]; cbn [rbind]; [|done].
  destruct (count_neighbors maze width height x y) as [[wall_count air_count]|];
    cbn [rbind]; [|done].
  destruct (if (wall_count >=? wall_neighbors p) && Cell_eqb element AIR
            then _ else _) as [first drawn1].
  assert (forall v (d' : nat) (r' : Maze * nat),
             (let* temp_maze := py_setitem2 temp y x v in Ok (temp_maze, d'))
             = Ok r' ->
             (forall w h, shape temp w h -> shape (fst r') w h)
             /\ (forall q, in_border border width height q ->
                           cell_at (fst r') q = cell_at temp q)) as Hset.
  { intros v d' r' E.
    destruct (py_setitem2 temp y x v) as [t1|] eqn:E1; simpl in E; [|done].
    injection E as <-. simpl.
    apply py_setitem2_spec in E1 as (_ & _ & Hsame & Hshape); [|lia|lia].
    split; [done|]. intros q Hq. apply Hsame. by intros ->. }
  destruct first; [apply Hset|].
  destruct (if (air_count >=? air_neighbors p) && Cell_eqb element WALL
            then _ else _) as [second drawn2].
  destruct second; [apply Hset|]. intros [= <-]. done.
Qed.

Lemma smooth_row_spec rnd p maze border width height temp drawn y r :
  0 <= y ->
  smooth_row rnd p maze border width height (Ok (temp, drawn)) y = Ok r ->
  (forall w h, shape temp w h -> shape (fst r) w h)
  /\ (forall q, in_border border width height q ->
                cell_at (fst r) q = cell_at temp q).
Proof.
  intros Hy. unfold smooth_row. cbn [rbind].
  destruct ((y <? border) || (y >=? height - border)) eqn:Hrow.
  { intros [= <-]. done. }
  destruct (py_getitem maze y) as [line|]; cbn [rbind]; [|done].
  intros E.
  apply (foldl_result_ind
           (fun a => (forall w h, shape temp w h -> shape (fst a) w h)
                     /\ (forall q, in_border border width height q ->
                                   cell_at (fst a) q = cell_at temp q)))
    with (a := (temp, drawn)) in E; [done|done| |done].
  intros [t d] x a' Hin [Hs Hc] Ea. apply elem_of_py_range in Hin.
  apply smooth_cell_spec in Ea as [Hs' Hc']; [|lia|lia|lia].
  simpl in *. split; [auto|]. intros q Hq. rewrite Hc' by done. auto.
Qed.

Lemma smooth_pass_spec rnd p m maze drawn i r :
  smooth_pass rnd p m (Ok (maze, drawn)) i = Ok r ->
  (forall w h, shape maze w h -> shape (fst r) w h)
  /\ (forall q, in_border (border_size m) (width m) (height m) q ->
                cell_at (fst r) q = cell_at maze q).
Proof.
  unfold smooth_pass. cbn [rbind]. intros E.
  apply (foldl_result_ind
           (fun a => (forall w h, shape maze w h -> shape (fst a) w h)
                     /\ (forall q,
                            in_border (border_size m) (width m) (height m) q ->
                            cell_at (fst a) q = cell_at maze q)))
    with (a := (maze, drawn)) in E; [done|done| |done].
  intros [t d] y a' Hin [Hs Hc] Ea. apply elem_of_py_range in Hin.
  apply smooth_row_spec in Ea as [Hs' Hc']; [|lia].
  simpl in *. split; [auto|]. intros q Hq. rewrite Hc' by done. auto.
Qed.

Lemma smooth_maze_spec rnd m maze p drawn r :
  smooth_maze rnd m maze p drawn = Ok r ->
  (forall w h, shape maze w h -> shape (fst r) w h)
  /\ (forall q, in_border (border_size m) (width m) (height m) q ->
                cell_at (fst r) q = cell_at maze q).
Proof.
  unfold smooth_maze. intros E.
  apply (foldl_result_ind
           (fun a => (forall w h, shape maze w h -> shape (fst a) w h)
                     /\ (forall q,
                            in_border (border_size m) (width m) (height m) q ->
                            cell_at (fst a) q = cell_at maze q)))
    with (a := (maze, drawn)) in E; [done|done| |done].
  intros [t d] i a' _ [Hs Hc] Ea.
  apply smooth_pass_spec in Ea as [Hs' Hc'].
  simpl in *. split; [auto|]. intros q Hq. rewrite Hc' by done. auto.
Qed.

Lemma smooth_maze_border rnd m maze p drawn maze' n :
  smooth_maze rnd m maze p drawn = Ok (maze', n) ->
  border_is_wall (border_size m) (width m) (height m) maze ->
  border_is_wall (border_size m) (width m) (height m) maze'.
Proof.
  intros E Hb x y Hx Hy Hin.
  apply smooth_maze_spec in E as [_ Hc]. simpl in Hc.
  rewrite Hc by done. by apply Hb.
Qed.

Lemma create_maze_spec fuel rnd m drawn maze n :
  0 <= border_size m ->
  create_maze fuel rnd m drawn = Some (Ok (maze, n)) ->
  shape maze (width m) (height m)
  /\ border_is_wall (border_size m) (width m) (height m) maze.
Proof.
  intros Hb. unfold create_maze.
  destruct (negb (fst (size m) mod 2 =? 0) || negb (snd (size m) mod 2 =? 0))
    eqn:Heven; [done|].
  destruct (negb (border_size m mod 2 =? 0)) eqn:Hbeven; [done|].
  destruct (carve fuel rnd (width m ÷ 2) (height m ÷ 2) drawn)
    as [[[maze0 drawn0]|]|] eqn:Hcarve; [|done|done].
  destruct (polish _ _ _ maze0) as [maze1|] eqn:Hpolish; simpl; [|done].
  destruct (expand _ _ maze1) as [final|] eqn:Hexpand; simpl; [|done].
  intros [= <- <-].
  apply carve_shape in Hcarve as (Hs0 & Hw & Hh).
  unfold width, height in *.
  assert (0 < snd (size m) /\ 0 < fst (size m)) as [HWpos HHpos].
  { split.
    - destruct (Z_lt_le_dec 0 (snd (size m))); [done|].
      pose proof (Z.quot_le_upper_bound (snd (size m)) 2 0). lia_div.
    - destruct (Z_lt_le_dec 0 (fst (size m))); [done|].
      pose proof (Z.quot_le_upper_bound (fst (size m)) 2 0). lia_div. }
  rewrite !Z.quot_div_nonneg in * by lia.
  apply polish_spec in Hpolish as [Hs1 Hwall]; [| lia_div |done].
  apply expand_spec in Hexpand as [Hsf Hcells]; [|done|lia].
  assert (snd (size m) `div` 2 * 2 = snd (size m)) as HW by lia_div.
  assert (fst (size m) `div` 2 * 2 = fst (size m)) as HH by lia_div.
  rewrite HW, HH in *. split; [done|].
  intros X Y HX HY Hin. rewrite Hcells by done.
  apply Hwall; [lia_div|lia_div|].
  unfold in_border in *. simpl in *. lia_div.
Qed.



(** C9: with a border thickness that is not negative, the maze that
    [__create_maze] returns has the size of the level and wall on every
    cell of its border margin; [__smooth_maze] returns a maze whose
    border cells are those it was given, hence wall again; so both mazes
    that [generate] hands to the classifier have a border of wall,
    whatever the random draws. *)
Theorem border_stays_wall (fuel : nat) (rnd : nat -> nat) (m : Map) :
  0 <= border_size m ->
  (forall drawn maze n,
      create_maze fuel rnd m drawn = Some (Ok (maze, n)) ->
      shape maze (width m) (height m)
      /\ border_is_wall (border_size m) (width m) (height m) maze)
  /\ (forall maze p drawn maze' n,
        smooth_maze rnd m maze p drawn = Ok (maze', n) ->
        (forall q, in_border (border_size m) (width m) (height m) q ->
                   cell_at maze' q = cell_at maze q)
        /\ (border_is_wall (border_size m) (width m) (height m) maze ->
            border_is_wall (border_size m) (width m) (height m) maze'))
  /\ (forall background_maze foreground_maze,
        generate_mazes fuel rnd m
        = Some (Ok (background_maze, foreground_maze)) ->
        border_is_wall (border_size m) 62 62 foreground_maze
        /\ border_is_wall (border_size m) 62 62 background_maze).
Proof.
  intros Hb. split; [|split].
  - intros drawn maze n. by apply create_maze_spec.
  - intros maze p drawn maze' n E. split.
    + apply smooth_maze_spec in E as [_ Hc]. exact Hc.
    + by eapply smooth_maze_border.
  - intros bg fg. unfold generate_mazes.
    set (m' := with_size m (31 * 2, 31 * 2)).
    destruct (create_maze fuel rnd m' 0) as [[[fg0 d0]|]|] eqn:E0;
      [|done|done].
    destruct (smooth_maze rnd m' fg0 _ d0) as [[fg1 d1]|] eqn:E1;
      cbn [rbind]; [|done].
    destruct (smooth_maze rnd m' fg1 _ d1) as [[fg2 d2]|] eqn:E2;
      cbn [rbind]; [|done].
    destruct (smooth_maze rnd m' fg2 _ d2) as [[bg3 d3]|] eqn:E3;
      cbn [rbind]; [|done].
    intros [= <- <-].
    apply create_maze_spec in E0 as [_ H0]; [|done].
    apply smooth_maze_border in E1; [|done].
    apply smooth_maze_border in E2; [|done].
    apply smooth_maze_border in E3; [|done].
    done.
Qed.

Lemma border_stays_wall_witness :
  shape maze8 8 8 /\ border_is_wall 2 8 8 maze8.
Proof.
  apply (proj1 (border_stays_wall
                  20 (replay [1; 0; 1; 2; 2; 0; 3; 1; 1]%nat) level8
                  ltac:(simpl; lia))
               0%nat maze8 9%nat).
  vm_compute. reflexivity.
Defined.

(** ** Maze carver: connectivity *)

Lemma reachable_mono maze maze' start p :
  (forall q, is_open maze q = true -> is_open maze' q = true) ->
  reachable maze start p -> reachable maze' start p.
Proof.
  intros Hsub Hr. induction Hr as [Hs | p q Hp IH Hadj Hq].
  - apply reach_start. auto.
  - eapply reach_step; eauto.
Qed.

Lemma is_open_inside maze width height p :
  shape maze width height -> is_open maze p = true ->
  0 <= fst p < width /\ 0 <= snd p < height.
Proof.
  intros Hs Ho. apply (cell_at_inside maze width height p Hs).
  unfold is_open in Ho. destruct (cell_at maze p); [eauto|done].
Qed.

(** Writing a cell that is not wall opens that cell and no other. *)
Lemma py_setitem2_open maze maze' x y v :
  0 <= x -> 0 <= y -> v <> WALL ->
  py_setitem2 maze y x v = Ok maze' ->
  forall p, is_open maze' p = true <-> (p = (x, y) \/ is_open maze p = true).
Proof.
  intros Hx Hy Hv E p.
  apply py_setitem2_spec in E as (_ & Hat & Hsame & _); [|done|done].
  unfold is_open. destruct (decide (p = (x, y))) as [->|Hne].
  - rewrite Hat. destruct v; [done| |]; simpl; tauto.
  - rewrite Hsame by done. tauto.
Qed.

Lemma connected_more maze maze' start :
  connected maze start ->
  (forall q, is_open maze q = true -> is_open maze' q = true) ->
  (forall q, is_open maze' q = true -> is_open maze q = false ->
             reachable maze' start q) ->
  connected maze' start.
Proof.
  intros Hc Hsub Hnew q Hq.
  destruct (is_open maze q) eqn:E.
  - eapply reachable_mono; [exact Hsub|]. by apply Hc.
  - by apply Hnew.
Qed.

Lemma swap_Forall {A} (P : A -> Prop) (l : list A) (i j : nat) :
  Forall P l -> Forall P (swap l i j).
Proof.
  intros H. unfold swap.
  destruct (l !! i) as [a|] eqn:Ei; [|done].
  destruct (l !! j) as [b|] eqn:Ej; [|done].
  rewrite Forall_lookup in H.
  apply Forall_insert; [apply Forall_insert; [by apply Forall_lookup|]|]; eauto.
Qed.

Lemma shuffle_from_Forall {A} (P : A -> Prop) rnd (i : nat) (l : list A) drawn :
  Forall P l -> Forall P (fst (shuffle_from rnd i l drawn)).
Proof.
  revert l drawn. induction i as [|i IH]; intros l drawn H; simpl; [done|].
  apply IH. by apply swap_Forall.
Qed.

Lemma shuffle_Forall {A} (P : A -> Prop) rnd (l : list A) drawn :
  Forall P l -> Forall P (fst (shuffle rnd l drawn)).
Proof. apply shuffle_from_Forall. Qed.

Section Carve.

Variables (rnd : nat -> nat) (width height : Z) (start : Z * Z).

Local Abbreviation ok := (carving_ok width height start).

(** Carving from an open cell, with the maze connected, leaves the maze
    connected and the new stack top open. *)
Lemma carve_first_connected maze directions cx cy maze' next :
  shape maze width height ->
  Forall unit_step directions ->
  is_open maze (cx, cy) = true ->
  is_open maze start = true ->
  connected maze start ->
  carve_first maze width height directions cx cy = Ok (Some (maze', next)) ->
  shape maze' width height
  /\ is_open maze' next = true
  /\ (forall q, is_open maze q = true -> is_open maze' q = true)
  /\ connected maze' start.
Proof.
  intros Hs Hd Hc Hst Hconn.
  induction directions as [|[dy dx] rest IH]; simpl; [done|].
  apply Forall_cons in Hd as [Hunit Hrest].
  destruct (utils.is_within_bounds _ _ _ _) eqn:Hb; [|by apply IH].
  apply is_within_bounds_spec in Hb.
  destruct (cell_is maze _ _ WALL) as [[|]|]; cbn [rbind]; [|by apply IH|done].
  destruct (py_setitem2 maze _ _ AIR) as [m1|] eqn:E1; cbn [rbind]; [|done].
  destruct (py_setitem2 m1 _ _ HOLE) as [m2|] eqn:E2; cbn [rbind]; [|done].
  intros [= <- <-].
  pose proof (is_open_inside _ _ _ _ Hs Hc) as [Hcx Hcy]. simpl in Hcx, Hcy.
  assert (0 <= cx + dx /\ 0 <= cy + dy) as [Hmx Hmy].
  { unfold unit_step in Hunit. simpl in Hunit. lia. }
  pose proof (py_setitem2_open _ _ _ _ AIR Hmx Hmy ltac:(done) E1) as Ho1.
  pose proof (py_setitem2_open _ _ _ _ HOLE (proj1 (proj1 Hb)) (proj1 (proj2 Hb))
                ltac:(done) E2) as Ho2.
  assert (forall q, is_open maze q = true -> is_open m2 q = true) as Hsub.
  { intros q Hq. apply Ho2. right. apply Ho1. by right. }
  split; [|split; [|split]].
  - eapply py_setitem2_shape; [exact E2|].
    eapply py_setitem2_shape; [exact E1|done].
  - apply Ho2. by left.
  - exact Hsub.
  - apply (connected_more maze); [done|done|].
    intros q Hq Hnot.
    assert (reachable m2 start (cx, cy)) as Hrc.
    { eapply reachable_mono; [exact Hsub|]. by apply Hconn. }
    assert (reachable m2 start (cx + dx, cy + dy)) as Hrm.
    { eapply reach_step; [exact Hrc| |].
      - unfold adjacent, unit_step in *. simpl in *. lia.
      - apply Ho2. right. apply Ho1. by left. }
    apply Ho2 in Hq as [-> | Hq].
    + eapply reach_step; [exact Hrm| |].
      * unfold adjacent, unit_step in *. simpl in *. lia.
      * apply Ho2. by left.
    + apply Ho1 in Hq as [-> | Hq]; [done|congruence].
Qed.

Lemma carve_first_none maze directions cx cy :
  forall r, carve_first maze width height directions cx cy = Ok r ->
            r = None \/ exists maze' next, r = Some (maze', next).
Proof. intros [[m n]|] _; eauto. Qed.

Lemma carve_turn_ok c cx cy c' :
  head (c_stack c) = Some (cx, cy) -> ok c ->
  carve_turn rnd width height c cx cy = Ok c' -> ok c'.
Proof.
  intros Hhead [Hs Hstack Hst Hconn Hdir]. unfold carve_turn.
  assert (is_open (c_maze c) (cx, cy) = true) as Hc.
  { destruct (c_stack c) as [|top rest]; [done|].
    injection Hhead as ->. by apply Forall_cons in Hstack as [? _]. }
  pose proof (is_open_inside _ _ _ _ Hs Hc) as [Hcx Hcy]. simpl in Hcx, Hcy.
  destruct (has_unvisited_neighbors _ _ _ _ _) as [[|]|]; cbn [rbind];
    [| |done].
  - destruct (py_setitem2 (c_maze c) cy cx AIR) as [m1|] eqn:E1;
      cbn [rbind]; [|done].
    pose proof (py_setitem2_open _ _ _ _ AIR (proj1 Hcx) (proj1 Hcy)
                  ltac:(done) E1) as Ho1.
    assert (forall q, is_open m1 q = true <-> is_open (c_maze c) q = true)
      as Hsame.
    { intros q. rewrite Ho1. split; [intros [-> | ?]; done|auto]. }
    assert (shape m1 width height) as Hs1
        by (eapply py_setitem2_shape; [exact E1|done]).
    assert (connected m1 start) as Hconn1.
    { intros q Hq. eapply reachable_mono; [apply Hsame|].
      by apply Hconn, Hsame. }
    destruct (shuffle rnd (c_directions c) (c_drawn c))
      as [directions drawn] eqn:Hsh.
    assert (Forall unit_step directions) as Hdir'.
    { pose proof (shuffle_Forall unit_step rnd _ (c_drawn c) Hdir) as H.
      by rewrite Hsh in H. }
    destruct (carve_first m1 width height directions cx cy)
      as [[[m2 next]|]|] eqn:E2; cbn [rbind]; [| |done].
    + intros [= <-].
      apply carve_first_connected in E2 as (Hs2 & Hnext & Hsub & Hconn2);
        try done; try by apply Hsame.
      split; simpl; try done.
      * apply Forall_cons. split; [done|].
        eapply Forall_impl; [exact Hstack|]. intros q Hq.
        by apply Hsub, Hsame.
      * by apply Hsub, Hsame.
    + intros [= <-]. split; simpl; try done.
      * eapply Forall_impl; [exact Hstack|]. intros q Hq. by apply Hsame.
      * by apply Hsame.
  - intros [= <-]. split; simpl; try done.
    destruct (c_stack c) as [|top rest]; [done|].
    by apply Forall_cons in Hstack as [_ ?].
Qed.

End Carve.

Lemma all_wall_closed (w h : nat) p :
  is_open (replicate h (replicate w WALL)) p = false.
Proof.
  unfold is_open, cell_at.
  destruct ((0 <=? fst p) && (0 <=? snd p)); [|done].
  destruct (replicate h (replicate w WALL) !! Z.to_nat (snd p)) as [row|] eqn:E;
    [|done].
  apply lookup_replicate in E as [-> _].
  destruct (replicate w WALL !! Z.to_nat (fst p)) as [c|] eqn:E; [|done].
  by apply lookup_replicate in E as [-> _].
Qed.

Lemma directions0_unit : Forall unit_step directions0.
Proof.
  unfold directions0, unit_step. repeat constructor; simpl; lia.
Qed.

(** The maze that the depth-first search leaves ("before the widening
    pass"): connected from the start cell. *)
Lemma carve_connected fuel rnd width height drawn maze n :
  carve fuel rnd width height drawn = Some (Ok (maze, n)) ->
  shape maze width height
  /\ is_open maze (width ÷ 2, height ÷ 2) = true
  /\ connected maze (width ÷ 2, height ÷ 2).
Proof.
  intros Hcarve. pose proof (carve_shape _ _ _ _ _ _ _ Hcarve) as (Hs & Hw & Hh).
  split; [done|]. revert Hcarve. unfold carve.
  set (start := (width ÷ 2, height ÷ 2)). set (maze0 := replicate _ _).
  destruct (py_setitem2 maze0 _ _ AIR) as [m1|] eqn:E1; [|done].
  assert (0 <= width ÷ 2 /\ 0 <= height ÷ 2) as [Hsx Hsy].
  { split; apply Z.quot_pos; lia. }
  pose proof (py_setitem2_open _ _ _ _ AIR Hsx Hsy ltac:(done) E1) as Ho1.
  destruct (carve_loop _ _ _ _ _) as [[c|]|] eqn:El; [|done|done].
  destruct (py_setitem2 (c_maze c) _ _ HOLE) as [m2|] eqn:E2; simpl; [|done].
  intros [= <- <-].
  pose proof (py_setitem2_open _ _ _ _ HOLE Hsx Hsy ltac:(done) E2) as Ho2.
  apply (carve_loop_ind (carving_ok width height start)) in El
    as [[_ _ Hst Hconn _] _].
  - assert (forall q, is_open m2 q = true <-> is_open (c_maze c) q = true)
      as Hsame.
    { intros q. rewrite Ho2. split; [intros [-> | ?]; done|auto]. }
    split; [by apply Hsame|].
    intros q Hq. eapply reachable_mono; [apply Hsame|]. by apply Hconn, Hsame.
  - intros c0 cx cy c' Hhead Hok Hturn. by eapply carve_turn_ok.
  - assert (forall q, is_open m1 q = true <-> q = start) as Hone.
    { intros q. rewrite Ho1. unfold maze0. rewrite all_wall_closed.
      split; [intros [? | ?]; done|auto]. }
    split; simpl.
    + eapply py_setitem2_shape; [exact E1|].
      unfold maze0. split; [rewrite length_replicate; lia|].
      apply Forall_replicate. rewrite length_replicate. lia.
    + repeat constructor. by apply Hone.
    + by apply Hone.
    + intros q Hq. apply Hone in Hq as ->. apply reach_start. by apply Hone.
    + apply directions0_unit.
Qed.

(** Walking from an open cell of a region that no open cell outside of
    it touches does not leave the region. *)
Lemma reachable_stays maze start (region : Z * Z -> bool) p :
  region start = true ->
  (forall a b, region a = true -> adjacent a b -> is_open maze b = true ->
               region b = true) ->
  reachable maze start p -> region p = true.
Proof.
  intros Hs Hclosed Hr. induction Hr as [_ | a b _ IH Hadj Hb]; eauto.
Qed.

(** C10 (as stated, refuted): on a level 8 wide and 24 high with border
    2, both even and 2 < min(8,24)/2, the run with the draws
    [draws8x24] carves a maze whose passage between rows 2 and 4 of the
    half-size grid runs through column 0. Forcing the border to wall
    closes that column: afterwards row 3 of the half-size maze (rows 6
    and 7 of the returned maze) is wall throughout, and the open cell
    (4, 2) of the returned maze cannot be reached from the start cell
    (4, 12). Before the pass every open cell could be reached. *)
Lemma border_cuts_the_maze :
  carve 40 (replay draws8x24) 4 12 0 = Some (Ok (carved8x24, 33%nat))
  /\ connected carved8x24 (2, 6)
  /\ polish 1 4 12 carved8x24 = Ok polished8x24
  /\ is_open polished8x24 (2, 1) = true
  /\ ~ reachable polished8x24 (2, 6) (2, 1)
  /\ create_maze 40 (replay draws8x24) level8x24 0
     = Some (Ok (maze8x24, 33%nat))
  /\ is_open maze8x24 (4, 12) = true
  /\ is_open maze8x24 (4, 2) = true
  /\ ~ reachable maze8x24 (4, 12) (4, 2)
  /\ ~ connected maze8x24 (4, 12).
Proof.
  assert (Hcarve : carve 40 (replay draws8x24) 4 12 0
                   = Some (Ok (carved8x24, 33%nat)))
    by (vm_compute; reflexivity).
  assert (Hhalf : ~ reachable polished8x24 (2, 6) (2, 1)).
  { intros Hr.
    apply (reachable_stays _ _ (fun q => 4 <=? snd q)) in Hr; [done|done|].
    intros [ax ay] [bx by_] Ha Hadj Hb. simpl in *.
    destruct (decide (4 <= by_)) as [|Hlow]; [lia|].
    assert (by_ = 3) as -> by (unfold adjacent in Hadj; simpl in Hadj; lia).
    exfalso. revert Hb. unfold is_open, cell_at. simpl.
    destruct (0 <=? bx) eqn:E; [|done]. simpl.
    destruct (decide (bx < 4)) as [Hlt|Hge].
    - assert (bx = 0 \/ bx = 1 \/ bx = 2 \/ bx = 3)
        as [-> | [-> | [-> | ->]]] by lia; done.
    - rewrite lookup_ge_None_2; [done|simpl; lia]. }
  assert (Hfull : ~ reachable maze8x24 (4, 12) (4, 2)).
  { intros Hr.
    apply (reachable_stays _ _ (fun q => 8 <=? snd q)) in Hr; [done|done|].
    intros [ax ay] [bx by_] Ha Hadj Hb. simpl in *.
    destruct (decide (8 <= by_)) as [|Hlow]; [lia|].
    assert (by_ = 7) as -> by (unfold adjacent in Hadj; simpl in Hadj; lia).
    exfalso. revert Hb. unfold is_open, cell_at. simpl.
    destruct (0 <=? bx) eqn:E; [|done]. simpl.
    destruct (decide (bx < 8)) as [Hlt|Hge].
    - assert (bx = 0 \/ bx = 1 \/ bx = 2 \/ bx = 3
              \/ bx = 4 \/ bx = 5 \/ bx = 6 \/ bx = 7)
        as [-> | [-> | [-> | [-> | [-> | [-> | [-> | ->]]]]]]] by lia; done.
    - rewrite lookup_ge_None_2; [done|simpl; lia]. }
  split; [exact Hcarve|].
  split; [by apply carve_connected in Hcarve as (_ & _ & ?)|].
  split; [vm_compute; reflexivity|]. split; [reflexivity|].
  split; [exact Hhalf|]. split; [vm_compute; reflexivity|].
  split; [reflexivity|]. split; [reflexivity|]. split; [exact Hfull|].
  intros Hconn. apply Hfull, Hconn. reflexivity.
Qed.

(** ** Maze carver: the border and widening pass, on a maze that the
    border does not cut *)

Lemma py_setitem2_wall_same maze maze' x y :
  0 <= x -> 0 <= y -> is_open maze (x, y) = false ->
  py_setitem2 maze y x WALL = Ok maze' ->
  forall p, is_open maze' p = is_open maze p.
Proof.
  intros Hx Hy Hclosed E p.
  apply py_setitem2_spec in E as (_ & Hat & Hsame & _); [|done|done].
  unfold is_open in *. destruct (decide (p = (x, y))) as [->|Hne].
  - by rewrite Hat, Hclosed.
  - by rewrite Hsame.
Qed.

Lemma cell_is_true maze x y cell :
  0 <= x -> 0 <= y -> cell_is maze x y cell = Ok true ->
  cell_at maze (x, y) = Some cell.
Proof.
  intros Hx Hy. rewrite cell_is_cell_at by done.
  destruct (cell_at maze (x, y)) as [c|]; [|done].
  intros [= H]. apply Cell_eqb_eq in H. by subst.
Qed.

Lemma cell_is_false_wall maze x y :
  0 <= x -> 0 <= y -> cell_is maze x y WALL = Ok false ->
  is_open maze (x, y) = true.
Proof.
  intros Hx Hy. rewrite cell_is_cell_at by done. unfold is_open.
  destruct (cell_at maze (x, y)) as [c|]; [|done].
  intros [= H]. by rewrite H.
Qed.

Section PolishConnected.

Variables (border width height : Z) (start : Z * Z).
Hypothesis border_nonneg : 0 <= border.

Local Abbreviation margin := (in_border border width height).
Local Abbreviation kept := (polish_ok border width height start).

Lemma same_open_kept maze maze' :
  kept maze -> shape maze' width height ->
  (forall p, is_open maze' p = is_open maze p) -> kept maze'.
Proof.
  intros [Hs Hst Hc Hin] Hs' Hsame. split.
  - done.
  - by rewrite Hsame.
  - intros p Hp. eapply reachable_mono.
    + intros q Hq. by rewrite Hsame.
    + apply Hc. by rewrite <- Hsame.
  - intros p Hp. apply Hin. by rewrite <- Hsame.
Qed.

(** One direction of the widening of the hole (x, y). A diagonal
    neighbor is opened next to the neighbor beside the hole in its
    column, which an earlier direction has opened. *)
Lemma widen_towards_kept x y maze d maze' :
  kept maze -> is_open maze (x, y) = true ->
  (unit_step d
   \/ ((fst d = 1 \/ fst d = -1) /\ (snd d = 1 \/ snd d = -1)
       /\ (~ margin (x + snd d, y) -> is_open maze (x + snd d, y) = true))) ->
  widen_towards border width height x y (Ok maze) d = Ok maze' ->
  kept maze'
  /\ (forall q, is_open maze q = true -> is_open maze' q = true)
  /\ (~ margin (x + snd d, y + fst d) ->
      is_open maze' (x + snd d, y + fst d) = true).
Proof.
  intros Hk Hxy Hd. pose proof Hk as [Hs Hst Hc Hin].
  pose proof (is_open_inside _ _ _ _ Hs Hxy) as [Hx Hy]. simpl in Hx, Hy.
  pose proof (Hin _ Hxy) as Hnb. unfold in_border in Hnb. simpl in Hnb.
  unfold widen_towards. destruct d as [dy dx]. simpl in Hd. cbn [rbind fst snd].
  assert (forall m1,
             (forall q, is_open m1 q = true <-> is_open maze q = true
                                                \/ (q = (x + dx, y + dy)
                                                    /\ ~ margin q)) ->
             shape m1 width height ->
             (~ margin (x + dx, y + dy) -> is_open m1 (x + dx, y + dy) = true) ->
             forall m2, py_setitem2 m1 y x AIR = Ok m2 ->
             kept m2
             /\ (forall q, is_open maze q = true -> is_open m2 q = true)
             /\ (~ margin (x + dx, y + dy) ->
                 is_open m2 (x + dx, y + dy) = true)) as Hfinish.
  { intros m1 Ho1 Hs1 Hn1 m2 E2.
    pose proof (py_setitem2_open _ _ _ _ AIR (proj1 Hx) (proj1 Hy)
                  ltac:(done) E2) as Ho2.
    assert (forall q, is_open maze q = true -> is_open m2 q = true) as Hsub.
    { intros q Hq. apply Ho2. right. apply Ho1. by left. }
    split; [|split].
    - split.
      + eapply py_setitem2_shape; [exact E2|done].
      + by apply Hsub.
      + apply (connected_more maze); [done|done|].
        intros q Hq Hnot.
        apply Ho2 in Hq as [-> | Hq]; [congruence|].
        apply Ho1 in Hq as [Hq | [-> Hq]]; [congruence|].
        assert (reachable m2 start (x, y)) as Hrxy.
        { eapply reachable_mono; [exact Hsub|]. by apply Hc. }
        assert (is_open m2 (x + dx, y + dy) = true) as Hopen.
        { apply Ho2. right. apply Ho1. right. done. }
        unfold in_border in Hq. simpl in Hq.
        destruct Hd as [Hunit | (Hdy & Hdx & Hside)].
        * eapply reach_step; [exact Hrxy| |done].
          unfold adjacent, unit_step in *. simpl in *. lia.
        * assert (reachable m2 start (x + dx, y)) as Hside'.
          { eapply reach_step; [exact Hrxy| |].
            - unfold adjacent. simpl. lia.
            - apply Hsub, Hside. unfold in_border. simpl. lia. }
          eapply reach_step; [exact Hside'| |done].
          unfold adjacent. simpl. lia.
      + intros q Hq. apply Ho2 in Hq as [-> | Hq].
        * unfold in_border. simpl. lia.
        * apply Ho1 in Hq as [Hq | [_ Hq]]; [by apply Hin|done].
    - done.
    - intros Hn. apply Ho2. right. by apply Hn1. }
  destruct (utils.is_within_bounds _ _ _ _) eqn:Hb.
  - apply is_within_bounds_spec in Hb.
    assert (~ margin (x + dx, y + dy)) as Hnm
        by (unfold in_border; simpl; lia).
    assert (0 <= x + dx /\ 0 <= y + dy) as [Hnx Hny] by lia.
    destruct (cell_is maze (x + dx) (y + dy) WALL) as [[|]|] eqn:Hw;
      cbn [rbind]; [| |done].
    + destruct (py_setitem2 maze (y + dy) (x + dx) AIR) as [m1|] eqn:E1;
        cbn [rbind]; [|done].
      pose proof (py_setitem2_open _ _ _ _ AIR Hnx Hny ltac:(done) E1) as Ho1.
      apply Hfinish.
      * intros q. rewrite Ho1. split; [intros [-> | ?]; auto|].
        intros [? | [-> _]]; auto.
      * eapply py_setitem2_shape; [exact E1|done].
      * intros _. apply Ho1. by left.
    + apply Hfinish; [|done|].
      * intros q. split; [auto|]. intros [? | [-> _]]; [done|].
        apply cell_is_false_wall in Hw; [done|lia|lia].
      * intros _. apply cell_is_false_wall in Hw; [done|lia|lia].
  - apply Hfinish; [|done|].
    + intros q. split; [auto|]. intros [? | [-> Hq]]; [done|].
      exfalso. apply Hq. unfold in_border. simpl.
      unfold utils.is_within_bounds in Hb. lia.
    + intros Hn. exfalso. apply Hn. unfold in_border. simpl.
      unfold utils.is_within_bounds in Hb. lia.
Qed.

(** The widening of a hole: the two directions along the row come
    first in [adjacent_directions], the diagonals after them. *)
Lemma widen_all_kept x y maze maze' :
  kept maze -> is_open maze (x, y) = true ->
  foldl (widen_towards border width height x y) (Ok maze) adjacent_directions
  = Ok maze' ->
  kept maze' /\ (forall q, is_open maze q = true -> is_open maze' q = true).
Proof.
  intros Hk Hxy. unfold adjacent_directions. cbn [foldl].
  destruct (widen_towards border width height x y (Ok maze) (0, 1))
    as [m1|] eqn:E1; [|by simpl].
  apply widen_towards_kept in E1 as (K1 & S1 & O1);
    [|done|done|left; unfold unit_step; simpl; lia].
  destruct (widen_towards border width height x y (Ok m1) (0, -1))
    as [m2|] eqn:E2; [|by simpl].
  apply widen_towards_kept in E2 as (K2 & S2 & O2);
    [|done|auto|left; unfold unit_step; simpl; lia].
  simpl in O1, O2. rewrite Z.add_0_r in O1, O2.
  assert (forall dx, dx = 1 \/ dx = -1 -> ~ margin (x + dx, y) ->
                     is_open m2 (x + dx, y) = true) as Hrow.
  { intros dx [-> | ->] Hn; auto. }
  clear O1 O2.
  assert (forall m d m',
             kept m -> (forall q, is_open m2 q = true -> is_open m q = true) ->
             d ∈ [(1, 0); (1, 1); (0, -1); (-1, 0); (-1, 1); (-1, -1)] ->
             widen_towards border width height x y (Ok m) d = Ok m' ->
             kept m' /\ (forall q, is_open m2 q = true -> is_open m' q = true))
    as Hstep.
  { intros m d m' Km Sm Hd E.
    apply widen_towards_kept in E as (K' & S' & _); [auto| done | auto |].
    rewrite !elem_of_cons, elem_of_nil in Hd.
    destruct Hd as [-> | [-> | [-> | [-> | [-> | [-> | []]]]]]]; simpl;
      try (left; unfold unit_step; simpl; lia);
      right; (split; [lia|]); (split; [lia|]); intros Hn;
      apply Sm, Hrow; auto. }
  intros E.
  apply (foldl_result_ind
           (fun m => kept m
                     /\ (forall q, is_open m2 q = true -> is_open m q = true))
           (widen_towards border width height x y)
           [(1, 0); (1, 1); (0, -1); (-1, 0); (-1, 1); (-1, -1)])
    with (a := m2) in E.
  - destruct E as [K' S']. auto.
  - done.
  - intros m d m' Hd [Km Sm] Em. by eapply Hstep.
  - auto.
Qed.

Lemma polish_cell_kept x y maze maze' :
  kept maze -> 0 <= x -> 0 <= y -> border <= y < height - border ->
  polish_cell border width height y (Ok maze) x = Ok maze' ->
  kept maze' /\ (forall q, is_open maze q = true -> is_open maze' q = true).
Proof.
  intros Hk Hx Hy0 Hy. unfold polish_cell. cbn [rbind].
  destruct ((x <? border) || (x >=? width - border)) eqn:Hcol.
  - intros E.
    assert (is_open maze (x, y) = false) as Hclosed.
    { destruct (is_open maze (x, y)) eqn:Ho; [|done].
      apply (pk_inside _ _ _ _ _ Hk) in Ho. exfalso. apply Ho.
      unfold in_border. simpl. lia. }
    pose proof (py_setitem2_wall_same _ _ _ _ Hx Hy0 Hclosed E) as Hsame.
    split.
    + eapply same_open_kept; [exact Hk| |exact Hsame].
      eapply py_setitem2_shape; [exact E|apply Hk].
    + intros q Hq. by rewrite Hsame.
  - destruct (cell_is maze x y HOLE) as [[|]|] eqn:Hh; cbn [rbind]; [| |done].
    + apply widen_all_kept; [done|].
      apply cell_is_true in Hh; [|done|done]. unfold is_open. by rewrite Hh.
    + intros [= <-]. done.
Qed.

Lemma polish_row_kept y maze maze' :
  kept maze -> 0 <= y < height ->
  polish_row border width height (Ok maze) y = Ok maze' ->
  kept maze' /\ (forall q, is_open maze q = true -> is_open maze' q = true).
Proof.
  intros Hk Hy. pose proof (pk_shape _ _ _ _ _ Hk) as Hshape.
  unfold polish_row. cbn [rbind].
  destruct ((y <? border) || (y >=? height - border)) eqn:Hrow.
  - rewrite py_setitem_nonneg by lia. destruct Hshape as [Hh Hw].
    assert ((y <? Z.of_nat (length maze)) = true) as -> by lia.
    intros [= <-].
    assert (0 <= width) as Hwidth.
    { destruct (lookup_lt_is_Some_2 maze (Z.to_nat y)) as [row Hr]; [lia|].
      rewrite Forall_lookup in Hw. specialize (Hw _ _ Hr). simpl in Hw. lia. }
    assert (forall p,
               is_open (<[Z.to_nat y := replicate (Z.to_nat width) WALL]> maze) p
               = is_open maze p) as Hsame.
    { intros [px py]. unfold is_open, cell_at. simpl.
      destruct ((0 <=? px) && (0 <=? py)) eqn:E; [|done].
      destruct (decide (py = y)) as [->|Hne].
      - rewrite list_lookup_insert_eq by lia.
        assert (is_open maze (px, y) = false) as Hclosed.
        { destruct (is_open maze (px, y)) eqn:Ho; [|done].
          apply (pk_inside _ _ _ _ _ Hk) in Ho. exfalso. apply Ho.
          unfold in_border. simpl. lia. }
        unfold is_open, cell_at in Hclosed. simpl in Hclosed.
        rewrite E in Hclosed. rewrite Hclosed.
        destruct (replicate (Z.to_nat width) WALL !! Z.to_nat px) as [c|] eqn:Ec;
          [|done].
        by apply lookup_replicate in Ec as [-> _].
      - rewrite list_lookup_insert_ne by lia. done. }
    split.
    + eapply same_open_kept; [exact Hk| |exact Hsame].
      split; [by rewrite length_insert|].
      apply Forall_insert; [done|]. rewrite length_replicate. lia.
    + intros q Hq. by rewrite Hsame.
  - rewrite py_getitem_nonneg by lia.
    destruct (maze !! Z.to_nat y) as [line|] eqn:Hline; cbn [rbind]; [|done].
    intros E.
    apply (foldl_result_ind
             (fun m => kept m
                       /\ (forall q, is_open maze q = true ->
                                     is_open m q = true)))
      with (a := maze) in E; [done|done| |done].
    intros m x m' Hin [Km Sm] Em. apply elem_of_py_range in Hin.
    apply polish_cell_kept in Em as [K' S']; [auto|done|lia|lia|lia].
Qed.

Lemma polish_kept maze maze' :
  kept maze ->
  polish border width height maze = Ok maze' ->
  kept maze' /\ (forall q, is_open maze q = true -> is_open maze' q = true).
Proof.
  intros Hk. unfold polish. intros E.
  assert (Z.of_nat (length maze) = height) as Hlen by apply Hk.
  apply (foldl_result_ind
           (fun m => kept m
                     /\ (forall q, is_open maze q = true ->
                                   is_open m q = true)))
    with (a := maze) in E; [done|done| |done].
  intros m y m' Hin [Km Sm] Em. apply elem_of_py_range in Hin.
  apply polish_row_kept in Em as [K' S']; [auto|done|lia].
Qed.

End PolishConnected.

(** ** Maze carver: connectivity of the full-size maze *)

Lemma expand_open width height maze final :
  shape maze width height -> 0 <= width ->
  expand width height maze = Ok final ->
  forall P, is_open final P = is_open maze (fst P / 2, snd P / 2).
Proof.
  intros Hs Hw E [X Y]. simpl.
  apply expand_spec in E as [Hsf Hcells]; [|done|done].
  unfold is_open.
  destruct (decide (0 <= X < width * 2 /\ 0 <= Y < height * 2)) as [[HX HY]|Hout].
  - by rewrite Hcells.
  - assert (cell_at final (X, Y) = None) as ->.
    { destruct (cell_at final (X, Y)) eqn:Ec; [|done].
      exfalso. apply Hout.
      by apply (cell_at_inside final (width * 2) (height * 2) (X, Y) Hsf). }
    assert (cell_at maze (X / 2, Y / 2) = None) as ->; [|done].
    destruct (cell_at maze (X / 2, Y / 2)) eqn:Ec; [|done].
    exfalso. apply Hout.
    assert (is_Some (cell_at maze (X / 2, Y / 2))) as Hsome by eauto.
    apply (cell_at_inside maze width height _ Hs) in Hsome. simpl in Hsome.
    lia_div.
Qed.

Section ExpandConnected.

Variables (maze final : Maze) (start : Z * Z).
Hypothesis expanded :
  forall P, is_open final P = is_open maze (fst P / 2, snd P / 2).

Local Abbreviation Start := (fst start * 2, snd start * 2).

(** Inside the 2x2 block of an open cell one walks freely. *)
Lemma reachable_in_block P Q :
  fst P / 2 = fst Q / 2 -> snd P / 2 = snd Q / 2 ->
  reachable final Start P -> reachable final Start Q.
Proof.
  destruct P as [px py], Q as [qx qy]. simpl. intros Hx Hy Hr.
  assert (is_open final (px, py) = true) as Hp by (by destruct Hr).
  assert (forall a b, a / 2 = px / 2 -> b / 2 = py / 2 ->
                      is_open final (a, b) = true) as Hblock.
  { intros a b Ha Hb. rewrite expanded in *. simpl in *. by rewrite Ha, Hb. }
  assert (reachable final Start (qx, py)) as Hmid.
  { destruct (decide (qx = px)) as [->|Hne]; [done|].
    eapply reach_step; [exact Hr| |apply Hblock; lia].
    unfold adjacent. simpl. lia_div. }
  destruct (decide (qy = py)) as [->|Hne]; [done|].
  eapply reach_step; [exact Hmid| |apply Hblock; lia].
  unfold adjacent. simpl. lia_div.
Qed.

Lemma reachable_expanded p :
  reachable maze start p ->
  forall P, fst P / 2 = fst p -> snd P / 2 = snd p ->
            reachable final Start P.
Proof.
  intros Hr. induction Hr as [Hs | p q Hp IH Hadj Hq]; intros [X Y] HX HY;
    simpl in *.
  - apply (reachable_in_block Start); simpl.
    + rewrite Z.div_mul by lia. done.
    + rewrite Z.div_mul by lia. done.
    + apply reach_start. rewrite expanded. simpl.
      by rewrite !Z.div_mul by lia; destruct start.
  - destruct p as [px py], q as [qx qy]. simpl in *.
    assert (forall a b, a / 2 = qx -> b / 2 = qy ->
                        is_open final (a, b) = true) as Hblock.
    { intros a b Ha Hb. rewrite expanded. simpl. by rewrite Ha, Hb. }
    assert (exists A B, (A / 2 = px /\ B / 2 = py)
                        /\ exists A' B', (A' / 2 = qx /\ B' / 2 = qy)
                                         /\ adjacent (A, B) (A', B'))
      as (A & B & [HA HB] & A' & B' & [HA' HB'] & Hstep).
    { unfold adjacent in *. simpl in *.
      destruct Hadj as [[-> [-> | ->]] | [-> [-> | ->]]].
      - exists (px * 2), (py * 2 + 1). split; [lia_div|].
        exists (px * 2), (py * 2 + 2). split; [lia_div|]. simpl. lia.
      - exists (px * 2), (py * 2). split; [lia_div|].
        exists (px * 2), (py * 2 - 1). split; [lia_div|]. simpl. lia.
      - exists (px * 2 + 1), (py * 2). split; [lia_div|].
        exists (px * 2 + 2), (py * 2). split; [lia_div|]. simpl. lia.
      - exists (px * 2), (py * 2). split; [lia_div|].
        exists (px * 2 - 1), (py * 2). split; [lia_div|]. simpl. lia. }
    apply (reachable_in_block (A', B')); simpl; [lia|lia|].
    eapply reach_step; [apply (IH (A, B)); done|done|by apply Hblock].
Qed.

Lemma expand_connected :
  is_open maze start = true -> connected maze start ->
  is_open final Start = true /\ connected final Start.
Proof.
  intros Hs Hc. split.
  - rewrite expanded. simpl. rewrite !Z.div_mul by lia. by destruct start.
  - intros P HP. rewrite expanded in HP.
    by apply (reachable_expanded _ (Hc _ HP)).
Qed.

End ExpandConnected.

(** ** Maze carver: where the search carves *)

Section CarveBox.

Variables (rnd : nat -> nat) (width height : Z) (start : Z * Z).
Variables (lox hix loy hiy : Z).
Hypothesis lox_nonneg : 0 <= lox.
Hypothesis loy_nonneg : 0 <= loy.
Hypothesis columns_boxed :
  forall x, 0 <= x < width -> (x - fst start) mod 2 = 0 -> lox <= x <= hix.
Hypothesis rows_boxed :
  forall y, 0 <= y < height -> (y - snd start) mod 2 = 0 -> loy <= y <= hiy.

Local Abbreviation the_box := (in_box lox hix loy hiy).
Local Abbreviation boxed := (carving_boxed start the_box).

Lemma carve_first_boxed maze directions cx cy maze' next :
  Forall unit_step directions ->
  (cx - fst start) mod 2 = 0 -> (cy - snd start) mod 2 = 0 ->
  the_box (cx, cy) ->
  (forall p, is_open maze p = true -> the_box p) ->
  carve_first maze width height directions cx cy = Ok (Some (maze', next)) ->
  ((fst next - fst start) mod 2 = 0 /\ (snd next - snd start) mod 2 = 0
   /\ the_box next)
  /\ (forall p, is_open maze' p = true -> the_box p).
Proof.
  intros Hd Hpx Hpy Hc Hopen.
  induction directions as [|[dy dx] rest IH]; simpl; [done|].
  apply Forall_cons in Hd as [Hunit Hrest].
  destruct (utils.is_within_bounds _ _ _ _) eqn:Hb; [|by apply IH].
  apply is_within_bounds_spec in Hb.
  destruct (cell_is maze _ _ WALL) as [[|]|]; cbn [rbind]; [|by apply IH|done].
  destruct (py_setitem2 maze _ _ AIR) as [m1|] eqn:E1; cbn [rbind]; [|done].
  destruct (py_setitem2 m1 _ _ HOLE) as [m2|] eqn:E2; cbn [rbind]; [|done].
  intros [= <- <-]. unfold in_box in Hc. simpl in Hc.
  assert ((cx + dx * 2 - fst start) mod 2 = 0
          /\ (cy + dy * 2 - snd start) mod 2 = 0) as [Hnx Hny] by lia_div.
  assert (the_box (cx + dx * 2, cy + dy * 2)) as Hn.
  { split; simpl; [apply columns_boxed|apply rows_boxed]; tauto. }
  assert (the_box (cx + dx, cy + dy)) as Hm.
  { unfold in_box, unit_step in *. simpl in *. lia. }
  assert (0 <= cx + dx /\ 0 <= cy + dy) as [Hmx Hmy]
      by (unfold in_box in Hm; simpl in Hm; lia).
  pose proof (py_setitem2_open _ _ _ _ AIR Hmx Hmy ltac:(done) E1) as Ho1.
  pose proof (py_setitem2_open _ _ _ _ HOLE (proj1 (proj1 Hb)) (proj1 (proj2 Hb))
                ltac:(done) E2) as Ho2.
  split; [done|]. intros p Hp.
  apply Ho2 in Hp as [-> | Hp]; [done|].
  apply Ho1 in Hp as [-> | Hp]; [done|auto].
Qed.

Lemma carve_turn_boxed c cx cy c' :
  head (c_stack c) = Some (cx, cy) -> boxed c ->
  carve_turn rnd width height c cx cy = Ok c' -> boxed c'.
Proof.
  intros Hhead [Hstack Hopen Hdir]. unfold carve_turn.
  assert ((cx - fst start) mod 2 = 0 /\ (cy - snd start) mod 2 = 0
          /\ the_box (cx, cy)) as (Hpx & Hpy & Hc).
  { destruct (c_stack c) as [|top rest]; [done|].
    injection Hhead as ->. by apply Forall_cons in Hstack as [? _]. }
  destruct (has_unvisited_neighbors _ _ _ _ _) as [[|]|]; cbn [rbind];
    [| |done].
  - destruct (py_setitem2 (c_maze c) cy cx AIR) as [m1|] eqn:E1;
      cbn [rbind]; [|done].
    assert (0 <= cx /\ 0 <= cy) as [Hcx Hcy]
        by (unfold in_box in Hc; simpl in Hc; lia).
    pose proof (py_setitem2_open _ _ _ _ AIR Hcx Hcy ltac:(done) E1) as Ho1.
    assert (forall p, is_open m1 p = true -> the_box p) as Hopen1.
    { intros p Hp. apply Ho1 in Hp as [-> | Hp]; auto. }
    destruct (shuffle rnd (c_directions c) (c_drawn c))
      as [directions drawn] eqn:Hsh.
    assert (Forall unit_step directions) as Hdir'.
    { pose proof (shuffle_Forall unit_step rnd _ (c_drawn c) Hdir) as H.
      by rewrite Hsh in H. }
    destruct (carve_first m1 width height directions cx cy)
      as [[[m2 next]|]|] eqn:E2; cbn [rbind]; [| |done].
    + intros [= <-].
      apply carve_first_boxed in E2 as [Hnext Hopen2]; try done.
      split; simpl; [|done|done]. by apply Forall_cons.
    + intros [= <-]. by split.
  - intros [= <-]. split; simpl; [|done|done].
    destruct (c_stack c) as [|top rest]; [done|].
    by apply Forall_cons in Hstack as [_ ?].
Qed.

Lemma carve_boxed fuel drawn maze n :
  start = (width ÷ 2, height ÷ 2) ->
  carve fuel rnd width height drawn = Some (Ok (maze, n)) ->
  forall p, is_open maze p = true -> the_box p.
Proof.
  intros Hstart Hcarve.
  pose proof (carve_shape _ _ _ _ _ _ _ Hcarve) as (Hs & Hw & Hh).
  revert Hcarve. unfold carve. set (maze0 := replicate _ _).
  destruct (py_setitem2 maze0 _ _ AIR) as [m1|] eqn:E1; [|done].
  assert (0 <= width ÷ 2 < width /\ 0 <= height ÷ 2 < height) as [Hsx Hsy].
  { rewrite !Z.quot_div_nonneg by lia. lia_div. }
  pose proof (py_setitem2_open _ _ _ _ AIR (proj1 Hsx) (proj1 Hsy)
                ltac:(done) E1) as Ho1.
  assert (the_box start) as Hbs.
  { subst start. split; simpl in *;
      [apply columns_boxed|apply rows_boxed]; try done;
      by rewrite Z.sub_diag. }
  destruct (carve_loop _ _ _ _ _) as [[c|]|] eqn:El; [|done|done].
  destruct (py_setitem2 (c_maze c) _ _ HOLE) as [m2|] eqn:E2; simpl; [|done].
  intros [= <- <-].
  pose proof (py_setitem2_open _ _ _ _ HOLE (proj1 Hsx) (proj1 Hsy)
                ltac:(done) E2) as Ho2.
  apply (carve_loop_ind boxed) in El as [[_ Hopen _] _].
  - intros p Hp. apply Ho2 in Hp as [-> | Hp]; [by subst start|auto].
  - intros c0 cx cy c' Hhead Hok Hturn. by eapply carve_turn_boxed.
  - split; simpl.
    + apply Forall_cons. split; [|constructor].
      subst start. simpl. by rewrite !Z.sub_diag.
    + intros p Hp. apply Ho1 in Hp as [-> | Hp]; [by subst start|].
      unfold maze0 in Hp. by rewrite all_wall_closed in Hp.
    + apply directions0_unit.
Qed.

End CarveBox.

(** ** Maze carver: the search ends *)

Lemma sum_list_insert (l : list nat) (k old new : nat) :
  l !! k = Some old -> (sum_list (<[k:=new]> l) + old = sum_list l + new)%nat.
Proof.
  revert k. induction l as [|a l IH]; intros [|k] H; simpl in *; try done.
  - injection H as ->. lia.
  - specialize (IH _ H). lia.
Qed.

Lemma py_setitem2_walls (maze maze' : Maze) (x y : Z) (v c : Cell) :
  0 <= x -> 0 <= y ->
  py_setitem2 maze y x v = Ok maze' ->
  cell_at maze (x, y) = Some c ->
  (walls maze' + wall_weight c = walls maze + wall_weight v)%nat.
Proof.
  intros Hx Hy. unfold py_setitem2.
  rewrite py_getitem_nonneg by done.
  destruct (maze !! Z.to_nat y) as [row|] eqn:Hrow; simpl; [|done].
  rewrite py_setitem_nonneg by done.
  destruct (x <? Z.of_nat (length row)) eqn:Ex; simpl; [|done].
  rewrite py_setitem_nonneg by done.
  pose proof (lookup_lt_Some _ _ _ Hrow) as Hlt.
  assert ((y <? Z.of_nat (length maze)) = true) as -> by lia.
  intros [= <-]. unfold cell_at. simpl.
  assert ((0 <=? x) && (0 <=? y) = true) as -> by lia.
  rewrite Hrow. intros Hc. unfold walls. rewrite !list_fmap_insert.
  pose proof (sum_list_insert
                ((fun row => sum_list (wall_weight <$> row)) <$> maze)
                (Z.to_nat y) (sum_list (wall_weight <$> row))
                (sum_list (<[Z.to_nat x := wall_weight v]> (wall_weight <$> row))))
    as H1.
  rewrite list_lookup_fmap, Hrow in H1. specialize (H1 eq_refl).
  pose proof (sum_list_insert (wall_weight <$> row) (Z.to_nat x)
                (wall_weight c) (wall_weight v)) as H2.
  rewrite list_lookup_fmap, Hc in H2. specialize (H2 eq_refl). lia.
Qed.

Lemma walls_replicate (w h : nat) :
  walls (replicate h (replicate w WALL)) = (h * w)%nat.
Proof.
  unfold walls. rewrite !fmap_replicate, !sum_list_replicate.
  unfold wall_weight. simpl. nia.
Qed.

Lemma swap_elem {A} (l : list A) (i j : nat) (x : A) :
  x ∈ l -> x ∈ swap l i j.
Proof.
  unfold swap. destruct (l !! i) as [a|] eqn:Hi; [|done].
  destruct (l !! j) as [b|] eqn:Hj; [|done].
  intros [k Hk]%list_elem_of_lookup.
  pose proof (lookup_lt_Some _ _ _ Hi). pose proof (lookup_lt_Some _ _ _ Hj).
  apply list_elem_of_lookup.
  destruct (decide (k = j)) as [->|Hkj].
  - destruct (decide (i = j)) as [->|Hij].
    + exists j. rewrite list_lookup_insert_eq by (rewrite length_insert; lia).
      congruence.
    + exists i. rewrite list_lookup_insert_ne by done.
      rewrite list_lookup_insert_eq by lia. congruence.
  - destruct (decide (k = i)) as [->|Hki].
    + exists j. rewrite list_lookup_insert_eq by (rewrite length_insert; lia).
      congruence.
    + exists k. by rewrite !list_lookup_insert_ne.
Qed.

Lemma shuffle_from_elem {A} rnd (i : nat) (l : list A) drawn (x : A) :
  x ∈ l -> x ∈ fst (shuffle_from rnd i l drawn).
Proof.
  revert l drawn. induction i as [|i IH]; intros l drawn H; simpl; [done|].
  apply IH. by apply swap_elem.
Qed.

Lemma shuffle_elem {A} rnd (l : list A) drawn (x : A) :
  x ∈ l -> x ∈ fst (shuffle rnd l drawn).
Proof. apply shuffle_from_elem. Qed.

Section CarveEnds.

Variables (rnd : nat -> nat) (width height : Z).

Local Abbreviation live := (carving_live width height).

(** A direction towards a cell of the maze, two steps away, that is
    still wall. *)
Local Abbreviation unvisited maze cx cy d :=
  (inside width height (cx + snd d * 2, cy + fst d * 2)
   /\ cell_at maze (cx + snd d * 2, cy + fst d * 2) = Some WALL).

Lemma cell_is_inside maze x y cell :
  shape maze width height -> inside width height (x, y) ->
  exists c, cell_at maze (x, y) = Some c
            /\ cell_is maze x y cell = Ok (Cell_eqb c cell).
Proof.
  intros Hs [Hx Hy]. simpl in *.
  destruct (proj2 (cell_at_inside maze width height (x, y) Hs)) as [c Hc];
    [done|].
  exists c. split; [done|]. rewrite cell_is_cell_at by lia. by rewrite Hc.
Qed.

Lemma has_unvisited_neighbors_spec maze directions cx cy :
  shape maze width height ->
  exists b,
    has_unvisited_neighbors maze width height directions (cx, cy) = Ok b
    /\ (b = true -> exists d, d ∈ directions /\ unvisited maze cx cy d).
Proof.
  intros Hs. induction directions as [|[dy dx] rest IH]; simpl.
  - exists false. done.
  - destruct IH as (b & Hb & Hsome).
    assert (exists b,
               has_unvisited_neighbors maze width height rest (cx, cy) = Ok b
               /\ (b = true ->
                   exists d, d ∈ (dy, dx) :: rest /\ unvisited maze cx cy d))
      as Hrest.
    { exists b. split; [done|]. intros Ht.
      destruct (Hsome Ht) as (d & Hd & Hu). exists d.
      split; [by apply list_elem_of_further|done]. }
    destruct (utils.is_within_bounds _ _ _ _) eqn:Hin; [|done].
    apply is_within_bounds_spec in Hin.
    destruct (cell_is_inside maze (cx + dx * 2) (cy + dy * 2) WALL Hs Hin)
      as (c & Hc & ->).
    cbn [rbind]. destruct (Cell_eqb c WALL) eqn:Hw; [|done].
    exists true. split; [done|]. intros _. exists (dy, dx).
    split; [apply list_elem_of_here|]. simpl.
    apply Cell_eqb_eq in Hw as ->. done.
Qed.

Lemma carve_first_progress maze directions cx cy :
  shape maze width height ->
  inside width height (cx, cy) ->
  Forall unit_step directions ->
  (exists d, d ∈ directions /\ unvisited maze cx cy d) ->
  exists maze' next,
    carve_first maze width height directions cx cy = Ok (Some (maze', next))
    /\ shape maze' width height
    /\ inside width height next
    /\ (walls maze' < walls maze)%nat.
Proof.
  intros Hs [Hcx Hcy] Hdir. simpl in Hcx, Hcy.
  induction directions as [|[dy dx] rest IH]; intros (d & Hd & Hu).
  { by apply elem_of_nil in Hd. }
  apply Forall_cons in Hdir as [Hunit Hrest]. simpl.
  destruct (utils.is_within_bounds _ _ _ _) eqn:Hin.
  - apply is_within_bounds_spec in Hin.
    destruct (cell_is_inside maze (cx + dx * 2) (cy + dy * 2) WALL Hs Hin)
      as (c & Hc & ->).
    cbn [rbind]. destruct (Cell_eqb c WALL) eqn:Hw.
    + apply Cell_eqb_eq in Hw as ->.
      assert (inside width height (cx + dx, cy + dy)) as Hmid.
      { destruct Hin. unfold inside. simpl in *. lia. }
      destruct (proj2 (cell_at_inside maze width height _ Hs) Hmid)
        as [cm Hcm].
      destruct (py_setitem2_inside maze (cx + dx) (cy + dy) AIR)
        as [m1 E1]; [by rewrite Hcm|].
      rewrite E1. cbn [rbind].
      destruct Hmid as [Hmx Hmy]. simpl in Hmx, Hmy.
      pose proof (py_setitem2_walls _ _ _ _ _ _ (proj1 Hmx) (proj1 Hmy) E1 Hcm)
        as Hw1.
      apply py_setitem2_spec in E1 as (_ & _ & Hsame1 & Hshape1); [|lia|lia].
      assert (cell_at m1 (cx + dx * 2, cy + dy * 2) = Some WALL) as Hc1.
      { rewrite Hsame1; [done|]. unfold unit_step in Hunit. simpl in Hunit.
        intros [= ? ?]. lia. }
      destruct (py_setitem2_inside m1 (cx + dx * 2) (cy + dy * 2) HOLE)
        as [m2 E2]; [by rewrite Hc1|].
      rewrite E2. cbn [rbind].
      destruct Hin as [Hnx Hny]. simpl in Hnx, Hny.
      pose proof (py_setitem2_walls _ _ _ _ _ _ (proj1 Hnx) (proj1 Hny) E2 Hc1)
        as Hw2.
      apply py_setitem2_spec in E2 as (_ & _ & _ & Hshape2); [|lia|lia].
      exists m2, (cx + dx * 2, cy + dy * 2).
      split; [done|]. split; [auto|]. split; [done|].
      unfold wall_weight in *. simpl in *. destruct (Cell_eqb cm WALL); lia.
    + apply IH; [done|]. exists d. split; [|done].
      apply elem_of_cons in Hd as [-> | Hd]; [|done].
      destruct Hu as [_ Hu]. simpl in Hu. rewrite Hc in Hu.
      injection Hu as ->. done.
  - apply IH; [done|]. exists d. split; [|done].
    apply elem_of_cons in Hd as [-> | Hd]; [|done].
    destruct Hu as [Hu _].
    apply (is_within_bounds_spec _ _ width height) in Hu. simpl in Hu.
    congruence.
Qed.

(** A turn of the loop does not raise, and leaves less to do. *)
Lemma carve_turn_progress c cx cy :
  head (c_stack c) = Some (cx, cy) -> live c ->
  exists c',
    carve_turn rnd width height c cx cy = Ok c'
    /\ live c' /\ (work_left c' < work_left c)%nat.
Proof.
  intros Hhead [Hs Hstack Hdir]. unfold carve_turn.
  destruct (c_stack c) as [|top rest] eqn:Hst; [done|].
  injection Hhead as ->. apply Forall_cons in Hstack as [Htop Hrest].
  destruct (has_unvisited_neighbors_spec (c_maze c) (c_directions c) cx cy Hs)
    as (b & -> & Hsome).
  cbn [rbind]. destruct b.
  - destruct (Hsome eq_refl) as (d & Hd & Hin & Hwall).
    destruct (proj2 (cell_at_inside (c_maze c) width height _ Hs) Htop)
      as [c0 Hc0].
    destruct (py_setitem2_inside (c_maze c) cx cy AIR) as [m1 E1];
      [by rewrite Hc0|].
    rewrite E1. cbn [rbind].
    destruct Htop as [Hcx Hcy]. simpl in Hcx, Hcy.
    pose proof (py_setitem2_walls _ _ _ _ _ _ (proj1 Hcx) (proj1 Hcy) E1 Hc0)
      as Hw1.
    apply py_setitem2_spec in E1 as (_ & Hair & Hsame1 & Hshape1); [|lia|lia].
    destruct (shuffle rnd (c_directions c) (c_drawn c))
      as [directions drawn] eqn:Hsh.
    assert (Forall unit_step directions) as Hdir'.
    { pose proof (shuffle_Forall unit_step rnd _ (c_drawn c) Hdir) as H.
      by rewrite Hsh in H. }
    assert (d ∈ directions) as Hd'.
    { pose proof (shuffle_elem rnd _ (c_drawn c) d Hd) as H.
      by rewrite Hsh in H. }
    destruct (carve_first_progress m1 directions cx cy)
      as (m2 & next & -> & Hs2 & Hnext & Hw2); auto.
    { done. }
    { exists d. split; [done|]. split; [done|].
      destruct (decide ((cx + snd d * 2, cy + fst d * 2) = (cx, cy)))
        as [Heq|Hne].
      - rewrite Forall_forall in Hdir. specialize (Hdir d Hd).
        unfold unit_step in Hdir. injection Heq as ? ?. lia.
      - by rewrite Hsame1. }
    cbn [rbind]. eexists. split; [done|]. split.
    + split; simpl; [done| |done].
      apply Forall_cons. split; [done|]. by apply Forall_cons.
    + unfold work_left. simpl. rewrite Hst. simpl.
      unfold wall_weight in Hw1. simpl in Hw1. lia.
  - eexists. split; [done|]. split.
    + split; simpl; done.
    + unfold work_left. simpl. rewrite Hst. simpl. lia.
Qed.

(** With fuel for the work that is left the loop runs to its end. *)
Lemma carve_loop_ends fuel c :
  live c -> (work_left c <= fuel)%nat ->
  exists c', carve_loop fuel rnd width height c = Some (Ok c') /\ live c'.
Proof.
  revert c. induction fuel as [|fuel IH]; intros c Hlive Hfuel; simpl.
  - destruct (c_stack c) as [|[cx cy] rest] eqn:Hst; [eauto|].
    unfold work_left in Hfuel. rewrite Hst in Hfuel. simpl in Hfuel. lia.
  - destruct (c_stack c) as [|[cx cy] rest] eqn:Hst; [eauto|].
    destruct (carve_turn_progress c cx cy) as (c1 & -> & Hlive1 & Hless);
      [by rewrite Hst|done|].
    apply IH; [done|lia].
Qed.

(** The search returns on every grid that has a cell, whatever is
    drawn, when given a turn for every two cells. *)
Lemma carve_ends fuel drawn :
  0 < width -> 0 < height ->
  (Z.to_nat (2 * width * height) <= fuel)%nat ->
  exists maze n, carve fuel rnd width height drawn = Some (Ok (maze, n)).
Proof.
  intros Hw Hh Hfuel. unfold carve. set (maze0 := replicate _ _).
  assert (shape maze0 width height) as Hs0.
  { unfold maze0. split; [rewrite length_replicate; lia|].
    apply Forall_replicate. rewrite length_replicate. lia. }
  assert (inside width height (width ÷ 2, height ÷ 2)) as Hstart.
  { unfold inside. simpl. rewrite !Z.quot_div_nonneg by lia. lia_div. }
  destruct (proj2 (cell_at_inside maze0 width height _ Hs0) Hstart)
    as [c0 Hc0].
  destruct (py_setitem2_inside maze0 (width ÷ 2) (height ÷ 2) AIR)
    as [m1 E1]; [by rewrite Hc0|].
  rewrite E1.
  destruct Hstart as [Hsx Hsy]. simpl in Hsx, Hsy.
  pose proof (py_setitem2_walls _ _ _ _ _ _ (proj1 Hsx) (proj1 Hsy) E1 Hc0)
    as Hw1.
  apply py_setitem2_spec in E1 as (_ & _ & _ & Hshape1); [|lia|lia].
  destruct (carve_loop_ends fuel
              (mkCarving m1 [(width ÷ 2, height ÷ 2)] directions0 drawn))
    as (c & -> & [Hs _ _]).
  - split; simpl; [auto| |apply directions0_unit].
    apply Forall_cons. split; [by split|constructor].
  - assert (wall_weight c0 = 1%nat) as Hone.
    { pose proof (all_wall_closed (Z.to_nat width) (Z.to_nat height)
                    (width ÷ 2, height ÷ 2)) as Hclosed.
      fold maze0 in Hclosed. unfold is_open in Hclosed.
      rewrite Hc0 in Hclosed. unfold wall_weight.
      by destruct (Cell_eqb c0 WALL). }
    unfold work_left. simpl. unfold maze0 in Hw1.
    rewrite walls_replicate, Hone in Hw1. unfold wall_weight in Hw1.
    simpl in Hw1. nia.
  - destruct (proj2 (cell_at_inside (c_maze c) width height
                                    (width ÷ 2, height ÷ 2) Hs))
      as [c1 Hc1]; [done|].
    destruct (py_setitem2_inside (c_maze c) (width ÷ 2) (height ÷ 2) HOLE)
      as [m2 ->]; [by rewrite Hc1|].
    simpl. eauto.
Qed.

End CarveEnds.

(** ** Maze carver: the border and expansion passes do not raise *)

Lemma foldl_result_total {A B} (P : A -> Prop)
    (f : result A -> B -> result A) (l : list B) :
  (forall a x, x ∈ l -> P a -> exists a', f (Ok a) x = Ok a' /\ P a') ->
  forall a, P a -> exists r, foldl f (Ok a) l = Ok r /\ P r.
Proof.
  induction l as [|x l IH]; simpl; intros Hstep a HP; [eauto|].
  destruct (Hstep a x (list_elem_of_here _ _) HP) as (a1 & -> & HP1).
  apply IH; [|done]. intros a' x' Hin. apply Hstep.
  by apply list_elem_of_further.
Qed.

Lemma py_setitem2_ends (maze : Maze) (x y : Z) (v : Cell) width height :
  shape maze width height -> inside width height (x, y) ->
  exists maze', py_setitem2 maze y x v = Ok maze' /\ shape maze' width height.
Proof.
  intros Hs Hin.
  destruct (py_setitem2_inside maze x y v) as [maze' E].
  { by apply (cell_at_inside maze width height). }
  exists maze'. split; [done|]. by eapply py_setitem2_shape.
Qed.

Section PolishEnds.

Variables border width height : Z.
Hypothesis border_nonneg : 0 <= border.

Lemma widen_towards_ends x y maze d :
  shape maze width height -> inside width height (x, y) ->
  exists maze',
    widen_towards border width height x y (Ok maze) d = Ok maze'
    /\ shape maze' width height.
Proof.
  intros Hs Hin. unfold widen_towards. destruct d as [dy dx]. cbn [rbind].
  assert (exists m1,
             (if utils.is_within_bounds (x + dx - border) (y + dy - border)
                   (width - border * 2) (height - border * 2)
              then
                let* wall := cell_is maze (x + dx) (y + dy) WALL in
                if wall then py_setitem2 maze (y + dy) (x + dx) AIR
                else Ok maze
              else Ok maze) = Ok m1
             /\ shape m1 width height) as (m1 & -> & Hs1).
  { destruct (utils.is_within_bounds _ _ _ _) eqn:Hb; [|eauto].
    apply is_within_bounds_spec in Hb.
    assert (inside width height (x + dx, y + dy)) as Hn.
    { unfold inside. simpl. lia. }
    destruct (cell_is_inside width height maze _ _ WALL Hs Hn)
      as (c & _ & ->).
    cbn [rbind]. destruct (Cell_eqb c WALL); [|eauto].
    by apply py_setitem2_ends. }
  cbn [rbind]. by apply py_setitem2_ends.
Qed.

Lemma polish_cell_ends y maze x :
  shape maze width height -> inside width height (x, y) ->
  exists maze',
    polish_cell border width height y (Ok maze) x = Ok maze'
    /\ shape maze' width height.
Proof.
  intros Hs Hin. unfold polish_cell. cbn [rbind].
  destruct ((x <? border) || (x >=? width - border)).
  { by apply py_setitem2_ends. }
  destruct (cell_is_inside width height maze _ _ HOLE Hs Hin) as (c & _ & ->).
  cbn [rbind]. destruct (Cell_eqb c HOLE); [|eauto].
  apply (foldl_result_total (fun maze => shape maze width height)); [|done].
  intros a d _ Ha. by apply widen_towards_ends.
Qed.

Lemma polish_row_ends maze y :
  shape maze width height -> 0 <= y < height ->
  exists maze',
    polish_row border width height (Ok maze) y = Ok maze'
    /\ shape maze' width height.
Proof.
  intros Hs Hy. unfold polish_row. cbn [rbind].
  pose proof Hs as [Hh Hw].
  destruct (lookup_lt_is_Some_2 maze (Z.to_nat y)) as [line Hline]; [lia|].
  destruct ((y <? border) || (y >=? height - border)).
  - rewrite py_setitem_nonneg by lia.
    assert ((y <? Z.of_nat (length maze)) = true) as -> by lia.
    eexists. split; [done|]. split; [by rewrite length_insert|].
    apply Forall_insert; [done|]. rewrite length_replicate.
    rewrite Forall_lookup in Hw. specialize (Hw _ _ Hline). simpl in Hw. lia.
  - rewrite py_getitem_nonneg, Hline by lia. cbn [rbind].
    apply (foldl_result_total (fun maze => shape maze width height)); [|done].
    intros a x Hx Ha. apply elem_of_py_range in Hx.
    apply polish_cell_ends; [done|].
    rewrite Forall_lookup in Hw. specialize (Hw _ _ Hline). simpl in Hw.
    unfold inside. simpl. lia.
Qed.

Lemma polish_ends maze :
  shape maze width height ->
  exists maze',
    polish border width height maze = Ok maze' /\ shape maze' width height.
Proof.
  intros Hs. unfold polish.
  apply (foldl_result_total (fun maze => shape maze width height)); [|done].
  intros a y Hy Ha. apply elem_of_py_range in Hy.
  apply polish_row_ends; [done|]. destruct Hs. lia.
Qed.

End PolishEnds.

Lemma expand_ends width height maze :
  shape maze width height -> 0 <= width ->
  exists final, expand width height maze = Ok final.
Proof.
  intros Hs Hw0. unfold expand. set (final0 := replicate _ _).
  pose proof Hs as [Hh Hw].
  assert (shape final0 (width * 2) (height * 2)) as Hs0.
  { unfold final0. split; [rewrite length_replicate; lia|].
    apply Forall_replicate. rewrite length_replicate. lia. }
  destruct (foldl_result_total
              (fun final => shape final (width * 2) (height * 2))
              (fun acc y =>
                 let* final_maze := acc in
                 let* line := py_getitem maze y in
                 foldl (fun acc x =>
                          foldl (expand_cell maze y x) acc expand_directions)
                       (Ok final_maze) (py_range 0 (Z.of_nat (length line))))
              (py_range 0 (Z.of_nat (length maze)))) with (a := final0)
    as (final & E & _); [|done|eauto].
  intros a y Hy Ha. apply elem_of_py_range in Hy. cbn [rbind].
  destruct (lookup_lt_is_Some_2 maze (Z.to_nat y)) as [line Hline]; [lia|].
  rewrite py_getitem_nonneg, Hline by lia. cbn [rbind].
  rewrite Forall_lookup in Hw. specialize (Hw _ _ Hline). simpl in Hw.
  apply (foldl_result_total
           (fun final => shape final (width * 2) (height * 2))); [|done].
  intros a1 x Hx Ha1. apply elem_of_py_range in Hx.
  apply (foldl_result_total
           (fun final => shape final (width * 2) (height * 2))); [|done].
  intros a2 [dy dx] Hd Ha2. unfold expand_cell. cbn [rbind].
  rewrite py_getitem2_cell_at by lia.
  destruct (proj2 (cell_at_inside maze width height (x, y) Hs)) as [c ->].
  { simpl. lia. }
  cbn [rbind]. apply py_setitem2_ends; [done|].
  unfold expand_directions in Hd. unfold inside. simpl.
  repeat (apply elem_of_cons in Hd as [[= -> ->] | Hd]; [lia|]).
  by apply elem_of_nil in Hd.
Qed.

(** ** Maze carver: the maze that [__create_maze] returns *)

Lemma create_maze_inv fuel rnd m drawn maze n :
  create_maze fuel rnd m drawn = Some (Ok (maze, n)) ->
  exists carved polished,
    carve fuel rnd (width m ÷ 2) (height m ÷ 2) drawn = Some (Ok (carved, n))
    /\ polish (border_size m ÷ 2) (width m ÷ 2) (height m ÷ 2) carved
       = Ok polished
    /\ expand (width m ÷ 2) (height m ÷ 2) polished = Ok maze
    /\ fst (size m) mod 2 = 0 /\ snd (size m) mod 2 = 0
    /\ border_size m mod 2 = 0.
Proof.
  unfold create_maze.
  destruct (negb (fst (size m) mod 2 =? 0) || negb (snd (size m) mod 2 =? 0))
    eqn:Heven; [done|].
  destruct (negb (border_size m mod 2 =? 0)) eqn:Hbeven; [done|].
  destruct (carve fuel rnd (width m ÷ 2) (height m ÷ 2) drawn)
    as [[[maze0 drawn0]|]|] eqn:Hcarve; [|done|done].
  destruct (polish _ _ _ maze0) as [maze1|] eqn:Hpolish; simpl; [|done].
  destruct (expand _ _ maze1) as [final|] eqn:Hexpand; simpl; [|done].
  intros [= <- <-]. exists maze0, maze1. repeat split; try done; lia.
Qed.

Lemma create_maze_ends fuel rnd m drawn :
  0 < width m -> 0 < height m ->
  width m mod 2 = 0 -> height m mod 2 = 0 ->
  0 <= border_size m -> border_size m mod 2 = 0 ->
  (Z.to_nat (width m * height m) <= fuel)%nat ->
  exists maze n, create_maze fuel rnd m drawn = Some (Ok (maze, n)).
Proof.
  intros HW HH HWe HHe Hb Hbe Hfuel. unfold create_maze.
  unfold width, height in *.
  assert (negb (fst (size m) mod 2 =? 0) || negb (snd (size m) mod 2 =? 0)
          = false) as -> by lia.
  assert (negb (border_size m mod 2 =? 0) = false) as -> by lia.
  set (w := snd (size m) ÷ 2). set (h := fst (size m) ÷ 2).
  assert (snd (size m) = 2 * w /\ fst (size m) = 2 * h) as [Ew Eh].
  { unfold w, h. rewrite !Z.quot_div_nonneg by lia. lia_div. }
  destruct (carve_ends rnd w h fuel drawn) as (carved & n & Hcarve);
    [lia|lia|nia|].
  rewrite Hcarve.
  apply carve_shape in Hcarve as (Hs & _ & _).
  destruct (polish_ends (border_size m ÷ 2) w h) with (maze := carved)
    as (polished & -> & Hs1); [apply Z.quot_pos; lia|done|].
  cbn [rbind].
  destruct (expand_ends w h polished) as (final & ->); [done|lia|].
  cbn [rbind]. eauto.
Qed.

(** Without a border, and with a border of 2 on a level whose width and
    height leave 6 when divided by 8 (62 does), the search carves no
    cell of the border margin. *)
Lemma carve_clear_of_border fuel rnd m drawn carved k :
  carve fuel rnd (width m ÷ 2) (height m ÷ 2) drawn = Some (Ok (carved, k)) ->
  border_size m = 0
  \/ (border_size m = 2 /\ width m mod 8 = 6 /\ height m mod 8 = 6) ->
  forall p, is_open carved p = true ->
            ~ in_border (border_size m ÷ 2) (width m ÷ 2) (height m ÷ 2) p.
Proof.
  intros Hcarve Hsize p Hp.
  pose proof (carve_shape _ _ _ _ _ _ _ Hcarve) as (_ & Hw & Hh).
  set (w := width m ÷ 2) in *. set (h := height m ÷ 2) in *.
  set (b := border_size m ÷ 2).
  assert (0 < width m /\ 0 < height m) as [HW HH].
  { split.
    - destruct (Z_lt_le_dec 0 (width m)); [done|].
      pose proof (Z.quot_le_upper_bound (width m) 2 0). lia.
    - destruct (Z_lt_le_dec 0 (height m)); [done|].
      pose proof (Z.quot_le_upper_bound (height m) 2 0). lia. }
  assert (in_box b (w - 1 - b) b (h - 1 - b) p) as Hbox.
  { apply (carve_boxed rnd w h (w ÷ 2, h ÷ 2) b (w - 1 - b) b (h - 1 - b))
      with (fuel := fuel) (drawn := drawn) (maze := carved) (n := k);
      try done.
    - unfold b. apply Z.quot_pos; lia.
    - unfold b. apply Z.quot_pos; lia.
    - intros x Hx Hpar. simpl in Hpar. unfold b, w in *.
      rewrite !Z.quot_div_nonneg in * by lia.
      lia_div.
    - intros y Hy Hpar. simpl in Hpar. unfold b, h in *.
      rewrite !Z.quot_div_nonneg in * by lia.
      lia_div. }
  unfold in_box, in_border in *. lia.
Qed.

(** When forcing the border to wall closes no cell that the search has
    carved, the maze stays connected through the border pass and
    through the expansion. *)
Lemma passes_keep_connected border width height start carved polished final :
  0 <= border -> 0 <= width ->
  shape carved width height ->
  is_open carved start = true -> connected carved start ->
  (forall p, is_open carved p = true -> ~ in_border border width height p) ->
  polish border width height carved = Ok polished ->
  expand width height polished = Ok final ->
  (is_open polished start = true /\ connected polished start)
  /\ (is_open final (fst start * 2, snd start * 2) = true
      /\ connected final (fst start * 2, snd start * 2)).
Proof.
  intros Hb Hw Hs Hst Hconn Hclear Hpolish Hexpand.
  apply polish_kept with (start := start) in Hpolish
    as [[Hs1 Hst1 Hconn1 _] _]; [|done|by split].
  split; [done|].
  pose proof (expand_open _ _ _ _ Hs1 Hw Hexpand) as Hopen.
  by apply (expand_connected polished final start Hopen).
Qed.

(** C10 (amended): on a level of even width and height, both positive,
    with an even border thickness that is not negative, [__create_maze]
    returns a maze whatever is drawn, given a turn of the search loop
    for every cell of the level. The half-size maze that the depth-first
    search leaves, before the border and widening pass, has its start
    cell open and every open cell reachable from it. When no cell that
    the search carved lies in the border margin, the same holds of the
    half-size maze after that pass and of the full-size maze that is
    returned, from the block of the start cell. No carved cell lies in
    the border margin when the border is 0, and when it is 2 and width
    and height both leave 6 when divided by 8. *)
Theorem search_leaves_one_maze
    (fuel : nat) (rnd : nat -> nat) (m : Map) (drawn : nat) :
  0 < width m -> 0 < height m ->
  width m mod 2 = 0 -> height m mod 2 = 0 ->
  0 <= border_size m -> border_size m mod 2 = 0 ->
  (Z.to_nat (width m * height m) <= fuel)%nat ->
  let w := width m ÷ 2 in
  let h := height m ÷ 2 in
  let b := border_size m ÷ 2 in
  let start := (w ÷ 2, h ÷ 2) in
  exists carved polished maze n,
    carve fuel rnd w h drawn = Some (Ok (carved, n))
    /\ polish b w h carved = Ok polished
    /\ expand w h polished = Ok maze
    /\ create_maze fuel rnd m drawn = Some (Ok (maze, n))
    /\ is_open carved start = true
    /\ connected carved start
    /\ ((forall p, is_open carved p = true -> ~ in_border b w h p) ->
        (is_open polished start = true /\ connected polished start)
        /\ (is_open maze (fst start * 2, snd start * 2) = true
            /\ connected maze (fst start * 2, snd start * 2)))
    /\ (border_size m = 0
        \/ (border_size m = 2 /\ width m mod 8 = 6 /\ height m mod 8 = 6) ->
        forall p, is_open carved p = true -> ~ in_border b w h p).
Proof.
  intros HW HH HWe HHe Hb Hbe Hfuel w h b start.
  destruct (create_maze_ends fuel rnd m drawn) as (maze & n & Hcreate);
    try done.
  pose proof (create_maze_inv _ _ _ _ _ _ Hcreate)
    as (carved & polished & Hcarve & Hpolish & Hexpand & _).
  exists carved, polished, maze, n.
  pose proof (carve_connected _ _ _ _ _ _ _ Hcarve) as (Hs & Hst & Hconn).
  repeat (split; [done|]). split.
  - intros Hclear.
    apply (passes_keep_connected b w h start carved); try done.
    + apply Z.quot_pos; lia.
    + apply Z.quot_pos; lia.
  - intros Hsize. by apply (carve_clear_of_border fuel rnd m drawn carved n).
Qed.

(** A level 14 wide and 14 high with a border of 2, and the run that
    draws 0, 1, 2, ... *)
Lemma search_leaves_one_maze_witness :
  let w := width level14 ÷ 2 in
  let h := height level14 ÷ 2 in
  let b := border_size level14 ÷ 2 in
  let start := (w ÷ 2, h ÷ 2) in
  exists carved polished maze n,
    carve 196 id w h 0 = Some (Ok (carved, n))
    /\ polish b w h carved = Ok polished
    /\ expand w h polished = Ok maze
    /\ create_maze 196 id level14 0 = Some (Ok (maze, n))
    /\ is_open carved start = true
    /\ connected carved start
    /\ ((forall p, is_open carved p = true -> ~ in_border b w h p) ->
        (is_open polished start = true /\ connected polished start)
        /\ (is_open maze (fst start * 2, snd start * 2) = true
            /\ connected maze (fst start * 2, snd start * 2)))
    /\ (border_size level14 = 0
        \/ (border_size level14 = 2
            /\ width level14 mod 8 = 6 /\ height level14 mod 8 = 6) ->
        forall p, is_open carved p = true -> ~ in_border b w h p).
Proof.
  apply (search_leaves_one_maze 196 id level14 0);
    first [vm_compute; reflexivity | simpl; lia].
Defined.

(** ** Maze smoother: the neighbor count *)

(** C2: the list of directions of [__smooth_maze] names the west
    neighbor (0, -1) twice and the south-west neighbor (1, -1) never.
    Around the cell (12, 9) of [one_room] the only air is its south-west
    neighbor (11, 10): the code counts 8 walls and no air, the eight
    distinct neighbors are 7 walls and 1 air. *)
Theorem smoother_counts_west_twice :
  length adjacent_directions = 8%nat
  /\ length (filter (fun d => d = (0, -1)) adjacent_directions) = 2%nat
  /\ ((1, -1) ∉ adjacent_directions)
  /\ count_neighbors one_room 62 62 12 9 = Ok (8, 0)
  /\ count_neighbors_spec one_room 62 62 12 9 = Ok (7, 1).
Proof.
  split; [reflexivity|]. split; [reflexivity|]. split.
  - unfold adjacent_directions. rewrite !elem_of_cons, elem_of_nil.
    intros H. repeat (destruct H as [[=] | H]). exact H.
  - split; vm_compute; reflexivity.
Qed.

(** ** Movement engine *)

Lemma Qeq_bool_zero_iff (q : Q) : Qeq_bool q 0 = true <-> q == 0.
Proof. apply Qeq_bool_iff. Qed.

Lemma Qabs_mult_zero_r (a d : Q) : d == 0 -> Qred (Qabs (a * d)) == 0.
Proof.
  intros Hd. rewrite Qred_correct, Hd, Qmult_0_r. reflexivity.
Qed.

Lemma Qabs_mult_zero_l (a d : Q) : a == 0 -> Qred (Qabs (a * d)) == 0.
Proof.
  intros Ha. rewrite Qred_correct, Ha, Qmult_0_l. reflexivity.
Qed.

Lemma sum_squares_zero (a b : Q) : a * a + b * b == 0 -> a == 0 /\ b == 0.
Proof.
  destruct a as [an ad], b as [bn bd]. unfold Qeq, Qplus, Qmult. simpl.
  intros H. split; nia.
Qed.

Lemma magnitude_squared_zero (v : Vector2) :
  magnitude_squared v == 0 <-> vx v == 0 /\ vy v == 0.
Proof.
  unfold magnitude_squared. rewrite Qred_correct. split.
  - apply sum_squares_zero.
  - intros [Hx Hy]. rewrite Hx, Hy. reflexivity.
Qed.

Lemma magnitude_squared_of_zero (a b : Q) :
  a == 0 -> b == 0 -> Qeq_bool (magnitude_squared (mkVector2 a b)) 0 = true.
Proof.
  intros Ha Hb. apply Qeq_bool_zero_iff, magnitude_squared_zero. simpl. done.
Qed.

Lemma ceiling_pos (q : Q) : (0 < q)%Q -> 1 <= Qceiling q.
Proof.
  intros Hq. pose proof (Qle_ceiling q) as Hc.
  assert (inject_Z 0 < inject_Z (Qceiling q))%Q as H.
  { change (inject_Z 0) with 0%Q. lra. }
  rewrite <- Zlt_Qlt in H. lia.
Qed.

Lemma ceiling_le_Z (q : Q) (z : Z) : (q <= inject_Z z)%Q -> Qceiling q <= z.
Proof.
  intros H. apply Qceiling_resp_le in H. by rewrite Qceiling_Z in H.
Qed.

(** Walking one stride [k] of a distance [x], or giving the distance up,
    takes at least one stride off the count. *)
Lemma strides_drop (k x x' : Q) :
  (0 < k)%Q -> (0 < x)%Q ->
  (x' == 0 \/ (x' == x - k /\ 0 <= x - k))%Q ->
  (Z.to_nat (Qceiling (x' / k)) < Z.to_nat (Qceiling (x / k)))%nat.
Proof.
  intros Hk Hx Hx'.
  assert (1 <= Qceiling (x / k)) as Hc.
  { apply ceiling_pos. apply Qlt_shift_div_l; lra. }
  assert (Qceiling (x' / k) <= Qceiling (x / k) - 1) as Hc'.
  { apply ceiling_le_Z. pose proof (Qle_ceiling (x / k)) as Hle.
    assert (inject_Z (Qceiling (x / k) - 1) == inject_Z (Qceiling (x / k)) - 1)%Q
      as ->.
    { unfold Z.sub. rewrite inject_Z_plus. reflexivity. }
    assert (1 <= inject_Z (Qceiling (x / k)))%Q as H1.
    { change 1%Q with (inject_Z 1). rewrite <- Zle_Qle. lia. }
    destruct Hx' as [E | [E Hge]]; rewrite E.
    - assert (0 / k == 0)%Q as -> by (field; lra). lra.
    - assert ((x - k) / k == x / k - 1)%Q as -> by (field; lra). lra. }
  lia.
Qed.

Lemma Qabs_pos_of_nonzero (q : Q) : ~ q == 0 -> (0 < Qabs q)%Q.
Proof. intros Hq. apply Qabs_case; intros; lra. Qed.

Lemma Qltb_false (a b : Q) : Qltb a b = false <-> (b <= a)%Q.
Proof.
  unfold Qltb. rewrite negb_false_iff. apply Qle_bool_iff.
Qed.

Lemma Qeq_bool_false (a b : Q) : Qeq_bool a b = false <-> ~ a == b.
Proof.
  split.
  - intros H E. apply Qeq_bool_iff in E. congruence.
  - intros H. destruct (Qeq_bool a b) eqn:E; [|done].
    apply Qeq_bool_iff in E. contradiction.
Qed.

Section MovementFacts.

Variable normalize : Vector2 -> Vector2.
Variable iter_order : gset nat -> list nat.
Variable _get_entities : MovingSprite -> list Entity.

Local Abbreviation move := (_move normalize iter_order _get_entities).
Local Abbreviation loop := (move_loop iter_order _get_entities).
Local Abbreviation horizontal_part := (move_horizontal iter_order _get_entities).
Local Abbreviation vertical_part := (move_vertical iter_order _get_entities).
Local Abbreviation colision := (__colision iter_order).
Local Abbreviation check_hit := (_check_hit _get_entities).

Lemma move_loop_done fuel game_map direction step st :
  Qeq_bool (magnitude_squared (distance_to_walk st)) 0 = true ->
  loop fuel game_map direction step st = Some (Ok st).
Proof. intros H. destruct fuel; simpl; rewrite H; reflexivity. Qed.

(** C7: with distance 0, or with a direction of zero magnitude, [_move]
    returns False at once, whatever the fuel, and the sprite (position,
    collider, hitbox) is the one it was given. *)
Theorem move_by_nothing_is_a_no_op
    (fuel : nat) (game_map : Map) (self : MovingSprite)
    (distance : Q) (direction : Vector2) :
  distance == 0 \/ magnitude_squared direction == 0 ->
  move fuel game_map self distance direction = Some (Ok (false, self)).
Proof.
  intros Hzero. unfold _move, move_setup.
  set (d := if Qltb 0 (magnitude_squared direction) then _ else _).
  assert (Hw : Qeq_bool (magnitude_squared
             (mkVector2 (Qred (Qabs (vx d * distance)))
                        (Qred (Qabs (vy d * distance))))) 0 = true).
  { destruct Hzero as [Hd | Hm].
    - apply magnitude_squared_of_zero; by apply Qabs_mult_zero_r.
    - assert (d = direction) as ->.
      { unfold d, Qltb. rewrite Hm. reflexivity. }
      apply magnitude_squared_zero in Hm as [Hx Hy].
      apply magnitude_squared_of_zero; by apply Qabs_mult_zero_l. }
  rewrite move_loop_done by exact Hw. reflexivity.
Qed.

(** *** What one pass over the obstacles does to the sprite *)

Lemma colision_tile_false game_map axis move_dir self t self' :
  colision_tile game_map axis move_dir (self, false) t = (self', false) ->
  self' = self.
Proof.
  unfold colision_tile. simpl.
  destruct (tiles game_map !! t) as [tile|]; [|congruence].
  destruct axis.
  - destruct (colliderect _ _); [|congruence].
    destruct (Qltb 0 (vx move_dir)); [congruence|].
    destruct (Qltb (vx move_dir) 0); congruence.
  - destruct (t_collidable tile && colliderect _ _); [|congruence].
    destruct (Qltb 0 (vy move_dir)); [congruence|].
    destruct (Qltb (vy move_dir) 0); congruence.
Qed.

Lemma colision_tile_true game_map axis move_dir self t :
  snd (colision_tile game_map axis move_dir (self, true) t) = true.
Proof.
  unfold colision_tile. simpl.
  destruct (tiles game_map !! t) as [tile|]; [|done].
  destruct axis.
  - destruct (colliderect _ _); [|done].
    destruct (Qltb 0 (vx move_dir)); [done|].
    destruct (Qltb (vx move_dir) 0); done.
  - destruct (t_collidable tile && colliderect _ _); [|done].
    destruct (Qltb 0 (vy move_dir)); [done|].
    destruct (Qltb (vy move_dir) 0); done.
Qed.

Lemma colision_fold_false game_map axis move_dir ts self self' :
  foldl (colision_tile game_map axis move_dir) (self, false) ts
  = (self', false) ->
  self' = self.
Proof.
  revert self. induction ts as [|t ts IH]; cbn [foldl]; intros self H.
  - congruence.
  - destruct (colision_tile game_map axis move_dir (self, false) t)
      as [s1 [|]] eqn:E.
    + exfalso. clear IH E. revert s1 H.
      induction ts as [|u us IHu]; cbn [foldl]; intros s1 H; [discriminate H|].
      pose proof (colision_tile_true game_map axis move_dir s1 u) as Ht.
      destruct (colision_tile game_map axis move_dir (s1, true) u) as [s2 b].
      simpl in Ht. subst b. eauto.
    + apply colision_tile_false in E. subst s1. auto.
Qed.

Lemma colision_false game_map axis move_dir self self' :
  colision game_map axis move_dir self = Ok (self', false) -> self' = self.
Proof.
  unfold __colision. destruct (_get_obstacles game_map self); simpl; [|done].
  intros [= H]. by apply colision_fold_false in H.
Qed.

Ltac colision_cases game_map t move_dir :=
  unfold colision_tile; simpl;
  destruct (tiles game_map !! t) as [?tile|]; simpl; auto;
  match goal with
  | axis : Axis |- _ => destruct axis
  | _ => idtac
  end;
  repeat match goal with
         | |- context [if ?b then _ else _] => destruct b; simpl; auto
         end.

Lemma py_round_inject_Z (z : Z) : py_round (inject_Z z) = z.
Proof.
  unfold py_round. rewrite Qfloor_Z.
  assert (Qcompare (inject_Z z - inject_Z z) (1 # 2) = Lt) as ->; [|done].
  unfold Qcompare, Qminus, Qplus, Qopp, inject_Z. simpl.
  apply Z.compare_lt_iff. lia.
Qed.

Lemma colision_fold_ind (P : MovingSprite -> Prop) game_map axis move_dir :
  (forall self b t,
      P self -> P (fst (colision_tile game_map axis move_dir (self, b) t))) ->
  forall ts self b,
    P self ->
    P (fst (foldl (colision_tile game_map axis move_dir) (self, b) ts)).
Proof.
  intros Hstep ts. induction ts as [|t ts IH]; cbn [foldl]; intros self b HP.
  - exact HP.
  - specialize (Hstep self b t HP).
    destruct (colision_tile game_map axis move_dir (self, b) t) as [s1 b1].
    apply IH, Hstep.
Qed.

Lemma colision_ind (P : MovingSprite -> Prop) game_map axis move_dir :
  (forall self b t,
      P self -> P (fst (colision_tile game_map axis move_dir (self, b) t))) ->
  forall self self' b,
    colision game_map axis move_dir self = Ok (self', b) -> P self -> P self'.
Proof.
  intros Hstep self self' b. unfold __colision.
  destruct (_get_obstacles game_map self) as [obs|]; simpl; [|done].
  intros [= H] HP.
  pose proof (colision_fold_ind P game_map axis move_dir Hstep
                (iter_order obs) self false HP) as HQ.
  rewrite H in HQ. exact HQ.
Qed.

Lemma same_sizes_refl a : same_sizes a a.
Proof. unfold same_sizes. done. Qed.

Lemma same_sizes_trans a b c : same_sizes a b -> same_sizes b c -> same_sizes a c.
Proof. unfold same_sizes. intuition congruence. Qed.

Lemma colision_tile_same_sizes game_map axis move_dir self b t :
  same_sizes (fst (colision_tile game_map axis move_dir (self, b) t)) self.
Proof.
  unfold same_sizes. colision_cases game_map t move_dir.
Qed.

Lemma colision_tile_hitbox game_map axis move_dir self b t :
  _hitbox (fst (colision_tile game_map axis move_dir (self, b) t))
  = _hitbox self.
Proof. colision_cases game_map t move_dir. Qed.

Lemma colision_tile_lockstep_x game_map axis move_dir self b t :
  lockstep_x self ->
  lockstep_x (fst (colision_tile game_map axis move_dir (self, b) t)).
Proof.
  unfold lockstep_x. intros Hx.
  colision_cases game_map t move_dir; rewrite py_round_inject_Z; lia.
Qed.

Lemma colision_tile_lockstep_y game_map axis move_dir self b t :
  lockstep_y self ->
  lockstep_y (fst (colision_tile game_map axis move_dir (self, b) t)).
Proof.
  unfold lockstep_y. intros Hy.
  colision_cases game_map t move_dir; rewrite py_round_inject_Z; lia.
Qed.

Lemma colision_same_sizes game_map axis move_dir self self' b :
  colision game_map axis move_dir self = Ok (self', b) -> same_sizes self' self.
Proof.
  intros H.
  apply (colision_ind (fun s => same_sizes s self) game_map axis move_dir)
    with (self := self) (b := b); [|done|apply same_sizes_refl].
  intros s b' t HP. eapply same_sizes_trans; [|exact HP].
  apply colision_tile_same_sizes.
Qed.

Lemma colision_hitbox game_map axis move_dir self self' b :
  colision game_map axis move_dir self = Ok (self', b) ->
  _hitbox self' = _hitbox self.
Proof.
  intros H.
  apply (colision_ind (fun s => _hitbox s = _hitbox self) game_map axis move_dir)
    with (self := self) (b := b); [|done|done].
  intros s b' t HP. by rewrite colision_tile_hitbox.
Qed.

(** *** The step of a sub-step, and the loop *)

Lemma step_horizontal_spec direction step self rest :
  let s := fst (step_horizontal direction step self rest) in
  lockstep_x s
  /\ left (_hitbox s) = left (_collider s)
  /\ top (_collider s) = top (_collider self)
  /\ top (_hitbox s) = top (_hitbox self)
  /\ vy (_pos s) = vy (_pos self)
  /\ same_sizes s self.
Proof.
  unfold step_horizontal, lockstep_x, same_sizes.
  destruct (Qltb _ 0); simpl; repeat split; reflexivity.
Qed.

Lemma step_vertical_spec direction step self rest :
  let s := fst (step_vertical direction step self rest) in
  lockstep_y s
  /\ top (_hitbox s) = top (_collider s)
  /\ left (_collider s) = left (_collider self)
  /\ left (_hitbox s) = left (_hitbox self)
  /\ vx (_pos s) = vx (_pos self)
  /\ same_sizes s self.
Proof.
  unfold step_vertical, lockstep_y, same_sizes.
  destruct (Qltb _ 0); simpl; repeat split; reflexivity.
Qed.

(** A sub-step that ran: the sprite after its step, and the sprite and
    verdict of the tile test, determine the state it returns. *)
Lemma horizontal_part_inv game_map direction step st st' :
  horizontal_part game_map direction step st = Ok st' ->
  Qeq_bool (vx (distance_to_walk st)) 0 = false ->
  exists self2 b,
    colision game_map horizontal direction
      (fst (step_horizontal direction step (ms_self st)
                            (vx (distance_to_walk st))))
    = Ok (self2, b)
    /\ ms_self st' = self2
    /\ vy (distance_to_walk st') = vy (distance_to_walk st)
    /\ (b = true -> collided st' = true /\ vx (distance_to_walk st') = 0%Q)
    /\ (collided st = true -> collided st' = true).
Proof.
  unfold move_horizontal. intros H Hnz. rewrite Hnz in H. simpl in H.
  destruct (step_horizontal _ _ _ _) as [self1 rest]. simpl.
  destruct (colision game_map horizontal direction self1)
    as [[self2 b]|] eqn:Hc; simpl in H; [|done].
  exists self2, b. split; [done|].
  destruct (b || check_hit self2) eqn:Hor; injection H as <-; simpl.
  - repeat split; auto.
  - apply orb_false_elim in Hor as [-> _]. repeat split; auto; done.
Qed.

Lemma vertical_part_inv game_map direction step st st' :
  vertical_part game_map direction step st = Ok st' ->
  Qeq_bool (vy (distance_to_walk st)) 0 = false ->
  exists self2 b,
    colision game_map vertical direction
      (fst (step_vertical direction step (ms_self st)
                          (vy (distance_to_walk st))))
    = Ok (self2, b)
    /\ ms_self st' = self2
    /\ vx (distance_to_walk st') = vx (distance_to_walk st)
    /\ (b = true -> collided st' = true /\ vy (distance_to_walk st') = 0%Q)
    /\ (collided st = true -> collided st' = true).
Proof.
  unfold move_vertical. intros H Hnz. rewrite Hnz in H. simpl in H.
  destruct (step_vertical _ _ _ _) as [self1 rest]. simpl.
  destruct (colision game_map vertical direction self1)
    as [[self2 b]|] eqn:Hc; simpl in H; [|done].
  exists self2, b. split; [done|].
  destruct (b || check_hit self2) eqn:Hor; injection H as <-; simpl.
  - repeat split; auto.
  - apply orb_false_elim in Hor as [-> _]. repeat split; auto; done.
Qed.

Lemma horizontal_part_skip game_map direction step st :
  Qeq_bool (vx (distance_to_walk st)) 0 = true ->
  horizontal_part game_map direction step st = Ok st.
Proof. unfold move_horizontal. intros ->. reflexivity. Qed.

Lemma vertical_part_skip game_map direction step st :
  Qeq_bool (vy (distance_to_walk st)) 0 = true ->
  vertical_part game_map direction step st = Ok st.
Proof. unfold move_vertical. intros ->. reflexivity. Qed.

(** Whatever both halves of the loop body keep, the loop keeps. *)
Lemma move_loop_ind (P : MoveState -> Prop) game_map direction step :
  (forall st st',
      P st -> horizontal_part game_map direction step st = Ok st' -> P st') ->
  (forall st st',
      P st -> vertical_part game_map direction step st = Ok st' -> P st') ->
  forall fuel st final,
    loop fuel game_map direction step st = Some (Ok final) -> P st -> P final.
Proof.
  intros Hh Hv fuel. induction fuel as [|fuel IH]; simpl; intros st final H HP.
  - destruct (Qeq_bool _ 0); [|done]. by injection H as <-.
  - destruct (Qeq_bool _ 0); [by injection H as <-|].
    unfold move_body in H.
    destruct (horizontal_part game_map direction step st) as [st1|] eqn:E1;
      simpl in H; [|done].
    destruct (vertical_part game_map direction step st1) as [st2|] eqn:E2;
      [|done].
    eauto.
Qed.

Lemma horizontal_part_keeps (P : MovingSprite -> Prop) game_map direction step :
  (forall self rest,
      P self -> P (fst (step_horizontal direction step self rest))) ->
  (forall self b t,
      P self ->
      P (fst (colision_tile game_map horizontal direction (self, b) t))) ->
  forall st st',
    P (ms_self st) ->
    horizontal_part game_map direction step st = Ok st' -> P (ms_self st').
Proof.
  intros Hs Hc st st' HP H.
  destruct (Qeq_bool (vx (distance_to_walk st)) 0) eqn:Hz.
  - rewrite horizontal_part_skip in H by done. by injection H as <-.
  - apply horizontal_part_inv in H as (self2 & b & Hcol & -> & _); [|done].
    eapply colision_ind; eauto.
Qed.

Lemma vertical_part_keeps (P : MovingSprite -> Prop) game_map direction step :
  (forall self rest,
      P self -> P (fst (step_vertical direction step self rest))) ->
  (forall self b t,
      P self ->
      P (fst (colision_tile game_map vertical direction (self, b) t))) ->
  forall st st',
    P (ms_self st) ->
    vertical_part game_map direction step st = Ok st' -> P (ms_self st').
Proof.
  intros Hs Hc st st' HP H.
  destruct (Qeq_bool (vy (distance_to_walk st)) 0) eqn:Hz.
  - rewrite vertical_part_skip in H by done. by injection H as <-.
  - apply vertical_part_inv in H as (self2 & b & Hcol & -> & _); [|done].
    eapply colision_ind; eauto.
Qed.

(** When a sub-step meets no tile but the hit test answers True, the
    sub-step records a collision and sets what is left to walk on its
    axis to zero; the sprite stays where the step put it, and the
    distance left on the other axis is untouched. *)
Lemma hit_part
    (game_map : Map) (direction step : Vector2) (st : MoveState) :
  (forall self1 rest self2,
      Qeq_bool (vx (distance_to_walk st)) 0 = false ->
      step_horizontal direction step (ms_self st) (vx (distance_to_walk st))
      = (self1, rest) ->
      colision game_map horizontal direction self1 = Ok (self2, false) ->
      check_hit self2 = true ->
      horizontal_part game_map direction step st
      = Ok (mkMoveState self1 (mkVector2 0 (vy (distance_to_walk st))) true))
  /\ (forall self1 rest self2,
      Qeq_bool (vy (distance_to_walk st)) 0 = false ->
      step_vertical direction step (ms_self st) (vy (distance_to_walk st))
      = (self1, rest) ->
      colision game_map vertical direction self1 = Ok (self2, false) ->
      check_hit self2 = true ->
      vertical_part game_map direction step st
      = Ok (mkMoveState self1 (mkVector2 (vx (distance_to_walk st)) 0) true)).
Proof.
  split; intros self1 rest self2 Hnz Hstep Hcol Hhit.
  - pose proof (colision_false _ _ _ _ _ Hcol) as ->.
    unfold move_horizontal. rewrite Hnz, Hstep. simpl.
    rewrite Hcol. simpl. rewrite Hhit. reflexivity.
  - pose proof (colision_false _ _ _ _ _ Hcol) as ->.
    unfold move_vertical. rewrite Hnz, Hstep. simpl.
    rewrite Hcol. simpl. rewrite Hhit. reflexivity.
Qed.

Lemma set_pos_spec self pos :
  let s := set_pos self pos in
  _pos s = pos
  /\ left (_collider s) = py_int (vx pos)
  /\ top (_collider s) = py_int (vy pos)
  /\ left (_hitbox s) = left (_collider s)
  /\ top (_hitbox s) = top (_collider s)
  /\ same_sizes s self.
Proof. unfold set_pos, same_sizes. simpl. repeat split; reflexivity. Qed.

Lemma horizontal_part_same_sizes game_map direction step st st' :
  horizontal_part game_map direction step st = Ok st' ->
  same_sizes (ms_self st') (ms_self st).
Proof.
  intros H.
  apply (horizontal_part_keeps (fun s => same_sizes s (ms_self st))
           game_map direction step) with (st := st);
    [| |apply same_sizes_refl|done].
  - intros s rest HP. eapply same_sizes_trans; [|exact HP].
    apply step_horizontal_spec.
  - intros s b t HP. eapply same_sizes_trans; [|exact HP].
    apply colision_tile_same_sizes.
Qed.

Lemma vertical_part_same_sizes game_map direction step st st' :
  vertical_part game_map direction step st = Ok st' ->
  same_sizes (ms_self st') (ms_self st).
Proof.
  intros H.
  apply (vertical_part_keeps (fun s => same_sizes s (ms_self st))
           game_map direction step) with (st := st);
    [| |apply same_sizes_refl|done].
  - intros s rest HP. eapply same_sizes_trans; [|exact HP].
    apply step_vertical_spec.
  - intros s b t HP. eapply same_sizes_trans; [|exact HP].
    apply colision_tile_same_sizes.
Qed.

Lemma move_unfold fuel game_map self distance direction c self' :
  move fuel game_map self distance direction = Some (Ok (c, self')) ->
  exists final,
    loop fuel game_map
         (fst (fst (move_setup normalize self distance direction)))
         (snd (fst (move_setup normalize self distance direction)))
         (snd (move_setup normalize self distance direction))
    = Some (Ok final)
    /\ collided final = c /\ ms_self final = self'.
Proof.
  unfold _move. destruct (move_setup _ _ _ _) as [[d step] st0]. simpl.
  destruct (loop fuel game_map d step st0) as [[final|]|]; [|done|done].
  intros [= <- <-]. eauto.
Qed.

Lemma move_setup_self self distance direction :
  ms_self (snd (move_setup normalize self distance direction)) = self.
Proof. reflexivity. Qed.

Lemma move_same_sizes fuel game_map self distance direction c self' :
  move fuel game_map self distance direction = Some (Ok (c, self')) ->
  same_sizes self' self.
Proof.
  intros H. apply move_unfold in H as (final & Hl & _ & <-).
  eapply (move_loop_ind (fun st => same_sizes (ms_self st) self)) in Hl;
    [exact Hl| | |apply same_sizes_refl].
  - intros st st' HP H. eapply same_sizes_trans; [|exact HP].
    by eapply horizontal_part_same_sizes.
  - intros st st' HP H. eapply same_sizes_trans; [|exact HP].
    by eapply vertical_part_same_sizes.
Qed.

(** C6 (amended): every position update keeps the sizes of collider and
    hitbox and ties the collider's origin to the position: the [pos]
    setter truncates the position, a sub-step of [_move] rounds it on its
    axis, also when it ends in a snap against a tile. The setter and the
    step of a sub-step put the hitbox at the very origin of the collider,
    so the inset that [__init__] gave it is not kept. *)
Theorem position_updates_share_the_origin :
  (forall self pos,
      let s := set_pos self pos in
      _pos s = pos
      /\ left (_collider s) = py_int (vx pos)
      /\ top (_collider s) = py_int (vy pos)
      /\ left (_hitbox s) = left (_collider s)
      /\ top (_hitbox s) = top (_collider s)
      /\ same_sizes s self)
  /\ (forall direction step self rest,
      let s := fst (step_horizontal direction step self rest) in
      lockstep_x s
      /\ left (_hitbox s) = left (_collider s)
      /\ top (_collider s) = top (_collider self)
      /\ top (_hitbox s) = top (_hitbox self)
      /\ vy (_pos s) = vy (_pos self)
      /\ same_sizes s self)
  /\ (forall direction step self rest,
      let s := fst (step_vertical direction step self rest) in
      lockstep_y s
      /\ top (_hitbox s) = top (_collider s)
      /\ left (_collider s) = left (_collider self)
      /\ left (_hitbox s) = left (_hitbox self)
      /\ vx (_pos s) = vx (_pos self)
      /\ same_sizes s self)
  /\ (forall game_map direction step st st',
      Qeq_bool (vx (distance_to_walk st)) 0 = false ->
      horizontal_part game_map direction step st = Ok st' ->
      lockstep_x (ms_self st') /\ same_sizes (ms_self st') (ms_self st))
  /\ (forall game_map direction step st st',
      Qeq_bool (vy (distance_to_walk st)) 0 = false ->
      vertical_part game_map direction step st = Ok st' ->
      lockstep_y (ms_self st') /\ same_sizes (ms_self st') (ms_self st))
  /\ (forall fuel game_map self distance direction c self',
      move fuel game_map self distance direction = Some (Ok (c, self')) ->
      same_sizes self' self).
Proof.
  split; [exact set_pos_spec|].
  split; [exact step_horizontal_spec|].
  split; [exact step_vertical_spec|].
  split; [|split].
  - intros game_map direction step st st' Hnz H.
    split; [|by eapply horizontal_part_same_sizes].
    apply horizontal_part_inv in H as (self2 & b & Hcol & -> & _); [|done].
    eapply (colision_ind lockstep_x); [|exact Hcol|apply step_horizontal_spec].
    intros s b' t. apply colision_tile_lockstep_x.
  - intros game_map direction step st st' Hnz H.
    split; [|by eapply vertical_part_same_sizes].
    apply vertical_part_inv in H as (self2 & b & Hcol & -> & _); [|done].
    eapply (colision_ind lockstep_y); [|exact Hcol|apply step_vertical_spec].
    intros s b' t. apply colision_tile_lockstep_y.
  - intros. by eapply move_same_sizes.
Qed.

(** *** A blocked sub-step *)

Hypothesis iter_order_elem : forall (s : gset nat) t, t ∈ iter_order s -> t ∈ s.

Lemma colision_tile_flush game_map axis direction self b t :
  colision_tile game_map axis direction (self, b) t = (self, b)
  \/ (snd (colision_tile game_map axis direction (self, b) t) = true
      /\ exists tile,
          tiles game_map !! t = Some tile
          /\ flush axis direction
                   (fst (colision_tile game_map axis direction (self, b) t))
                   tile).
Proof.
  unfold colision_tile. simpl.
  destruct (tiles game_map !! t) as [tile|]; [|by left].
  destruct axis.
  - destruct (colliderect _ _); [|by left].
    destruct (Qltb 0 (vx direction)) eqn:Hpos.
    { right. split; [done|]. exists tile. split; [done|]. simpl.
      split; [left; split; [done|]|]; unfold right; simpl; [lia|done]. }
    destruct (Qltb (vx direction) 0) eqn:Hneg; [|by left].
    right. split; [done|]. exists tile. split; [done|]. simpl.
    split; [right; split; [done|]|]; simpl; done.
  - destruct (t_collidable tile && colliderect _ _); [|by left].
    destruct (Qltb 0 (vy direction)) eqn:Hpos.
    { right. split; [done|]. exists tile. split; [done|]. simpl.
      split; [left; split; [done|]|]; unfold bottom; simpl; [lia|done]. }
    destruct (Qltb (vy direction) 0) eqn:Hneg; [|by left].
    right. split; [done|]. exists tile. split; [done|]. simpl.
    split; [right; split; [done|]|]; simpl; done.
Qed.

Lemma colision_fold_flush game_map axis direction picked ts :
  (forall t, t ∈ ts -> t ∈ picked) ->
  forall self b,
    (b = true -> touching game_map axis direction picked self) ->
    snd (foldl (colision_tile game_map axis direction) (self, b) ts) = true ->
    touching game_map axis direction picked
      (fst (foldl (colision_tile game_map axis direction) (self, b) ts)).
Proof.
  induction ts as [|t ts IH]; cbn [foldl]; intros Hin self b Hb Hres.
  - auto.
  - destruct (colision_tile_flush game_map axis direction self b t)
      as [Hsame | [Htrue (tile & Htile & Hflush)]].
    + rewrite Hsame in *. apply IH; auto.
      intros u Hu. apply Hin. by apply list_elem_of_further.
    + destruct (colision_tile game_map axis direction (self, b) t)
        as [s1 b1]. simpl in Htrue, Hflush. subst b1.
      apply IH; auto.
      * intros u Hu. apply Hin. by apply list_elem_of_further.
      * intros _. exists t, tile. split; [|done].
        apply Hin, list_elem_of_here.
Qed.

Lemma colision_true_flush game_map axis direction self self' :
  colision game_map axis direction self = Ok (self', true) ->
  exists t tile,
    tiles game_map !! t = Some tile /\ t_collidable tile = true
    /\ flush axis direction self' tile.
Proof.
  unfold __colision, _get_obstacles.
  destruct (tile_pos game_map self) as [tp|]; simpl; [|done].
  destruct (get_tiles_square game_map tp (1, 1) foreground) as [found|];
    simpl; [|done].
  set (obstacles := filter _ found). intros [= H].
  pose proof (colision_fold_flush game_map axis direction
                (iter_order obstacles) (iter_order obstacles)
                (fun _ Hin => Hin) self false) as Hf.
  rewrite H in Hf. simpl in Hf.
  destruct Hf as (t & tile & Hin & Htile & Hflush); [done|done|].
  exists t, tile. split; [done|]. split; [|done].
  apply iter_order_elem in Hin. unfold obstacles in Hin.
  apply elem_of_filter in Hin as [Hc _].
  unfold is_collidable in Hc. by rewrite Htile in Hc.
Qed.

Lemma flush_view axis direction self self' tile :
  view axis self' = view axis self ->
  flush axis direction self tile -> flush axis direction self' tile.
Proof.
  destruct axis; simpl; unfold right, bottom; intros [= -> -> ->]; done.
Qed.

Lemma step_vertical_view direction step self rest :
  view horizontal (fst (step_vertical direction step self rest))
  = view horizontal self.
Proof. unfold step_vertical. destruct (Qltb _ 0); reflexivity. Qed.

Lemma step_horizontal_view direction step self rest :
  view vertical (fst (step_horizontal direction step self rest))
  = view vertical self.
Proof. unfold step_horizontal. destruct (Qltb _ 0); reflexivity. Qed.

Lemma colision_tile_view game_map axis direction self b t :
  view (other axis) (fst (colision_tile game_map axis direction (self, b) t))
  = view (other axis) self.
Proof. colision_cases game_map t direction. Qed.

Lemma colision_view game_map axis direction self self' b :
  colision game_map axis direction self = Ok (self', b) ->
  view (other axis) self' = view (other axis) self.
Proof.
  intros H.
  apply (colision_ind (fun s => view (other axis) s = view (other axis) self)
           game_map axis direction) with (self := self) (b := b); [|done|done].
  intros s b' t HP. by rewrite colision_tile_view.
Qed.

Lemma stopped_by_tile_horizontal_part game_map axis direction step st st' :
  stopped_by_tile game_map axis direction st ->
  horizontal_part game_map direction step st = Ok st' ->
  stopped_by_tile game_map axis direction st'.
Proof.
  intros (Hc & Hz & t & tile & Ht & Hcol & Hf) H.
  destruct (Qeq_bool (vx (distance_to_walk st)) 0) eqn:Hnz.
  { rewrite horizontal_part_skip in H by done. injection H as <-.
    unfold stopped_by_tile. eauto 10. }
  destruct axis; simpl in Hz; [by rewrite Hz in Hnz|].
  apply horizontal_part_inv in H
    as (self2 & b & Hcl & Hself & Hy & _ & Hmono); [|done].
  split; [auto|]. split; [simpl; congruence|].
  exists t, tile. split; [done|]. split; [done|].
  eapply flush_view; [|exact Hf]. rewrite Hself.
  etrans; [exact (colision_view _ _ _ _ _ _ Hcl)|].
  apply step_horizontal_view.
Qed.

Lemma stopped_by_tile_vertical_part game_map axis direction step st st' :
  stopped_by_tile game_map axis direction st ->
  vertical_part game_map direction step st = Ok st' ->
  stopped_by_tile game_map axis direction st'.
Proof.
  intros (Hc & Hz & t & tile & Ht & Hcol & Hf) H.
  destruct (Qeq_bool (vy (distance_to_walk st)) 0) eqn:Hnz.
  { rewrite vertical_part_skip in H by done. injection H as <-.
    unfold stopped_by_tile. eauto 10. }
  destruct axis; simpl in Hz; [|by rewrite Hz in Hnz].
  apply vertical_part_inv in H
    as (self2 & b & Hcl & Hself & Hx & _ & Hmono); [|done].
  split; [auto|]. split; [simpl; congruence|].
  exists t, tile. split; [done|]. split; [done|].
  eapply flush_view; [|exact Hf]. rewrite Hself.
  etrans; [exact (colision_view _ _ _ _ _ _ Hcl)|].
  apply step_vertical_view.
Qed.

Lemma stopped_by_tile_loop game_map axis direction step fuel st final :
  loop fuel game_map direction step st = Some (Ok final) ->
  stopped_by_tile game_map axis direction st ->
  stopped_by_tile game_map axis direction final.
Proof.
  apply (move_loop_ind (stopped_by_tile game_map axis direction)).
  - intros ? ? ? ?. by eapply stopped_by_tile_horizontal_part.
  - intros ? ? ? ?. by eapply stopped_by_tile_vertical_part.
Qed.

(** The state in which a blocked part ends. *)
Lemma blocked_part_stops game_map direction step axis st st' :
  tile_blocks iter_order game_map direction step axis st ->
  match axis with
  | horizontal => horizontal_part game_map direction step st
  | vertical => vertical_part game_map direction step st
  end = Ok st' ->
  stopped_by_tile game_map axis direction st'.
Proof.
  destruct axis; simpl; intros [Hnz [s Hs]] H.
  - apply horizontal_part_inv in H
      as (self2 & b & Hcl & Hself & _ & Hb & _); [|done].
    rewrite Hs in Hcl. injection Hcl as -> <-.
    destruct Hb as [Hc Hz]; [done|].
    split; [done|]. split; [done|]. rewrite Hself.
    by apply colision_true_flush in Hs.
  - apply vertical_part_inv in H
      as (self2 & b & Hcl & Hself & _ & Hb & _); [|done].
    rewrite Hs in Hcl. injection Hcl as -> <-.
    destruct Hb as [Hc Hz]; [done|].
    split; [done|]. split; [done|]. rewrite Hself.
    by apply colision_true_flush in Hs.
Qed.

(** A part that the loop starts is followed, in a call that returns, by
    the rest of the body and the rest of the loop. *)
Lemma loop_entered fuel game_map direction step st final :
  loop fuel game_map direction step st = Some (Ok final) ->
  Qeq_bool (magnitude_squared (distance_to_walk st)) 0 = false ->
  exists st1 st2 fuel',
    horizontal_part game_map direction step st = Ok st1
    /\ vertical_part game_map direction step st1 = Ok st2
    /\ loop fuel' game_map direction step st2 = Some (Ok final).
Proof.
  intros H Hnz. destruct fuel as [|fuel]; simpl in H; rewrite Hnz in H; [done|].
  unfold move_body in H.
  destruct (horizontal_part game_map direction step st) as [st1|]; [|done].
  simpl in H.
  destruct (vertical_part game_map direction step st1) as [st2|] eqn:E; [|done].
  eauto 10.
Qed.

Lemma starts_part_continues game_map direction step st0 axis st :
  starts_part iter_order _get_entities game_map direction step st0 axis st ->
  forall fuel final,
    loop fuel game_map direction step st0 = Some (Ok final) ->
    exists st',
      match axis with
      | horizontal => horizontal_part game_map direction step st
      | vertical => vertical_part game_map direction step st
      end = Ok st'
      /\ (stopped_by_tile game_map axis direction st' ->
          stopped_by_tile game_map axis direction final).
Proof.
  intros Hs fuel final Hl.
  assert (match axis with
          | horizontal =>
              exists st1 st2 fuel',
              horizontal_part game_map direction step st = Ok st1
              /\ vertical_part game_map direction step st1 = Ok st2
              /\ loop fuel' game_map direction step st2 = Some (Ok final)
          | vertical =>
              exists st2 fuel',
              vertical_part game_map direction step st = Ok st2
              /\ loop fuel' game_map direction step st2 = Some (Ok final)
          end) as Hrest.
  { induction Hs as [Hnz | st st1 _ IH Hh | st st1 _ IH Hv Hnz].
    - by eapply loop_entered.
    - destruct IH as (st1' & st2 & fuel' & Hh' & Hv & Hl').
      rewrite Hh in Hh'. injection Hh' as <-. eauto.
    - destruct IH as (st2 & fuel' & Hv' & Hl').
      rewrite Hv in Hv'. injection Hv' as <-. by eapply loop_entered. }
  destruct axis.
  - destruct Hrest as (st1 & st2 & fuel' & Hh & Hv & Hl').
    exists st1. split; [done|]. intros Hst.
    eapply stopped_by_tile_loop; [exact Hl'|].
    by eapply stopped_by_tile_vertical_part.
  - destruct Hrest as (st2 & fuel' & Hv & Hl').
    exists st2. split; [done|]. intros Hst.
    by eapply stopped_by_tile_loop.
Qed.

(** *** A hit ends the axis and is returned *)

Lemma horizontal_part_collided game_map direction step st st' :
  horizontal_part game_map direction step st = Ok st' ->
  collided st = true -> collided st' = true.
Proof.
  intros H Hc.
  destruct (Qeq_bool (vx (distance_to_walk st)) 0) eqn:Hnz.
  - rewrite horizontal_part_skip in H by done. by injection H as <-.
  - apply horizontal_part_inv in H as (_ & _ & _ & _ & _ & _ & Hk); auto.
Qed.

Lemma vertical_part_collided game_map direction step st st' :
  vertical_part game_map direction step st = Ok st' ->
  collided st = true -> collided st' = true.
Proof.
  intros H Hc.
  destruct (Qeq_bool (vy (distance_to_walk st)) 0) eqn:Hnz.
  - rewrite vertical_part_skip in H by done. by injection H as <-.
  - apply vertical_part_inv in H as (_ & _ & _ & _ & _ & _ & Hk); auto.
Qed.

Lemma loop_collided game_map direction step fuel st final :
  loop fuel game_map direction step st = Some (Ok final) ->
  collided st = true -> collided final = true.
Proof.
  apply (move_loop_ind (fun st => collided st = true)).
  - intros ? ? ? ?. by eapply horizontal_part_collided.
  - intros ? ? ? ?. by eapply vertical_part_collided.
Qed.

(** A part that the loop starts, in a call that returns: the part ends,
    and a collision that it records is the result of the loop. *)
Lemma starts_part_returns game_map direction step st0 axis st :
  starts_part iter_order _get_entities game_map direction step st0 axis st ->
  forall fuel final,
    loop fuel game_map direction step st0 = Some (Ok final) ->
    exists st',
      match axis with
      | horizontal => horizontal_part game_map direction step st
      | vertical => vertical_part game_map direction step st
      end = Ok st'
      /\ (collided st' = true -> collided final = true).
Proof.
  intros Hs fuel final Hl.
  assert (match axis with
          | horizontal =>
              exists st1 st2 fuel',
              horizontal_part game_map direction step st = Ok st1
              /\ vertical_part game_map direction step st1 = Ok st2
              /\ loop fuel' game_map direction step st2 = Some (Ok final)
          | vertical =>
              exists st2 fuel',
              vertical_part game_map direction step st = Ok st2
              /\ loop fuel' game_map direction step st2 = Some (Ok final)
          end) as Hrest.
  { induction Hs as [Hnz | st st1 _ IH Hh | st st1 _ IH Hv Hnz].
    - by eapply loop_entered.
    - destruct IH as (st1' & st2 & fuel' & Hh' & Hv & Hl').
      rewrite Hh in Hh'. injection Hh' as <-. eauto.
    - destruct IH as (st2 & fuel' & Hv' & Hl').
      rewrite Hv in Hv'. injection Hv' as <-. by eapply loop_entered. }
  destruct axis.
  - destruct Hrest as (st1 & st2 & fuel' & Hh & Hv & Hl').
    exists st1. split; [done|]. intros Hc.
    eapply loop_collided; [exact Hl'|].
    by eapply vertical_part_collided.
  - destruct Hrest as (st2 & fuel' & Hv & Hl').
    exists st2. split; [done|]. intros Hc.
    by eapply loop_collided.
Qed.

(** C5 (amended): in a call of [_move] that returns, take any sub-step
    that the loop starts with something left to walk on its axis, whose
    tile test reports no collision and whose hit test answers True.
    That sub-step records a collision and sets what is left to walk on
    its axis to zero, as a tile collision does; it leaves the sprite
    where the step put it, without a snap, and the distance left on the
    other axis as it was; and the call returns True. *)
Theorem hit_ends_the_axis
    (game_map : Map) (self : MovingSprite) (distance : Q)
    (direction : Vector2) :
  let d := fst (fst (move_setup normalize self distance direction)) in
  let step := snd (fst (move_setup normalize self distance direction)) in
  let st0 := snd (move_setup normalize self distance direction) in
  forall fuel c self' axis st self1 rest self2,
    move fuel game_map self distance direction = Some (Ok (c, self')) ->
    starts_part iter_order _get_entities game_map d step st0 axis st ->
    Qeq_bool (left_to_walk axis st) 0 = false ->
    match axis with
    | horizontal =>
        step_horizontal d step (ms_self st) (vx (distance_to_walk st))
    | vertical =>
        step_vertical d step (ms_self st) (vy (distance_to_walk st))
    end = (self1, rest) ->
    colision game_map axis d self1 = Ok (self2, false) ->
    check_hit self2 = true ->
    c = true
    /\ exists st',
         match axis with
         | horizontal => horizontal_part game_map d step st
         | vertical => vertical_part game_map d step st
         end = Ok st'
         /\ collided st' = true
         /\ left_to_walk axis st' = 0%Q
         /\ left_to_walk (other axis) st' = left_to_walk (other axis) st
         /\ ms_self st' = self1.
Proof.
  intros d step st0 fuel c self' axis st self1 rest self2
         Hmove Hstarts Hnz Hstep Hcol Hhit.
  apply move_unfold in Hmove as (final & Hloop & <- & _).
  fold d step st0 in Hloop.
  destruct (starts_part_returns _ _ _ _ _ _ Hstarts _ _ Hloop)
    as (st' & Hpart & Hkeep).
  assert (collided st' = true
          /\ left_to_walk axis st' = 0%Q
          /\ left_to_walk (other axis) st' = left_to_walk (other axis) st
          /\ ms_self st' = self1) as Hst'.
  { destruct axis; simpl in Hnz, Hstep, Hpart |- *.
    - rewrite (proj1 (hit_part game_map d step st)
                 self1 rest self2 Hnz Hstep Hcol Hhit) in Hpart.
      by injection Hpart as <-.
    - rewrite (proj2 (hit_part game_map d step st)
                 self1 rest self2 Hnz Hstep Hcol Hhit) in Hpart.
      by injection Hpart as <-. }
  split; [apply Hkeep; tauto|]. exists st'. tauto.
Qed.

(** *** The loop comes to an end *)

Lemma step_horizontal_rest direction step self x :
  let k := (vx step * Qabs (vx direction))%Q in
  let rest := snd (step_horizontal direction step self x) in
  rest == 0 \/ (rest == x - k /\ 0 <= x - k)%Q.
Proof.
  unfold step_horizontal. simpl.
  destruct (Qltb (x - vx step * Qabs (vx direction)) 0) eqn:E; simpl.
  - by left.
  - right. apply Qltb_false in E. split; [apply Qred_correct|done].
Qed.

Lemma step_vertical_rest direction step self y :
  let k := (vy step * Qabs (vy direction))%Q in
  let rest := snd (step_vertical direction step self y) in
  rest == 0 \/ (rest == y - k /\ 0 <= y - k)%Q.
Proof.
  unfold step_vertical. simpl.
  destruct (Qltb (y - vy step * Qabs (vy direction)) 0) eqn:E; simpl.
  - by left.
  - right. apply Qltb_false in E. split; [apply Qred_correct|done].
Qed.

Lemma horizontal_part_rest game_map direction step st st' :
  horizontal_part game_map direction step st = Ok st' ->
  Qeq_bool (vx (distance_to_walk st)) 0 = false ->
  vy (distance_to_walk st') = vy (distance_to_walk st)
  /\ (vx (distance_to_walk st') = 0%Q
      \/ vx (distance_to_walk st')
         = snd (step_horizontal direction step (ms_self st)
                                (vx (distance_to_walk st)))).
Proof.
  unfold move_horizontal. intros H Hnz. rewrite Hnz in H. simpl in H.
  destruct (step_horizontal _ _ _ _) as [self1 rest]. simpl.
  destruct (colision game_map horizontal direction self1)
    as [[self2 b]|]; simpl in H; [|done].
  destruct (b || check_hit self2); injection H as <-; simpl; auto.
Qed.

Lemma vertical_part_rest game_map direction step st st' :
  vertical_part game_map direction step st = Ok st' ->
  Qeq_bool (vy (distance_to_walk st)) 0 = false ->
  vx (distance_to_walk st') = vx (distance_to_walk st)
  /\ (vy (distance_to_walk st') = 0%Q
      \/ vy (distance_to_walk st')
         = snd (step_vertical direction step (ms_self st)
                              (vy (distance_to_walk st)))).
Proof.
  unfold move_vertical. intros H Hnz. rewrite Hnz in H. simpl in H.
  destruct (step_vertical _ _ _ _) as [self1 rest]. simpl.
  destruct (colision game_map vertical direction self1)
    as [[self2 b]|]; simpl in H; [|done].
  destruct (b || check_hit self2); injection H as <-; simpl; auto.
Qed.

Lemma horizontal_part_progress game_map direction step st st' :
  (0 < vx step)%Q ->
  walkable direction st ->
  horizontal_part game_map direction step st = Ok st' ->
  walkable direction st'
  /\ vy (distance_to_walk st') = vy (distance_to_walk st)
  /\ (steps_left_x direction step st' <= steps_left_x direction step st)%nat
  /\ (Qeq_bool (vx (distance_to_walk st)) 0 = false ->
      (steps_left_x direction step st' < steps_left_x direction step st)%nat).
Proof.
  intros Hstep (Hx & Hy & Hdx & Hdy) H.
  destruct (Qeq_bool (vx (distance_to_walk st)) 0) eqn:Hnz.
  { rewrite horizontal_part_skip in H by done. injection H as <-.
    unfold walkable. repeat split; auto; done. }
  apply horizontal_part_rest in H as [Hvy Hvx]; [|done].
  apply Qeq_bool_false in Hnz.
  assert (0 < vx step * Qabs (vx direction))%Q as Hk.
  { apply Qmult_lt_0_compat; [done|]. apply Qabs_pos_of_nonzero. tauto. }
  assert (vx (distance_to_walk st') == 0
          \/ (vx (distance_to_walk st')
              == vx (distance_to_walk st) - vx step * Qabs (vx direction)
              /\ 0 <= vx (distance_to_walk st)
                      - vx step * Qabs (vx direction))%Q) as Hcase.
  { destruct Hvx as [-> | ->]; [by left|]. apply step_horizontal_rest. }
  assert (steps_left_x direction step st' < steps_left_x direction step st)%nat
    as Hlt.
  { unfold steps_left_x. apply strides_drop; [done| |done]. lra. }
  unfold walkable. rewrite Hvy.
  repeat split; auto; try lia.
  - destruct Hcase as [-> | [-> ?]]; lra.
  - intros. tauto.
Qed.

Lemma vertical_part_progress game_map direction step st st' :
  (0 < vy step)%Q ->
  walkable direction st ->
  vertical_part game_map direction step st = Ok st' ->
  walkable direction st'
  /\ vx (distance_to_walk st') = vx (distance_to_walk st)
  /\ (steps_left_y direction step st' <= steps_left_y direction step st)%nat
  /\ (Qeq_bool (vy (distance_to_walk st)) 0 = false ->
      (steps_left_y direction step st' < steps_left_y direction step st)%nat).
Proof.
  intros Hstep (Hx & Hy & Hdx & Hdy) H.
  destruct (Qeq_bool (vy (distance_to_walk st)) 0) eqn:Hnz.
  { rewrite vertical_part_skip in H by done. injection H as <-.
    unfold walkable. repeat split; auto; done. }
  apply vertical_part_rest in H as [Hvx Hvy]; [|done].
  apply Qeq_bool_false in Hnz.
  assert (0 < vy step * Qabs (vy direction))%Q as Hk.
  { apply Qmult_lt_0_compat; [done|]. apply Qabs_pos_of_nonzero. tauto. }
  assert (vy (distance_to_walk st') == 0
          \/ (vy (distance_to_walk st')
              == vy (distance_to_walk st) - vy step * Qabs (vy direction)
              /\ 0 <= vy (distance_to_walk st)
                      - vy step * Qabs (vy direction))%Q) as Hcase.
  { destruct Hvy as [-> | ->]; [by left|]. apply step_vertical_rest. }
  assert (steps_left_y direction step st' < steps_left_y direction step st)%nat
    as Hlt.
  { unfold steps_left_y. apply strides_drop; [done| |done]. lra. }
  unfold walkable. rewrite Hvx.
  repeat split; auto; try lia.
  - destruct Hcase as [-> | [-> ?]]; lra.
  - intros. tauto.
Qed.

Lemma loop_terminates game_map direction step :
  (0 < vx step)%Q -> (0 < vy step)%Q ->
  forall fuel st,
    walkable direction st ->
    (steps_left_x direction step st + steps_left_y direction step st
     <= fuel)%nat ->
    loop fuel game_map direction step st <> None.
Proof.
  intros Hsx Hsy fuel.
  induction fuel as [|fuel IH]; intros st Hw Hfuel; simpl;
    destruct (Qeq_bool (magnitude_squared (distance_to_walk st)) 0) eqn:Hm;
    try done.
  - exfalso. apply Qeq_bool_false in Hm. apply Hm.
    apply magnitude_squared_zero.
    destruct Hw as (Hx & Hy & Hdx & Hdy).
    assert (forall k x, (0 <= x)%Q -> (~ x == 0 -> 0 < k)%Q ->
                        Z.to_nat (Qceiling (x / k)) = 0%nat -> x == 0) as Hzero.
    { intros k x Hx0 Hk Hn. destruct (Qeq_dec x 0) as [|Hne]; [done|].
      specialize (Hk Hne).
      assert (1 <= Qceiling (x / k)); [|lia].
      apply ceiling_pos, Qlt_shift_div_l; lra. }
    unfold steps_left_x, steps_left_y in Hfuel. split.
    + apply (Hzero (vx step * Qabs (vx direction))%Q); [done| |lia].
      intros Hne.
      apply Qmult_lt_0_compat; [done|]. apply Qabs_pos_of_nonzero. tauto.
    + apply (Hzero (vy step * Qabs (vy direction))%Q); [done| |lia].
      intros Hne.
      apply Qmult_lt_0_compat; [done|]. apply Qabs_pos_of_nonzero. tauto.
  - unfold move_body.
    destruct (horizontal_part game_map direction step st) as [st1|] eqn:E1;
      simpl; [|done].
    destruct (vertical_part game_map direction step st1) as [st2|] eqn:E2;
      [|done].
    apply horizontal_part_progress in E1 as (Hw1 & Hy1 & Hx1 & Hx1'); try done.
    apply vertical_part_progress in E2 as (Hw2 & Hx2 & Hy2 & Hy2'); try done.
    apply IH; [done|].
    assert (Qeq_bool (vx (distance_to_walk st)) 0 = false
            \/ Qeq_bool (vy (distance_to_walk st)) 0 = false) as [Hnx | Hny].
    { destruct (Qeq_bool (vx (distance_to_walk st)) 0) eqn:Ex; [|by left].
      destruct (Qeq_bool (vy (distance_to_walk st)) 0) eqn:Ey; [|by right].
      apply Qeq_bool_iff in Ex, Ey. apply Qeq_bool_false in Hm.
      exfalso. apply Hm, magnitude_squared_zero. done. }
    + specialize (Hx1' Hnx).
      unfold steps_left_x, steps_left_y in *. rewrite Hx2, Hy1 in *. lia.
    + rewrite <- Hy1 in Hny. specialize (Hy2' Hny).
      unfold steps_left_x, steps_left_y in *. rewrite Hx2, Hy1 in *. lia.
Qed.

Lemma move_setup_walkable self distance direction :
  walkable (fst (fst (move_setup normalize self distance direction)))
           (snd (move_setup normalize self distance direction)).
Proof.
  unfold move_setup, walkable. cbn [fst snd distance_to_walk vx vy].
  set (d := if Qltb 0 (magnitude_squared direction) then _ else _).
  split; [rewrite Qred_correct; apply Qabs_nonneg|].
  split; [rewrite Qred_correct; apply Qabs_nonneg|].
  split; intros E; by apply Qabs_mult_zero_l.
Qed.

Lemma move_terminates game_map self distance direction :
  0 < rwidth (_hitbox self) -> 0 < rheight (_hitbox self) ->
  exists fuel, move fuel game_map self distance direction <> None.
Proof.
  intros Hw Hh.
  pose proof (move_setup_walkable self distance direction) as Hwalk.
  pose proof (loop_terminates game_map
                (fst (fst (move_setup normalize self distance direction)))
                (snd (fst (move_setup normalize self distance direction))))
    as Hterm.
  unfold _move. destruct (move_setup _ _ _ _) as [[d step] st0] eqn:Hs.
  simpl in Hwalk, Hterm.
  assert (step = mkVector2 (inject_Z (rwidth (_hitbox self)))
                           (inject_Z (rheight (_hitbox self)))) as Hstep.
  { unfold move_setup in Hs. by injection Hs as _ <- _. }
  exists (steps_left_x d step st0 + steps_left_y d step st0)%nat.
  specialize (Hterm ltac:(subst step; simpl; by rewrite <- (Zlt_Qlt 0))
                    ltac:(subst step; simpl; by rewrite <- (Zlt_Qlt 0))
                    _ st0 Hwalk (le_n _)).
  destruct (loop _ game_map d step st0) as [[final|]|]; done.
Qed.

Lemma flush_apart axis direction self tile :
  flush axis direction self tile ->
  0 <= rwidth (_collider self) -> 0 <= rheight (_collider self) ->
  0 <= rwidth (t_collider tile) -> 0 <= rheight (t_collider tile) ->
  colliderect (_collider self) (t_collider tile) = false.
Proof.
  unfold colliderect, right, bottom.
  intros Hf ? ? ? ?. destruct (_ || _); [done|].
  destruct axis; simpl in Hf; unfold right, bottom in Hf;
    destruct Hf as [[[_ Hf] | [_ Hf]] _]; lia.
Qed.

(** C1 (amended): a call of [_move] on a sprite whose hitbox has positive
    width and height comes to an end. When it returns and, on the way, a
    sub-step was blocked by a tile, then that sub-step left nothing to
    walk on its axis, the call returns True, and at the return the
    collider (not the hitbox) has its leading edge on the trailing edge
    of the collider of a collidable tile, with the position at the
    collider's origin on that axis; and when the widths and heights of
    both colliders are not negative, the collider does not overlap the
    tile's collider. *)
Theorem blocked_move_snaps_the_collider
    (game_map : Map) (self : MovingSprite) (distance : Q) (direction : Vector2) :
  let d := fst (fst (move_setup normalize self distance direction)) in
  let step := snd (fst (move_setup normalize self distance direction)) in
  let st0 := snd (move_setup normalize self distance direction) in
  (0 < rwidth (_hitbox self) -> 0 < rheight (_hitbox self) ->
   exists fuel, move fuel game_map self distance direction <> None)
  /\ forall fuel c self' axis st,
      move fuel game_map self distance direction = Some (Ok (c, self')) ->
      starts_part iter_order _get_entities game_map d step st0 axis st ->
      tile_blocks iter_order game_map d step axis st ->
      c = true
      /\ (exists st',
            match axis with
            | horizontal => horizontal_part game_map d step st
            | vertical => vertical_part game_map d step st
            end = Ok st'
            /\ left_to_walk axis st' = 0%Q /\ collided st' = true)
      /\ exists t tile,
          tiles game_map !! t = Some tile /\ t_collidable tile = true
          /\ flush axis d self' tile
          /\ (0 <= rwidth (_collider self') ->
              0 <= rheight (_collider self') ->
              0 <= rwidth (t_collider tile) ->
              0 <= rheight (t_collider tile) ->
              colliderect (_collider self') (t_collider tile) = false).
Proof.
  intros d step st0. split; [apply move_terminates|].
  intros fuel c self' axis st Hmove Hstarts Hblocks.
  apply move_unfold in Hmove as (final & Hloop & <- & <-).
  fold d step st0 in Hloop.
  destruct (starts_part_continues _ _ _ _ _ _ Hstarts _ _ Hloop)
    as (st' & Hpart & Hkeep).
  pose proof (blocked_part_stops _ _ _ _ _ _ Hblocks Hpart) as Hstop.
  destruct (Hkeep Hstop) as (Hc & _ & t & tile & Ht & Hcol & Hf).
  split; [done|]. split.
  - exists st'. split; [done|]. destruct Hstop as (? & ? & _). done.
  - exists t, tile. repeat split; try done.
    by apply (flush_apart axis d).
Qed.

End MovementFacts.

Lemma move_by_nothing_is_a_no_op_witness :
  _move keep_direction elements nobody 0 room actor 0 (mkVector2 1 0)
  = Some (Ok (false, actor)).
Proof.
  apply (move_by_nothing_is_a_no_op keep_direction elements nobody
           0 room actor 0 (mkVector2 1 0)).
  left. reflexivity.
Defined.

(** C5 (as stated, refuted): the actor asks for 20 pixels to the right in
    the free middle of the room, with a vulnerable entity in its way.
    The first sub-step walks 12 pixels and leaves 8, no tile is met, the
    hit test answers True, and the 8 pixels left are set to zero: the
    move ends at x = 52, while without the entity it ends at x = 60. *)
Lemma hit_alone_zeroes_the_axis :
  let direction := mkVector2 1 0 in
  let step := mkVector2 12 12 in
  let st := mkMoveState actor (mkVector2 20 0) false in
  let after_step := fst (step_horizontal direction step actor 20) in
  snd (step_horizontal direction step actor 20) = 8%Q
  /\ __colision elements room horizontal direction after_step
     = Ok (after_step, false)
  /\ _check_hit bystander after_step = true
  /\ move_horizontal elements bystander room direction step st
     = Ok (mkMoveState after_step (mkVector2 0 0) true)
  /\ (exists s, _move keep_direction elements bystander 10 room actor 20 direction
                = Some (Ok (true, s)) /\ _pos s = mkVector2 52 40)
  /\ (exists s, _move keep_direction elements nobody 10 room actor 20 direction
                = Some (Ok (false, s)) /\ _pos s = mkVector2 60 40).
Proof.
  vm_compute. repeat split; try reflexivity; eexists; split; reflexivity.
Qed.

Lemma hit_ends_the_axis_witness :
  true = true
  /\ exists st',
       move_horizontal elements bystander room (mkVector2 1 0)
                       (mkVector2 12 12)
                       (mkMoveState actor (mkVector2 20 0) false)
       = Ok st'
       /\ collided st' = true
       /\ left_to_walk horizontal st' = 0%Q
       /\ left_to_walk vertical st' = 0%Q
       /\ ms_self st'
          = fst (step_horizontal (mkVector2 1 0) (mkVector2 12 12) actor 20).
Proof.
  apply (hit_ends_the_axis keep_direction elements bystander room actor 20
           (mkVector2 1 0) 10 true
           (mkMovingSprite (mkVector2 52 40) sprite16
                           (mkRect 52 40 16 16) (mkRect 52 42 12 12))
           horizontal (mkMoveState actor (mkVector2 20 0) false)
           (fst (step_horizontal (mkVector2 1 0) (mkVector2 12 12) actor 20))
           8%Q
           (fst (step_horizontal (mkVector2 1 0) (mkVector2 12 12) actor 20)));
    first [ apply starts_first; vm_compute; reflexivity
          | vm_compute; reflexivity ].
Defined.

(** C6 (as stated, refuted): the actor is built with its hitbox inset in
    the collider; assigning its own position through the [pos] setter,
    or walking 12 free pixels, leaves the hitbox at the collider's
    origin. *)
Lemma position_updates_lose_the_inset :
  inset actor
  /\ ~ inset (set_pos actor (mkVector2 40 40))
  /\ (exists s, _move keep_direction elements nobody 10 room actor 12
                      (mkVector2 1 0) = Some (Ok (false, s))
                /\ ~ inset s).
Proof.
  split; [reflexivity|]. split.
  - unfold inset. vm_compute. discriminate.
  - eexists. split; [vm_compute; reflexivity|].
    unfold inset. vm_compute. discriminate.
Qed.

Lemma position_updates_share_the_origin_witness :
  let st' := mkMoveState
               (mkMovingSprite (mkVector2 52 40) sprite16
                               (mkRect 52 40 16 16) (mkRect 52 42 12 12))
               (mkVector2 8 0) false in
  lockstep_x (ms_self st') /\ same_sizes (ms_self st') actor.
Proof.
  apply (proj1 (proj2 (proj2 (proj2
           (position_updates_share_the_origin keep_direction elements nobody))))
           room (mkVector2 1 0) (mkVector2 12 12)
           (mkMoveState actor (mkVector2 20 0) false));
    vm_compute; reflexivity.
Defined.

(** C1 (as stated, refuted): from the middle of the room the actor asks
    for 1000 pixels to the right. The call returns True with the collider
    flush against the wall tile 16, but the hitbox is where the last step
    put it: it overlaps the tile's collider, 8 pixels deep. *)
Lemma blocked_move_leaves_the_hitbox_in_the_wall :
  exists s tile,
    _move keep_direction elements nobody 10 room actor 1000 (mkVector2 1 0)
    = Some (Ok (true, s))
    /\ tiles room !! 16%nat = Some tile
    /\ t_collidable tile = true
    /\ right (_collider s) = left (t_collider tile)
    /\ colliderect (_hitbox s) (t_collider tile) = true
    /\ right (_hitbox s) = left (t_collider tile) + 8.
Proof.
  eexists. eexists. split; [vm_compute; reflexivity|].
  split; [vm_compute; reflexivity|]. vm_compute. repeat split; reflexivity.
Qed.

(** The size condition of C1 is needed: a "stone" tile whose image is 2
    pixels wide gets a collider of width -2, and a collider that stands
    flush against its left edge still overlaps it. *)
Lemma flush_against_a_narrow_tile_overlaps :
  let tile := Tile_init (64, 32) (mkSurface 2 16) (tile_inflate "stone")
                        (tile_move "stone") true true in
  let self := mkMovingSprite (mkVector2 50 32) sprite16
                             (mkRect 50 32 16 16) (mkRect 50 32 12 12) in
  t_collider tile = mkRect 66 34 (-2) 12
  /\ flush horizontal (mkVector2 1 0) self tile
  /\ colliderect (_collider self) (t_collider tile) = true.
Proof.
  split; [reflexivity|]. split; [|reflexivity].
  split; [|reflexivity]. left. split; reflexivity.
Qed.

Ltac next_part H :=
  lazymatch type of H with
  | starts_part ?io ?ge ?m ?d ?step ?s0 horizontal ?st =>
      let r := eval vm_compute in (move_horizontal io ge m d step st) in
      lazymatch r with
      | Ok ?st1 =>
          let H' := fresh in
          assert (H' : starts_part io ge m d step s0 vertical st1)
            by (apply (starts_vertical io ge m d step s0 st st1 H);
                vm_compute; reflexivity);
          clear H; rename H' into H
      end
  | starts_part ?io ?ge ?m ?d ?step ?s0 vertical ?st =>
      let r := eval vm_compute in (move_vertical io ge m d step st) in
      lazymatch r with
      | Ok ?st1 =>
          let H' := fresh in
          assert (H' : starts_part io ge m d step s0 horizontal st1)
            by (apply (starts_again io ge m d step s0 st st1 H);
                vm_compute; reflexivity);
          clear H; rename H' into H
      end
  end.

Lemma blocked_move_snaps_the_collider_witness :
  exists t tile,
    tiles room !! t = Some tile /\ t_collidable tile = true
    /\ flush horizontal (mkVector2 1 0)
             (mkMovingSprite (mkVector2 64 40) sprite16
                             (mkRect 64 40 16 16) (mkRect 76 42 12 12))
             tile.
Proof.
  destruct (blocked_move_snaps_the_collider keep_direction elements nobody
              (fun s t => proj1 (elem_of_elements s t))
              room actor 1000 (mkVector2 1 0)) as [_ H].
  assert (Hs : starts_part elements nobody room (mkVector2 1 0)
                 (mkVector2 12 12)
                 (mkMoveState actor (mkVector2 1000 0) false) horizontal
                 (mkMoveState actor (mkVector2 1000 0) false))
    by (apply starts_first; vm_compute; reflexivity).
  do 4 next_part Hs.
  lazymatch type of Hs with
  | starts_part _ _ _ _ _ _ _ ?st =>
      pose proof (H 10%nat true
                    (mkMovingSprite (mkVector2 64 40) sprite16
                                    (mkRect 64 40 16 16) (mkRect 76 42 12 12))
                    horizontal st ltac:(vm_compute; reflexivity)) as H1
  end.
  cbv zeta in H1.
  change (fst (fst (move_setup keep_direction actor 1000 (mkVector2 1 0))))
    with (mkVector2 1 0) in H1.
  change (snd (fst (move_setup keep_direction actor 1000 (mkVector2 1 0))))
    with (mkVector2 12 12) in H1.
  change (snd (move_setup keep_direction actor 1000 (mkVector2 1 0)))
    with (mkMoveState actor (mkVector2 1000 0) false) in H1.
  specialize (H1 Hs).
  destruct H1 as (_ & _ & t & tile & Ht & Hc & Hf & _).
  - split; [vm_compute; reflexivity|]. eexists. vm_compute. reflexivity.
  - exists t, tile. split; [exact Ht|]. split; [exact Hc|]. exact Hf.
Defined.

(** * Sprites and groups *)

(** [set_solver] clears hypotheses by names that need not exist. *)
#[local] Set Warnings "-clear-no-such-hyp".

Ltac sides :=
  solve [intuition (destruct_and?; subst; try congruence; eauto; tauto)].

Lemma group_items_set_store m ts gs n g :
  group_items (set_store m ts gs n) g = default ∅ (gs !! g).
Proof. reflexivity. Qed.

Lemma list_groups_set_store m ts gs n t :
  list_groups (set_store m ts gs n) t
  = match ts !! t with Some tl => t_groups tl | None => ∅ end.
Proof. reflexivity. Qed.

Lemma group_items_insert m ts gs n g X g' :
  group_items (set_store m ts (<[g := X]> gs) n) g'
  = if decide (g' = g) then X else default ∅ (gs !! g').
Proof.
  rewrite group_items_set_store. destruct (decide (g' = g)) as [->|Hne].
  - by rewrite lookup_insert_eq.
  - by rewrite lookup_insert_ne.
Qed.

Lemma add_to_items m t g t' g' :
  t' ∈ group_items (add_to m t g) g'
  <-> t' ∈ group_items m g'
      \/ (t' = t /\ g' = g /\ is_Some (tiles m !! t)
          /\ g ∉ list_groups m t).
Proof.
  unfold add_to, list_groups. destruct (tiles m !! t) as [tl|] eqn:Ht.
  - destruct (decide (g ∈ t_groups tl)) as [Hin|Hout]; [sides|].
    rewrite group_items_insert. destruct (decide (g' = g)) as [->|Hne].
    + rewrite elem_of_union, elem_of_singleton. sides.
    + fold (group_items m g'). sides.
  - split; [auto|]. intros [? | (_ & _ & [? ?] & _)]; done.
Qed.

Lemma add_to_groups m t g t' g' :
  g' ∈ list_groups (add_to m t g) t'
  <-> g' ∈ list_groups m t'
      \/ (t' = t /\ g' = g /\ is_Some (tiles m !! t)).
Proof.
  unfold add_to. destruct (tiles m !! t) as [tl|] eqn:Ht.
  - destruct (decide (g ∈ t_groups tl)) as [Hin|Hout].
    + unfold list_groups. split; [auto|].
      intros [? | (-> & -> & _)]; [done|]. by rewrite Ht.
    + rewrite list_groups_set_store. unfold list_groups.
      destruct (decide (t' = t)) as [->|Hne].
      * rewrite lookup_insert_eq, Ht. simpl.
        rewrite elem_of_union, elem_of_singleton. sides.
      * rewrite lookup_insert_ne by done. sides.
  - split; [auto|]. intros [? | (_ & _ & [? ?])]; done.
Qed.

Lemma kill_fold (m : Map) (t : nat) (X : gset nat) (g : nat) :
  set_fold (fun g gs => <[g := group_items m g ∖ {[t]}]> gs) (groups m) X !! g
  = if decide (g ∈ X) then Some (group_items m g ∖ {[t]}) else groups m !! g.
Proof.
  refine (set_fold_ind_L
            (fun gs (Y : gset nat) =>
               gs !! g = if decide (g ∈ Y)
                         then Some (group_items m g ∖ {[t]})
                         else groups m !! g) _ _ _ _ X).
  - by rewrite decide_False by set_solver.
  - intros x Y gs Hx IH. destruct (decide (g = x)) as [->|Hne].
    + rewrite lookup_insert_eq. by rewrite decide_True by set_solver.
    + rewrite lookup_insert_ne by done. rewrite IH.
      destruct (decide (g ∈ Y)).
      * by rewrite decide_True by set_solver.
      * by rewrite decide_False by set_solver.
Qed.

Lemma kill_items m t t' g' :
  t' ∈ group_items (kill m t) g'
  <-> t' ∈ group_items m g' /\ ~ (t' = t /\ g' ∈ list_groups m t).
Proof.
  unfold kill, list_groups. destruct (tiles m !! t) as [tl|] eqn:Ht.
  - rewrite group_items_set_store, kill_fold.
    destruct (decide (g' ∈ t_groups tl)); simpl.
    + rewrite elem_of_difference, elem_of_singleton. sides.
    + fold (group_items m g'). sides.
  - set_solver.
Qed.

Lemma kill_groups m t t' g' :
  g' ∈ list_groups (kill m t) t' <-> g' ∈ list_groups m t' /\ t' <> t.
Proof.
  unfold kill. destruct (tiles m !! t) as [tl|] eqn:Ht.
  - rewrite list_groups_set_store. unfold list_groups.
    destruct (decide (t' = t)) as [->|Hne].
    + rewrite lookup_insert_eq. simpl. set_solver.
    + rewrite lookup_insert_ne by done. sides.
  - unfold list_groups. split; [|sides].
    intros H. split; [done|]. intros ->. by rewrite Ht in H.
Qed.

Lemma sprite_forget_items m t g t' g' :
  t' ∈ group_items (sprite_forget m t g) g' <-> t' ∈ group_items m g'.
Proof. unfold sprite_forget. by destruct (tiles m !! t). Qed.

Lemma sprite_forget_groups m t g t' g' :
  g' ∈ list_groups (sprite_forget m t g) t'
  <-> g' ∈ list_groups m t' /\ ~ (t' = t /\ g' = g).
Proof.
  unfold sprite_forget. destruct (tiles m !! t) as [tl|] eqn:Ht.
  - rewrite list_groups_set_store. unfold list_groups.
    destruct (decide (t' = t)) as [->|Hne].
    + rewrite lookup_insert_eq, Ht. simpl.
      rewrite elem_of_difference, elem_of_singleton. sides.
    + rewrite lookup_insert_ne by done. sides.
  - unfold list_groups. split; [|sides].
    intros H. split; [done|]. intros [-> _]. by rewrite Ht in H.
Qed.

Lemma group_forget_items m g t t' g' :
  t' ∈ group_items (group_forget m g t) g'
  <-> t' ∈ group_items m g' /\ ~ (t' = t /\ g' = g).
Proof.
  unfold group_forget. rewrite group_items_insert.
  destruct (decide (g' = g)) as [->|Hne].
  - rewrite elem_of_difference, elem_of_singleton. sides.
  - fold (group_items m g'). sides.
Qed.

Lemma group_forget_groups m g t t' g' :
  g' ∈ list_groups (group_forget m g t) t' <-> g' ∈ list_groups m t'.
Proof. reflexivity. Qed.

Lemma group_has_one m g t :
  group_has m g [t] = true <-> t ∈ group_items m g.
Proof.
  unfold group_has. simpl. rewrite andb_true_r. apply bool_decide_eq_true.
Qed.

Lemma remove_from_run m t g fuel :
  (3 <= fuel)%nat ->
  remove_from fuel m t g
  = Some (if bool_decide (g ∈ list_groups m t) then
            if group_has (sprite_forget m t g) g [t]
            then group_forget (sprite_forget m t g) g t
            else sprite_forget m t g
          else m).
Proof.
  intros Hfuel. destruct fuel as [|[|[|fuel]]]; try lia. simpl.
  destruct (bool_decide (g ∈ list_groups m t)); [|done].
  destruct (bool_decide (t ∈ group_items (sprite_forget m t g) g)); [|done].
  simpl. rewrite bool_decide_eq_false_2; [done|].
  rewrite group_forget_groups, sprite_forget_groups. tauto.
Qed.

Lemma group_remove_run m g t fuel :
  (3 <= fuel)%nat ->
  group_remove fuel m g t
  = Some (if group_has m g [t] then
            if bool_decide (g ∈ list_groups (group_forget m g t) t)
            then sprite_forget (group_forget m g t) t g
            else group_forget m g t
          else m).
Proof.
  intros Hfuel. destruct fuel as [|[|[|fuel]]]; try lia.
  cbn [group_remove remove_from].
  destruct (group_has m g [t]); [|done].
  destruct (bool_decide (g ∈ list_groups (group_forget m g t) t)); [|done].
  assert (group_has (sprite_forget (group_forget m g t) t g) g [t] = false)
    as ->; [|done].
  apply not_true_iff_false. rewrite group_has_one.
  rewrite sprite_forget_items, group_forget_items. tauto.
Qed.



Lemma remove_from_without m t g :
  mutual m ->
  membership_without m
    (if bool_decide (g ∈ list_groups m t) then
       if group_has (sprite_forget m t g) g [t]
       then group_forget (sprite_forget m t g) g t
       else sprite_forget m t g
     else m) t g.
Proof.
  intros Hm. destruct (bool_decide (g ∈ list_groups m t)) eqn:E.
  - apply bool_decide_eq_true in E.
    assert (group_has (sprite_forget m t g) g [t] = true) as ->.
    { apply group_has_one. rewrite sprite_forget_items. by apply Hm. }
    split; intros t' g'.
    + by rewrite group_forget_items, sprite_forget_items.
    + by rewrite group_forget_groups, sprite_forget_groups.
  - apply bool_decide_eq_false in E.
    split; intros t' g'; (split; [|tauto]); intros H;
      (split; [done|]); intros [-> ->]; apply E; [by apply Hm|done].
Qed.

Lemma group_remove_without m g t :
  mutual m ->
  membership_without m
    (if group_has m g [t] then
       if bool_decide (g ∈ list_groups (group_forget m g t) t)
       then sprite_forget (group_forget m g t) t g
       else group_forget m g t
     else m) t g.
Proof.
  intros Hm. destruct (group_has m g [t]) eqn:E.
  - apply group_has_one in E.
    rewrite bool_decide_eq_true_2
      by (rewrite group_forget_groups; by apply Hm).
    split; intros t' g'.
    + by rewrite sprite_forget_items, group_forget_items.
    + by rewrite sprite_forget_groups, group_forget_groups.
  - apply not_true_iff_false in E. rewrite group_has_one in E.
    split; intros t' g'; (split; [|tauto]); intros H;
      (split; [done|]); intros [-> ->]; apply E; [done|by apply Hm].
Qed.


Lemma empty_fold (m : Map) (g : nat) (X : gset nat) (t : nat) :
  set_fold (fun t ts =>
              match ts !! t with
              | Some tl =>
                  <[t := mkTile (t_pos tl) (t_image tl) (t_visible tl)
                                 (t_collidable tl) (t_collider tl)
                                 (t_groups tl ∖ {[g]})]> ts
              | None => ts
              end) (tiles m) X !! t
  = if decide (t ∈ X)
    then (fun tl => mkTile (t_pos tl) (t_image tl) (t_visible tl)
                           (t_collidable tl) (t_collider tl)
                           (t_groups tl ∖ {[g]})) <$> tiles m !! t
    else tiles m !! t.
Proof.
  refine (set_fold_ind_L
            (fun ts (Y : gset nat) =>
               ts !! t
               = if decide (t ∈ Y)
                 then (fun tl => mkTile (t_pos tl) (t_image tl) (t_visible tl)
                                        (t_collidable tl) (t_collider tl)
                                        (t_groups tl ∖ {[g]})) <$> tiles m !! t
                 else tiles m !! t) _ _ _ _ X).
  - by rewrite decide_False by set_solver.
  - intros x Y ts Hx IH. destruct (decide (t = x)) as [->|Hne].
    + rewrite decide_True by set_solver.
      rewrite decide_False in IH by done.
      destruct (ts !! x) as [tl|] eqn:E.
      * rewrite lookup_insert_eq. by rewrite <- IH.
      * by rewrite E, <- IH.
    + assert ((match ts !! x with
               | Some tl =>
                   <[x := mkTile (t_pos tl) (t_image tl) (t_visible tl)
                                  (t_collidable tl) (t_collider tl)
                                  (t_groups tl ∖ {[g]})]> ts
               | None => ts
               end) !! t = ts !! t) as ->.
      { destruct (ts !! x); [|done]. by rewrite lookup_insert_ne. }
      rewrite IH. destruct (decide (t ∈ Y)).
      * by rewrite decide_True by set_solver.
      * by rewrite decide_False by set_solver.
Qed.

Lemma group_empty_items m g t' g' :
  t' ∈ group_items (group_empty m g) g' <-> t' ∈ group_items m g' /\ g' <> g.
Proof.
  unfold group_empty. rewrite group_items_insert.
  destruct (decide (g' = g)) as [->|Hne]; [set_solver|].
  fold (group_items m g'). tauto.
Qed.

Lemma group_empty_groups m g t' g' :
  g' ∈ list_groups (group_empty m g) t'
  <-> g' ∈ list_groups m t' /\ ~ (g' = g /\ t' ∈ group_items m g).
Proof.
  unfold group_empty. rewrite list_groups_set_store, empty_fold.
  unfold list_groups. destruct (decide (t' ∈ group_items m g)) as [Hin|Hout].
  - destruct (tiles m !! t') as [tl|]; simpl; [|set_solver].
    rewrite elem_of_difference, elem_of_singleton. tauto.
  - tauto.
Qed.



Lemma mutual_listed m t g :
  mutual m -> t ∈ group_items m g -> is_Some (tiles m !! t).
Proof.
  intros Hm Hin. apply Hm in Hin. unfold list_groups in Hin.
  destruct (tiles m !! t); [eauto|set_solver].
Qed.

Lemma add_to_mutual m t g : mutual m -> mutual (add_to m t g).
Proof.
  intros Hm t' g'. rewrite add_to_items, add_to_groups, (Hm t' g').
  split; [intros [? | (-> & -> & ? & _)]; auto|].
  intros [? | (-> & -> & ?)]; [auto|].
  destruct (decide (g ∈ list_groups m t)); auto.
Qed.



Lemma group_empty_mutual m g : mutual m -> mutual (group_empty m g).
Proof.
  intros Hm t' g'. rewrite group_empty_items, group_empty_groups, (Hm t' g').
  split; [intros [H Hn]; split; [done|]; intros [? _]; done|].
  intros [H Hn]. split; [done|]. intros ->. apply Hn. split; [done|].
  by apply Hm.
Qed.


(** X2: with three nested calls or more, [Sprite.remove_from] and
    [SpriteGroup.remove] both return, and each takes the sprite out of
    the group on both sides and changes no other membership. *)
Theorem removal_unpairs_both_sides (m : Map) (t g : nat) (fuel : nat) :
  mutual m -> (3 <= fuel)%nat ->
  (exists m', remove_from fuel m t g = Some m' /\ membership_without m m' t g)
  /\ (exists m', group_remove fuel m g t = Some m'
                 /\ membership_without m m' t g).
Proof.
  intros Hm Hfuel. split.
  - rewrite remove_from_run by done. eexists. split; [done|].
    by apply remove_from_without.
  - rewrite group_remove_run by done. eexists. split; [done|].
    by apply group_remove_without.
Qed.

(** X3: after [kill] no group lists the sprite and the sprite lists no
    group; the memberships of the other sprites are as before. *)
Theorem kill_leaves_every_group (m : Map) (t : nat) :
  mutual m ->
  (forall g, t ∉ group_items (kill m t) g)
  /\ list_groups (kill m t) t = ∅
  /\ (forall t' g, t' <> t ->
        (t' ∈ group_items (kill m t) g <-> t' ∈ group_items m g)
        /\ (g ∈ list_groups (kill m t) t' <-> g ∈ list_groups m t')).
Proof.
  intros Hm. split; [|split].
  - intros g. rewrite kill_items. intros [Hin Hn]. apply Hn.
    split; [done|]. by apply Hm.
  - apply set_eq. intros g. rewrite kill_groups. set_solver.
  - intros t' g Hne. rewrite kill_items, kill_groups. tauto.
Qed.

(** X4: after [empty] the group has no item and no sprite lists it; the
    other groups are as before. *)
Theorem empty_forgets_on_both_sides (m : Map) (g : nat) :
  mutual m ->
  group_items (group_empty m g) g = ∅
  /\ (forall t, g ∉ list_groups (group_empty m g) t)
  /\ (forall t g', g' <> g ->
        (t ∈ group_items (group_empty m g) g' <-> t ∈ group_items m g')
        /\ (g' ∈ list_groups (group_empty m g) t <-> g' ∈ list_groups m t)).
Proof.
  intros Hm. split; [|split].
  - apply set_eq. intros t. rewrite group_empty_items. set_solver.
  - intros t. rewrite group_empty_groups. intros [Hin Hn]. apply Hn.
    split; [done|]. by apply Hm.
  - intros t g' Hne. rewrite group_empty_items, group_empty_groups. tauto.
Qed.


(** * The level grid *)

(** ** Lists of rows *)

Lemma py_getitem2_entry {A} (mx : list (list A)) (x y : Z) :
  0 <= x -> 0 <= y ->
  py_getitem2 mx y x
  = match entry mx (x, y) with
    | Some c => Ok c
    | None => Raise IndexError
    end.
Proof.
  intros Hx Hy. unfold py_getitem2, entry. simpl.
  assert ((0 <=? x) && (0 <=? y) = true) as -> by lia.
  rewrite py_getitem_nonneg by done.
  destruct (mx !! Z.to_nat y) as [row|]; simpl; [|done].
  by rewrite py_getitem_nonneg by done.
Qed.

Lemma entry_inside {A} (mx : list (list A)) (width height : Z) (p : Z * Z) :
  grid_shape mx width height ->
  is_Some (entry mx p) <-> (0 <= fst p < width /\ 0 <= snd p < height).
Proof.
  intros [Hh Hw]. unfold entry. split.
  - intros [c Hc].
    destruct ((0 <=? fst p) && (0 <=? snd p)) eqn:E; [|done].
    destruct (mx !! Z.to_nat (snd p)) as [row|] eqn:Hrow; [|done].
    apply lookup_lt_Some in Hc. pose proof (lookup_lt_Some _ _ _ Hrow).
    rewrite Forall_lookup in Hw. specialize (Hw _ _ Hrow). simpl in Hw. lia.
  - intros [Hx Hy].
    assert ((0 <=? fst p) && (0 <=? snd p) = true) as -> by lia.
    destruct (lookup_lt_is_Some_2 mx (Z.to_nat (snd p))) as [row Hrow];
      [lia|].
    rewrite Hrow. apply lookup_lt_is_Some_2.
    rewrite Forall_lookup in Hw. specialize (Hw _ _ Hrow). simpl in Hw. lia.
Qed.

Lemma py_setitem2_entry {A} (mx mx' : list (list A)) (x y : Z) (v : A) :
  0 <= x -> 0 <= y ->
  py_setitem2 mx y x v = Ok mx' ->
  entry mx' (x, y) = Some v
  /\ (forall p, p <> (x, y) -> entry mx' p = entry mx p)
  /\ (forall width height,
         grid_shape mx width height -> grid_shape mx' width height).
Proof.
  intros Hx Hy. unfold py_setitem2.
  rewrite py_getitem_nonneg by done.
  destruct (mx !! Z.to_nat y) as [row|] eqn:Hrow; simpl; [|done].
  rewrite py_setitem_nonneg by done.
  destruct (x <? Z.of_nat (length row)) eqn:Ex; simpl; [|done].
  rewrite py_setitem_nonneg by done.
  pose proof (lookup_lt_Some _ _ _ Hrow) as Hlt.
  assert ((y <? Z.of_nat (length mx)) = true) as -> by lia.
  intros [= <-]. split; [|split].
  - unfold entry. simpl.
    assert ((0 <=? x) && (0 <=? y) = true) as -> by lia.
    rewrite list_lookup_insert_eq by done.
    apply list_lookup_insert_eq. lia.
  - intros [px py] Hne. unfold entry. simpl.
    destruct ((0 <=? px) && (0 <=? py)) eqn:E; [|done].
    destruct (decide (Z.to_nat py = Z.to_nat y)) as [Heq|Hney].
    + rewrite Heq, list_lookup_insert_eq by done. rewrite Hrow.
      apply list_lookup_insert_ne. intros Hxx.
      apply Hne. f_equal; lia.
    + by rewrite list_lookup_insert_ne.
  - intros width height [Hh Hw]. split; [by rewrite length_insert|].
    apply Forall_insert; [done|]. rewrite length_insert.
    rewrite Forall_lookup in Hw. exact (Hw _ _ Hrow).
Qed.

Lemma py_setitem2_entry_inside {A} (mx : list (list A)) (x y : Z) (v : A) :
  is_Some (entry mx (x, y)) ->
  exists mx', py_setitem2 mx y x v = Ok mx'.
Proof.
  unfold entry. simpl. intros [c Hc].
  destruct ((0 <=? x) && (0 <=? y)) eqn:E; [|done].
  destruct (mx !! Z.to_nat y) as [row|] eqn:Hrow; [|done].
  unfold py_setitem2. rewrite py_getitem_nonneg, Hrow by lia. simpl.
  pose proof (lookup_lt_Some _ _ _ Hrow). pose proof (lookup_lt_Some _ _ _ Hc).
  rewrite py_setitem_nonneg by lia.
  assert ((x <? Z.of_nat (length row)) = true) as -> by lia. simpl.
  rewrite py_setitem_nonneg by lia.
  assert ((y <? Z.of_nat (length mx)) = true) as -> by lia. eauto.
Qed.

Lemma py_setitem2_outside {A} (mx : list (list A)) (x y : Z) (v : A) :
  0 <= x -> 0 <= y -> entry mx (x, y) = None ->
  py_setitem2 mx y x v = Raise IndexError.
Proof.
  intros Hx Hy. unfold entry, py_setitem2. simpl.
  assert ((0 <=? x) && (0 <=? y) = true) as -> by lia.
  rewrite py_getitem_nonneg by done.
  destruct (mx !! Z.to_nat y) as [row|] eqn:Hrow; simpl; [|done].
  intros Hnone. apply lookup_ge_None in Hnone.
  rewrite py_setitem_nonneg by done.
  by assert ((x <? Z.of_nat (length row)) = false) as -> by lia.
Qed.

(** ** What a call leaves alone *)

Lemma get_tile_entry m pos plane :
  get_tile m pos plane
  = if utils.is_within_bounds (fst pos) (snd pos) (width m) (height m)
    then match entry (matrix_of m plane) pos with
         | Some c => Ok c
         | None => Raise IndexError
         end
    else Raise IndexError.
Proof.
  unfold get_tile.
  destruct (utils.is_within_bounds _ _ _ _) eqn:Hb; [|done]. simpl.
  apply is_within_bounds_spec in Hb.
  rewrite py_getitem2_entry by lia. by destruct pos.
Qed.

Lemma add_to_frame m t g :
  frame (add_to m t g) = frame m /\ next_tile (add_to m t g) = next_tile m.
Proof.
  unfold add_to. destruct (tiles m !! t); [|done].
  by destruct (decide _).
Qed.

Lemma add_to_all_frame m t gs :
  frame (foldl (fun acc g => add_to acc t g) m gs) = frame m
  /\ next_tile (foldl (fun acc g => add_to acc t g) m gs) = next_tile m.
Proof.
  revert m. induction gs as [|g gs IH]; intros m; simpl; [done|].
  destruct (IH (add_to m t g)) as [-> ->]. apply add_to_frame.
Qed.

Lemma kill_frame m t :
  frame (kill m t) = frame m /\ next_tile (kill m t) = next_tile m.
Proof. unfold kill. by destruct (tiles m !! t). Qed.

Lemma frame_get_tile m m' pos plane :
  frame m' = frame m -> get_tile m' pos plane = get_tile m pos plane.
Proof.
  unfold frame, get_tile, width, height, matrix_of.
  intros [= _ -> _ _ _ _ -> ->]. done.
Qed.

Lemma frame_well_formed m m' :
  frame m' = frame m -> well_formed m -> well_formed m'.
Proof.
  unfold frame, well_formed, width, height.
  intros [= _ -> _ _ _ _ -> ->]. done.
Qed.

Lemma add_to_all_items m t gs t' g' :
  is_Some (tiles m !! t) -> mutual m ->
  t' ∈ group_items (foldl (fun acc g => add_to acc t g) m gs) g'
  <-> t' ∈ group_items m g' \/ (t' = t /\ g' ∈ gs).
Proof.
  revert m. induction gs as [|g gs IH]; intros m Ht Hm; simpl.
  - rewrite elem_of_nil. tauto.
  - rewrite IH.
    + rewrite add_to_items, elem_of_cons.
      split; [intros [[? | (-> & -> & _)] | [? ?]]; auto|].
      intros [? | [-> [-> | ?]]]; auto.
      destruct (decide (g ∈ list_groups m t)); [|by left; right].
      left. left. by apply Hm.
    + unfold add_to. destruct Ht as [tl Ht]. rewrite Ht.
      destruct (decide _); [by rewrite Ht|]. simpl.
      by rewrite lookup_insert_eq.
    + by apply add_to_mutual.
Qed.

Lemma add_to_all_mutual m t gs :
  mutual m -> mutual (foldl (fun acc g => add_to acc t g) m gs).
Proof.
  revert m. induction gs as [|g gs IH]; intros m Hm; simpl; [done|].
  by apply IH, add_to_mutual.
Qed.

Lemma add_to_tiles m t g t' :
  t' <> t -> tiles (add_to m t g) !! t' = tiles m !! t'.
Proof.
  intros Hne. unfold add_to. destruct (tiles m !! t); [|done].
  destruct (decide _); [done|]. simpl. by rewrite lookup_insert_ne.
Qed.

Lemma add_to_all_tiles m t gs t' :
  t' <> t ->
  tiles (foldl (fun acc g => add_to acc t g) m gs) !! t' = tiles m !! t'.
Proof.
  intros Hne. revert m. induction gs as [|g gs IH]; intros m; simpl; [done|].
  by rewrite IH, add_to_tiles.
Qed.

Lemma add_to_same_sprite m t g tl :
  tiles m !! t = Some tl ->
  exists tl', tiles (add_to m t g) !! t = Some tl' /\ same_sprite tl' tl.
Proof.
  intros Ht. unfold add_to. rewrite Ht. destruct (decide _).
  - exists tl. by rewrite Ht.
  - simpl. rewrite lookup_insert_eq. eexists. split; [done|]. by repeat split.
Qed.

Lemma add_to_all_same_sprite m t gs tl :
  tiles m !! t = Some tl ->
  exists tl', tiles (foldl (fun acc g => add_to acc t g) m gs) !! t = Some tl'
              /\ same_sprite tl' tl.
Proof.
  revert m tl. induction gs as [|g gs IH]; intros m tl Ht; simpl.
  - exists tl. by repeat split.
  - destruct (add_to_same_sprite m t g tl Ht) as (tl1 & Ht1 & Hs1).
    destruct (IH _ _ Ht1) as (tl2 & Ht2 & Hs2).
    exists tl2. split; [done|].
    destruct Hs1 as (? & ? & ? & ? & ?), Hs2 as (? & ? & ? & ? & ?).
    repeat split; congruence.
Qed.

Lemma frame_matrix_of m m' plane :
  frame m' = frame m -> matrix_of m' plane = matrix_of m plane.
Proof.
  unfold frame, matrix_of. intros [= _ _ _ _ _ _ -> ->]. done.
Qed.

Lemma frame_plane_group m m' plane :
  frame m' = frame m -> plane_group m' plane = plane_group m plane.
Proof.
  unfold frame, plane_group. intros [= _ _ _ _ -> -> _ _]. done.
Qed.

Lemma well_formed_plane m plane :
  well_formed m -> grid_shape (matrix_of m plane) (width m) (height m).
Proof. intros [? ?]. by destruct plane. Qed.

(** ** [place_tile] on a cell of the level, with a type that has images *)

Lemma place_tile_run m rnd pos code extra plane visible collidable imgs :
  well_formed m ->
  0 <= fst pos < width m -> 0 <= snd pos < height m ->
  type code <> "None"%string ->
  graphics m !! type code = Some imgs -> imgs <> [] ->
  exists image mx,
    image ∈ imgs
    /\ (0 <= variation code < Z.of_nat (length imgs) ->
        imgs !! Z.to_nat (variation code) = Some image)
    /\ py_setitem2 (matrix_of m plane) (snd pos) (fst pos)
                   (Some (next_tile m)) = Ok mx
    /\ place_tile m rnd pos code extra plane visible collidable
       = (Ok tt,
          add_to
            (set_matrix
               (foldl (fun acc g => add_to acc (next_tile m) g)
                      (set_store m
                         (<[next_tile m :=
                              Tile_init (fst pos * tile_size m,
                                         snd pos * tile_size m)
                                        image (tile_inflate (type code))
                                        (tile_move (type code))
                                        visible collidable]> (tiles m))
                         (groups m) (S (next_tile m)))
                      extra)
               plane mx)
            (next_tile m) (plane_group m plane)).
Proof.
  intros Hwf Hx Hy Hty Himgs Hne. unfold place_tile.
  assert (utils.is_within_bounds (fst pos) (snd pos) (width m) (height m)
          = true) as -> by (apply is_within_bounds_spec; lia).
  cbn [negb].
  assert (String.eqb (type code) "None" = false) as ->
      by (by apply String.eqb_neq).
  rewrite Himgs. rewrite Himgs.
  assert (exists image,
             image ∈ imgs
             /\ (0 <= variation code < Z.of_nat (length imgs) ->
                 imgs !! Z.to_nat (variation code) = Some image)
             /\ (if (0 <=? variation code)
                    && (variation code <? Z.of_nat (length imgs))
                 then py_getitem imgs (variation code)
                 else match imgs with
                      | [] => Raise IndexError
                      | _ => py_getitem imgs (Z.of_nat (rnd mod length imgs))
                      end) = Ok image) as (image & Hin & Hvar & ->).
  { destruct ((0 <=? variation code)
              && (variation code <? Z.of_nat (length imgs))) eqn:Hv.
    - rewrite py_getitem_nonneg by lia.
      destruct (lookup_lt_is_Some_2 imgs (Z.to_nat (variation code)))
        as [image Himage]; [lia|].
      rewrite Himage. exists image. split; [|done].
      by eapply list_elem_of_lookup_2.
    - destruct imgs as [|i0 imgs'] eqn:Ei; [done|]. rewrite <- Ei in *.
      rewrite py_getitem_nonneg by lia. rewrite Nat2Z.id.
      assert (rnd mod length imgs < length imgs)%nat as Hlt.
      { apply Nat.mod_upper_bound. rewrite Ei. simpl. lia. }
      destruct (lookup_lt_is_Some_2 imgs (rnd mod length imgs)) as [image Himage];
        [done|].
      rewrite Himage. exists image. split; [by eapply list_elem_of_lookup_2|].
      split; [lia|done]. }
  set (m1 := set_store m _ _ _).
  destruct (add_to_all_frame m1 (next_tile m) extra) as [Hframe _].
  assert (frame m1 = frame m) as Hframe1 by done.
  set (m2 := foldl _ m1 extra) in *.
  rewrite (frame_matrix_of m m2 plane) by congruence.
  rewrite (frame_plane_group m m2 plane) by congruence.
  destruct (py_setitem2_entry_inside (matrix_of m plane) (fst pos) (snd pos)
              (Some (next_tile m))) as [mx Hmx].
  { apply (entry_inside _ (width m) (height m)); [|done].
    by apply well_formed_plane. }
  rewrite Hmx. exists image, mx. done.
Qed.

Lemma set_matrix_same m plane mx : matrix_of (set_matrix m plane mx) plane = mx.
Proof. by destruct plane. Qed.

Lemma set_matrix_other m plane mx :
  matrix_of (set_matrix m plane mx) (other_plane plane)
  = matrix_of m (other_plane plane).
Proof. by destruct plane. Qed.

Lemma set_matrix_size m plane mx : size (set_matrix m plane mx) = size m.
Proof. by destruct plane. Qed.

Lemma set_matrix_tiles m plane mx : tiles (set_matrix m plane mx) = tiles m.
Proof. by destruct plane. Qed.

Lemma set_matrix_groups m plane mx : groups (set_matrix m plane mx) = groups m.
Proof. by destruct plane. Qed.

Lemma set_matrix_next_tile m plane mx :
  next_tile (set_matrix m plane mx) = next_tile m.
Proof. by destruct plane. Qed.

Lemma set_matrix_tile_size m plane mx :
  tile_size (set_matrix m plane mx) = tile_size m.
Proof. by destruct plane. Qed.

Lemma set_matrix_items m plane mx g :
  group_items (set_matrix m plane mx) g = group_items m g.
Proof. by destruct plane. Qed.

Lemma set_matrix_list_groups m plane mx t :
  list_groups (set_matrix m plane mx) t = list_groups m t.
Proof. by destruct plane. Qed.

Lemma set_matrix_mutual m plane mx : mutual m -> mutual (set_matrix m plane mx).
Proof.
  intros Hm t g. by rewrite set_matrix_items, set_matrix_list_groups.
Qed.

Lemma frame_size m m' : frame m' = frame m -> size m' = size m.
Proof. unfold frame. by intros [= _ -> _ _ _ _ _ _]. Qed.

Lemma frame_tile_size m m' : frame m' = frame m -> tile_size m' = tile_size m.
Proof. unfold frame. by intros [= _ _ _ -> _ _ _ _]. Qed.

Lemma get_tile_matrix m m' pos plane :
  size m' = size m -> matrix_of m' plane = matrix_of m plane ->
  get_tile m' pos plane = get_tile m pos plane.
Proof.
  intros Hs Hmx. unfold get_tile, width, height. by rewrite Hs, Hmx.
Qed.

Lemma add_to_size m t g : size (add_to m t g) = size m.
Proof. apply frame_size, add_to_frame. Qed.

Lemma add_to_matrix_of m t g plane :
  matrix_of (add_to m t g) plane = matrix_of m plane.
Proof. apply frame_matrix_of, add_to_frame. Qed.

Lemma add_to_all_groups m t gs t' g' :
  g' ∈ list_groups (foldl (fun acc g => add_to acc t g) m gs) t'
  <-> g' ∈ list_groups m t'
      \/ (t' = t /\ g' ∈ gs /\ is_Some (tiles m !! t)).
Proof.
  revert m. induction gs as [|g gs IH]; intros m; simpl.
  - rewrite elem_of_nil. tauto.
  - rewrite IH, add_to_groups, elem_of_cons.
    assert (is_Some (tiles (add_to m t g) !! t) <-> is_Some (tiles m !! t))
      as ->.
    { unfold add_to. destruct (tiles m !! t) as [tl|] eqn:Ht; [|by rewrite Ht].
      destruct (decide _); [by rewrite Ht|]. simpl.
      rewrite lookup_insert_eq. split; eauto. }
    tauto.
Qed.

(** The store right after the new tile is created, before it joins a
    group. *)
Lemma created_mutual m tile :
  mutual m -> fresh_next m -> t_groups tile = ∅ ->
  mutual (set_store m (<[next_tile m := tile]> (tiles m)) (groups m)
                    (S (next_tile m))).
Proof.
  intros Hm Hfresh Hnone t g.
  rewrite group_items_set_store, list_groups_set_store.
  fold (group_items m g).
  destruct (decide (t = next_tile m)) as [->|Hne].
  - rewrite lookup_insert_eq, Hnone. split; [|set_solver].
    intros Hin. apply (mutual_listed m _ _ Hm), Hfresh in Hin. lia.
  - rewrite lookup_insert_ne by done. apply Hm.
Qed.

Section PlaceTile.

Variables (m : Map) (rnd : nat) (pos : Z * Z) (code : TileCode).
Variables (extra : list nat) (plane : Plane) (visible collidable : bool).
Variable imgs : list Surface.

Hypothesis Hwf : well_formed m.
Hypothesis Hx : 0 <= fst pos < width m.
Hypothesis Hy : 0 <= snd pos < height m.
Hypothesis Hty : type code <> "None"%string.
Hypothesis Himgs : graphics m !! type code = Some imgs.
Hypothesis Hne : imgs <> [].

Local Abbreviation placed :=
  (place_tile m rnd pos code extra plane visible collidable).

Lemma placed_grid :
  fst placed = Ok tt
  /\ get_tile (snd placed) pos plane = Ok (Some (next_tile m))
  /\ (forall q, q <> pos ->
                get_tile (snd placed) q plane = get_tile m q plane)
  /\ (forall q, get_tile (snd placed) q (other_plane plane)
                = get_tile m q (other_plane plane))
  /\ well_formed (snd placed)
  /\ next_tile (snd placed) = S (next_tile m)
  /\ size (snd placed) = size m
  /\ tile_size (snd placed) = tile_size m.
Proof.
  destruct (place_tile_run m rnd pos code extra plane visible collidable imgs)
    as (image & mx & _ & _ & Hmx & ->); try done.
  cbn [fst snd]. set (m1 := set_store m _ _ _).
  set (m2 := foldl _ m1 extra).
  destruct (add_to_all_frame m1 (next_tile m) extra) as [Hframe2 Hnext2].
  fold m2 in Hframe2, Hnext2.
  assert (frame m2 = frame m) as Hframe by (by rewrite Hframe2).
  set (m3 := set_matrix m2 plane mx).
  assert (size (add_to m3 (next_tile m) (plane_group m plane)) = size m)
    as Hsize.
  { rewrite add_to_size. unfold m3. rewrite set_matrix_size.
    by apply frame_size. }
  assert (forall p, matrix_of (add_to m3 (next_tile m) (plane_group m plane)) p
                    = matrix_of m3 p) as Hmat
      by (intros p; apply add_to_matrix_of).
  apply py_setitem2_entry in Hmx as (Hnew & Hold & Hshape); [|lia|lia].
  split; [done|]. split; [|split; [|split; [|split; [|split; [|split]]]]].
  - rewrite get_tile_entry. unfold width, height. rewrite Hsize.
    fold (width m) (height m).
    assert (utils.is_within_bounds (fst pos) (snd pos) (width m) (height m)
            = true) as -> by (apply is_within_bounds_spec; lia).
    rewrite Hmat. unfold m3. rewrite set_matrix_same.
    by rewrite (surjective_pairing pos), Hnew.
  - intros q Hq. rewrite !get_tile_entry. unfold width, height.
    rewrite Hsize. rewrite Hmat. unfold m3. rewrite set_matrix_same.
    rewrite Hold; [done|]. by rewrite <- surjective_pairing.
  - intros q. apply get_tile_matrix; [done|]. rewrite Hmat. unfold m3.
    rewrite set_matrix_other. by apply frame_matrix_of.
  - assert (forall p, grid_shape (matrix_of (add_to m3 (next_tile m)
                                                    (plane_group m plane)) p)
                                 (width m) (height m)) as Hall.
    { intros p. rewrite Hmat. unfold m3.
      assert (p = plane \/ p = other_plane plane) as [-> | ->]
          by (destruct p, plane; auto).
      - rewrite set_matrix_same. by apply Hshape, well_formed_plane.
      - rewrite set_matrix_other, (frame_matrix_of m m2) by done.
        by apply well_formed_plane. }
    unfold well_formed, width, height. rewrite Hsize.
    split; [apply (Hall foreground)|apply (Hall background)].
  - destruct (add_to_frame m3 (next_tile m) (plane_group m plane)) as [_ ->].
    unfold m3. by rewrite set_matrix_next_tile, Hnext2.
  - done.
  - destruct (add_to_frame m3 (next_tile m) (plane_group m plane)) as [Hf _].
    rewrite (frame_tile_size _ _ Hf). unfold m3.
    rewrite set_matrix_tile_size. by apply frame_tile_size.
Qed.

Lemma placed_tile :
  exists tile image,
    tiles (snd placed) !! next_tile m = Some tile
    /\ image ∈ imgs
    /\ (0 <= variation code < Z.of_nat (length imgs) ->
        imgs !! Z.to_nat (variation code) = Some image)
    /\ same_sprite tile
         (Tile_init (fst pos * tile_size m, snd pos * tile_size m) image
                    (tile_inflate (type code)) (tile_move (type code))
                    visible collidable)
    /\ (forall g, g ∈ t_groups tile <-> g = plane_group m plane \/ g ∈ extra)
    /\ (forall t, t <> next_tile m ->
                  tiles (snd placed) !! t = tiles m !! t).
Proof.
  destruct (place_tile_run m rnd pos code extra plane visible collidable imgs)
    as (image & mx & Hin & Hvar & _ & ->); try done.
  cbn [fst snd]. set (created := Tile_init _ image _ _ _ _).
  set (m1 := set_store m _ _ _). set (m2 := foldl _ m1 extra).
  set (m3 := set_matrix m2 plane mx).
  assert (tiles m1 !! next_tile m = Some created) as H1
      by (unfold m1; simpl; by rewrite lookup_insert_eq).
  destruct (add_to_all_same_sprite m1 (next_tile m) extra created H1)
    as (tl2 & H2 & Hs2). fold m2 in H2.
  assert (tiles m3 !! next_tile m = Some tl2) as H3
      by (unfold m3; by rewrite set_matrix_tiles).
  destruct (add_to_same_sprite m3 (next_tile m) (plane_group m plane) tl2 H3)
    as (tl4 & H4 & Hs4).
  exists tl4, image. split; [done|]. split; [done|]. split; [done|].
  split; [|split].
  - destruct Hs2 as (? & ? & ? & ? & ?), Hs4 as (? & ? & ? & ? & ?).
    fold created. unfold same_sprite. repeat split; congruence.
  - intros g.
    pose proof (add_to_groups m3 (next_tile m) (plane_group m plane)
                              (next_tile m) g) as Hg.
    unfold list_groups at 1 in Hg. rewrite H4 in Hg. rewrite Hg.
    unfold m3. rewrite set_matrix_list_groups, set_matrix_tiles. unfold m2.
    rewrite add_to_all_groups. fold m2. rewrite H2.
    unfold list_groups. rewrite H1. unfold created. simpl.
    split.
    + intros [[? | (_ & ? & _)] | (_ & -> & _)]; auto. set_solver.
    + intros [-> | ?]; eauto 8.
  - intros t Hne'. rewrite add_to_tiles by done. unfold m3.
    rewrite set_matrix_tiles. unfold m2. rewrite add_to_all_tiles by done.
    unfold m1. simpl. by rewrite lookup_insert_ne.
Qed.

Lemma placed_members :
  mutual m -> fresh_next m ->
  (forall t g, t ∈ group_items (snd placed) g
               <-> t ∈ group_items m g
                   \/ (t = next_tile m
                       /\ (g = plane_group m plane \/ g ∈ extra)))
  /\ mutual (snd placed)
  /\ fresh_next (snd placed).
Proof.
  intros Hm Hfresh.
  pose proof placed_grid as (_ & _ & _ & _ & _ & Hnext & _).
  pose proof placed_tile as (tile & image0 & Htile & _ & _ & _ & _ & Hrest).
  revert Hnext Htile Hrest.
  destruct (place_tile_run m rnd pos code extra plane visible collidable imgs)
    as (image & mx & _ & _ & _ & ->); try done.
  cbn [fst snd]. set (created := Tile_init _ image _ _ _ _).
  set (m1 := set_store m _ _ _). set (m2 := foldl _ m1 extra).
  set (m3 := set_matrix m2 plane mx).
  intros Hnext Htile Hrest.
  assert (mutual m1) as Hm1 by (by apply created_mutual).
  assert (mutual m3) as Hm3.
  { apply set_matrix_mutual. by apply add_to_all_mutual. }
  assert (tiles m1 !! next_tile m = Some created) as H1
      by (unfold m1; simpl; by rewrite lookup_insert_eq).
  split; [|split].
  - intros t g. rewrite add_to_items. unfold m3 at 1.
    rewrite set_matrix_items. unfold m2 at 1.
    rewrite add_to_all_items by (by rewrite ?H1).
    change (group_items m1 g) with (group_items m g).
    split.
    + intros [[? | [-> ?]] | (-> & -> & _)]; auto.
    + intros [? | [-> [-> | ?]]]; auto.
      destruct (decide (plane_group m plane
                          ∈ list_groups m3 (next_tile m))) as [Hin|Hout].
      * apply Hm3 in Hin. left. revert Hin. unfold m3.
        rewrite set_matrix_items. unfold m2.
        rewrite add_to_all_items by (by rewrite ?H1).
        change (group_items m1 (plane_group m plane))
          with (group_items m (plane_group m plane)). tauto.
      * right. repeat split; try done. unfold m3.
        rewrite set_matrix_tiles.
        destruct (add_to_all_same_sprite m1 (next_tile m) extra created H1)
          as (tl2 & Htl2 & _). fold m2 in Htl2. by rewrite Htl2.
  - by apply add_to_mutual.
  - intros t Ht. rewrite Hnext.
    destruct (decide (t = next_tile m)) as [->|Hne']; [lia|].
    rewrite Hrest in Ht by done. apply Hfresh in Ht. lia.
Qed.

End PlaceTile.





(** ** [remove_tile] *)

Lemma kill_matrix_of m t plane : matrix_of (kill m t) plane = matrix_of m plane.
Proof. apply frame_matrix_of, kill_frame. Qed.

Lemma kill_size m t : size (kill m t) = size m.
Proof. apply frame_size, kill_frame. Qed.

Lemma remove_tile_run m pos plane t :
  0 <= fst pos < width m -> 0 <= snd pos < height m ->
  get_tile m pos plane = Ok (Some t) ->
  remove_tile m pos plane
  = match py_setitem2 (matrix_of m plane) (fst pos) (snd pos) None with
    | Ok mx => (Ok tt, set_matrix (kill m t) plane mx)
    | Raise e => (Raise e, kill m t)
    end.
Proof.
  intros Hx Hy Hget. unfold remove_tile.
  assert (utils.is_within_bounds (fst pos) (snd pos) (width m) (height m)
          = true) as -> by (apply is_within_bounds_spec; lia).
  cbn [negb]. by rewrite Hget, kill_matrix_of.
Qed.

(** X10: [remove_tile] on a cell that holds a tile takes the tile out
    of every group, then writes to the cell of row [pos[0]] and column
    [pos[1]]. When that cell exists it is the one emptied, every other
    cell is kept, so that [get_tile] at [pos] returns nothing only on
    the diagonal and still returns the killed tile elsewhere. When that
    cell does not exist IndexError is raised with the tile already out
    of its groups and still in the grid. *)
Theorem remove_tile_empties_the_mirror_cell
    (m : Map) (pos : Z * Z) (plane : Plane) (t : nat) :
  well_formed m -> mutual m ->
  0 <= fst pos < width m -> 0 <= snd pos < height m ->
  get_tile m pos plane = Ok (Some t) ->
  let r := remove_tile m pos plane in
  (forall g, t ∉ group_items (snd r) g)
  /\ (fst pos < height m /\ snd pos < width m ->
      fst r = Ok tt
      /\ get_tile (snd r) (snd pos, fst pos) plane = Ok None
      /\ (forall q, q <> (snd pos, fst pos) ->
                    get_tile (snd r) q plane = get_tile m q plane)
      /\ (fst pos = snd pos -> get_tile (snd r) pos plane = Ok None)
      /\ (fst pos <> snd pos -> get_tile (snd r) pos plane = Ok (Some t)))
  /\ (~ (fst pos < height m /\ snd pos < width m) ->
      fst r = Raise IndexError
      /\ forall q, get_tile (snd r) q plane = get_tile m q plane).
Proof.
  intros Hwf Hm Hx Hy Hget r. unfold r.
  rewrite (remove_tile_run m pos plane t Hx Hy Hget).
  pose proof (well_formed_plane m plane Hwf) as Hshape.
  destruct (kill_leaves_every_group m t Hm) as (Hgone & _).
  split; [|split].
  - intros g. destruct (py_setitem2 _ _ _ _); cbn [snd]; [|done].
    by rewrite set_matrix_items.
  - intros [Hx' Hy'].
    destruct (py_setitem2_entry_inside (matrix_of m plane) (snd pos) (fst pos)
                (@None nat)) as [mx Hmx].
    { apply (entry_inside _ (width m) (height m)); [done|]. simpl. lia. }
    rewrite Hmx. cbn [fst snd].
    apply py_setitem2_entry in Hmx as (Hnew & Hold & _); [|lia|lia].
    assert (forall q, get_tile (set_matrix (kill m t) plane mx) q plane
                      = if utils.is_within_bounds (fst q) (snd q)
                                                  (width m) (height m)
                        then match entry mx q with
                             | Some c => Ok c
                             | None => Raise IndexError
                             end
                        else Raise IndexError) as Hread.
    { intros q. rewrite get_tile_entry. unfold width, height.
      by rewrite set_matrix_size, kill_size, set_matrix_same. }
    assert (get_tile (set_matrix (kill m t) plane mx) (snd pos, fst pos) plane
            = Ok None) as Hmirror.
    { rewrite Hread, Hnew. cbn [fst snd].
      by assert (utils.is_within_bounds (snd pos) (fst pos)
                                        (width m) (height m) = true) as ->
          by (apply is_within_bounds_spec; lia). }
    assert (forall q, q <> (snd pos, fst pos) ->
                      get_tile (set_matrix (kill m t) plane mx) q plane
                      = get_tile m q plane) as Hkept.
    { intros q Hq. rewrite Hread, get_tile_entry. by rewrite Hold. }
    split; [done|]. split; [done|]. split; [done|]. split.
    + intros Hdiag. rewrite <- Hmirror. f_equal.
      rewrite (surjective_pairing pos) at 1. by rewrite Hdiag.
    + intros Hoff. rewrite Hkept; [done|].
      rewrite (surjective_pairing pos). intros [= ? ?]. congruence.
  - intros Hout.
    rewrite (py_setitem2_outside (matrix_of m plane) (snd pos) (fst pos));
      [|lia|lia|].
    + split; [done|]. intros q. cbn [snd].
      apply get_tile_matrix; [apply kill_size|apply kill_matrix_of].
    + destruct (entry (matrix_of m plane) (snd pos, fst pos)) eqn:E; [|done].
      exfalso. apply Hout.
      destruct (proj1 (entry_inside _ _ _ (snd pos, fst pos) Hshape));
        [by rewrite E|]. simpl in *. lia.
Qed.

(** ** [get_tiles_square] *)

Lemma foldl_collect {B} (f : result (gset nat) -> B -> result (gset nat))
    (h : B -> gset nat) (l : list B) :
  (forall found x, f (Ok found) x = Ok (h x ∪ found)) ->
  forall found, foldl f (Ok found) l = Ok (⋃ (h <$> l) ∪ found).
Proof.
  intros Hf. induction l as [|x l IH]; intros found; simpl.
  - f_equal. set_solver.
  - rewrite Hf, IH. f_equal. set_solver.
Qed.

(** The tiles that the two loops of [get_tiles_square] collect. *)
Lemma get_tiles_square_run (m : Map) (pos radius : Z * Z) (plane : Plane) :
  well_formed m ->
  0 <= fst pos < width m -> 0 <= snd pos < height m ->
  get_tiles_square m pos radius plane
  = Ok (⋃ ((fun x =>
              ⋃ ((fun y => match get_tile m (x, y) plane with
                           | Ok (Some t) => {[t]}
                           | _ => (∅ : gset nat)
                           end)
                  <$> py_range (snd pos - snd radius)
                               (snd pos + 1 + snd radius)))
           <$> py_range (fst pos - fst radius)
                        (fst pos + 1 + fst radius)) ∪ ∅).
Proof.
  intros Hwf Hx Hy. unfold get_tiles_square.
  assert (utils.is_within_bounds (fst pos) (snd pos) (width m) (height m)
          = true) as -> by (apply is_within_bounds_spec; lia).
  cbn [negb].
  pose proof (well_formed_plane m plane Hwf) as Hshape.
  set (cell x y := match get_tile m (x, y) plane with
                   | Ok (Some t) => {[t]}
                   | _ => (∅ : gset nat)
                   end).
  set (column x := ⋃ (cell x <$> py_range (snd pos - snd radius)
                                          (snd pos + 1 + snd radius))).
  rewrite (foldl_collect _ column); [done|].
  intros found x. unfold column. apply foldl_collect.
  intros found' y. cbn [rbind]. unfold cell.
  rewrite get_tile_entry. cbn [fst snd].
  destruct (utils.is_within_bounds x y (width m) (height m)) eqn:Hb.
  - apply is_within_bounds_spec in Hb.
    destruct (proj2 (entry_inside _ _ _ (x, y) Hshape)) as [c ->];
      [simpl; lia|].
    cbn [rbind]. destruct c; f_equal; set_solver.
  - f_equal. set_solver.
Qed.

(** X11: on a level with well-sized planes [get_tiles_square] around a
    cell of the level does not raise; it returns exactly the tiles that
    [get_tile] finds in the cells of the level that lie within the
    radius of the centre, on each axis. *)
Theorem tiles_square_is_the_square
    (m : Map) (pos radius : Z * Z) (plane : Plane) :
  well_formed m ->
  0 <= fst pos < width m -> 0 <= snd pos < height m ->
  exists found,
    get_tiles_square m pos radius plane = Ok found
    /\ forall t,
        t ∈ found
        <-> exists q, in_square pos radius q
                      /\ get_tile m q plane = Ok (Some t).
Proof.
  intros Hwf Hx Hy. rewrite get_tiles_square_run by done.
  eexists. split; [done|]. intros t.
  rewrite elem_of_union, elem_of_union_list. split.
  - intros [(X & HX & Ht) | Ht]; [|set_solver].
    apply list_elem_of_fmap in HX as (x & -> & Hxr).
    apply elem_of_union_list in Ht as (Y & HY & Ht).
    apply list_elem_of_fmap in HY as (y & -> & Hyr).
    apply elem_of_py_range in Hxr, Hyr. exists (x, y).
    split; [unfold in_square; simpl; lia|].
    destruct (get_tile m (x, y) plane) as [[t0|]|]; set_solver.
  - intros ([x y] & [Hqx Hqy] & Hget). simpl in Hqx, Hqy. left.
    eexists. split.
    + apply list_elem_of_fmap. exists x. split; [done|].
      apply elem_of_py_range. lia.
    + apply elem_of_union_list. eexists. split.
      * apply list_elem_of_fmap. exists y. split; [done|].
        apply elem_of_py_range. lia.
      * simpl. rewrite Hget. set_solver.
Qed.

(** ** [clear] *)

Lemma py_getitem_nil {A} (i : Z) : py_getitem (@nil A) i = Raise IndexError.
Proof.
  unfold py_getitem. by destruct (py_index [] i).
Qed.

Lemma group_empty_frame m g :
  frame (group_empty m g) = frame m.
Proof. done. Qed.

(** X12: [clear] empties both planes' groups on both sides and drops
    the rows of both grids but keeps the size of the level, so that
    afterwards [get_tile] raises IndexError at every position, inside
    the level as outside. *)
Theorem clear_leaves_no_grid (m : Map) :
  mutual m ->
  group_items (clear m) (foreground_tiles m) = ∅
  /\ group_items (clear m) (background_tiles m) = ∅
  /\ (forall t, (foreground_tiles m ∉ list_groups (clear m) t)
                /\ (background_tiles m ∉ list_groups (clear m) t))
  /\ mutual (clear m)
  /\ size (clear m) = size m
  /\ forall pos plane, get_tile (clear m) pos plane = Raise IndexError.
Proof.
  intros Hm. unfold clear.
  set (m1 := group_empty m (foreground_tiles m)).
  assert (background_tiles m1 = background_tiles m) as -> by done.
  set (m2 := group_empty m1 (background_tiles m)).
  assert (mutual m1) as Hm1 by (by apply group_empty_mutual).
  assert (mutual m2) as Hm2 by (by apply group_empty_mutual).
  assert (forall g, group_items (set_matrix (set_matrix m2 foreground [])
                                            background []) g
                    = group_items m2 g) as Hitems by done.
  assert (forall t, list_groups (set_matrix (set_matrix m2 foreground [])
                                            background []) t
                    = list_groups m2 t) as Hgroups by done.
  split; [|split; [|split; [|split; [|split]]]].
  - rewrite Hitems. apply set_eq. intros t. unfold m2, m1.
    rewrite !group_empty_items. set_solver.
  - rewrite Hitems. apply set_eq. intros t. unfold m2.
    rewrite group_empty_items. set_solver.
  - intros t. rewrite Hgroups. split; intros Hin; apply Hm2 in Hin;
      revert Hin; unfold m2, m1; rewrite !group_empty_items; tauto.
  - intros t g. rewrite Hitems, Hgroups. apply Hm2.
  - done.
  - intros pos plane. unfold get_tile.
    destruct (utils.is_within_bounds _ _ _ _); [|done]. cbn [negb].
    assert (matrix_of (set_matrix (set_matrix m2 foreground []) background [])
                      plane = []) as -> by (by destruct plane).
    unfold py_getitem2. by rewrite py_getitem_nil.
Qed.

(** ** The statements above on the 2x2 level *)

Lemma empty_store_mutual m : tiles m = ∅ -> groups m = ∅ -> mutual m.
Proof.
  intros Ht Hg t g. unfold group_items, list_groups.
  rewrite Ht, Hg, !lookup_empty. done.
Qed.

Lemma empty_level_well_formed w h : well_formed (empty_level w h).
Proof.
  split; (split; [simpl; by rewrite length_replicate|]);
    apply Forall_replicate; by rewrite length_replicate.
Qed.

Lemma empty_level_fresh w h : fresh_next (empty_level w h).
Proof. intros t [tl Ht]. simpl in Ht. by rewrite lookup_empty in Ht. Qed.

Lemma two_walls_store :
  well_formed two_walls /\ mutual two_walls /\ fresh_next two_walls.
Proof.
  unfold two_walls.
  set (m0 := empty_level 2 2).
  assert (well_formed m0 /\ mutual m0 /\ fresh_next m0) as (Hw0 & Hm0 & Hf0).
  { split; [apply empty_level_well_formed|].
    split; [by apply empty_store_mutual|apply empty_level_fresh]. }
  set (m1 := snd (place_tile m0 0 (1, 0) (mkTileCode "wall" 0) []
                             foreground true true)).
  assert (well_formed m1 /\ mutual m1 /\ fresh_next m1) as (Hw1 & Hm1 & Hf1).
  { pose proof (placed_grid m0 0%nat (1, 0) (mkTileCode "wall" 0) []
                  foreground true true [sprite16] Hw0
                  ltac:(vm_compute; split; [discriminate|reflexivity])
                  ltac:(vm_compute; split; [discriminate|reflexivity])
                  ltac:(done)
                  ltac:(reflexivity) ltac:(done))
      as (_ & _ & _ & _ & Hw & _).
    pose proof (placed_members m0 0%nat (1, 0) (mkTileCode "wall" 0) []
                  foreground true true [sprite16] Hw0
                  ltac:(vm_compute; split; [discriminate|reflexivity])
                  ltac:(vm_compute; split; [discriminate|reflexivity])
                  ltac:(done)
                  ltac:(reflexivity) ltac:(done) Hm0 Hf0)
      as (_ & Hm & Hf).
    done. }
  pose proof (placed_grid m1 0%nat (0, 1) (mkTileCode "wall" 0) []
                foreground true true [sprite16] Hw1
                ltac:(vm_compute; split; [discriminate|reflexivity])
                ltac:(vm_compute; split; [discriminate|reflexivity])
                ltac:(done) ltac:(reflexivity) ltac:(done))
    as (_ & _ & _ & _ & Hw & _).
  pose proof (placed_members m1 0%nat (0, 1) (mkTileCode "wall" 0) []
                foreground true true [sprite16] Hw1
                ltac:(vm_compute; split; [discriminate|reflexivity])
                ltac:(vm_compute; split; [discriminate|reflexivity])
                ltac:(done) ltac:(reflexivity) ltac:(done) Hm1 Hf1)
    as (_ & Hm & Hf).
  done.
Qed.


Lemma removal_unpairs_both_sides_witness :
  (exists m', remove_from 3 two_walls 1 0 = Some m'
              /\ membership_without two_walls m' 1 0)
  /\ (exists m', group_remove 3 two_walls 0 1 = Some m'
                 /\ membership_without two_walls m' 1 0).
Proof.
  apply (removal_unpairs_both_sides two_walls 1 0 3);
    [apply two_walls_store|lia].
Defined.

Lemma kill_leaves_every_group_witness :
  (forall g, 1%nat ∉ group_items (kill two_walls 1) g)
  /\ list_groups (kill two_walls 1) 1 = ∅
  /\ (forall t' g, t' <> 1%nat ->
        (t' ∈ group_items (kill two_walls 1) g <-> t' ∈ group_items two_walls g)
        /\ (g ∈ list_groups (kill two_walls 1) t'
            <-> g ∈ list_groups two_walls t')).
Proof.
  apply (kill_leaves_every_group two_walls 1). apply two_walls_store.
Defined.

Lemma empty_forgets_on_both_sides_witness :
  group_items (group_empty two_walls 0) 0 = ∅
  /\ (forall t, 0%nat ∉ list_groups (group_empty two_walls 0) t)
  /\ (forall t g', g' <> 0%nat ->
        (t ∈ group_items (group_empty two_walls 0) g'
         <-> t ∈ group_items two_walls g')
        /\ (g' ∈ list_groups (group_empty two_walls 0) t
            <-> g' ∈ list_groups two_walls t)).
Proof.
  apply (empty_forgets_on_both_sides two_walls 0). apply two_walls_store.
Defined.






Lemma remove_tile_empties_the_mirror_cell_witness :
  let r := remove_tile two_walls (1, 0) foreground in
  (forall g, 0%nat ∉ group_items (snd r) g)
  /\ (1 < 2 /\ 0 < 2 ->
      fst r = Ok tt
      /\ get_tile (snd r) (0, 1) foreground = Ok None
      /\ (forall q, q <> (0, 1) ->
                    get_tile (snd r) q foreground
                    = get_tile two_walls q foreground)
      /\ (1 = 0 -> get_tile (snd r) (1, 0) foreground = Ok None)
      /\ (1 <> 0 -> get_tile (snd r) (1, 0) foreground = Ok (Some 0%nat)))
  /\ (~ (1 < 2 /\ 0 < 2) ->
      fst r = Raise IndexError
      /\ forall q, get_tile (snd r) q foreground
                   = get_tile two_walls q foreground).
Proof.
  apply (remove_tile_empties_the_mirror_cell two_walls (1, 0) foreground 0);
    first [apply two_walls_store | reflexivity
          | vm_compute; split; [discriminate|reflexivity]].
Defined.

Lemma tiles_square_is_the_square_witness :
  exists found,
    get_tiles_square two_walls (0, 0) (1, 1) foreground = Ok found
    /\ forall t,
        t ∈ found
        <-> exists q, in_square (0, 0) (1, 1) q
                      /\ get_tile two_walls q foreground = Ok (Some t).
Proof.
  apply (tiles_square_is_the_square two_walls (0, 0) (1, 1) foreground);
    first [apply two_walls_store
          | vm_compute; split; [discriminate|reflexivity]].
Defined.

Lemma clear_leaves_no_grid_witness :
  group_items (clear two_walls) 0 = ∅
  /\ group_items (clear two_walls) 1 = ∅
  /\ (forall t, (0%nat ∉ list_groups (clear two_walls) t)
                /\ (1%nat ∉ list_groups (clear two_walls) t))
  /\ mutual (clear two_walls)
  /\ size (clear two_walls) = size two_walls
  /\ forall pos plane, get_tile (clear two_walls) pos plane = Raise IndexError.
Proof.
  apply (clear_leaves_no_grid two_walls). apply two_walls_store.
Defined.

#[local] Set Warnings "-clear-no-such-hyp".

(** * From mazes to tiles *)

(** ** Loops over [enumerate] *)

Lemma enumerate_snoc {A} (l : list A) (a : A) :
  enumerate (l ++ [a]) = enumerate l ++ [(Z.of_nat (length l), a)].
Proof.
  unfold enumerate. rewrite length_app. simpl.
  replace (Z.of_nat (length l + 1)) with (Z.of_nat (length l) + 1) by lia.
  rewrite py_range_succ by lia.
  rewrite zip_with_app; [done|].
  unfold py_range. by rewrite length_map, length_seq, Z.sub_0_r, Nat2Z.id.
Qed.

(** A loop over [enumerate(l)] whose turns do not raise, with an
    invariant that follows the index. *)
Lemma foldl_enumerate {A B} (P : Z -> A -> Prop)
    (f : result A -> Z * B -> result A) (l : list B) :
  (forall k a b,
      0 <= k -> l !! Z.to_nat k = Some b -> P k a ->
      exists a', f (Ok a) (k, b) = Ok a' /\ P (k + 1) a') ->
  forall a, P 0 a ->
            exists r, foldl f (Ok a) (enumerate l) = Ok r
                      /\ P (Z.of_nat (length l)) r.
Proof.
  induction l as [|b l IH] using rev_ind; intros Hstep a HP.
  - exists a. done.
  - rewrite enumerate_snoc, foldl_app. simpl.
    destruct (IH) with (a := a) as (r & -> & Hr); [|done|].
    { intros k a0 b0 Hk Hb. apply Hstep; [done|].
      by apply lookup_app_l_Some. }
    destruct (Hstep (Z.of_nat (length l)) r b) as (a' & -> & Ha'); [lia| |done|].
    { rewrite Nat2Z.id. by rewrite lookup_app_r, Nat.sub_diag by lia. }
    exists a'. split; [done|]. rewrite length_app. simpl.
    by replace (Z.of_nat (length l + 1)) with (Z.of_nat (length l) + 1) by lia.
Qed.

Lemma row_lookup (maze : Maze) (width height : Z) (y : Z) (line : list Cell) :
  shape maze width height -> 0 <= y -> maze !! Z.to_nat y = Some line ->
  y < height /\ Z.of_nat (length line) = width
  /\ forall x, 0 <= x -> line !! Z.to_nat x = cell_at maze (x, y).
Proof.
  intros [Hh Hw] Hy Hline. pose proof (lookup_lt_Some _ _ _ Hline).
  rewrite Forall_lookup in Hw. specialize (Hw _ _ Hline). simpl in Hw.
  split; [lia|]. split; [done|]. intros x Hx. unfold cell_at. simpl.
  assert ((0 <=? x) && (0 <=? y) = true) as -> by lia. by rewrite Hline.
Qed.

(** ** [random.choices] *)

Lemma choices_picks rnd population weights drawn :
  population <> [] ->
  exists i, (i < length population)%nat
            /\ choices rnd population weights drawn
               = (nth i population 0, S drawn).
Proof.
  intros Hne. unfold choices, randbelow.
  eexists. split; [|done].
  pose proof (length_filter (fun c => (c <= rnd drawn
                                       mod default 0 (last (cumulate 0 weights)))%nat)
                (take (length population - 1) (cumulate 0 weights))) as Hlen.
  rewrite length_take in Hlen.
  destruct population; [done|]. simpl in *. lia.
Qed.

(** ** [__tilemap_maze] *)

Lemma blank_shape {A} (width height : Z) (a : A) :
  0 <= height -> (0 < height -> 0 <= width) ->
  grid_shape (replicate (Z.to_nat height) (replicate (Z.to_nat width) a))
             width height.
Proof.
  intros Hh Hw. split; [rewrite length_replicate; lia|].
  destruct (decide (height = 0)) as [->|Hne]; [constructor|].
  apply Forall_replicate. rewrite length_replicate. lia.
Qed.

Lemma blank_entry {A} (width height : Z) (a : A) (p : Z * Z) :
  0 <= fst p < width -> 0 <= snd p < height ->
  entry (replicate (Z.to_nat height) (replicate (Z.to_nat width) a)) p
  = Some a.
Proof.
  intros Hx Hy. unfold entry.
  assert ((0 <=? fst p) && (0 <=? snd p) = true) as -> by lia.
  rewrite lookup_replicate_2 by lia. apply lookup_replicate_2. lia.
Qed.

Lemma shape_nonneg (maze : Maze) (width height : Z) :
  shape maze width height -> 0 <= height /\ (0 < height -> 0 <= width).
Proof.
  intros [Hh Hw]. split; [lia|]. intros Hpos.
  destruct maze as [|row maze]; [simpl in Hh; lia|].
  apply Forall_cons in Hw as [Hrow _]. lia.
Qed.

Lemma set_entry {A} (mx : list (list A)) (width height : Z) (x y : Z) (v : A) :
  grid_shape mx width height -> 0 <= x < width -> 0 <= y < height ->
  exists mx',
    py_setitem2 mx y x v = Ok mx'
    /\ grid_shape mx' width height
    /\ entry mx' (x, y) = Some v
    /\ forall p, p <> (x, y) -> entry mx' p = entry mx p.
Proof.
  intros Hs Hx Hy.
  destruct (py_setitem2_entry_inside mx x y v) as [mx' Hset].
  { by apply (entry_inside mx width height). }
  exists mx'. split; [done|].
  apply py_setitem2_entry in Hset as (Hnew & Hold & Hshape); [|lia|lia].
  auto.
Qed.

Section Tilemap.

Variables (rnd : nat -> nat) (m : Map).

Local Abbreviation W := (width m).
Local Abbreviation H := (height m).

Lemma background_cell_spec y tm drawn x c :
  grid_shape tm W H -> 0 <= x < W -> 0 <= y < H ->
  exists tm' drawn' code,
    background_cell rnd y (Ok (tm, drawn)) (x, c) = Ok (tm', drawn')
    /\ grid_shape tm' W H
    /\ entry tm' (x, y) = Some code /\ floor_code c code
    /\ forall p, p <> (x, y) -> entry tm' p = entry tm p.
Proof.
  intros Hs Hx Hy. unfold background_cell. cbn [rbind].
  assert (exists code drawn',
             (if Cell_eqb c WALL
              then let '(v, drawn0) :=
                     choices rnd [0; 1; 2; 3] [45; 25; 15; 15]%nat drawn in
                   (mkTileCode "stone_floor" v, drawn0)
              else let '(v, drawn0) :=
                     choices rnd [0; 1; 2; 3; 4; 5]
                             [35; 35; 5; 5; 10; 10]%nat drawn in
                   (mkTileCode "dirt_floor" v, drawn0)) = (code, drawn')
             /\ floor_code c code) as (code & drawn' & -> & Hcode).
  { unfold floor_code. destruct (Cell_eqb c WALL).
    - destruct (choices_picks rnd [0; 1; 2; 3] [45; 25; 15; 15]%nat drawn)
        as (i & Hi & ->); [done|].
      eexists _, _. split; [done|]. simpl in Hi. simpl.
      split; [done|]. do 4 (destruct i as [|i]; [simpl; lia|]). lia.
    - destruct (choices_picks rnd [0; 1; 2; 3; 4; 5]
                  [35; 35; 5; 5; 10; 10]%nat drawn)
        as (i & Hi & ->); [done|].
      eexists _, _. split; [done|]. simpl in Hi. simpl.
      split; [done|]. do 6 (destruct i as [|i]; [simpl; lia|]). lia. }
  destruct (set_entry tm W H x y code Hs Hx Hy)
    as (tm' & -> & Hs' & Hnew & Hold).
  cbn [rbind]. exists tm', drawn', code. done.
Qed.

Lemma background_pass background drawn :
  shape background W H ->
  exists tm drawn',
    foldl (fun acc yl =>
             foldl (background_cell rnd (fst yl)) acc (enumerate (snd yl)))
          (Ok (replicate (Z.to_nat H)
                         (replicate (Z.to_nat W) (mkTileCode "None" 0)),
               drawn))
          (enumerate background) = Ok (tm, drawn')
    /\ grid_shape tm W H
    /\ forall p c, cell_at background p = Some c ->
                   exists code, entry tm p = Some code /\ floor_code c code.
Proof.
  intros Hs. destruct (shape_nonneg _ _ _ Hs) as [Hh Hw].
  set (done_to (k : Z) (st : list (list TileCode) * nat) :=
         grid_shape (fst st) W H
         /\ forall p c, snd p < k -> cell_at background p = Some c ->
                        exists code, entry (fst st) p = Some code
                                     /\ floor_code c code).
  destruct (foldl_enumerate done_to
              (fun acc yl =>
                 foldl (background_cell rnd (fst yl)) acc (enumerate (snd yl)))
              background) with (a := (replicate (Z.to_nat H)
                                         (replicate (Z.to_nat W)
                                                    (mkTileCode "None" 0)),
                                      drawn))
    as ([tm drawn'] & Hrun & Hshape & Hall).
  - intros y [tm0 d0] line Hy Hline [Hs0 Hdone].
    destruct (row_lookup _ _ _ _ _ Hs Hy Hline) as (HyH & Hlen & Hcells).
    cbn [fst snd] in *.
    set (row_to (j : Z) (st : list (list TileCode) * nat) :=
           grid_shape (fst st) W H
           /\ (forall p, snd p <> y -> entry (fst st) p = entry tm0 p)
           /\ forall x c, 0 <= x < j -> cell_at background (x, y) = Some c ->
                          exists code, entry (fst st) (x, y) = Some code
                                       /\ floor_code c code).
    destruct (foldl_enumerate row_to (background_cell rnd y) line)
      with (a := (tm0, d0)) as ([tm1 d1] & -> & Hs1 & Hrest & Hrow).
    + intros x [tm1 d1] c Hx Hc (Hs1 & Hrest & Hrow). cbn [fst snd] in *.
      pose proof (lookup_lt_Some _ _ _ Hc) as Hlt.
      destruct (background_cell_spec y tm1 d1 x c Hs1 ltac:(lia) ltac:(lia))
        as (tm2 & d2 & code & -> & Hs2 & Hnew & Hcode & Hold).
      exists (tm2, d2). split; [done|]. split; [done|]. split.
      * intros p Hp. rewrite Hold; [by apply Hrest|].
        intros ->. by apply Hp.
      * intros x' c' Hx' Hc'. destruct (decide (x' = x)) as [->|Hne].
        -- rewrite <- Hcells, Hc in Hc' by lia. injection Hc' as <-. eauto.
        -- rewrite Hold by congruence. apply Hrow; [lia|done].
    + split; [done|]. split; [done|]. intros; lia.
    + exists (tm1, d1). split; [done|]. split; [done|].
      intros [px py] c Hp Hc. cbn [fst snd] in *.
      destruct (decide (py = y)) as [->|Hne].
      * apply Hrow; [|done].
        destruct (proj1 (cell_at_inside background W H (px, y) Hs));
          [by rewrite Hc|]. simpl in *. lia.
      * rewrite Hrest by done. apply Hdone; [simpl; lia|done].
  - split; [by apply blank_shape|]. intros p c Hp Hc.
    destruct (proj1 (cell_at_inside background W H p Hs)); [by rewrite Hc|].
    lia.
  - exists tm, drawn'. split; [done|]. split; [done|].
    intros p c Hc. apply Hall; [|done].
    destruct (proj1 (cell_at_inside background W H p Hs)); [by rewrite Hc|].
    destruct Hs. lia.
Qed.

Lemma neighbor_spec foreground x y d :
  shape foreground W H ->
  neighbor m foreground x y d = Ok (beside m foreground (x, y) d).
Proof.
  intros Hs. unfold neighbor, beside. cbn [fst snd].
  destruct (utils.is_within_bounds _ _ _ _) eqn:Hb; [|done].
  apply is_within_bounds_spec in Hb.
  rewrite py_getitem2_cell_at by lia.
  destruct (proj2 (cell_at_inside foreground W H
                     (x + snd d, y + fst d) Hs)) as [c ->]; [done|].
  done.
Qed.

Lemma set_row {A} (mx : list (list A)) (y : Z) (row : list A) :
  grid_shape mx W H -> 0 <= y < H -> Z.of_nat (length row) = W ->
  exists mx',
    py_setitem mx y row = Ok mx'
    /\ grid_shape mx' W H
    /\ (forall x, 0 <= x -> entry mx' (x, y) = row !! Z.to_nat x)
    /\ forall p, snd p <> y -> entry mx' p = entry mx p.
Proof.
  intros [Hh Hw] Hy Hrow. rewrite py_setitem_nonneg by lia.
  assert ((y <? Z.of_nat (length mx)) = true) as -> by lia.
  eexists. split; [done|]. split; [|split].
  - split; [by rewrite length_insert|]. by apply Forall_insert.
  - intros x Hx. unfold entry. simpl.
    assert ((0 <=? x) && (0 <=? y) = true) as -> by lia.
    by rewrite list_lookup_insert_eq by lia.
  - intros [px py] Hp. simpl in Hp. unfold entry. simpl.
    destruct ((0 <=? px) && (0 <=? py)) eqn:E; [|done].
    rewrite list_lookup_insert_ne; [done|]. lia.
Qed.

Lemma wall_code_border p :
  in_borderb (border_size m) W H p = true ->
  forall foreground, wall_code m foreground p = mkTileCode "wall_top" (-1).
Proof. intros Hb foreground. unfold wall_code. by rewrite Hb. Qed.

Lemma foreground_cell_spec foreground y tm x c :
  shape foreground W H -> grid_shape tm W H ->
  0 <= x < W -> 0 <= y < H ->
  (y <? border_size m) || (y >=? H - border_size m) = false ->
  cell_at foreground (x, y) = Some c ->
  entry tm (x, y) = Some (mkTileCode "None" 0) ->
  exists tm',
    foreground_cell m foreground y (Ok tm) (x, c) = Ok tm'
    /\ grid_shape tm' W H
    /\ entry tm' (x, y) = Some (wall_code m foreground (x, y))
    /\ forall p, p <> (x, y) -> entry tm' p = entry tm p.
Proof.
  intros Hs Hg Hx Hy Hrow Hc Hblank. unfold foreground_cell. cbn [rbind].
  unfold wall_code, in_borderb. cbn [fst snd]. rewrite Hc.
  destruct ((x <? border_size m) || (x >=? W - border_size m)) eqn:Hcol.
  { simpl. by apply set_entry. }
  cbn [orb]. rewrite Hrow.
  destruct (y =? border_size m) eqn:Hfirst; cbn [andb].
  - destruct c; cbn [Cell_eqb].
    + rewrite !neighbor_spec by done. cbn [rbind]. by apply set_entry.
    + by apply set_entry.
    + exists tm. done.
  - destruct c; cbn [Cell_eqb].
    + rewrite !neighbor_spec by done. cbn [rbind]. by apply set_entry.
    + exists tm. done.
    + exists tm. done.
Qed.

Lemma foreground_pass foreground :
  shape foreground W H ->
  exists tm,
    foldl (foreground_row m foreground)
          (Ok (replicate (Z.to_nat H)
                         (replicate (Z.to_nat W) (mkTileCode "None" 0))))
          (enumerate foreground) = Ok tm
    /\ grid_shape tm W H
    /\ forall p, 0 <= fst p < W -> 0 <= snd p < H ->
                 entry tm p = Some (wall_code m foreground p).
Proof.
  intros Hs. destruct (shape_nonneg _ _ _ Hs) as [Hh Hw].
  set (done_to (k : Z) (tm : list (list TileCode)) :=
         grid_shape tm W H
         /\ (forall p, 0 <= fst p < W -> 0 <= snd p < k ->
                       entry tm p = Some (wall_code m foreground p))
         /\ forall p, 0 <= fst p < W -> k <= snd p < H ->
                      entry tm p = Some (mkTileCode "None" 0)).
  destruct (foldl_enumerate done_to (foreground_row m foreground) foreground)
    with (a := replicate (Z.to_nat H)
                         (replicate (Z.to_nat W) (mkTileCode "None" 0)))
    as (tm & Hrun & Hshape & Hall & _).
  - intros y tm0 line Hy Hline (Hs0 & Hdone & Hblank).
    destruct (row_lookup _ _ _ _ _ Hs Hy Hline) as (HyH & Hlen & Hcells).
    unfold foreground_row. cbn [rbind].
    destruct ((y <? border_size m) || (y >=? H - border_size m)) eqn:Hrow.
    + destruct (set_row tm0 y (replicate (Z.to_nat W)
                                         (mkTileCode "wall_top" (-1))))
        as (tm1 & -> & Hs1 & Hnew & Hold); [done|lia| |].
      { rewrite length_replicate. lia. }
      exists tm1. split; [done|]. split; [done|]. split.
      * intros [px py] Hpx Hpy. cbn [fst snd] in *.
        destruct (decide (py = y)) as [->|Hne].
        -- rewrite Hnew by lia. rewrite lookup_replicate_2 by lia.
           rewrite wall_code_border; [done|].
           unfold in_borderb. cbn [fst snd]. lia.
        -- rewrite Hold by done. apply Hdone; simpl; lia.
      * intros p Hpx Hpy. rewrite Hold by lia. apply Hblank; lia.
    + set (row_to (j : Z) (tm : list (list TileCode)) :=
             grid_shape tm W H
             /\ (forall p, snd p <> y -> entry tm p = entry tm0 p)
             /\ (forall x, 0 <= x < j ->
                           entry tm (x, y)
                           = Some (wall_code m foreground (x, y)))
             /\ forall x, j <= x < W ->
                          entry tm (x, y) = Some (mkTileCode "None" 0)).
      destruct (foldl_enumerate row_to (foreground_cell m foreground y) line)
        with (a := tm0) as (tm1 & -> & Hs1 & Hrest & Hrowdone & _).
      * intros x tm1 c Hx Hc (Hs1 & Hrest & Hrowdone & Hrowblank).
        pose proof (lookup_lt_Some _ _ _ Hc) as Hlt.
        destruct (foreground_cell_spec foreground y tm1 x c)
          as (tm2 & -> & Hs2 & Hnew & Hold); try done; try lia.
        { by rewrite <- Hcells by lia. }
        { apply Hrowblank. lia. }
        exists tm2. split; [done|]. split; [done|]. split; [|split].
        -- intros p Hp. rewrite Hold; [by apply Hrest|].
           intros ->. by apply Hp.
        -- intros x' Hx'. destruct (decide (x' = x)) as [->|Hne]; [done|].
           rewrite Hold by congruence. apply Hrowdone. lia.
        -- intros x' Hx'. rewrite Hold by (intros [= ?]; lia).
           apply Hrowblank. lia.
      * split; [done|]. split; [done|]. split; [intros; lia|].
        intros x Hx. apply (Hblank (x, y)); simpl; lia.
      * exists tm1. split; [done|]. split; [done|]. split.
        -- intros [px py] Hpx Hpy. cbn [fst snd] in *.
           destruct (decide (py = y)) as [->|Hne].
           ++ apply Hrowdone. lia.
           ++ rewrite Hrest by done. apply Hdone; simpl; lia.
        -- intros p Hpx Hpy. rewrite Hrest by lia. apply Hblank; lia.
  - split; [by apply blank_shape|]. split; [intros; lia|].
    intros p Hpx Hpy. apply blank_entry; lia.
  - exists tm. split; [done|]. split; [done|].
    intros p Hpx Hpy. apply Hall; [done|]. destruct Hs. lia.
Qed.

Lemma tilemap_maze_spec background foreground drawn :
  shape background W H -> shape foreground W H ->
  exists bt ft drawn',
    tilemap_maze rnd m background foreground drawn = Ok (bt, ft, drawn')
    /\ grid_shape bt W H /\ grid_shape ft W H
    /\ (forall p c, cell_at background p = Some c ->
                    exists code, entry bt p = Some code /\ floor_code c code)
    /\ (forall p, 0 <= fst p < W -> 0 <= snd p < H ->
                  entry ft p = Some (wall_code m foreground p)).
Proof.
  intros Hb Hf. unfold tilemap_maze.
  destruct (background_pass background drawn Hb)
    as (bt & drawn' & -> & Hbs & Hbt).
  cbn [rbind].
  destruct (foreground_pass foreground Hf) as (ft & -> & Hfs & Hft).
  cbn [rbind]. exists bt, ft, drawn'. done.
Qed.

End Tilemap.

(** ** "Constroi o mapa" *)

Lemma same_level_refl m : same_level m m.
Proof. by repeat split. Qed.

Lemma same_level_trans m1 m2 m3 :
  same_level m1 m2 -> same_level m2 m3 -> same_level m1 m3.
Proof.
  intros (? & ? & ? & ? & ? & ?) (? & ? & ? & ? & ? & ?).
  repeat split; congruence.
Qed.

Lemma frame_same_level m m' : frame m' = frame m -> same_level m m'.
Proof.
  unfold frame, same_level. intros [= ? ? ? ? ? ? _ _]. done.
Qed.

Lemma set_matrix_same_level m plane mx : same_level m (set_matrix m plane mx).
Proof. by destruct plane. Qed.

Lemma placed_same_level m rnd pos code extra plane visible collidable imgs :
  well_formed m ->
  0 <= fst pos < width m -> 0 <= snd pos < height m ->
  type code <> "None"%string ->
  graphics m !! type code = Some imgs -> imgs <> [] ->
  same_level m (snd (place_tile m rnd pos code extra plane visible collidable)).
Proof.
  intros Hwf Hx Hy Hty Himgs Hne.
  destruct (place_tile_run m rnd pos code extra plane visible collidable imgs)
    as (image & mx & _ & _ & _ & ->); try done.
  cbn [snd]. set (m1 := set_store m _ _ _). set (m2 := foldl _ m1 extra).
  set (m3 := set_matrix m2 plane mx).
  assert (same_level m m1) as H1 by done.
  assert (same_level m1 m2) as H2
      by (apply frame_same_level, (add_to_all_frame m1)).
  assert (same_level m2 m3) as H3 by apply set_matrix_same_level.
  assert (same_level m3 (add_to m3 (next_tile m) (plane_group m plane)))
    as H4 by (apply frame_same_level, add_to_frame).
  eauto using same_level_trans.
Qed.

Lemma same_level_bounds m m' :
  same_level m m' -> width m' = width m /\ height m' = height m.
Proof. intros (_ & Hs & _). unfold width, height. by rewrite Hs. Qed.

Lemma same_level_plane_group m m' plane :
  same_level m m' -> plane_group m' plane = plane_group m plane.
Proof. intros (_ & _ & _ & _ & ? & ?). by destruct plane. Qed.

(** One tile placed within a run, on a sound level. *)
Lemma place_tile_drawing_spec rnd m drawn pos code plane visible collidable :
  sound m ->
  0 <= fst pos < width m -> 0 <= snd pos < height m ->
  type code <> "None"%string -> has_images (graphics m) (type code) ->
  exists m' drawn',
    place_tile_drawing rnd m drawn pos code plane visible collidable
    = Ok (m', drawn')
    /\ sound m' /\ same_level m m'
    /\ holds_tile m' plane pos collidable
    /\ (forall q, q <> pos -> get_tile m' q plane = get_tile m q plane)
    /\ (forall q, get_tile m' q (other_plane plane)
                  = get_tile m q (other_plane plane))
    /\ (forall q pl c, q <> pos \/ pl = other_plane plane ->
                       holds_tile m pl q c -> holds_tile m' pl q c).
Proof.
  intros (Hwf & Hm & Hfresh) Hx Hy Hty (imgs & Himgs & Hne).
  unfold place_tile_drawing.
  pose proof (placed_grid m (rnd drawn) pos code [] plane visible collidable
                imgs Hwf Hx Hy Hty Himgs Hne)
    as (Hok & Hget & Hothers & Hplane & Hwf' & Hnext & Hsize & Hts).
  destruct (placed_tile m (rnd drawn) pos code [] plane visible collidable
              imgs Hwf Hx Hy Hty Himgs Hne)
    as (tile & image & Htile & _ & _ & Hsame & Hgroups & Hrest).
  destruct (placed_members m (rnd drawn) pos code [] plane visible collidable
              imgs Hwf Hx Hy Hty Himgs Hne Hm Hfresh)
    as (Hitems & Hm' & Hfresh').
  pose proof (placed_same_level m (rnd drawn) pos code [] plane visible
                collidable imgs Hwf Hx Hy Hty Himgs Hne) as Hlevel.
  destruct (place_tile m (rnd drawn) pos code [] plane visible collidable)
    as [outcome m'] eqn:Hplace.
  cbn [fst snd] in *. subst outcome. cbn [rbind].
  eexists _, _. split; [done|]. split; [done|]. split; [done|].
  split; [|split; [done|split; [done|]]].
  - exists (next_tile m), tile. split; [done|]. split; [done|].
    destruct Hsame as (Hpos & _ & _ & Hcol & _). simpl in Hpos, Hcol.
    split; [done|]. split; [by rewrite Hpos, Hts|].
    rewrite (same_level_plane_group m m') by done.
    apply Hitems. right. auto.
  - intros q pl c Hq (t & tl & Hgt & Htl & Hc & Hp & Hin).
    assert (t <> next_tile m) as Hold.
    { assert (t < next_tile m)%nat; [|lia]. apply Hfresh. by rewrite Htl. }
    exists t, tl. split; [|split; [|split; [done|split]]].
    + rewrite <- Hgt.
      assert (pl = plane /\ q <> pos \/ pl = other_plane plane)
        as [[-> Hne'] | ->].
      { destruct Hq as [? | ->]; [|by right].
        destruct pl, plane; auto. }
      * by apply Hothers.
      * apply Hplane.
    + by rewrite Hrest.
    + by rewrite Hts.
    + rewrite (same_level_plane_group m m') by done.
      apply Hitems. by left.
Qed.

Lemma grid_row {A} (mx : list (list A)) (width height : Z) (y : Z)
    (line : list A) :
  grid_shape mx width height -> 0 <= y -> mx !! Z.to_nat y = Some line ->
  y < height /\ Z.of_nat (length line) = width
  /\ forall x, 0 <= x -> line !! Z.to_nat x = entry mx (x, y).
Proof.
  intros [Hh Hw] Hy Hline. pose proof (lookup_lt_Some _ _ _ Hline).
  rewrite Forall_lookup in Hw. specialize (Hw _ _ Hline). simpl in Hw.
  split; [lia|]. split; [done|]. intros x Hx. unfold entry. simpl.
  assert ((0 <=? x) && (0 <=? y) = true) as -> by lia. by rewrite Hline.
Qed.

Section Build.

Variables (rnd : nat -> nat).
Variables (blueprint_background blueprint_foreground : list (list TileCode)).
Variable level : Map.

Local Abbreviation W := (width level).
Local Abbreviation H := (height level).

Hypothesis background_shape : grid_shape blueprint_background W H.
Hypothesis foreground_shape : grid_shape blueprint_foreground W H.
Hypothesis background_types :
  forall p code, entry blueprint_background p = Some code ->
                 type code <> "None"%string
                 /\ has_images (graphics level) (type code).
Hypothesis foreground_types :
  forall p code, entry blueprint_foreground p = Some code ->
                 type code = "None"%string
                 \/ has_images (graphics level) (type code).

Lemma place_cell_spec m drawn x y code :
  sound m -> same_level level m ->
  0 <= x < W -> 0 <= y < H ->
  entry blueprint_foreground (x, y) = Some code ->
  bare m (x, y) ->
  exists m' drawn',
    place_cell rnd blueprint_background y (Ok (m, drawn)) (x, code)
    = Ok (m', drawn')
    /\ sound m' /\ same_level level m'
    /\ built blueprint_foreground m' (x, y)
    /\ forall q, q <> (x, y) ->
                 (bare m q -> bare m' q)
                 /\ (built blueprint_foreground m q ->
                     built blueprint_foreground m' q).
Proof.
  intros Hsound Hlevel Hx Hy Hcode [Hbf Hbb].
  destruct (same_level_bounds _ _ Hlevel) as [HW HH].
  destruct (proj2 (entry_inside blueprint_background W H (x, y)
                     background_shape)) as [under Hunder]; [done|].
  destruct (background_types _ _ Hunder) as [Hunder_ty Hunder_img].
  assert (py_getitem2 blueprint_background y x = Ok under) as Hread.
  { rewrite py_getitem2_entry by lia. by rewrite Hunder. }
  assert (forall m1 m2 pos pl,
             (forall q, q <> pos -> get_tile m2 q pl = get_tile m1 q pl) ->
             (forall q, get_tile m2 q (other_plane pl)
                        = get_tile m1 q (other_plane pl)) ->
             (forall q pl' c, q <> pos \/ pl' = other_plane pl ->
                              holds_tile m1 pl' q c -> holds_tile m2 pl' q c) ->
             forall q, q <> pos ->
                       (bare m1 q -> bare m2 q)
                       /\ (built blueprint_foreground m1 q ->
                           built blueprint_foreground m2 q)) as Hkeep.
  { intros m1 m2 pos pl Hsame Hother Hholds q Hq.
    assert (forall pl', get_tile m2 q pl' = get_tile m1 q pl') as Hget.
    { intros pl'.
      assert (pl' = pl \/ pl' = other_plane pl) as [-> | ->]
          by (destruct pl', pl; auto); auto. }
    split.
    - intros [? ?]. split; by rewrite Hget.
    - unfold built. destruct (entry blueprint_foreground q) as [c|]; [|done].
      unfold built_as. destruct (String.eqb (type c) "None").
      + intros [? ?]. split; [by rewrite Hget|]. apply (Hholds q); auto.
      + intros [? Hrest]. split; [apply (Hholds q); auto|].
        destruct (String.eqb (type c) "stone"); [apply (Hholds q); auto|].
        by rewrite Hget. }
  assert (forall m',
             (if String.eqb (type code) "None" then
                get_tile m' (x, y) foreground = Ok None
                /\ holds_tile m' background (x, y) false
              else
                holds_tile m' foreground (x, y) true
                /\ if String.eqb (type code) "stone"
                   then holds_tile m' background (x, y) false
                   else get_tile m' (x, y) background = Ok None) ->
             built blueprint_foreground m' (x, y)) as Hhere.
  { intros m'. unfold built, built_as. by rewrite Hcode. }
  unfold place_cell. cbn [rbind].
  destruct (String.eqb (type code) "None") eqn:Hnone; cbn [negb].
  - rewrite Hread. cbn [rbind].
    destruct (place_tile_drawing_spec rnd m drawn (x, y) under background
                true false Hsound)
      as (m' & d' & -> & Hsound' & Hlevel' & Hholds & Hsame & Hother & Hkept);
      [simpl; lia|simpl; lia|done| |].
    { destruct Hlevel as (-> & _). done. }
    exists m', d'. split; [done|]. split; [done|].
    split; [eauto using same_level_trans|]. split.
    + apply Hhere. split; [|done].
      pose proof (Hother (x, y)) as Ho. simpl in Ho. by rewrite Ho.
    + by apply (Hkeep m m' (x, y) background).
  - apply String.eqb_neq in Hnone.
    destruct (foreground_types _ _ Hcode) as [? | Himg]; [done|].
    destruct (place_tile_drawing_spec rnd m drawn (x, y) code foreground
                true true Hsound)
      as (m1 & d1 & -> & Hsound1 & Hlevel1 & Hholds1 & Hsame1 & Hother1
          & Hkept1); [simpl; lia|simpl; lia|done| |].
    { destruct Hlevel as (-> & _). done. }
    cbn [rbind].
    pose proof (Hkeep m m1 (x, y) foreground Hsame1 Hother1 Hkept1) as Hkeep1.
    destruct (String.eqb (type code) "stone") eqn:Hstone.
    + rewrite Hread. cbn [rbind].
      destruct (same_level_bounds _ _ Hlevel1) as [HW1 HH1].
      destruct (place_tile_drawing_spec rnd m1 d1 (x, y) under background
                  true false Hsound1)
        as (m2 & d2 & -> & Hsound2 & Hlevel2 & Hholds2 & Hsame2 & Hother2
            & Hkept2); [simpl; lia|simpl; lia|done| |].
      { destruct Hlevel1 as (-> & _). destruct Hlevel as (-> & _). done. }
      exists m2, d2. split; [done|]. split; [done|].
      split; [eauto using same_level_trans|]. split.
      * apply Hhere. split; [|done]. apply (Hkept2 (x, y)); [by right|done].
      * intros q Hq.
        destruct (Hkeep1 q Hq) as [Hb1 Hc1].
        destruct (Hkeep m1 m2 (x, y) background Hsame2 Hother2 Hkept2 q Hq)
          as [Hb2 Hc2].
        split; auto.
    + exists m1, d1. split; [done|]. split; [done|].
      split; [eauto using same_level_trans|]. split; [|done].
      apply Hhere. split; [done|].
      pose proof (Hother1 (x, y)) as Ho. simpl in Ho. by rewrite Ho.
Qed.

Lemma place_blueprints_spec m drawn :
  sound m -> same_level level m ->
  (forall p, 0 <= fst p < W -> 0 <= snd p < H -> bare m p) ->
  exists m' drawn',
    place_blueprints rnd blueprint_background blueprint_foreground m drawn
    = Ok (m', drawn')
    /\ sound m' /\ same_level level m'
    /\ forall p, 0 <= fst p < W -> 0 <= snd p < H ->
                 built blueprint_foreground m' p.
Proof.
  intros Hsound Hlevel Hbare. unfold place_blueprints.
  set (at_ (k j : Z) (st : Map * nat) :=
         sound (fst st) /\ same_level level (fst st)
         /\ forall p, 0 <= fst p < W -> 0 <= snd p < H ->
                      (passed k j p -> built blueprint_foreground (fst st) p)
                      /\ (~ passed k j p -> bare (fst st) p)).
  destruct (foldl_enumerate (fun k => at_ k 0)
              (fun acc yl =>
                 foldl (place_cell rnd blueprint_background (fst yl)) acc
                       (enumerate (snd yl)))
              blueprint_foreground) with (a := (m, drawn))
    as ([m' d'] & Hrun & Hsound' & Hlevel' & Hall).
  - intros y [m0 d0] line Hy Hline Hat. cbn [fst snd].
    destruct (grid_row _ _ _ _ _ foreground_shape Hy Hline)
      as (HyH & Hlen & Hcells).
    destruct (foldl_enumerate (at_ y) (place_cell rnd blueprint_background y)
                line) with (a := (m0, d0))
      as ([m1 d1] & -> & Hsound1 & Hlevel1 & Hall1); [|done|].
    + intros x [m1 d1] code Hx Hcode (Hsound1 & Hlevel1 & Hall1).
      cbn [fst snd] in *.
      pose proof (lookup_lt_Some _ _ _ Hcode) as Hlt.
      rewrite Hcells in Hcode by done.
      destruct (place_cell_spec m1 d1 x y code Hsound1 Hlevel1)
        as (m2 & d2 & -> & Hsound2 & Hlevel2 & Hbuilt & Hkeep);
        [lia|lia|done| |].
      { apply Hall1; [simpl; lia|simpl; lia|].
        unfold passed. simpl. lia. }
      exists (m2, d2). split; [done|]. split; [done|]. split; [done|].
      intros p Hpx Hpy. cbn [fst snd].
      destruct (decide (p = (x, y))) as [->|Hne].
      * split; [done|]. unfold passed. simpl. lia.
      * destruct (Hkeep p Hne) as [Hb Hc].
        destruct (Hall1 p Hpx Hpy) as [Hdone Htodo].
        assert (passed y (x + 1) p <-> passed y x p) as ->.
        { unfold passed. destruct p as [px py]. simpl.
          assert ((px, py) <> (x, y) -> px <> x \/ py <> y) as Hd
              by (destruct (decide (px = x)), (decide (py = y));
                  try subst; auto).
          specialize (Hd Hne). lia. }
        auto.
    + exists (m1, d1). split; [done|]. split; [done|]. split; [done|].
      intros p Hpx Hpy. cbn [fst snd].
      destruct (Hall1 p Hpx Hpy) as [Hdone Htodo].
      assert (passed (y + 1) 0 p <-> passed y (Z.of_nat (length line)) p)
        as ->; [|done].
      unfold passed. lia.
  - split; [done|]. split; [done|]. intros p Hpx Hpy. split.
    + unfold passed. lia.
    + intros _. by apply Hbare.
  - exists m', d'. split; [done|]. split; [done|]. split; [done|].
    intros p Hpx Hpy. apply Hall; [done|done|].
    unfold passed. destruct foreground_shape. lia.
Qed.

End Build.

(** ** The smoother does not raise *)

Lemma count_neighbors_total maze width height x y :
  shape maze width height ->
  exists r, count_neighbors maze width height x y = Ok r.
Proof.
  intros Hs. unfold count_neighbors.
  destruct (foldl_result_total (fun _ : Z * Z => True)
              (count_towards maze width height x y) adjacent_directions)
    with (a := (0, 0)) as (r & -> & _); [|done|eauto].
  intros [wall_count air_count] [dy dx] _ _. unfold count_towards.
  cbn [rbind].
  destruct (utils.is_within_bounds _ _ _ _) eqn:Hb; [|eauto].
  apply is_within_bounds_spec in Hb.
  destruct (cell_is_inside width height maze (x + dx) (y + dy) WALL Hs)
    as (c & _ & ->); [done|].
  cbn [rbind]. destruct (Cell_eqb c WALL); [eauto|].
  destruct (cell_is_inside width height maze (x + dx) (y + dy) AIR Hs)
    as (c' & _ & ->); [done|].
  cbn [rbind]. destruct (Cell_eqb c' AIR); eauto.
Qed.

Lemma smooth_cell_total rnd p maze border width height y temp drawn x :
  shape maze width height -> shape temp width height ->
  0 <= x < width -> 0 <= y < height ->
  exists r, smooth_cell rnd p maze border width height y (Ok (temp, drawn)) x
            = Ok r
            /\ shape (fst r) width height.
Proof.
  intros Hs Ht Hx Hy. unfold smooth_cell. cbn [rbind].
  destruct ((x <? border) || (x >=? width - border)); [eauto|].
  rewrite py_getitem2_cell_at by lia.
  destruct (proj2 (cell_at_inside maze width height (x, y) Hs)) as [c ->];
    [done|].
  cbn [rbind].
  destruct (count_neighbors_total maze width height x y Hs)
    as ([wall_count air_count] & ->).
  cbn [rbind].
  destruct (if (wall_count >=? wall_neighbors p) && Cell_eqb c AIR
            then _ else _) as [first drawn1].
  assert (forall v (d' : nat),
             exists r,
               (let* temp_maze := py_setitem2 temp y x v in Ok (temp_maze, d'))
               = Ok r /\ shape (fst r) width height) as Hset.
  { intros v d'.
    destruct (py_setitem2_ends temp x y v width height Ht) as (t1 & -> & Hs1);
      [done|].
    cbn [rbind]. eauto. }
  destruct first; [apply Hset|].
  destruct (if (air_count >=? air_neighbors p) && Cell_eqb c WALL
            then _ else _) as [second drawn2].
  destruct second; [apply Hset|]. eauto.
Qed.

Lemma smooth_row_total rnd p maze border width height temp drawn y :
  shape maze width height -> shape temp width height -> 0 <= y < height ->
  exists r, smooth_row rnd p maze border width height (Ok (temp, drawn)) y = Ok r
            /\ shape (fst r) width height.
Proof.
  intros Hs Ht Hy. unfold smooth_row. cbn [rbind].
  destruct ((y <? border) || (y >=? height - border)); [eauto|].
  pose proof Hs as [Hh Hw].
  destruct (lookup_lt_is_Some_2 maze (Z.to_nat y)) as [line Hline]; [lia|].
  rewrite py_getitem_nonneg, Hline by lia. cbn [rbind].
  rewrite Forall_lookup in Hw. specialize (Hw _ _ Hline). simpl in Hw.
  apply (foldl_result_total (fun a : Maze * nat => shape (fst a) width height));
    [|done].
  intros [t d] x Hin Ha. apply elem_of_py_range in Hin.
  apply smooth_cell_total; try done. lia.
Qed.

Lemma smooth_maze_total rnd m maze p drawn :
  shape maze (width m) (height m) ->
  exists maze' drawn',
    smooth_maze rnd m maze p drawn = Ok (maze', drawn')
    /\ shape maze' (width m) (height m).
Proof.
  intros Hs. unfold smooth_maze.
  destruct (foldl_result_total
              (fun a : Maze * nat => shape (fst a) (width m) (height m))
              (smooth_pass rnd p m) (py_range 0 (ammount p)))
    with (a := (maze, drawn)) as ([maze' drawn'] & -> & Hs'); [|done|eauto].
  intros [mz d] i _ Hmz. unfold smooth_pass. cbn [rbind]. simpl in Hmz.
  apply (foldl_result_total
           (fun a : Maze * nat => shape (fst a) (width m) (height m)));
    [|done].
  intros [t d'] y Hin Ha. apply elem_of_py_range in Hin.
  apply smooth_row_total; try done. destruct Hmz. lia.
Qed.

(** ** [generate] *)

Lemma create_maze_same_size fuel rnd m1 m2 drawn :
  size m1 = size m2 -> border_size m1 = border_size m2 ->
  create_maze fuel rnd m1 drawn = create_maze fuel rnd m2 drawn.
Proof. unfold create_maze, width, height. by intros -> ->. Qed.

Lemma smooth_maze_same_size rnd m1 m2 maze p drawn :
  size m1 = size m2 -> border_size m1 = border_size m2 ->
  smooth_maze rnd m1 maze p drawn = smooth_maze rnd m2 maze p drawn.
Proof.
  unfold smooth_maze, smooth_pass, width, height. by intros -> ->.
Qed.

Lemma in_borderb_spec border width height p :
  in_borderb border width height p = true <-> in_border border width height p.
Proof. unfold in_borderb, in_border. lia. Qed.

Lemma decide_tile_type East West South North :
  type (decide_tile East West South North) = "wall_top"%string
  \/ type (decide_tile East West South North) = "stone"%string
  \/ type (decide_tile East West South North) = "wall"%string.
Proof.
  unfold decide_tile.
  destruct (is_cell South WALL), (is_cell North AIR), (is_cell West WALL),
    (is_cell East WALL); simpl; auto.
Qed.

Lemma wall_code_type m foreground p :
  type (wall_code m foreground p) = "None"%string
  \/ type (wall_code m foreground p) = "wall_top"%string
  \/ type (wall_code m foreground p) = "stone"%string
  \/ type (wall_code m foreground p) = "wall"%string.
Proof.
  unfold wall_code. destruct (in_borderb _ _ _ _); [simpl; auto|].
  destruct (cell_at foreground p) as [[| |]|]; simpl; auto.
  - pose proof (decide_tile_type (beside m foreground p (0, 1))
                  (beside m foreground p (0, -1))
                  (beside m foreground p (1, 0))
                  (beside m foreground p (-1, 0))). tauto.
  - destruct (snd p =? border_size m); simpl; auto.
Qed.

Lemma group_empty_tiles m g t :
  is_Some (tiles (group_empty m g) !! t) <-> is_Some (tiles m !! t).
Proof.
  unfold group_empty. simpl. rewrite empty_fold.
  destruct (decide _); [|done]. by rewrite fmap_is_Some.
Qed.

Lemma clear_sound m :
  mutual m -> fresh_next m ->
  mutual (clear m) /\ fresh_next (clear m).
Proof.
  intros Hm Hf. unfold clear.
  set (m1 := group_empty m (foreground_tiles m)).
  set (m2 := group_empty m1 (background_tiles m1)).
  assert (mutual m2) as Hm2 by (by do 2 apply group_empty_mutual).
  split; [done|].
  intros t Ht.
  assert (is_Some (tiles m2 !! t)) as Ht2 by done.
  apply group_empty_tiles, group_empty_tiles in Ht2. by apply Hf.
Qed.

(** The level as [generate] has it when it starts placing tiles. *)
Lemma generate_run fuel rnd m :
  generate fuel rnd m
  = let m0 :=
      set_matrix
        (set_matrix (with_size (clear m) (62, 62)) background
                    (replicate 62 (replicate 62 None)))
        foreground (replicate 62 (replicate 62 None)) in
    match create_maze fuel rnd m0 0 with
    | None => None
    | Some (Raise e) => Some (Raise e)
    | Some (Ok (foreground_maze, drawn)) =>
        Some (
          let* '(foreground_maze, drawn) :=
            smooth_maze rnd m0 foreground_maze (mkSmoothing 3 6 10 4 0)
                        drawn in
          let* '(foreground_maze, drawn) :=
            smooth_maze rnd m0 foreground_maze (mkSmoothing 5 7 10 3 0)
                        drawn in
          let* '(background_maze, drawn) :=
            smooth_maze rnd m0 foreground_maze (mkSmoothing 3 0 4 6 2)
                        drawn in
          let* '(blueprint_background, blueprint_foreground, drawn) :=
            tilemap_maze rnd m0 background_maze foreground_maze drawn in
          let* '(m, _) :=
            place_blueprints rnd blueprint_background blueprint_foreground
                             m0 drawn in
          Ok m)
    end.
Proof. reflexivity. Qed.

Lemma wall_code_same_size m1 m2 foreground p :
  size m1 = size m2 -> border_size m1 = border_size m2 ->
  wall_code m1 foreground p = wall_code m2 foreground p.
Proof.
  unfold wall_code, beside, width, height. by intros -> ->.
Qed.

Lemma generate_spec fuel rnd m :
  level_graphics (graphics m) -> mutual m -> fresh_next m ->
  0 <= border_size m -> border_size m mod 2 = 0 ->
  (3844 <= fuel)%nat ->
  exists background_maze foreground_maze m',
    generate_mazes fuel rnd m = Some (Ok (background_maze, foreground_maze))
    /\ generate fuel rnd m = Some (Ok m')
    /\ shape foreground_maze 62 62
    /\ sound m'
    /\ same_level (with_size m (62, 62)) m'
    /\ forall p, 0 <= fst p < 62 -> 0 <= snd p < 62 ->
                 built_as (wall_code (with_size m (62, 62)) foreground_maze p)
                          m' p.
Proof.
  intros Hg Hm Hf Hb Hbe Hfuel. rewrite generate_run. cbv zeta.
  unfold generate_mazes.
  set (lvl := with_size m (31 * 2, 31 * 2)).
  set (m0 := set_matrix _ foreground _).
  assert (size lvl = size m0 /\ border_size lvl = border_size m0) as [Hsz Hbs]
      by done.
  rewrite (create_maze_same_size fuel rnd lvl m0) by done.
  destruct (create_maze_ends fuel rnd m0 0) as (fg0 & d0 & Hcreate);
    try done.
  rewrite Hcreate.
  apply create_maze_spec in Hcreate as [Hs0 _]; [|done].
  destruct (smooth_maze_total rnd m0 fg0 (mkSmoothing 3 6 10 4 0) d0 Hs0)
    as (fg1 & d1 & E1 & Hs1).
  destruct (smooth_maze_total rnd m0 fg1 (mkSmoothing 5 7 10 3 0) d1 Hs1)
    as (fg2 & d2 & E2 & Hs2).
  destruct (smooth_maze_total rnd m0 fg2 (mkSmoothing 3 0 4 6 2) d2 Hs2)
    as (bg3 & d3 & E3 & Hs3).
  rewrite !(smooth_maze_same_size rnd lvl m0 fg0) by done.
  rewrite E1. cbn [rbind].
  rewrite !(smooth_maze_same_size rnd lvl m0 fg1) by done.
  rewrite E2. cbn [rbind].
  rewrite !(smooth_maze_same_size rnd lvl m0 fg2) by done.
  rewrite E3. cbn [rbind].
  destruct (tilemap_maze_spec rnd m0 bg3 fg2 d3 Hs3 Hs2)
    as (bt & ft & d4 & -> & Hbt & Hft & Hfloor & Hwall).
  cbn [rbind].
  destruct (clear_sound m Hm Hf) as [Hmc Hfc].
  assert (sound m0) as Hsound0.
  { split; [|split; [done|done]].
    split; (split; [done|]); apply Forall_replicate;
      by rewrite length_replicate. }
  destruct (place_blueprints_spec rnd bt ft m0) with (m := m0) (drawn := d4)
    as (m' & d5 & -> & Hsound' & Hlevel' & Hbuilt); try done.
  - intros p code Hcode.
    destruct (proj1 (entry_inside bt _ _ p Hbt)) as [Hx Hy];
      [by rewrite Hcode|].
    destruct (proj2 (cell_at_inside bg3 _ _ p Hs3)) as [c Hc]; [done|].
    destruct (Hfloor p c Hc) as (code' & Hcode' & Hfl).
    rewrite Hcode in Hcode'. injection Hcode' as <-.
    destruct Hg as (_ & _ & _ & Hsf & Hdf).
    unfold floor_code in Hfl.
    destruct (Cell_eqb c WALL); destruct Hfl as [-> _]; done.
  - intros p code Hcode.
    destruct (proj1 (entry_inside ft _ _ p Hft)) as [Hx Hy];
      [by rewrite Hcode|].
    rewrite Hwall in Hcode by done. injection Hcode as <-.
    destruct Hg as (Hwt & Hw & Hst & _).
    destruct (wall_code_type m0 fg2 p) as [-> | [-> | [-> | ->]]]; auto.
  - intros p Hx Hy.
    assert (utils.is_within_bounds (fst p) (snd p) (width m0) (height m0)
            = true) as Hin by (apply is_within_bounds_spec; done).
    split; rewrite get_tile_entry, Hin.
    + change (matrix_of m0 foreground)
        with (replicate (Z.to_nat 62) (replicate (Z.to_nat 62) (@None nat))).
      by rewrite blank_entry.
    + change (matrix_of m0 background)
        with (replicate (Z.to_nat 62) (replicate (Z.to_nat 62) (@None nat))).
      by rewrite blank_entry.
  - cbn [rbind]. exists bg3, fg2, m'. split; [done|]. split; [done|].
    split; [done|]. split; [done|]. split; [done|].
    intros p Hx Hy. specialize (Hbuilt p Hx Hy). unfold built in Hbuilt.
    rewrite Hwall in Hbuilt by done.
    by rewrite (wall_code_same_size (with_size m (62, 62)) m0).
Qed.

Lemma wall_code_none m foreground p :
  type (wall_code m foreground p) = "None"%string
  <-> ~ in_border (border_size m) (width m) (height m) p
      /\ cell_at foreground p <> Some WALL
      /\ ~ (cell_at foreground p = Some AIR /\ snd p = border_size m).
Proof.
  rewrite <- in_borderb_spec. unfold wall_code.
  destruct (in_borderb _ _ _ _); [simpl; split; [done|tauto]|].
  destruct (cell_at foreground p) as [[| |]|]; simpl.
  - pose proof (decide_tile_type (beside m foreground p (0, 1))
                  (beside m foreground p (0, -1))
                  (beside m foreground p (1, 0))
                  (beside m foreground p (-1, 0))) as [-> | [-> | ->]];
      split; try done; tauto.
  - destruct (snd p =? border_size m) eqn:E; simpl.
    + split; [done|]. intros (_ & _ & Hn). exfalso. apply Hn. split; [done|lia].
    + split; [|done]. intros _. split; [done|]. split; [done|lia].
  - split; [|done]. intros _. split; [done|]. split; [done|]. by intros [? _].
  - split; [|done]. intros _. split; [done|]. split; [done|]. by intros [? _].
Qed.

(** X13: [__tilemap_maze] raises nothing on two mazes of the level's
    size, whatever the draws; both blueprints it returns have the level's
    size, and the background blueprint follows the background maze cell
    by cell: "stone_floor" with a variation from 0 to 3 under a wall,
    "dirt_floor" with a variation from 0 to 5 under anything else. *)
Theorem floor_blueprint_follows_the_maze rnd m background foreground drawn :
  shape background (width m) (height m) ->
  shape foreground (width m) (height m) ->
  exists blueprint_background blueprint_foreground drawn',
    tilemap_maze rnd m background foreground drawn
    = Ok (blueprint_background, blueprint_foreground, drawn')
    /\ grid_shape blueprint_background (width m) (height m)
    /\ grid_shape blueprint_foreground (width m) (height m)
    /\ forall p c,
         cell_at background p = Some c ->
         exists code,
           entry blueprint_background p = Some code
           /\ if Cell_eqb c WALL
              then type code = "stone_floor"%string /\ 0 <= variation code <= 3
              else type code = "dirt_floor"%string /\ 0 <= variation code <= 5.
Proof.
  intros Hb Hf.
  destruct (tilemap_maze_spec rnd m background foreground drawn Hb Hf)
    as (bt & ft & d & E & Hbt & Hft & Hfloor & _).
  exists bt, ft, d. eauto.
Qed.

Lemma floor_blueprint_follows_the_maze_witness :
  exists blueprint_background blueprint_foreground drawn',
    tilemap_maze (replay [7; 1; 3]%nat) level8 maze8 maze8 0
    = Ok (blueprint_background, blueprint_foreground, drawn')
    /\ grid_shape blueprint_background 8 8
    /\ grid_shape blueprint_foreground 8 8
    /\ forall p c,
         cell_at maze8 p = Some c ->
         exists code,
           entry blueprint_background p = Some code
           /\ if Cell_eqb c WALL
              then type code = "stone_floor"%string /\ 0 <= variation code <= 3
              else type code = "dirt_floor"%string /\ 0 <= variation code <= 5.
Proof.
  apply (floor_blueprint_follows_the_maze (replay [7; 1; 3]%nat) level8
           maze8 maze8 0);
    (split; [reflexivity|repeat constructor]).
Defined.

(** X14: the foreground blueprint of [__tilemap_maze] is decided cell by
    cell by the foreground maze alone: a cell within the border is
    ("wall_top", -1) whatever the maze holds; an open cell of the first
    row inside the border is ("wall", 0); a wall cell gets the cap, the
    stone or one of the four wall variations after its four neighbours;
    and the type "None" is left exactly at the cells outside the border
    that are no wall and are not open in that first row. *)
Theorem wall_blueprint_follows_the_maze rnd m background foreground drawn :
  shape background (width m) (height m) ->
  shape foreground (width m) (height m) ->
  exists blueprint_background blueprint_foreground drawn',
    tilemap_maze rnd m background foreground drawn
    = Ok (blueprint_background, blueprint_foreground, drawn')
    /\ forall p,
         0 <= fst p < width m -> 0 <= snd p < height m ->
         exists code,
           entry blueprint_foreground p = Some code
           /\ code = wall_code m foreground p
           /\ (in_border (border_size m) (width m) (height m) p ->
               code = mkTileCode "wall_top" (-1))
           /\ (type code = "None"%string
               <-> ~ in_border (border_size m) (width m) (height m) p
                   /\ cell_at foreground p <> Some WALL
                   /\ ~ (cell_at foreground p = Some AIR
                         /\ snd p = border_size m)).
Proof.
  intros Hb Hf.
  destruct (tilemap_maze_spec rnd m background foreground drawn Hb Hf)
    as (bt & ft & d & E & Hbt & Hft & _ & Hwall).
  exists bt, ft, d. split; [done|]. intros p Hx Hy.
  exists (wall_code m foreground p). split; [by apply Hwall|].
  split; [done|]. split; [|apply wall_code_none].
  intros Hin. apply in_borderb_spec in Hin. unfold wall_code. by rewrite Hin.
Qed.

Lemma wall_blueprint_follows_the_maze_witness :
  exists blueprint_background blueprint_foreground drawn',
    tilemap_maze (replay [7; 1; 3]%nat) level8 maze8 maze8 0
    = Ok (blueprint_background, blueprint_foreground, drawn')
    /\ forall p,
         0 <= fst p < 8 -> 0 <= snd p < 8 ->
         exists code,
           entry blueprint_foreground p = Some code
           /\ code = wall_code level8 maze8 p
           /\ (in_border 2 8 8 p -> code = mkTileCode "wall_top" (-1))
           /\ (type code = "None"%string
               <-> ~ in_border 2 8 8 p
                   /\ cell_at maze8 p <> Some WALL
                   /\ ~ (cell_at maze8 p = Some AIR /\ snd p = 2)).
Proof.
  apply (wall_blueprint_follows_the_maze (replay [7; 1; 3]%nat) level8
           maze8 maze8 0);
    (split; [reflexivity|repeat constructor]).
Defined.

Lemma entry_listed {A} (mx : list (list A)) (p : Z * Z) (a : A) :
  entry mx p = Some a -> a ∈ mjoin mx.
Proof.
  unfold entry. destruct ((0 <=? fst p) && (0 <=? snd p)); [|done].
  destruct (mx !! Z.to_nat (snd p)) as [row|] eqn:Hrow; [|done].
  intros Ha. apply list_elem_of_join. exists row.
  split; by eapply list_elem_of_lookup_2.
Qed.

Lemma blank_sound graphics w h border tile_size fg bg :
  sound (mkMap graphics (Z.of_nat h, Z.of_nat w) border tile_size fg bg
               (replicate h (replicate w None))
               (replicate h (replicate w None)) ∅ ∅ 0).
Proof.
  split; [|split].
  - split; (split; [simpl; by rewrite length_replicate|]);
      apply Forall_replicate; by rewrite length_replicate.
  - by apply empty_store_mutual.
  - intros t [tl Ht]. simpl in Ht. by rewrite lookup_empty in Ht.
Qed.

(** X15: the placement loop of [generate], on a level whose grids have
    its size, whose cells are all empty and whose groups and tiles list
    each other, with blueprints of the level's size whose types all have
    images: no call of [place_tile] raises, the level keeps its size and
    its invariants, and every cell is built after the foreground
    blueprint: under "None" no foreground tile and a floor tile without
    collision; otherwise a foreground tile with collision, over a floor
    tile when the type is "stone" and over nothing for any other type.
    Every tile stands at its cell's pixel position and is in its plane's
    group. *)
Theorem placing_builds_every_cell rnd blueprint_background
    blueprint_foreground m drawn :
  sound m ->
  grid_shape blueprint_background (width m) (height m) ->
  grid_shape blueprint_foreground (width m) (height m) ->
  (forall p code, entry blueprint_background p = Some code ->
                  type code <> "None"%string
                  /\ has_images (graphics m) (type code)) ->
  (forall p code, entry blueprint_foreground p = Some code ->
                  type code = "None"%string
                  \/ has_images (graphics m) (type code)) ->
  (forall p, 0 <= fst p < width m -> 0 <= snd p < height m -> bare m p) ->
  exists m' drawn',
    place_blueprints rnd blueprint_background blueprint_foreground m drawn
    = Ok (m', drawn')
    /\ sound m' /\ same_level m m'
    /\ forall p, 0 <= fst p < width m -> 0 <= snd p < height m ->
         exists code,
           entry blueprint_foreground p = Some code
           /\ if String.eqb (type code) "None" then
                get_tile m' p foreground = Ok None
                /\ holds_tile m' background p false
              else
                holds_tile m' foreground p true
                /\ if String.eqb (type code) "stone"
                   then holds_tile m' background p false
                   else get_tile m' p background = Ok None.
Proof.
  intros Hs Hbg Hfg Hbt Hft Hbare.
  destruct (place_blueprints_spec rnd blueprint_background
              blueprint_foreground m Hbg Hfg Hbt Hft m drawn Hs
              (same_level_refl m) Hbare)
    as (m' & d & E & Hs' & Hl & Hbuilt).
  exists m', d. split; [done|]. split; [done|]. split; [done|].
  intros p Hx Hy. specialize (Hbuilt p Hx Hy). unfold built in Hbuilt.
  destruct (entry blueprint_foreground p) as [code|]; [|done].
  by exists code.
Qed.

Lemma placing_builds_every_cell_witness :
  exists m' drawn',
    place_blueprints (replay [0]%nat) floors2 walls2 level2 0
    = Ok (m', drawn')
    /\ sound m' /\ same_level level2 m'
    /\ forall p, 0 <= fst p < 2 -> 0 <= snd p < 2 ->
         exists code,
           entry walls2 p = Some code
           /\ if String.eqb (type code) "None" then
                get_tile m' p foreground = Ok None
                /\ holds_tile m' background p false
              else
                holds_tile m' foreground p true
                /\ if String.eqb (type code) "stone"
                   then holds_tile m' background p false
                   else get_tile m' p background = Ok None.
Proof.
  apply (placing_builds_every_cell (replay [0]%nat) floors2 walls2 level2 0).
  - apply (blank_sound maze_graphics 2 2 0 16 0%nat 1%nat).
  - split; [reflexivity|repeat constructor].
  - split; [reflexivity|repeat constructor].
  - intros p code Hcode. apply entry_listed in Hcode. simpl in Hcode.
    set_unfold.
    destruct Hcode as [-> | [-> | [-> | [-> | []]]]];
      (split; [discriminate|]); exists [sprite16]; by split.
  - intros p code Hcode. apply entry_listed in Hcode. simpl in Hcode.
    set_unfold.
    destruct Hcode as [-> | [-> | [-> | [-> | []]]]];
      first [by left | right; exists [sprite16]; by split].
  - intros p Hx Hy.
    assert (utils.is_within_bounds (fst p) (snd p) (width level2)
              (height level2) = true) as Hin
        by (apply is_within_bounds_spec; done).
    split; rewrite get_tile_entry, Hin.
    + change (matrix_of level2 foreground)
        with (replicate (Z.to_nat 2) (replicate (Z.to_nat 2) (@None nat))).
      by rewrite blank_entry.
    + change (matrix_of level2 background)
        with (replicate (Z.to_nat 2) (replicate (Z.to_nat 2) (@None nat))).
      by rewrite blank_entry.
Defined.

(** X16: [generate] on a level whose graphics have images for the five
    types of [__tilemap_maze], with an even border and fuel for the
    carver: it returns a level of 62x62 cells built from the mazes of
    its pipeline.  Every cell holds a collidable foreground tile or else
    no foreground tile and a floor tile without collision; the cells of
    the border and the wall cells of the foreground maze hold a
    collidable tile; an open cell of the maze inside the border holds a
    collidable tile in the first inner row and is free, over a floor
    tile, anywhere else.  The grids have the level's size and groups and
    tiles list each other. *)
Theorem generate_builds_the_level fuel rnd m :
  level_graphics (graphics m) -> mutual m -> fresh_next m ->
  0 <= border_size m -> border_size m mod 2 = 0 ->
  (3844 <= fuel)%nat ->
  exists background_maze foreground_maze m',
    generate_mazes fuel rnd m = Some (Ok (background_maze, foreground_maze))
    /\ generate fuel rnd m = Some (Ok m')
    /\ sound m'
    /\ size m' = (62, 62) /\ border_size m' = border_size m
    /\ tile_size m' = tile_size m
    /\ forall p, 0 <= fst p < 62 -> 0 <= snd p < 62 ->
         (holds_tile m' foreground p true
          \/ (get_tile m' p foreground = Ok None
              /\ holds_tile m' background p false))
         /\ (in_border (border_size m) 62 62 p
             \/ cell_at foreground_maze p = Some WALL ->
             holds_tile m' foreground p true)
         /\ (~ in_border (border_size m) 62 62 p ->
             cell_at foreground_maze p = Some AIR ->
             if snd p =? border_size m
             then holds_tile m' foreground p true
             else get_tile m' p foreground = Ok None
                  /\ holds_tile m' background p false).
Proof.
  intros Hg Hm Hf Hb Hbe Hfuel.
  destruct (generate_spec fuel rnd m Hg Hm Hf Hb Hbe Hfuel)
    as (bg & fg & m' & E1 & E2 & Hshape & Hs & Hl & Hbuilt).
  exists bg, fg, m'. split; [done|]. split; [done|]. split; [done|].
  destruct Hl as (_ & Hsz & Hbs & Hts & _).
  split; [done|]. split; [done|]. split; [done|].
  intros p Hx Hy. specialize (Hbuilt p Hx Hy).
  pose proof (wall_code_none (with_size m (62, 62)) fg p) as Hnone.
  change (border_size (with_size m (62, 62))) with (border_size m) in Hnone.
  change (width (with_size m (62, 62))) with 62 in Hnone.
  change (height (with_size m (62, 62))) with 62 in Hnone.
  unfold built_as in Hbuilt.
  destruct (String.eqb_spec (type (wall_code (with_size m (62, 62)) fg p))
                            "None") as [Hty | Hty].
  - apply Hnone in Hty as (Hnb & Hnw & Hna).
    split; [by right|]. split; [tauto|].
    intros _ Hair. destruct (Z.eqb_spec (snd p) (border_size m)); [|done].
    tauto.
  - destruct Hbuilt as [Hfg _].
    split; [by left|]. split; [done|].
    intros Hnb Hair. destruct (Z.eqb_spec (snd p) (border_size m)); [done|].
    exfalso. apply Hty, Hnone. rewrite Hair.
    split; [done|]. split; [done|]. by intros [_ ?].
Qed.

Lemma generate_builds_the_level_witness :
  let m := new_level maze_graphics 16 in
  exists background_maze foreground_maze m',
    generate_mazes 3844 (replay [2; 0; 1]%nat) m
    = Some (Ok (background_maze, foreground_maze))
    /\ generate 3844 (replay [2; 0; 1]%nat) m = Some (Ok m')
    /\ sound m'
    /\ size m' = (62, 62) /\ border_size m' = 2
    /\ tile_size m' = 16
    /\ forall p, 0 <= fst p < 62 -> 0 <= snd p < 62 ->
         (holds_tile m' foreground p true
          \/ (get_tile m' p foreground = Ok None
              /\ holds_tile m' background p false))
         /\ (in_border 2 62 62 p
             \/ cell_at foreground_maze p = Some WALL ->
             holds_tile m' foreground p true)
         /\ (~ in_border 2 62 62 p ->
             cell_at foreground_maze p = Some AIR ->
             if snd p =? 2
             then holds_tile m' foreground p true
             else get_tile m' p foreground = Ok None
                  /\ holds_tile m' background p false).
Proof.
  apply (generate_builds_the_level 3844 (replay [2; 0; 1]%nat)
           (new_level maze_graphics 16)).
  - repeat split; exists [sprite16]; by split.
  - by apply empty_store_mutual.
  - intros t [tl Ht]. simpl in Ht. by rewrite lookup_empty in Ht.
  - simpl. lia.
  - reflexivity.
  - lia.
Defined.

Lemma enumerate_first {A} (a : A) (l : list A) :
  exists rest, enumerate (a :: l) = (0, a) :: rest.
Proof.
  unfold enumerate, py_range. simpl length.
  replace (Z.to_nat (Z.of_nat (S (length l)) - 0)) with (S (length l)) by lia.
  simpl. eauto.
Qed.

Lemma place_cell_raised rnd blueprint_background y e l :
  foldl (place_cell rnd blueprint_background y) (Raise e) l = Raise e.
Proof. by induction l. Qed.

Lemma place_rows_raised rnd blueprint_background e
    (l : list (Z * list TileCode)) :
  foldl (fun acc yl =>
           foldl (place_cell rnd blueprint_background (fst yl)) acc
                 (enumerate (snd yl)))
        (Raise e) l = Raise e.
Proof.
  induction l as [|yl l IH]; [done|]. simpl. by rewrite place_cell_raised.
Qed.

(** The first cell of the foreground blueprint has a type for which the
    level has no images, and no images for "None" either. *)
Lemma place_blueprints_first rnd blueprint_background blueprint_foreground
    m drawn code :
  0 < width m -> 0 < height m ->
  entry blueprint_foreground (0, 0) = Some code ->
  type code <> "None"%string ->
  graphics m !! type code = None -> graphics m !! "None"%string = None ->
  place_blueprints rnd blueprint_background blueprint_foreground m drawn
  = Raise KeyError.
Proof.
  intros HW HH Hcode Hty Hg Hn. unfold place_blueprints.
  unfold entry in Hcode. simpl in Hcode.
  destruct blueprint_foreground as [|row rows]; [done|]. simpl in Hcode.
  destruct row as [|c row]; [done|]. simpl in Hcode. injection Hcode as ->.
  destruct (enumerate_first (code :: row) rows) as (rest & ->).
  cbn [foldl fst snd]. destruct (enumerate_first code row) as (rest' & ->).
  cbn [foldl].
  assert (place_cell rnd blueprint_background 0 (Ok (m, drawn)) (0, code)
          = Raise KeyError) as ->.
  { unfold place_cell. cbn [rbind].
    destruct (String.eqb_spec (type code) "None") as [|_]; [done|]. simpl negb.
    cbv iota. unfold place_tile_drawing, place_tile.
    assert (utils.is_within_bounds (fst (0, 0)) (snd (0, 0)) (width m)
              (height m) = true) as -> by (apply is_within_bounds_spec; simpl; lia).
    simpl negb. cbv iota.
    destruct (String.eqb_spec (type code) "None") as [|_]; [done|].
    rewrite Hg. simpl. by rewrite Hn. }
  by rewrite place_cell_raised, place_rows_raised.
Qed.

(** X17: [generate] on a level with a border whose graphics have neither
    "wall_top" nor "None": the mazes and the blueprints are made, and the
    first tile placed, the wall cap of the corner cell (0, 0), raises
    [KeyError]; so does [Map.__init__], whose border is 2. *)
Theorem generate_without_wall_cap fuel rnd m :
  graphics m !! "wall_top"%string = None ->
  graphics m !! "None"%string = None ->
  0 < border_size m -> border_size m mod 2 = 0 ->
  (3844 <= fuel)%nat ->
  generate fuel rnd m = Some (Raise KeyError).
Proof.
  intros Hg Hn Hb Hbe Hfuel. rewrite generate_run. cbv zeta.
  set (m0 := set_matrix _ foreground _).
  destruct (create_maze_ends fuel rnd m0 0) as (fg0 & d0 & Hcreate);
    try done; [simpl; lia|].
  rewrite Hcreate.
  apply create_maze_spec in Hcreate as [Hs0 _]; [|simpl; lia].
  destruct (smooth_maze_total rnd m0 fg0 (mkSmoothing 3 6 10 4 0) d0 Hs0)
    as (fg1 & d1 & -> & Hs1).
  cbn [rbind].
  destruct (smooth_maze_total rnd m0 fg1 (mkSmoothing 5 7 10 3 0) d1 Hs1)
    as (fg2 & d2 & -> & Hs2).
  cbn [rbind].
  destruct (smooth_maze_total rnd m0 fg2 (mkSmoothing 3 0 4 6 2) d2 Hs2)
    as (bg3 & d3 & -> & Hs3).
  cbn [rbind].
  destruct (tilemap_maze_spec rnd m0 bg3 fg2 d3 Hs3 Hs2)
    as (bt & ft & d4 & -> & Hbt & Hft & Hfloor & Hwall).
  cbn [rbind].
  rewrite (place_blueprints_first rnd bt ft m0 d4 (mkTileCode "wall_top" (-1)));
    try done.
  rewrite Hwall by done. f_equal. unfold wall_code.
  assert (in_borderb (border_size m0) (width m0) (height m0) (0, 0) = true)
    as ->; [|done].
  apply in_borderb_spec. left. simpl. lia.
Qed.

Lemma generate_without_wall_cap_witness :
  Map_init 3844 (replay [2; 0; 1]%nat) {[ "wall"%string := [sprite16] ]} 16
  = Some (Raise KeyError).
Proof.
  unfold Map_init.
  apply (generate_without_wall_cap 3844 (replay [2; 0; 1]%nat)
           (new_level {[ "wall"%string := [sprite16] ]} 16));
    first [reflexivity | apply le_n].
Defined.

#[local] Set Warnings "-clear-no-such-hyp".

(** * Moving sprites on the level *)

Lemma py_int_inject_Z (z : Z) : py_int (inject_Z z) = z.
Proof.
  unfold py_int. destruct (Qle_bool 0 (inject_Z z)).
  - apply Qfloor_Z.
  - apply Qceiling_Z.
Qed.

Lemma py_round_near (q : Q) : (Qabs (inject_Z (py_round q) - q) <= 1 # 2)%Q.
Proof.
  pose proof (Qfloor_le q) as Hlo. pose proof (Qlt_floor q) as Hhi.
  rewrite inject_Z_plus in Hhi. change (inject_Z 1) with 1%Q in Hhi.
  apply Qabs_Qle_condition. unfold py_round.
  destruct (Qcompare (q - inject_Z (Qfloor q)) (1 # 2)) eqn:E.
  - apply Qeq_alt in E.
    destruct (Z.even (Qfloor q));
      rewrite ?inject_Z_plus; change (inject_Z 1) with 1%Q; lra.
  - apply Qlt_alt in E. lra.
  - apply Qgt_alt in E. rewrite inject_Z_plus.
    change (inject_Z 1) with 1%Q. lra.
Qed.

Lemma small_integer (k : Z) : (Qabs (inject_Z k) <= 1 # 2)%Q -> k = 0.
Proof.
  intros H. apply Qabs_Qle_condition in H as [Hlo Hhi].
  assert (inject_Z (-1) < inject_Z k)%Q as H1
      by (change (inject_Z (-1)) with (-1)%Q; lra).
  assert (inject_Z k < inject_Z 1)%Q as H2
      by (change (inject_Z 1) with 1%Q; lra).
  rewrite <- Zlt_Qlt in H1, H2. lia.
Qed.

Lemma py_round_whole (q : Q) (k : Z) : q == inject_Z k -> py_round q = k.
Proof.
  intros Hq. pose proof (py_round_near q) as H.
  apply Qabs_Qle_condition in H as [Hlo Hhi].
  assert (Qabs (inject_Z (py_round q - k)) <= 1 # 2)%Q as E.
  { apply Qabs_Qle_condition. unfold Z.sub.
    rewrite inject_Z_plus, inject_Z_opp. split; lra. }
  apply small_integer in E. lia.
Qed.

Lemma py_floordiv_spec (a : Q) (b : Z) :
  0 < b ->
  exists k, py_floordiv a (inject_Z b) = Ok (inject_Z k)
            /\ (inject_Z (k * b) <= a)%Q /\ (a < inject_Z ((k + 1) * b))%Q.
Proof.
  intros Hb. unfold py_floordiv.
  assert (0 < inject_Z b)%Q as Hq.
  { change 0%Q with (inject_Z 0). rewrite <- Zlt_Qlt. lia. }
  assert (Qeq_bool (inject_Z b) 0 = false) as ->.
  { apply Qeq_bool_false. lra. }
  exists (Qfloor (a / inject_Z b)). split; [done|].
  pose proof (Qfloor_le (a / inject_Z b)) as Hlo.
  pose proof (Qlt_floor (a / inject_Z b)) as Hhi.
  assert (a == (a / inject_Z b) * inject_Z b)%Q as Ha by (field; lra).
  rewrite !inject_Z_mult. split.
  - apply Qle_trans with ((a / inject_Z b) * inject_Z b)%Q.
    + apply Qmult_le_compat_r; [done|lra].
    + rewrite <- Ha. apply Qle_refl.
  - apply Qle_lt_trans with ((a / inject_Z b) * inject_Z b)%Q.
    + rewrite <- Ha. apply Qle_refl.
    + by apply Qmult_lt_compat_r.
Qed.

Lemma py_floordiv_exact (k b : Z) :
  b <> 0 ->
  py_floordiv (inject_Z (k * b)) (inject_Z b) = Ok (inject_Z k).
Proof.
  intros Hb. unfold py_floordiv.
  assert (~ inject_Z b == 0)%Q as Hq.
  { change 0%Q with (inject_Z 0). rewrite inject_Z_injective. done. }
  assert (Qeq_bool (inject_Z b) 0 = false) as -> by by apply Qeq_bool_false.
  do 2 f_equal.
  assert (inject_Z (k * b) / inject_Z b == inject_Z k)%Q as ->.
  { rewrite inject_Z_mult. by field. }
  apply Qfloor_Z.
Qed.

(** X18: [_move] takes the distance by its absolute value: a negative
    distance moves the sprite exactly as the positive one does, towards
    [direction], with the same collisions and the same result. *)
Theorem move_ignores_the_sign_of_distance
    (normalize : Vector2 -> Vector2) (iter_order : gset nat -> list nat)
    (_get_entities : MovingSprite -> list Entity)
    (fuel : nat) (game_map : Map) (self : MovingSprite)
    (distance : Q) (direction : Vector2) :
  _move normalize iter_order _get_entities fuel game_map self
        (- distance) direction
  = _move normalize iter_order _get_entities fuel game_map self
          distance direction.
Proof.
  unfold _move.
  assert (move_setup normalize self (- distance) direction
          = move_setup normalize self distance direction) as ->; [|done].
  unfold move_setup.
  assert (forall x, Qred (Qabs (x * - distance)) = Qred (Qabs (x * distance)))
    as Habs.
  { intros x. apply Qred_complete.
    assert (x * - distance == - (x * distance))%Q as -> by ring.
    apply Qabs_opp. }
  by rewrite !Habs.
Qed.

Lemma tile_pos_cell (game_map : Map) (self : MovingSprite) :
  0 < tile_size game_map ->
  exists tx ty,
    tile_pos game_map self = Ok (tx, ty)
    /\ (inject_Z (tx * tile_size game_map) <= vx (_pos self)
        < inject_Z ((tx + 1) * tile_size game_map))%Q
    /\ (inject_Z (ty * tile_size game_map) <= vy (_pos self)
        < inject_Z ((ty + 1) * tile_size game_map))%Q.
Proof.
  intros Hts. unfold tile_pos.
  destruct (py_floordiv_spec (vx (_pos self)) _ Hts) as (tx & -> & Hx).
  destruct (py_floordiv_spec (vy (_pos self)) _ Hts) as (ty & -> & Hy).
  exists tx, ty. cbn [rbind]. by rewrite !py_int_inject_Z.
Qed.

(** X19: with a positive tile size, [tile_pos] is the cell whose square
    of pixels holds the sprite's position, and the [tile_pos] setter
    puts the sprite at the corner of the cell it is given: the getter
    then returns that cell, and collider and hitbox both have their top
    left corner at the cell's pixel. *)
Theorem tile_pos_is_the_cell_of_the_position
    (game_map : Map) (self : MovingSprite) :
  0 < tile_size game_map ->
  (exists tx ty,
      tile_pos game_map self = Ok (tx, ty)
      /\ (inject_Z (tx * tile_size game_map) <= vx (_pos self)
          < inject_Z ((tx + 1) * tile_size game_map))%Q
      /\ (inject_Z (ty * tile_size game_map) <= vy (_pos self)
          < inject_Z ((ty + 1) * tile_size game_map))%Q)
  /\ forall cell,
       let moved := set_tile_pos game_map self cell in
       tile_pos game_map moved = Ok cell
       /\ (left (_collider moved), top (_collider moved))
          = (fst cell * tile_size game_map, snd cell * tile_size game_map)
       /\ (left (_hitbox moved), top (_hitbox moved))
          = (fst cell * tile_size game_map, snd cell * tile_size game_map).
Proof.
  intros Hts. split; [by apply tile_pos_cell|].
  intros [x y]. cbn zeta. unfold set_tile_pos, tile_pos, set_pos.
  cbn [_pos vx vy _collider _hitbox fst snd set_topleft left top].
  rewrite !py_floordiv_exact by lia. cbn [rbind].
  by rewrite !py_int_inject_Z.
Qed.

Lemma tile_pos_is_the_cell_of_the_position_witness :
  (exists tx ty,
      tile_pos (empty_level 2 2) walker = Ok (tx, ty)
      /\ (inject_Z (tx * 16) <= 35 # 2 < inject_Z ((tx + 1) * 16))%Q
      /\ (inject_Z (ty * 16) <= 20 < inject_Z ((ty + 1) * 16))%Q)
  /\ forall cell,
       let moved := set_tile_pos (empty_level 2 2) walker cell in
       tile_pos (empty_level 2 2) moved = Ok cell
       /\ (left (_collider moved), top (_collider moved))
          = (fst cell * 16, snd cell * 16)
       /\ (left (_hitbox moved), top (_hitbox moved))
          = (fst cell * 16, snd cell * 16).
Proof.
  apply (tile_pos_is_the_cell_of_the_position (empty_level 2 2) walker).
  simpl. lia.
Defined.

Lemma tile_pos_no_size (game_map : Map) (self : MovingSprite) :
  tile_size game_map = 0 ->
  tile_pos game_map self = Raise ZeroDivisionError.
Proof. intros Hts. unfold tile_pos. by rewrite Hts. Qed.

Lemma tile_pos_sized (game_map : Map) (self : MovingSprite) :
  tile_size game_map <> 0 ->
  exists cell, tile_pos game_map self = Ok cell.
Proof.
  intros Hts. unfold tile_pos, py_floordiv.
  assert (Qeq_bool (inject_Z (tile_size game_map)) 0 = false) as ->.
  { apply Qeq_bool_false. change 0%Q with (inject_Z 0).
    by rewrite inject_Z_injective. }
  cbn [rbind]. eauto.
Qed.

(** The obstacles of a sprite whose cell lies in the level. *)
Lemma obstacles_inside (game_map : Map) (self : MovingSprite) (cell : Z * Z) :
  well_formed game_map ->
  tile_pos game_map self = Ok cell ->
  0 <= fst cell < width game_map -> 0 <= snd cell < height game_map ->
  exists found,
    _get_obstacles game_map self = Ok found
    /\ forall t,
         t ∈ found
         <-> is_collidable game_map t = true
             /\ exists q, in_square cell (1, 1) q
                          /\ get_tile game_map q foreground = Ok (Some t).
Proof.
  intros Hwf Hcell Hx Hy. unfold _get_obstacles. rewrite Hcell. cbn [rbind].
  rewrite get_tiles_square_run by done. cbn [rbind].
  eexists. split; [done|]. intros t.
  rewrite elem_of_filter, elem_of_union, elem_of_union_list.
  apply and_iff_compat_l. split.
  - intros [(X & HX & Ht) | Ht]; [|set_solver].
    apply list_elem_of_fmap in HX as (x & -> & Hxr).
    apply elem_of_union_list in Ht as (Y & HY & Ht).
    apply list_elem_of_fmap in HY as (y & -> & Hyr).
    apply elem_of_py_range in Hxr, Hyr. exists (x, y).
    split; [unfold in_square; simpl in *; lia|].
    destruct (get_tile game_map (x, y) foreground) as [[t0|]|];
      set_solver.
  - intros ([x y] & [Hqx Hqy] & Hget). simpl in Hqx, Hqy. left.
    eexists. split.
    + apply list_elem_of_fmap. exists x. split; [done|].
      apply elem_of_py_range. simpl. lia.
    + apply elem_of_union_list. eexists. split.
      * apply list_elem_of_fmap. exists y. split; [done|].
        apply elem_of_py_range. simpl. lia.
      * simpl. rewrite Hget. set_solver.
Qed.

(** X20: the obstacles of a moving sprite.  On a level whose grids have
    its size, [_get_obstacles] raises ZeroDivisionError when the tile
    size is 0 and IndexError when the sprite's cell lies outside the
    level; otherwise it returns exactly the collidable tiles that the
    foreground holds in the cells of the level at most one cell away,
    on each axis, from the sprite's cell.  [__colision] raises in the
    same cases, on both axes. *)
Theorem obstacles_are_the_walls_around
    (iter_order : gset nat -> list nat) (game_map : Map)
    (self : MovingSprite) :
  well_formed game_map ->
  match tile_pos game_map self with
  | Raise e =>
      tile_size game_map = 0 /\ e = ZeroDivisionError
      /\ _get_obstacles game_map self = Raise ZeroDivisionError
      /\ forall axis move_dir,
           __colision iter_order game_map axis move_dir self
           = Raise ZeroDivisionError
  | Ok cell =>
      tile_size game_map <> 0
      /\ if utils.is_within_bounds (fst cell) (snd cell)
                                   (width game_map) (height game_map)
         then exists found,
             _get_obstacles game_map self = Ok found
             /\ forall t,
                  t ∈ found
                  <-> is_collidable game_map t = true
                      /\ exists q, in_square cell (1, 1) q
                                   /\ get_tile game_map q foreground
                                      = Ok (Some t)
         else _get_obstacles game_map self = Raise IndexError
              /\ forall axis move_dir,
                   __colision iter_order game_map axis move_dir self
                   = Raise IndexError
  end.
Proof.
  intros Hwf.
  destruct (Z.eq_dec (tile_size game_map) 0) as [Hts | Hts].
  - unfold __colision, _get_obstacles.
    rewrite (tile_pos_no_size _ _ Hts). done.
  - destruct (tile_pos_sized game_map self Hts) as (cell & Hcell).
    rewrite Hcell. split; [done|].
    destruct (utils.is_within_bounds (fst cell) (snd cell) (width game_map)
                (height game_map)) eqn:Hin.
    + apply is_within_bounds_spec in Hin as [Hx Hy].
      by apply obstacles_inside.
    + unfold __colision, _get_obstacles, get_tiles_square.
      rewrite Hcell. cbn [rbind]. rewrite Hin. done.
Qed.

Lemma obstacles_are_the_walls_around_witness :
  match tile_pos two_walls walker with
  | Raise e =>
      tile_size two_walls = 0 /\ e = ZeroDivisionError
      /\ _get_obstacles two_walls walker = Raise ZeroDivisionError
      /\ forall axis move_dir,
           __colision elements two_walls axis move_dir walker
           = Raise ZeroDivisionError
  | Ok cell =>
      tile_size two_walls <> 0
      /\ if utils.is_within_bounds (fst cell) (snd cell)
                                   (width two_walls) (height two_walls)
         then exists found,
             _get_obstacles two_walls walker = Ok found
             /\ forall t,
                  t ∈ found
                  <-> is_collidable two_walls t = true
                      /\ exists q, in_square cell (1, 1) q
                                   /\ get_tile two_walls q foreground
                                      = Ok (Some t)
         else _get_obstacles two_walls walker = Raise IndexError
              /\ forall axis move_dir,
                   __colision elements two_walls axis move_dir walker
                   = Raise IndexError
  end.
Proof.
  apply (obstacles_are_the_walls_around elements two_walls walker).
  apply two_walls_store.
Defined.

(** ** Moves that nothing stops *)

Lemma toward_cases (c : Q) :
  (toward c = (-1)%Q /\ (c < 0)%Q /\ Qabs c == - c)
  \/ (toward c = 1%Q /\ (0 <= c)%Q /\ Qabs c == c).
Proof.
  unfold toward. destruct (Qltb c 0) eqn:E.
  - left. unfold Qltb in E. apply negb_true_iff in E.
    assert (~ (0 <= c)%Q) as Hc.
    { intros H. apply Qle_bool_iff in H. congruence. }
    assert (c < 0)%Q as Hlt by lra.
    split; [done|]. split; [done|]. apply Qabs_neg. lra.
  - right. apply Qltb_false in E. split; [done|]. split; [done|].
    by apply Qabs_pos.
Qed.

Lemma toward_abs (c : Q) : (toward c * Qabs c == c)%Q.
Proof.
  destruct (toward_cases c) as [(-> & _ & ->) | (-> & _ & ->)]; ring.
Qed.

Lemma copysign_toward (x c : Q) :
  (0 <= x)%Q -> (copysign x c == toward c * x)%Q.
Proof.
  intros Hx. unfold copysign, toward.
  destruct (Qltb c 0); rewrite Qred_correct, Qabs_pos by done; ring.
Qed.

(** What a sub-step does to the position and to the distance left. *)
Lemma step_horizontal_walk direction step self x :
  (0 <= vx step)%Q -> (0 <= x)%Q ->
  let r := step_horizontal direction step self x in
  (0 <= snd r <= x)%Q
  /\ (vx (_pos (fst r)) + toward (vx direction) * snd r
      == vx (_pos self) + toward (vx direction) * x)%Q
  /\ vy (_pos (fst r)) = vy (_pos self)
  /\ same_sizes (fst r) self.
Proof.
  intros Hs Hx r.
  pose proof (step_horizontal_spec direction step self x)
    as (_ & _ & _ & _ & Hy & Hsz).
  fold r in Hy, Hsz. split; [|split; [|done]].
  - subst r. unfold step_horizontal.
    destruct (Qltb (x - vx step * Qabs (vx direction)) 0) eqn:E; simpl.
    + lra.
    + apply Qltb_false in E. rewrite Qred_correct.
      pose proof (Qabs_nonneg (vx direction)).
      assert (0 <= vx step * Qabs (vx direction))%Q
        by (by apply Qmult_le_0_compat).
      lra.
  - subst r. unfold step_horizontal.
    destruct (Qltb (x - vx step * Qabs (vx direction)) 0) eqn:E; simpl.
    + rewrite Qred_correct, copysign_toward by done. ring.
    + rewrite !Qred_correct.
      pose proof (toward_abs (vx direction)) as Ht.
      assert (toward (vx direction) * (x - vx step * Qabs (vx direction))
              == toward (vx direction) * x
                 - vx step * (toward (vx direction) * Qabs (vx direction)))%Q
        as -> by ring.
      rewrite Ht. ring.
Qed.

Lemma step_vertical_walk direction step self y :
  (0 <= vy step)%Q -> (0 <= y)%Q ->
  let r := step_vertical direction step self y in
  (0 <= snd r <= y)%Q
  /\ (vy (_pos (fst r)) + toward (vy direction) * snd r
      == vy (_pos self) + toward (vy direction) * y)%Q
  /\ vx (_pos (fst r)) = vx (_pos self)
  /\ same_sizes (fst r) self.
Proof.
  intros Hs Hy r.
  pose proof (step_vertical_spec direction step self y)
    as (_ & _ & _ & _ & Hx & Hsz).
  fold r in Hx, Hsz. split; [|split; [|done]].
  - subst r. unfold step_vertical.
    destruct (Qltb (y - vy step * Qabs (vy direction)) 0) eqn:E; simpl.
    + lra.
    + apply Qltb_false in E. rewrite Qred_correct.
      pose proof (Qabs_nonneg (vy direction)).
      assert (0 <= vy step * Qabs (vy direction))%Q
        by (by apply Qmult_le_0_compat).
      lra.
  - subst r. unfold step_vertical.
    destruct (Qltb (y - vy step * Qabs (vy direction)) 0) eqn:E; simpl.
    + rewrite Qred_correct, copysign_toward by done. ring.
    + rewrite !Qred_correct.
      pose proof (toward_abs (vy direction)) as Ht.
      assert (toward (vy direction) * (y - vy step * Qabs (vy direction))
              == toward (vy direction) * y
                 - vy step * (toward (vy direction) * Qabs (vy direction)))%Q
        as -> by ring.
      rewrite Ht. ring.
Qed.

Lemma block_cell (game_map : Map) (self : MovingSprite) (lo hi cell : Z * Z) :
  0 < tile_size game_map ->
  in_block lo hi (tile_size game_map) (vx (_pos self)) (vy (_pos self)) ->
  tile_pos game_map self = Ok cell ->
  fst lo <= fst cell <= fst hi /\ snd lo <= snd cell <= snd hi.
Proof.
  intros Hts [Hbx Hby] Hcell.
  destruct (tile_pos_cell game_map self Hts)
    as (tx & ty & Htp & Hx & Hy).
  rewrite Htp in Hcell. injection Hcell as <-. simpl.
  assert (forall (a b : Z) (c : Q),
                            (inject_Z (a * tile_size game_map) <= c)%Q ->
                            (c < inject_Z ((b + 1) * tile_size game_map))%Q ->
                            a <= b) as Hcmp.
  { intros a b c H1 H2.
    assert (inject_Z (a * tile_size game_map)
            < inject_Z ((b + 1) * tile_size game_map))%Q as H by lra.
    rewrite <- Zlt_Qlt in H. nia. }
  destruct Hx, Hy, Hbx, Hby. repeat split; eapply Hcmp; eauto.
Qed.

Section FreeMove.

Variable normalize : Vector2 -> Vector2.
Variable iter_order : gset nat -> list nat.
Variable _get_entities : MovingSprite -> list Entity.
Hypothesis iter_order_elem :
  forall (s : gset nat) t, t ∈ iter_order s -> t ∈ s.
Hypothesis nobody : forall s, _check_hit _get_entities s = false.

Variables (game_map : Map) (lo hi : Z * Z).
Hypothesis level_grids : well_formed game_map.
Hypothesis tile_size_pos : 0 < tile_size game_map.
Hypothesis block_open : open_block game_map lo hi.

Lemma free_colision axis move_dir self :
  in_block lo hi (tile_size game_map) (vx (_pos self)) (vy (_pos self)) ->
  __colision iter_order game_map axis move_dir self = Ok (self, false).
Proof.
  intros Hin. destruct block_open as (Hlx & Hhx & Hly & Hhy & Hopen).
  destruct (tile_pos_cell game_map self tile_size_pos)
    as (tx & ty & Htp & _).
  destruct (block_cell game_map self lo hi (tx, ty) tile_size_pos Hin Htp)
    as [Hcx Hcy]. simpl in Hcx, Hcy.
  destruct (obstacles_inside game_map self (tx, ty) level_grids Htp)
    as (found & Hfound & Hmem); [simpl; lia..|].
  unfold __colision. rewrite Hfound. cbn [rbind].
  assert (iter_order found = []) as ->; [|done].
  destruct (iter_order found) as [|t l] eqn:E; [done|]. exfalso.
  assert (t ∈ found) as Ht by (apply iter_order_elem; rewrite E; left).
  apply Hmem in Ht as (Hcol & q & [Hqx Hqy] & Hget). simpl in Hqx, Hqy.
  rewrite (Hopen q t) in Hcol; [done|lia|lia|done].
Qed.

Variables (direction step : Vector2) (start : MovingSprite) (total : Vector2).
Hypothesis step_x_pos : (0 < vx step)%Q.
Hypothesis step_y_pos : (0 < vy step)%Q.
Hypothesis start_inside :
  in_block lo hi (tile_size game_map) (vx (_pos start)) (vy (_pos start)).
Hypothesis end_inside :
  in_block lo hi (tile_size game_map)
           (vx (_pos start) + toward (vx direction) * vx total)
           (vy (_pos start) + toward (vy direction) * vy total).

Lemma on_the_way_inside st :
  on_the_way direction start total st ->
  in_block lo hi (tile_size game_map)
           (vx (_pos (ms_self st))) (vy (_pos (ms_self st))).
Proof.
  intros (_ & (Hx0 & Hy0 & _) & Hxt & Hyt & Hx & Hy & _).
  destruct start_inside as [Hsx Hsy], end_inside as [Hex Hey].
  split.
  - destruct (toward_cases (vx direction)) as [(E & _) | (E & _)];
      rewrite E in *; lra.
  - destruct (toward_cases (vy direction)) as [(E & _) | (E & _)];
      rewrite E in *; lra.
Qed.

Lemma free_horizontal st :
  on_the_way direction start total st ->
  exists st',
    move_horizontal iter_order _get_entities game_map direction step st
    = Ok st'
    /\ on_the_way direction start total st'.
Proof.
  intros Hst.
  destruct (Qeq_bool (vx (distance_to_walk st)) 0) eqn:Hnz.
  { exists st. split; [by apply horizontal_part_skip|done]. }
  destruct Hst as (Hc & (Hx0 & Hy0 & Hdx & Hdy) & Hxt & Hyt & Hx & Hy & Hsz
                   & Hxa & Hxb & Hya & Hyb).
  pose proof (step_horizontal_walk direction step (ms_self st)
                (vx (distance_to_walk st)) ltac:(lra) Hx0)
    as (Hrest & Hpos & Hsame & Hsz').
  pose proof (step_horizontal_spec direction step (ms_self st)
                (vx (distance_to_walk st)))
    as (Hlock & Hhit & Htc & Hth & _).
  apply Qeq_bool_false in Hnz.
  unfold move_horizontal.
  assert (Qeq_bool (vx (distance_to_walk st)) 0 = false) as ->
      by by apply Qeq_bool_false.
  cbn [negb].
  destruct (step_horizontal direction step (ms_self st)
              (vx (distance_to_walk st))) as [self1 rest].
  simpl in Hrest, Hpos, Hsame, Hsz', Hlock, Hhit, Htc, Hth.
  assert (on_the_way direction start total
            (mkMoveState self1
               (mkVector2 rest (vy (distance_to_walk st))) (collided st)))
    as Hst1.
  { split; [done|]. split.
    { split; [simpl; lra|]. split; [done|].
      split; [|done]. simpl. intros E. specialize (Hdx E). lra. }
    simpl. rewrite Hsame, Htc, Hth.
    split; [lra|]. split; [done|]. split; [lra|]. split; [done|].
    split; [eapply same_sizes_trans; eauto|].
    split; [intros E; exfalso; lra|]. split; [done|].
    split; [done|]. intros E. destruct (Hyb E) as [Hl Ht].
    split; [|done]. unfold lockstep_y in *. by rewrite Htc, Hsame. }
  rewrite (free_colision horizontal direction self1)
    by apply (on_the_way_inside _ Hst1).
  cbn [rbind]. rewrite nobody. simpl. eauto.
Qed.

Lemma free_vertical st :
  on_the_way direction start total st ->
  exists st',
    move_vertical iter_order _get_entities game_map direction step st
    = Ok st'
    /\ on_the_way direction start total st'.
Proof.
  intros Hst.
  destruct (Qeq_bool (vy (distance_to_walk st)) 0) eqn:Hnz.
  { exists st. split; [by apply vertical_part_skip|done]. }
  destruct Hst as (Hc & (Hx0 & Hy0 & Hdx & Hdy) & Hxt & Hyt & Hx & Hy & Hsz
                   & Hxa & Hxb & Hya & Hyb).
  pose proof (step_vertical_walk direction step (ms_self st)
                (vy (distance_to_walk st)) ltac:(lra) Hy0)
    as (Hrest & Hpos & Hsame & Hsz').
  pose proof (step_vertical_spec direction step (ms_self st)
                (vy (distance_to_walk st)))
    as (Hlock & Hhit & Hlc & Hlh & _).
  apply Qeq_bool_false in Hnz.
  unfold move_vertical.
  assert (Qeq_bool (vy (distance_to_walk st)) 0 = false) as ->
      by by apply Qeq_bool_false.
  cbn [negb].
  destruct (step_vertical direction step (ms_self st)
              (vy (distance_to_walk st))) as [self1 rest].
  simpl in Hrest, Hpos, Hsame, Hsz', Hlock, Hhit, Hlc, Hlh.
  assert (on_the_way direction start total
            (mkMoveState self1
               (mkVector2 (vx (distance_to_walk st)) rest) (collided st)))
    as Hst1.
  { split; [done|]. split.
    { split; [done|]. split; [simpl; lra|].
      split; [done|]. simpl. intros E. specialize (Hdy E). lra. }
    simpl. rewrite Hsame, Hlc, Hlh.
    split; [done|]. split; [lra|]. split; [done|]. split; [lra|].
    split; [eapply same_sizes_trans; eauto|].
    split; [done|].
    split.
    { intros E. destruct (Hxb E) as [Hl Ht].
      split; [|done]. unfold lockstep_x in *. by rewrite Hlc, Hsame. }
    split; [intros E; exfalso; lra|]. done. }
  rewrite (free_colision vertical direction self1)
    by apply (on_the_way_inside _ Hst1).
  cbn [rbind]. rewrite nobody. simpl. eauto.
Qed.

Lemma free_loop fuel st :
  on_the_way direction start total st ->
  match move_loop iter_order _get_entities fuel game_map direction step st
  with
  | None => True
  | Some (Raise _) => False
  | Some (Ok final) =>
      on_the_way direction start total final
      /\ Qeq_bool (magnitude_squared (distance_to_walk final)) 0 = true
  end.
Proof.
  revert st. induction fuel as [|fuel IH]; intros st Hst; simpl;
    destruct (Qeq_bool (magnitude_squared (distance_to_walk st)) 0) eqn:Hm;
    try done.
  unfold move_body.
  destruct (free_horizontal st Hst) as (st1 & -> & Hst1). cbn [rbind].
  destruct (free_vertical st1 Hst1) as (st2 & -> & Hst2).
  by apply IH.
Qed.

Lemma free_loop_ends st :
  on_the_way direction start total st ->
  exists fuel final,
    move_loop iter_order _get_entities fuel game_map direction step st
    = Some (Ok final)
    /\ on_the_way direction start total final
    /\ vx (distance_to_walk final) == 0 /\ vy (distance_to_walk final) == 0.
Proof.
  intros Hst.
  set (fuel := (steps_left_x direction step st
                + steps_left_y direction step st)%nat).
  pose proof (loop_terminates normalize iter_order _get_entities game_map
                direction step step_x_pos step_y_pos fuel st
                ltac:(by destruct Hst as (_ & ? & _)) (le_n _)) as Hend.
  pose proof (free_loop fuel st Hst) as Hfree.
  destruct (move_loop iter_order _get_entities fuel game_map direction step st)
    as [[final|]|] eqn:Hloop; [|done..].
  destruct Hfree as [Hfinal Hzero].
  exists fuel, final. split; [done|]. split; [done|].
  apply Qeq_bool_iff in Hzero. by apply magnitude_squared_zero.
Qed.

End FreeMove.

Lemma empty_level_bare (w h : nat) (q : Z * Z) (plane : Plane) (t : nat) :
  get_tile (empty_level w h) q plane <> Ok (Some t).
Proof.
  rewrite get_tile_entry.
  destruct (utils.is_within_bounds _ _ _ _) eqn:Hin; [|done].
  apply is_within_bounds_spec in Hin as [Hx Hy].
  assert (matrix_of (empty_level w h) plane
          = replicate (Z.to_nat (Z.of_nat h))
                      (replicate (Z.to_nat (Z.of_nat w)) None)) as ->.
  { rewrite !Nat2Z.id. by destruct plane. }
  by rewrite blank_entry.
Qed.

(** A move that nothing stops, with its components as exact
    rationals. *)
Lemma free_move_run
    (normalize : Vector2 -> Vector2) (iter_order : gset nat -> list nat)
    (_get_entities : MovingSprite -> list Entity)
    (game_map : Map) (self : MovingSprite) (distance : Q)
    (direction : Vector2) (lo hi : Z * Z) :
  let d := if Qltb 0 (magnitude_squared direction)
           then normalize direction else direction in
  let x1 := (vx (_pos self) + vx d * Qabs distance)%Q in
  let y1 := (vy (_pos self) + vy d * Qabs distance)%Q in
  (forall (s : gset nat) t, t ∈ iter_order s -> t ∈ s) ->
  (forall s, _check_hit _get_entities s = false) ->
  well_formed game_map -> 0 < tile_size game_map ->
  0 < rwidth (_hitbox self) -> 0 < rheight (_hitbox self) ->
  open_block game_map lo hi ->
  in_block lo hi (tile_size game_map) (vx (_pos self)) (vy (_pos self)) ->
  in_block lo hi (tile_size game_map) x1 y1 ->
  exists fuel self',
    _move normalize iter_order _get_entities fuel game_map self
          distance direction
    = Some (Ok (false, self'))
    /\ vx (_pos self') == x1 /\ vy (_pos self') == y1
    /\ same_sizes self' self
    /\ (if Qeq_bool (vx d * distance) 0
        then left (_collider self') = left (_collider self)
             /\ left (_hitbox self') = left (_hitbox self)
        else left (_collider self') = py_round (vx (_pos self'))
             /\ left (_hitbox self') = py_round (vx (_pos self')))
    /\ (if Qeq_bool (vy d * distance) 0
        then top (_collider self') = top (_collider self)
             /\ top (_hitbox self') = top (_hitbox self)
        else top (_collider self') = py_round (vy (_pos self'))
             /\ top (_hitbox self') = py_round (vy (_pos self'))).
Proof.
  intros d x1 y1 Horder Hnobody Hwf Hts Hw Hh Hopen Hstart Hend.
  set (total := mkVector2 (Qred (Qabs (vx d * distance)))
                          (Qred (Qabs (vy d * distance)))).
  set (step := mkVector2 (inject_Z (rwidth (_hitbox self)))
                         (inject_Z (rheight (_hitbox self)))).
  assert (forall c, toward c * Qred (Qabs (c * distance))
                    == c * Qabs distance)%Q as Hto.
  { intros c. rewrite Qred_correct, Qabs_Qmult, Qmult_assoc.
    by rewrite toward_abs. }
  assert (forall c, Qeq_bool (c * distance) 0
                    = Qeq_bool (Qred (Qabs (c * distance))) 0) as Hzero.
  { intros c. apply eq_true_iff_eq. rewrite !Qeq_bool_iff, Qred_correct.
    split; intros E.
    - by rewrite E.
    - destruct (Qeq_dec (c * distance) 0) as [|Hne]; [done|].
      apply Qabs_pos_of_nonzero in Hne. lra. }
  assert (on_the_way d self total (mkMoveState self total false)) as Hst0.
  { split; [done|].
    split; [apply (move_setup_walkable normalize self distance direction)|].
    simpl. split; [lra|]. split; [lra|]. split; [done|]. split; [done|].
    split; [apply same_sizes_refl|].
    split; [done|]. split; [intros E; exfalso; by apply E|].
    split; [done|]. intros E; exfalso; by apply E. }
  destruct (free_loop_ends normalize iter_order _get_entities Horder Hnobody
              game_map lo hi Hwf Hts Hopen d step self total)
    with (st := mkMoveState self total false)
    as (fuel & final & Hloop & Hfinal & Hzx & Hzy); try done.
  - unfold step. simpl. change 0%Q with (inject_Z 0). by rewrite <- Zlt_Qlt.
  - unfold step. simpl. change 0%Q with (inject_Z 0). by rewrite <- Zlt_Qlt.
  - destruct Hend as [[? ?] [? ?]]. unfold total. cbn [vx vy].
    pose proof (Hto (vx d)). pose proof (Hto (vy d)).
    subst x1 y1. split; split; lra.
  - exists fuel, (ms_self final).
    destruct Hfinal as (Hc & _ & _ & _ & Hx & Hy & Hsz & Hxa & Hxb & Hya & Hyb).
    unfold total in Hx, Hy, Hxa, Hxb, Hya, Hyb.
    cbn [vx vy] in Hx, Hy, Hxa, Hxb, Hya, Hyb.
    pose proof (Hto (vx d)) as Htx. pose proof (Hto (vy d)) as Hty.
    split.
    { unfold _move, move_setup. fold d. fold total step.
      by rewrite Hloop, Hc. }
    rewrite Hzx, Qmult_0_r in Hx. rewrite Hzy, Qmult_0_r in Hy.
    split; [subst x1; lra|]. split; [subst y1; lra|]. split; [done|].
    split.
    + rewrite Hzero. destruct (Qeq_bool _ 0) eqn:E.
      * apply Hxa. by apply Qeq_bool_iff.
      * apply Qeq_bool_false in E.
        destruct Hxb as [Hl Hb]; [rewrite Hzx; intros E'; by rewrite <- E' in E|].
        unfold lockstep_x in Hl. by rewrite Hb, Hl.
    + rewrite Hzero. destruct (Qeq_bool _ 0) eqn:E.
      * apply Hya. by apply Qeq_bool_iff.
      * apply Qeq_bool_false in E.
        destruct Hyb as [Hl Hb]; [rewrite Hzy; intros E'; by rewrite <- E' in E|].
        unfold lockstep_y in Hl. by rewrite Hb, Hl.
Qed.

Lemma along_kept (normalize : Vector2 -> Vector2) (axis : Axis) (sign : Z) :
  normalize (along axis sign) = along axis sign ->
  (if Qltb 0 (magnitude_squared (along axis sign))
   then normalize (along axis sign) else along axis sign)
  = along axis sign.
Proof. intros ->. by destruct (Qltb _ _). Qed.

(** X21: a move of whole pixels along an axis that nothing stops goes
    the whole distance.  The sprite stands at a whole pixel of the axis,
    in a block of cells of the level; neither the block nor the cells
    around it hold a collidable tile, and no entity is hit.  Then
    [_move] by a whole distance other than 0 along the axis, towards
    either side, to a pixel of the block, ends without raising and
    returns False; the position has moved on that axis by the distance
    in absolute value and not on the other axis; collider and hitbox
    keep their sizes, both have their origin on the axis of the move at
    the new pixel, and stay where they were on the other axis. *)
Theorem free_move_goes_the_distance
    (normalize : Vector2 -> Vector2) (iter_order : gset nat -> list nat)
    (_get_entities : MovingSprite -> list Entity)
    (game_map : Map) (self : MovingSprite) (axis : Axis)
    (sign start distance : Z) (lo hi : Z * Z) :
  let finish := start + sign * Z.abs distance in
  (forall (s : gset nat) t, t ∈ iter_order s -> t ∈ s) ->
  (forall s, _check_hit _get_entities s = false) ->
  normalize (along axis sign) = along axis sign ->
  sign = 1 \/ sign = -1 -> distance <> 0 ->
  coordinate axis (_pos self) == inject_Z start ->
  well_formed game_map -> 0 < tile_size game_map ->
  0 < rwidth (_hitbox self) -> 0 < rheight (_hitbox self) ->
  open_block game_map lo hi ->
  in_block lo hi (tile_size game_map) (vx (_pos self)) (vy (_pos self)) ->
  in_range axis lo hi (tile_size game_map) finish ->
  exists fuel self',
    _move normalize iter_order _get_entities fuel game_map self
          (inject_Z distance) (along axis sign)
    = Some (Ok (false, self'))
    /\ coordinate axis (_pos self') == inject_Z finish
    /\ coordinate (other axis) (_pos self')
       == coordinate (other axis) (_pos self)
    /\ same_sizes self' self
    /\ origin axis (_collider self') = finish
    /\ origin axis (_hitbox self') = finish
    /\ origin (other axis) (_collider self')
       = origin (other axis) (_collider self)
    /\ origin (other axis) (_hitbox self')
       = origin (other axis) (_hitbox self).
Proof.
  intros finish Horder Hnobody Hnorm Hsign Hdist Hstart Hwf Hts Hw Hh Hopen
         Hin Hend.
  pose proof (free_move_run normalize iter_order _get_entities game_map self
                (inject_Z distance) (along axis sign) lo hi) as Hrun.
  cbv zeta in Hrun. rewrite (along_kept normalize axis sign Hnorm) in Hrun.
  assert (Qabs (inject_Z distance) = inject_Z (Z.abs distance)) as Habs
      by reflexivity.
  rewrite Habs in Hrun.
  assert (forall a b, inject_Z a + inject_Z sign * inject_Z b
                      == inject_Z (a + sign * b))%Q as Hsum.
  { intros a b. rewrite inject_Z_plus, inject_Z_mult. reflexivity. }
  assert (Qeq_bool (inject_Z sign * inject_Z distance) 0 = false) as Hmoved.
  { apply Qeq_bool_false. rewrite <- inject_Z_mult.
    change 0%Q with (inject_Z 0). rewrite inject_Z_injective. nia. }
  assert (forall q, Qeq_bool (0 * q) 0 = true) as Hstill.
  { intros q. apply Qeq_bool_iff. ring. }
  destruct Hin as [Hix Hiy].
  destruct axis; cbn [along coordinate origin other in_range vx vy] in *.
  - destruct Hrun as (fuel & self' & Hmove & Hx & Hy & Hsz & Hcx & Hcy);
      try done.
    { split; [|by rewrite Qmult_0_l, Qplus_0_r].
      rewrite Hstart, Hsum. fold finish.
      rewrite <- Zle_Qle, <- Zlt_Qlt. done. }
    rewrite Hmoved in Hcx. rewrite Hstill in Hcy.
    assert (vx (_pos self') == inject_Z finish) as Hx'
        by (by rewrite Hx, Hstart, Hsum).
    exists fuel, self'. split; [done|]. split; [done|].
    split; [by rewrite Hy, Qmult_0_l, Qplus_0_r|]. split; [done|].
    destruct Hcx as [Hc1 Hc2], Hcy as [Hc3 Hc4].
    rewrite (py_round_whole _ _ Hx') in Hc1, Hc2. done.
  - destruct Hrun as (fuel & self' & Hmove & Hx & Hy & Hsz & Hcx & Hcy);
      try done.
    { split; [by rewrite Qmult_0_l, Qplus_0_r|].
      rewrite Hstart, Hsum. fold finish.
      rewrite <- Zle_Qle, <- Zlt_Qlt. done. }
    rewrite Hstill in Hcx. rewrite Hmoved in Hcy.
    assert (vy (_pos self') == inject_Z finish) as Hy'
        by (by rewrite Hy, Hstart, Hsum).
    exists fuel, self'. split; [done|]. split; [done|].
    split; [by rewrite Hx, Qmult_0_l, Qplus_0_r|]. split; [done|].
    destruct Hcx as [Hc1 Hc2], Hcy as [Hc3 Hc4].
    rewrite (py_round_whole _ _ Hy') in Hc3, Hc4. done.
Qed.

Lemma free_move_goes_the_distance_witness :
  exists fuel self',
    _move keep_direction elements nobody fuel (empty_level 4 4) actor
          (inject_Z (-12)) (along horizontal 1)
    = Some (Ok (false, self'))
    /\ vx (_pos self') == inject_Z (40 + 1 * Z.abs (-12))
    /\ vy (_pos self') == vy (_pos actor)
    /\ same_sizes self' actor
    /\ left (_collider self') = 40 + 1 * Z.abs (-12)
    /\ left (_hitbox self') = 40 + 1 * Z.abs (-12)
    /\ top (_collider self') = top (_collider actor)
    /\ top (_hitbox self') = top (_hitbox actor).
Proof.
  apply (free_move_goes_the_distance keep_direction elements nobody
           (empty_level 4 4) actor horizontal 1 40 (-12) (0, 0) (3, 3)).
  - intros s t. apply elem_of_elements.
  - reflexivity.
  - reflexivity.
  - by left.
  - done.
  - reflexivity.
  - apply empty_level_well_formed.
  - reflexivity.
  - reflexivity.
  - reflexivity.
  - split; [by vm_compute|]. split; [by vm_compute|].
    split; [by vm_compute|]. split; [by vm_compute|].
    intros q t _ _ Hget. by apply empty_level_bare in Hget.
  - repeat split; vm_compute; congruence.
  - by vm_compute.
Defined.

#[local] Set Warnings "-clear-no-such-hyp".

(** * The camera *)

Lemma offset_1D_clamped (player_center display_center map_size : Z) :
  0 <= display_center -> display_center * 2 < map_size ->
  let offset :=
    Camera._get_offset_1D player_center display_center map_size in
  0 <= offset /\ offset + display_center * 2 <= map_size
  /\ (0 <= player_center <= map_size ->
      offset <= player_center <= offset + display_center * 2)
  /\ (display_center <= player_center <= map_size - display_center ->
      player_center - offset = display_center).
Proof.
  intros Hc Hs. unfold Camera._get_offset_1D. cbv zeta.
  destruct (Z.geb_spec (display_center * 2) map_size); [lia|].
  destruct (Z.gtb_spec display_center player_center); [lia|].
  destruct (Z.gtb_spec player_center (map_size - display_center)); lia.
Qed.

(** X22: the camera on a map larger than the display.  With a display
    of [w] x [h] pixels whose halves, doubled, are smaller than the
    map's extent, the offset of [get_offset] is not negative, the view
    of twice the half-display that starts at the offset ends within the
    extent, a player whose hitbox centre lies within the extent is in
    that view, and a player at least half a display away from both ends
    is drawn at the display's centre.  The extent taken for the x axis
    is [size_pixels[0]], the number of rows times the tile size, and
    for the y axis [size_pixels[1]], the number of columns times the
    tile size. *)
Theorem camera_view_stays_on_the_map
    (player_center display : Z * Z) (map : Map) :
  0 <= fst display -> 0 <= snd display ->
  Z.quot (fst display) 2 * 2 < height map * tile_size map ->
  Z.quot (snd display) 2 * 2 < width map * tile_size map ->
  let offset := Camera.get_offset player_center display map in
  let half_w := Z.quot (fst display) 2 in
  let half_h := Z.quot (snd display) 2 in
  (0 <= fst offset /\ fst offset + half_w * 2 <= height map * tile_size map
   /\ 0 <= snd offset /\ snd offset + half_h * 2 <= width map * tile_size map)
  /\ (0 <= fst player_center <= height map * tile_size map ->
      fst offset <= fst player_center <= fst offset + half_w * 2)
  /\ (0 <= snd player_center <= width map * tile_size map ->
      snd offset <= snd player_center <= snd offset + half_h * 2)
  /\ (half_w <= fst player_center <= height map * tile_size map - half_w ->
      fst player_center - fst offset = half_w)
  /\ (half_h <= snd player_center <= width map * tile_size map - half_h ->
      snd player_center - snd offset = half_h).
Proof.
  intros Hw Hh Hx Hy offset half_w half_h.
  assert (0 <= half_w) as Hhw by (apply Z.quot_pos; lia).
  assert (0 <= half_h) as Hhh by (apply Z.quot_pos; lia).
  destruct (offset_1D_clamped (fst player_center) half_w
              (height map * tile_size map) Hhw Hx) as (? & ? & ? & ?).
  destruct (offset_1D_clamped (snd player_center) half_h
              (width map * tile_size map) Hhh Hy) as (? & ? & ? & ?).
  subst offset. unfold Camera.get_offset, size_pixels. cbn [fst snd].
  fold (height map) (width map). fold half_w half_h. done.
Qed.

Lemma camera_view_stays_on_the_map_witness :
  let offset := Camera.get_offset (40, 64) (320, 100) level8x24 in
  (0 <= fst offset /\ fst offset + 160 * 2 <= 24 * 16
   /\ 0 <= snd offset /\ snd offset + 50 * 2 <= 8 * 16)
  /\ (0 <= 40 <= 24 * 16 -> fst offset <= 40 <= fst offset + 160 * 2)
  /\ (0 <= 64 <= 8 * 16 -> snd offset <= 64 <= snd offset + 50 * 2)
  /\ (160 <= 40 <= 24 * 16 - 160 -> 40 - fst offset = 160)
  /\ (50 <= 64 <= 8 * 16 - 50 -> 64 - snd offset = 50).
Proof.
  apply (camera_view_stays_on_the_map (40, 64) (320, 100) level8x24);
    by vm_compute.
Defined.

(** X23: the camera on a map that is not larger than the display.  When
    twice the half-display reaches the map's extent, [_get_offset_1D]
    does not look at the player: the offset is the map's half less the
    display's half, it is not positive, and the map is drawn centred,
    with a margin before it that equals the margin after it or exceeds
    it by one pixel. *)
Theorem small_map_is_centred (player_center display_center map_size : Z) :
  0 <= map_size -> map_size <= display_center * 2 ->
  let offset :=
    Camera._get_offset_1D player_center display_center map_size in
  let before := - offset in
  let after := display_center * 2 - (before + map_size) in
  offset = map_size / 2 - display_center
  /\ (forall elsewhere,
        Camera._get_offset_1D elsewhere display_center map_size = offset)
  /\ 0 <= after <= before /\ before <= after + 1.
Proof.
  intros H0 Hs. unfold Camera._get_offset_1D. cbv zeta.
  destruct (Z.geb_spec (display_center * 2) map_size); [|lia].
  pose proof (Z.div_mod map_size 2 ltac:(lia)).
  pose proof (Z.mod_pos_bound map_size 2 ltac:(lia)).
  split; [done|]. split; [done|]. lia.
Qed.

Lemma small_map_is_centred_witness :
  let offset := Camera._get_offset_1D 40 160 97 in
  let before := - offset in
  let after := 160 * 2 - (before + 97) in
  offset = 97 / 2 - 160
  /\ (forall elsewhere, Camera._get_offset_1D elsewhere 160 97 = offset)
  /\ 0 <= after <= before /\ before <= after + 1.
Proof.
  apply (small_map_is_centred 40 160 97); by vm_compute.
Defined.

(** X24: from the map to the display and back.  [render_sprites] draws
    nothing for a sprite that is not visible and draws a visible sprite
    at a pixel of the display; [get_original_pos] takes that pixel back
    to a point of the map less than one pixel away from the sprite's
    position on each axis.  On an axis on which the position is a whole
    number the sprite is drawn at the position less the camera's offset
    and the pixel is taken back to the position itself. *)
Theorem drawn_position_maps_back
    (player_center display : Z * Z) (map : Map) (pos : Vector2)
    (visible : bool) :
  let offset := Camera.get_offset player_center display map in
  match render_sprite player_center display map pos visible with
  | None => visible = false
  | Some screen =>
      visible = true
      /\ let back :=
           Camera.get_original_pos player_center display map
             (mkVector2 (inject_Z (fst screen)) (inject_Z (snd screen))) in
         (Qabs (vx back - vx pos) < 1)%Q
         /\ (Qabs (vy back - vy pos) < 1)%Q
         /\ (forall x, vx pos == inject_Z x ->
                       fst screen = x - fst offset /\ vx back == inject_Z x)
         /\ (forall y, vy pos == inject_Z y ->
                       snd screen = y - snd offset /\ vy back == inject_Z y)
  end.
Proof.
  intros offset. unfold render_sprite, draw. fold offset.
  destruct visible; [|done]. cbn [vx vy].
  split; [done|]. cbv zeta.
  unfold Camera.get_original_pos. fold offset. cbn [vx vy fst snd].
  assert (forall (p : Q) (o : Z),
             (Qabs (Qred (inject_Z (py_round (p + - inject_Z o)) + inject_Z o)
                    - p) < 1)%Q) as Hnear.
  { intros p o. pose proof (py_round_near (p + - inject_Z o)) as H.
    apply Qabs_Qle_condition in H as [Hlo Hhi].
    apply Qle_lt_trans with (1 # 2)%Q; [|reflexivity].
    apply Qabs_Qle_condition. rewrite Qred_correct. split; lra. }
  assert (forall (p : Q) (o x : Z),
             p == inject_Z x ->
             py_round (p + - inject_Z o) = x - o
             /\ Qred (inject_Z (py_round (p + - inject_Z o)) + inject_Z o)
                == inject_Z x) as Hwhole.
  { intros p o x Hp.
    assert (py_round (p + - inject_Z o) = x - o) as ->.
    { apply py_round_whole. unfold Z.sub.
      by rewrite Hp, inject_Z_plus, inject_Z_opp. }
    split; [done|]. rewrite Qred_correct, <- inject_Z_plus.
    apply inject_Z_injective. lia. }
  split; [apply Hnear|]. split; [apply Hnear|].
  split; intros ? ?; by apply Hwhole.
Qed.

Lemma drawn_position_maps_back_witness :
  let offset := Camera.get_offset (40, 64) (320, 100) level8x24 in
  match render_sprite (40, 64) (320, 100) level8x24
                      (mkVector2 (35 # 2) 20) true with
  | None => true = false
  | Some screen =>
      true = true
      /\ let back :=
           Camera.get_original_pos (40, 64) (320, 100) level8x24
             (mkVector2 (inject_Z (fst screen)) (inject_Z (snd screen))) in
         (Qabs (vx back - (35 # 2)) < 1)%Q
         /\ (Qabs (vy back - 20) < 1)%Q
         /\ (forall x, 35 # 2 == inject_Z x ->
                       fst screen = x - fst offset /\ vx back == inject_Z x)
         /\ (forall y, 20 == inject_Z y ->
                       snd screen = y - snd offset /\ vy back == inject_Z y)
  end.
Proof.
  exact (drawn_position_maps_back (40, 64) (320, 100) level8x24
           (mkVector2 (35 # 2) 20) true).
Defined.
